(** * Branch-and-bound solvers of the dsa-compilation repository

    A shallow embedding of the best-first branch-and-bound programs under
    [strategies/6-branch-and-bound]: the array-based binary heap they all
    share, the 0/1 knapsack solver with its brute-force and
    dynamic-programming baselines, the travelling-salesman and job-assignment
    solvers with their exhaustive baselines and the [next_permutation] these
    call, and the facility-location solver with its greedy start.

    Conventions of the embedding.
    - A C [int] is a [Z]; signed overflow is undefined behaviour in C, so the
      embedding describes the overflow-free executions.
      [Assignment.costs_fit] and [TSP.edges_fit] say of an instance that no
      sum of costs that the program forms can overflow on it.  Array indices,
      tree levels and problem sizes, which the programs keep between 0 and
      the array length, are [nat].
    - A C array is a [list], read with [l !! i] and written with
      [<[i:=x]> l]; a write out of range leaves the list unchanged, out of
      range reads are made explicit where the code can perform one.
    - A C [double] is any type carrying the operations of class [Double].
      Two instances are given: IEEE-754 binary64 ([PrimFloat], the machine
      behaviour) and exact rationals ([Q], the real-number reading in which
      fractional-relaxation arguments are carried out; it has no NaN and no
      rounding, and a statement made in it says so).
    - File-scope globals and the local priority queue are threaded as explicit
      state; [while] loops take a fuel argument and return [None] when it runs
      out.
    - The priority queue is a [list].  The programs keep it in an array of
      [QUEUE_CAPACITY] nodes and [pq_push] never tests for room:
      [Heap.reachable] says which queues fit the array, [queue_fits] which
      runs of a solver do.
    - Printing ([verbose]) and timing have no effect on the modelled state and
      are left out. *)

From Stdlib Require Import ZArith QArith Qreduction Lia Lqa Bool Sorted.
From Stdlib Require Import Floats.PrimFloat Numbers.Cyclic.Int63.Uint63.
From stdpp Require Import base list.

Set Warnings "-abstract-large-number".

Local Open Scope Z_scope.

(* ================================================================== *)
(** * Part I: the programs                                             *)
(* ================================================================== *)

(** ** Numbers of type [double] *)

Class Double (D : Type) : Type := {
  d_of_int : Z -> D;          (* the conversion [(double) i]            *)
  d_add : D -> D -> D;
  d_sub : D -> D -> D;
  d_mul : D -> D -> D;
  d_div : D -> D -> D;
  d_opp : D -> D;
  d_le : D -> D -> bool;      (* [a <= b]; [a >= b] is [d_le b a]        *)
  d_lt : D -> D -> bool;      (* [a < b];  [a > b]  is [d_lt b a]        *)
  d_eq : D -> D -> bool;      (* [a == b]                                *)
  d_max : D                   (* [DBL_MAX]                               *)
}.

(** [a != b] on doubles. *)
Definition d_ne `{Double D} (a b : D) : bool := negb (d_eq a b).

(** The largest finite binary64 number, [(2^53 - 1) * 2^971]. *)
Definition DBL_MAX_Z : Z := (2 ^ 53 - 1) * 2 ^ 971.

#[export] Instance Double_Q : Double Q := {|
  d_of_int := inject_Z;
  d_add := fun a b => Qred (a + b);
  d_sub := fun a b => Qred (a - b);
  d_mul := fun a b => Qred (a * b);
  d_div := fun a b => Qred (a / b);
  d_opp := Qopp;
  d_le := Qle_bool;
  d_lt := fun a b => negb (Qle_bool b a);
  d_eq := Qeq_bool;
  d_max := inject_Z DBL_MAX_Z
|}.

Definition float_of_Z (z : Z) : float :=
  if z <? 0 then PrimFloat.opp (PrimFloat.of_uint63 (Uint63.of_Z (- z)))
  else PrimFloat.of_uint63 (Uint63.of_Z z).

#[export] Instance Double_float : Double float := {|
  d_of_int := float_of_Z;
  d_add := PrimFloat.add;
  d_sub := PrimFloat.sub;
  d_mul := PrimFloat.mul;
  d_div := PrimFloat.div;
  d_opp := PrimFloat.opp;
  d_le := PrimFloat.leb;
  d_lt := PrimFloat.ltb;
  d_eq := PrimFloat.eqb;
  d_max := 0x1.fffffffffffffp+1023%float
|}.

(** ** The binary heap shared by the five solvers

    [pq_push] and [pq_pop] are textually the same in every solver except for
    the direction of the three comparisons of bounds, which are parameters
    here: [stop_up c p] is the test that ends the bubble-up loop for child
    [c] and parent [p], [pick_right r l] the test that selects the right
    child, and [stop_down x c] the test that ends the bubble-down loop for
    the node [x] and its selected child [c].

    The queue is the live prefix [nodes[0..size)] of the C array: no cell at
    or beyond [size] is read by [pq_push] or [pq_pop]. *)

Module Heap.
Section Defs.
Context {node : Type}.
Variable stop_up : node -> node -> bool.
Variable pick_right : node -> node -> bool.
Variable stop_down : node -> node -> bool.

Definition swap (q : list node) (i j : nat) : list node :=
  match q !! i, q !! j with
  | Some a, Some b => <[j := a]> (<[i := b]> q)
  | _, _ => q
  end.

(** The loop [while (i > 0) { parent = (i - 1) / 2; ... }]; it runs at most
    [i] times, since [parent < i]. *)
Fixpoint bubble_up (fuel : nat) (q : list node) (i : nat) : list node :=
  match fuel with
  | O => q
  | S fuel' =>
      if (0 <? i)%nat then
        let parent := ((i - 1) / 2)%nat in
        match q !! i, q !! parent with
        | Some c, Some p =>
            if stop_up c p then q
            else bubble_up fuel' (swap q i parent) parent
        | _, _ => q
        end
      else q
  end.

Definition pq_init : list node := [].

Definition pq_push (q : list node) (x : node) : list node :=
  let i := length q in
  bubble_up i (q ++ [x]) i.

(** The loop [while (2 * i + 1 < pq->size) { ... }]; [i] at least doubles
    in every round, so [size] rounds are enough. *)
Fixpoint bubble_down (fuel : nat) (q : list node) (i : nat) : list node :=
  match fuel with
  | O => q
  | S fuel' =>
      let left := (2 * i + 1)%nat in
      let right := (2 * i + 2)%nat in
      match q !! left, q !! i with
      | Some l, Some x =>
          let largest :=
            match q !! right with
            | Some r => if pick_right r l then right else left
            | None => left
            end in
          match q !! largest with
          | Some c =>
              if stop_down x c then q
              else bubble_down fuel' (swap q i largest) largest
          | None => q
          end
      | _, _ => q
      end
  end.

(** [pq_pop] on an empty queue would read [nodes[-1]]; the solvers guard
    every call with [pq_empty], and the model returns [None] there. *)
Definition pq_pop (q : list node) : option (node * list node) :=
  match q with
  | [] => None
  | top :: _ =>
      let size' := (length q - 1)%nat in
      match q !! size' with
      | Some lst =>
          let q' := <[0%nat := lst]> (take size' q) in
          Some (top, bubble_down size' q' 0%nat)
      | None => None
      end
  end.

Definition pq_empty (q : list node) : bool := (length q =? 0)%nat.

(** The queues that a client can build: it starts from [pq_init], pushes
    while the array has room for one more node, and pops non-empty
    queues. *)
Inductive reachable (capacity : nat) : list node -> Prop :=
| reach_init : reachable capacity pq_init
| reach_push q x :
    reachable capacity q -> (length q < capacity)%nat ->
    reachable capacity (pq_push q x)
| reach_pop q top q' :
    reachable capacity q -> pq_pop q = Some (top, q') ->
    reachable capacity q'.
End Defs.

(** The heap order for a relation [leb c p], read "[c] is not better than
    [p]": every node is not better than its parent. *)
Section Order.
Context {node : Type}.
Variable leb : node -> node -> bool.

Definition parent (i : nat) : nat := ((i - 1) / 2)%nat.

Definition heap_at (q : list node) (j : nat) : Prop :=
  forall c p, q !! j = Some c -> q !! parent j = Some p -> leb c p = true.

Definition heap (q : list node) : Prop :=
  forall j, (0 < j)%nat -> heap_at q j.

(** The order holds everywhere but between [i] and its parent. *)
Definition up_inv (q : list node) (i : nat) : Prop :=
  (forall j, (0 < j)%nat -> j <> i -> heap_at q j) /\
  (forall j c gp, (0 < i)%nat -> (0 < j)%nat -> parent j = i ->
      q !! j = Some c -> q !! parent i = Some gp -> leb c gp = true).

(** The order holds everywhere but between [i] and its children. *)
Definition down_inv (q : list node) (i : nat) : Prop :=
  (forall j, (0 < j)%nat -> parent j <> i -> heap_at q j) /\
  (forall j c gp, (0 < i)%nat -> (0 < j)%nat -> parent j = i ->
      q !! j = Some c -> q !! parent i = Some gp -> leb c gp = true).
End Order.
End Heap.

(** [k] rounds of a loop whose body is [step]; [None] when the loop ends
    before. *)
Fixpoint iterate {S : Type} (step : S -> option S) (k : nat) (s : S) : option S :=
  match k with
  | O => Some s
  | S k' =>
      match step s with
      | Some s' => iterate step k' s'
      | None => None
      end
  end.

(** The queue stays within its array along the run that starts in [s]: after
    every number of rounds at most [cap] nodes are queued.  [pq_push] never
    tests for room and a round pushes only after its one [pq_pop], so this is
    what a run needs for every [pq_push] of it to write inside the array. *)
Definition queue_fits {S : Type} (step : S -> option S) (size : S -> nat)
  (cap : nat) (s : S) : Prop :=
  forall k s', iterate step k s = Some s' -> (size s' <= cap)%nat.

(** The same, decided by running the loop: [true] when the loop ends within
    [fuel] rounds and the queue has stayed within [cap] nodes. *)
Fixpoint queue_fits_run {S : Type} (step : S -> option S) (size : S -> nat)
  (cap fuel : nat) (s : S) : bool :=
  (size s <=? cap)%nat &&
  match fuel with
  | O => false
  | S fuel' =>
      match step s with
      | Some s' => queue_fits_run step size cap fuel' s'
      | None => true
      end
  end.

(** ** [next_permutation]

    JobAssignment.c and TravelingSalesman.c carry the same function, which
    their brute-force baselines call; it is modelled once. *)

Module NextPerm.

Definition cell (arr : list Z) (i : nat) : Z := default 0 (arr !! i).

(** [i = n - 2; while (i >= 0 && arr[i] >= arr[i + 1]) i--;] with [k] for
    [i + 1]: the last [i] with [arr[i] < arr[i + 1]], if there is one. *)
Fixpoint find_pivot (arr : list Z) (k : nat) : option nat :=
  match k with
  | O => None
  | S i => if cell arr (S i) <=? cell arr i then find_pivot arr i else Some i
  end.

(** [while (arr[j] <= arr[i]) j--;] with [x] for [arr[i]].  The loop has no
    test on [j]; it is entered with [arr[i] < arr[i + 1]] and [i + 1 <= j],
    so it stops before [j] reaches 0, where the model stops as well. *)
Fixpoint find_successor (arr : list Z) (x : Z) (j : nat) : nat :=
  match j with
  | O => O
  | S j' => if cell arr j <=? x then find_successor arr x j' else j
  end.

(** [temp = arr[i]; arr[i] = arr[j]; arr[j] = temp;] *)
Definition swap (arr : list Z) (i j : nat) : list Z :=
  let temp := cell arr i in
  <[j := temp]> (<[i := cell arr j]> arr).

(** [while (left < right) { swap; left++; right--; }]; the distance shrinks
    in every round, so [n] rounds are enough. *)
Fixpoint reverse_range (fuel : nat) (arr : list Z) (left right : nat) : list Z :=
  match fuel with
  | O => arr
  | S fuel' =>
      if (left <? right)%nat
      then reverse_range fuel' (swap arr left right) (S left) (right - 1)
      else arr
  end.

(** The array after the call, and the value returned. *)
Definition next_permutation (arr : list Z) (n : nat) : list Z * bool :=
  match find_pivot arr (n - 1) with
  | None => (arr, false)
  | Some i =>
      let j := find_successor arr (cell arr i) (n - 1) in
      let arr := swap arr i j in
      (reverse_range n arr (i + 1) (n - 1), true)
  end.

(** The lexicographic order on arrays of one length. *)
Inductive lex_lt : list Z -> list Z -> Prop :=
| lex_here x y l1 l2 : x < y -> lex_lt (x :: l1) (y :: l2)
| lex_next x l1 l2 : lex_lt l1 l2 -> lex_lt (x :: l1) (x :: l2).

(** The number that an array of digits below [b] stands for in base [b]. *)
Fixpoint value (b : Z) (l : list Z) : Z :=
  match l with
  | [] => 0
  | x :: l' => x * b ^ Z.of_nat (length l') + value b l'
  end.

End NextPerm.

(** ** KnapsackBranchBound.c *)

Module Knapsack.

Definition MAX_ITEMS : nat := 20.
Definition QUEUE_CAPACITY : nat := 10000.
Definition MAX_CAPACITY : nat := 1000.

Section WithDouble.
Context {D : Type} `{Double D}.

Record Item : Type := mkItem {
  weight : Z;
  value : Z;
  index : Z;
  ratio : D
}.

Record KnapsackNode : Type := mkNode {
  level : nat;
  profit : Z;
  node_weight : Z;
  bound : D;
  included : list Z
}.

Definition PriorityQueue : Type := list KnapsackNode.

(** The file-scope variables. *)
Record Globals : Type := mkGlobals {
  items : list Item;
  n : nat;
  capacity : Z;
  max_profit : Z;
  best_solution : list Z;
  nodes_explored : Z;
  nodes_pruned : Z
}.

Record KnapsackResult : Type := mkResult {
  solution : list Z;
  res_max_profit : Z;
  total_weight : Z;
  res_nodes_explored : Z;
  res_nodes_pruned : Z
}.

(** Static storage is zero-initialised. *)
Definition item0 : Item := mkItem 0 0 0 (d_of_int 0).

Definition item_at (its : list Item) (i : nat) : Item := default item0 (its !! i).

(** An item as [main] and [demonstrate_scaling] build it:
    [ratio = (double)value / weight]. *)
Definition make_item (w v : Z) (idx : Z) : Item :=
  mkItem w v idx (d_div (d_of_int v) (d_of_int w)).

Definition compare_items (a b : Item) : Z :=
  if d_lt (ratio a) (ratio b) then 1
  else if d_lt (ratio b) (ratio a) then -1
  else 0.

(** [<] orders the [ratio] fields of the items [its]: of two ratios at most
    one is below the other, and a ratio that is not below a second one,
    which is not below a third, is not below the third.  This is the
    consistency that [qsort] asks of [compare_items]; in binary64 it fails
    only when one of the ratios is NaN (an item of weight 0 and value 0)
    beside two ratios that differ. *)
Definition ratios_ordered (its : list Item) : bool :=
  forallb (fun a =>
    forallb (fun b =>
      (negb (d_lt (ratio a) (ratio b)) || negb (d_lt (ratio b) (ratio a)))
      && forallb (fun c =>
           d_lt (ratio a) (ratio b) || d_lt (ratio b) (ratio c)
           || negb (d_lt (ratio a) (ratio c)))
           its)
      its)
    its.

(** [qsort] belongs to the C library.  The C standard promises a permutation
    of the input that is ordered by the comparison function and leaves the
    order of elements that compare equal open; the model is the stable
    insertion sort. *)
Fixpoint qsort_insert {A} (cmp : A -> A -> Z) (x : A) (l : list A) : list A :=
  match l with
  | [] => [x]
  | y :: l' => if cmp x y <=? 0 then x :: l else y :: qsort_insert cmp x l'
  end.

Definition qsort {A} (l : list A) (nmemb : nat) (cmp : A -> A -> Z) : list A :=
  foldr (qsort_insert cmp) [] (take nmemb l) ++ drop nmemb l.

Definition pq_init : PriorityQueue := Heap.pq_init.

(** Max-heap on [bound]. *)
Definition pq_push : PriorityQueue -> KnapsackNode -> PriorityQueue :=
  Heap.pq_push (fun c p => d_le (bound c) (bound p)).

Definition pq_pop : PriorityQueue -> option (KnapsackNode * PriorityQueue) :=
  Heap.pq_pop (fun r l => d_lt (bound l) (bound r))
              (fun x c => d_le (bound c) (bound x)).

Definition pq_empty : PriorityQueue -> bool := Heap.pq_empty.

(** The queues the solver can build in [KnapsackNode nodes[10000]]. *)
Definition pq_reachable : PriorityQueue -> Prop :=
  Heap.reachable (fun c p => d_le (bound c) (bound p))
                 (fun r l => d_lt (bound l) (bound r))
                 (fun x c => d_le (bound c) (bound x)) QUEUE_CAPACITY.

(** The body of the [for] loop of [calculate_bound] over the items
    [items[level..n)]. *)
Fixpoint bound_loop (its : list Item) (bnd : D) (remaining_capacity : Z) : D :=
  match its with
  | [] => bnd
  | it :: rest =>
      if weight it <=? remaining_capacity then
        bound_loop rest (d_add bnd (d_of_int (value it)))
                   (remaining_capacity - weight it)
      else
        d_add bnd (d_mul (ratio it) (d_of_int remaining_capacity))
  end.

Definition calculate_bound (g : Globals) (node : KnapsackNode) : D :=
  if capacity g <=? node_weight node then d_of_int 0
  else bound_loop (drop (level node) (take (n g) (items g)))
                  (d_of_int (profit node)) (capacity g - node_weight node).

Definition set_bound (nd : KnapsackNode) (b : D) : KnapsackNode :=
  mkNode (level nd) (profit nd) (node_weight nd) b (included nd).

Definition prune (g : Globals) : Globals :=
  mkGlobals (items g) (n g) (capacity g) (max_profit g) (best_solution g)
            (nodes_explored g) (nodes_pruned g + 1).

Definition explore (g : Globals) : Globals :=
  mkGlobals (items g) (n g) (capacity g) (max_profit g) (best_solution g)
            (nodes_explored g + 1) (nodes_pruned g).

Definition record_best (g : Globals) (nd : KnapsackNode) : Globals :=
  mkGlobals (items g) (n g) (capacity g) (profit nd) (included nd)
            (nodes_explored g) (nodes_pruned g).

(** [if (node.bound > max_profit) pq_push(&pq, node); else nodes_pruned++;] *)
Definition offer (g : Globals) (pq : PriorityQueue) (nd : KnapsackNode)
  : Globals * PriorityQueue :=
  if d_lt (d_of_int (max_profit g)) (bound nd) then (g, pq_push pq nd)
  else (prune g, pq).

Definition include_node (g : Globals) (current : KnapsackNode) : KnapsackNode :=
  let current_item := item_at (items g) (level current) in
  let nd := mkNode (level current + 1)%nat
                   (profit current + value current_item)
                   (node_weight current + weight current_item)
                   (bound current)
                   (<[level current := 1]> (included current)) in
  set_bound nd (calculate_bound g nd).

Definition exclude_node (g : Globals) (current : KnapsackNode) : KnapsackNode :=
  let nd := mkNode (level current + 1)%nat (profit current)
                   (node_weight current) (bound current) (included current) in
  set_bound nd (calculate_bound g nd).

(** One round of the [while] loop of [solve_knapsack], after [pq_pop]. *)
Definition visit (g : Globals) (current : KnapsackNode) (pq : PriorityQueue)
  : Globals * PriorityQueue :=
  let g := explore g in
  if d_le (bound current) (d_of_int (max_profit g)) then (prune g, pq)
  else if (level current =? n g)%nat then
    ((if max_profit g <? profit current then record_best g current else g), pq)
  else
    let current_item := item_at (items g) (level current) in
    let '(g1, pq1) :=
      if node_weight current + weight current_item <=? capacity g
      then offer g pq (include_node g current)
      else (g, pq) in
    offer g1 pq1 (exclude_node g current).

Definition step (s : Globals * PriorityQueue) : option (Globals * PriorityQueue) :=
  match pq_pop s.2 with
  | None => None
  | Some (current, pq') => Some (visit s.1 current pq')
  end.

(** [while (!pq_empty(&pq)) { ... }] *)
Fixpoint search (fuel : nat) (s : Globals * PriorityQueue) : option Globals :=
  match fuel with
  | O => None
  | S fuel' =>
      match step s with
      | None => Some s.1
      | Some s' => search fuel' s'
      end
  end.

Definition root_node (g : Globals) : KnapsackNode :=
  let nd := mkNode 0 0 0 (d_of_int 0) (replicate MAX_ITEMS 0) in
  set_bound nd (calculate_bound g nd).

(** [solve_knapsack] up to the first test of the [while] loop. *)
Definition solve_init (g : Globals) : Globals * PriorityQueue :=
  let g := mkGlobals (qsort (items g) (n g) compare_items) (n g) (capacity g)
                     0 (replicate MAX_ITEMS 0) 0 0 in
  (g, pq_push pq_init (root_node g)).

Definition solve_knapsack (fuel : nat) (g : Globals) : option Globals :=
  search fuel (solve_init g).

(** The inner loop of [brute_force_knapsack] for one [mask]. *)
Fixpoint select (its : list Item) (i : nat) (mask : Z) (current_solution : list Z)
  : Z * Z * list Z :=
  match its with
  | [] => (0, 0, current_solution)
  | it :: rest =>
      if negb (Z.land mask (Z.shiftl 1 (Z.of_nat i)) =? 0) then
        let '(w, p, sol) := select rest (S i) mask (<[i := 1]> current_solution) in
        (weight it + w, value it + p, sol)
      else select rest (S i) mask current_solution
  end.

Definition brute_force_round (g : Globals) (acc : Z * list Z) (mask : Z)
  : Z * list Z :=
  let '(current_weight, current_profit, current_solution) :=
    select (take (n g) (items g)) 0 mask (replicate MAX_ITEMS 0) in
  if (current_weight <=? capacity g) && (acc.1 <? current_profit)
  then (current_profit, current_solution) else acc.

(** The items that the flags of a decision vector select, in the way the
    result loops read them: [for (i < n) if (solution[i]) ... items[i]]. *)
Fixpoint chosen (its : list Item) (flags : list Z) : list Item :=
  match its, flags with
  | it :: its', f :: flags' =>
      if f =? 0 then chosen its' flags' else it :: chosen its' flags'
  | _, _ => []
  end.

Definition solution_weight (g : Globals) (sol : list Z) : Z :=
  foldr Z.add 0 (weight <$> chosen (take (n g) (items g)) sol).

Definition solution_profit (g : Globals) (sol : list Z) : Z :=
  foldr Z.add 0 (value <$> chosen (take (n g) (items g)) sol).

Definition brute_force_knapsack (g : Globals) : KnapsackResult :=
  let combinations := Z.shiftl 1 (Z.of_nat (n g)) in
  let best :=
    foldl (brute_force_round g) (0, replicate MAX_ITEMS 0)
          (Z.of_nat <$> seq 0 (Z.to_nat combinations)) in
  mkResult best.2 best.1 (solution_weight g best.2) combinations 0.

(** What the fields of a node of the search mean: the first [level] items
    are decided, [included] flags the items taken among them, [profit] and
    [weight] are the sums over the flagged items, and the items fit. *)
Definition node_ok (g : Globals) (node : KnapsackNode) : Prop :=
  (level node <= n g)%nat /\
  length (included node) = MAX_ITEMS /\
  (forall i, (level node <= i)%nat -> (i < MAX_ITEMS)%nat ->
             included node !! i = Some 0) /\
  profit node = solution_profit g (included node) /\
  node_weight node = solution_weight g (included node) /\
  node_weight node <= capacity g.

(** The incumbent is the profit of the items that [best_solution] flags,
    and these fit. *)
Definition incumbent_ok (g : Globals) : Prop :=
  max_profit g = solution_profit g (best_solution g) /\
  solution_weight g (best_solution g) <= capacity g.

Definition same_instance (g g' : Globals) : Prop :=
  items g = items g' /\ n g = n g' /\ capacity g = capacity g'.

Definition state_ok (g : Globals) (s : Globals * PriorityQueue) : Prop :=
  same_instance g s.1 /\ incumbent_ok s.1 /\ Forall (node_ok g) s.2.

(** A bound on the rounds that the queue can still cause: a node of level
    [l] stands for at most [3 ^ (n + 1 - l)] of them. *)
Definition work (g : Globals) (pq : PriorityQueue) : nat :=
  sum_list_with (fun node => 3 ^ (n g + 1 - level node))%nat pq.

(** The node has decided the first [level] items the way [flags] does. *)
Definition agrees (node : KnapsackNode) (flags : list Z) : Prop :=
  forall i, (i < level node)%nat ->
    (default 0 (included node !! i) =? 0) = (default 0 (flags !! i) =? 0).

(** The choice [flags] is still within reach: the incumbent is at least as
    good, or a node of the queue has decided its items the way [flags]
    does. *)
Definition covered (g : Globals) (flags : list Z) (s : Globals * PriorityQueue)
  : Prop :=
  solution_profit g flags <= max_profit s.1 \/
  exists node, node ∈ s.2 /\ node_ok g node /\ agrees node flags /\
               bound node = calculate_bound g node.

(** [dp[i][w]] of [dynamic_programming_knapsack]; the table is the part
    [dp[0..n][0..capacity]] of the local array, the only part the function
    initialises. *)
Definition dp_at (dp : list (list Z)) (i w : nat) : Z :=
  default 0 (dp !! i ≫= (.!! w)).

(** [dp[i][w] = v]. *)
Definition dp_set (dp : list (list Z)) (i w : nat) (v : Z) : list (list Z) :=
  <[i := <[w := v]> (default [] (dp !! i))]> dp.

(** The body of the two nested "fill" loops. *)
Definition dp_fill_cell (g : Globals) (dp : list (list Z)) (i w : nat)
  : list (list Z) :=
  let it := item_at (items g) (i - 1) in
  if weight it <=? Z.of_nat w then
    let include :=
      dp_at dp (i - 1) (Z.to_nat (Z.of_nat w - weight it)) + value it in
    dp_set dp i w
           (if include <? dp_at dp (i - 1) w then dp_at dp (i - 1) w else include)
  else dp_set dp i w (dp_at dp (i - 1) w).

(** The table after the "initialize" and the "fill" loops. *)
Definition dp_fill (g : Globals) : list (list Z) :=
  let cap := Z.to_nat (capacity g) in
  foldl (fun dp i => foldl (fun dp w => dp_fill_cell g dp i w) dp (seq 1 cap))
        (replicate (n g + 1) (replicate (cap + 1) 0))
        (seq 1 (n g)).

(** The "backtrack" loop, from row [i] and remaining capacity [w]. *)
Fixpoint dp_backtrack (g : Globals) (dp : list (list Z)) (i : nat) (w : Z)
  (solution : list Z) : list Z :=
  match i with
  | O => solution
  | S i' =>
      if 0 <? dp_at dp i (Z.to_nat w) then
        if negb (dp_at dp i (Z.to_nat w) =? dp_at dp i' (Z.to_nat w)) then
          dp_backtrack g dp i' (w - weight (item_at (items g) i'))
                       (<[i' := 1]> solution)
        else dp_backtrack g dp i' w solution
      else solution
  end.

Definition dynamic_programming_knapsack (g : Globals) : KnapsackResult :=
  let dp := dp_fill g in
  let solution :=
    dp_backtrack g dp (n g) (capacity g) (replicate MAX_ITEMS 0) in
  mkResult solution (dp_at dp (n g) (Z.to_nat (capacity g)))
           (solution_weight g solution)
           ((Z.of_nat (n g) + 1) * (capacity g + 1)) 0.

(** The static array [items] holding the given (weight, value) pairs, built
    as [main] does, and the other globals as the loader zeroes them. *)
Definition load (wv : list (Z * Z)) (cap : Z) : Globals :=
  mkGlobals (imap (fun i '(w, v) => make_item w v (Z.of_nat i)) wv
             ++ replicate (MAX_ITEMS - length wv) item0)
            (length wv) cap 0 (replicate MAX_ITEMS 0) 0 0.

(** Items A(1, 15), B(3, 20), C(4, 30), D(5, 40) and capacity 7. *)
Definition scenario_A : Globals := load [(1, 15); (3, 20); (4, 30); (5, 40)] 7.

(** "Test Case 1: Classic 3-item knapsack" of [main]. *)
Definition test_case_1 : Globals := load [(10, 60); (20, 100); (30, 120)] 50.
End WithDouble.

Arguments Item D : clear implicits.
Arguments KnapsackNode D : clear implicits.
Arguments Globals D : clear implicits.
Arguments PriorityQueue D : clear implicits.

(** An item as [main] builds it, in exact arithmetic: the weight is positive,
    the value is not negative and [ratio] is their quotient. *)
Definition item_wf (it : Item Q) : Prop :=
  0 < weight it /\ 0 <= value it /\
  (ratio it == inject_Z (value it) / inject_Z (weight it))%Q.

End Knapsack.

(** ** TravelingSalesman.c *)

Module TSP.

Definition MAX_CITIES : nat := 20.
Definition QUEUE_CAPACITY : nat := 10000.
Definition INF : Z := 2147483647.   (* INT_MAX *)

Record TSPNode : Type := mkNode {
  path : list nat;
  visited : list Z;
  cost : Z;
  bound : Z;
  level : nat
}.

Definition PriorityQueue : Type := list TSPNode.

(** The file-scope variables. *)
Record Globals : Type := mkGlobals {
  graph : list (list Z);
  n : nat;
  best_cost : Z;
  best_path : list nat;
  nodes_explored : Z;
  nodes_pruned : Z
}.

(** [graph[i][j]]; the static array is zero-initialised. *)
Definition edge (g : Globals) (i j : nat) : Z :=
  default 0 (graph g !! i ≫= (.!! j)).

(** The instances on which no sum of costs overflows an [int].
    [child.cost], [total_cost], the [bound] of [calculate_bound] and the
    [cost] of [brute_force_tsp] are sums of at most [n] terms, each of them an entry of
    [graph[0..n)[0..n)] or the half [(min1 + min2) / 2] of the sum of two
    entries ([min2 != INF] needs three cities): when every entry times [n]
    lies within [-INT_MAX, INT_MAX], so does every such sum. *)
Definition edges_fit (g : Globals) : bool :=
  forallb (fun i =>
    forallb (fun j => Z.abs (edge g i j) * Z.of_nat (n g) <=? INF)
            (seq 0 (n g)))
    (seq 0 (n g)).

Definition path_at (p : list nat) (i : nat) : nat := default 0%nat (p !! i).
Definition visited_at (v : list Z) (i : nat) : bool :=
  negb (default 0 (v !! i) =? 0).

Definition pq_init : PriorityQueue := Heap.pq_init.

(** Min-heap on [bound]. *)
Definition pq_push : PriorityQueue -> TSPNode -> PriorityQueue :=
  Heap.pq_push (fun c p => bound p <=? bound c).

Definition pq_pop : PriorityQueue -> option (TSPNode * PriorityQueue) :=
  Heap.pq_pop (fun r l => bound r <? bound l)
              (fun x c => bound x <=? bound c).

Definition pq_empty : PriorityQueue -> bool := Heap.pq_empty.

(** The queues the solver can build in [TSPNode nodes[10000]]. *)
Definition pq_reachable : PriorityQueue -> Prop :=
  Heap.reachable (fun c p => bound p <=? bound c)
                 (fun r l => bound r <? bound l)
                 (fun x c => bound x <=? bound c) QUEUE_CAPACITY.

(** The inner [for (j ...)] loop of [calculate_bound]: the two smallest
    edges leaving city [i]. *)
Definition two_smallest (g : Globals) (i : nat) (acc : Z * Z) (j : nat) : Z * Z :=
  let '(min1, min2) := acc in
  if (i =? j)%nat then acc
  else
    let e := edge g i j in
    if e <? min1 then (e, min1)
    else if (e <? min2) && negb (e =? min1) then (min1, e)
    else acc.

(** [i == node->path[node->level - 1]], guarded by [node->level > 0]. *)
Definition is_last (node : TSPNode) (i : nat) : bool :=
  (0 <? level node)%nat && (i =? path_at (path node) (level node - 1))%nat.

(** The outer [for (i ...)] loop body of [calculate_bound]. *)
Definition bound_round (g : Globals) (node : TSPNode) (bnd : Z) (i : nat) : Z :=
  if negb (visited_at (visited node) i) || is_last node i then
    let '(min1, min2) := foldl (two_smallest g i) (INF, INF) (seq 0 (n g)) in
    if visited_at (visited node) i && (0 <? level node)%nat
       && negb (i =? path_at (path node) (level node - 1))%nat
    then bnd + min1
    else if negb (min2 =? INF) then bnd + Z.quot (min1 + min2) 2
    else bnd + min1
  else bnd.

Definition calculate_bound (g : Globals) (node : TSPNode) : Z :=
  foldl (bound_round g node) (cost node) (seq 0 (n g)).

Definition set_bound (nd : TSPNode) (b : Z) : TSPNode :=
  mkNode (path nd) (visited nd) (cost nd) b (level nd).

Definition prune (g : Globals) : Globals :=
  mkGlobals (graph g) (n g) (best_cost g) (best_path g)
            (nodes_explored g) (nodes_pruned g + 1).

Definition explore (g : Globals) : Globals :=
  mkGlobals (graph g) (n g) (best_cost g) (best_path g)
            (nodes_explored g + 1) (nodes_pruned g).

(** [for (i < n) best_path[i] = current.path[i]; best_path[n] = 0;] *)
Definition copy_path (n : nat) (p : list nat) (bp : list nat) : list nat :=
  <[n := 0%nat]> (foldl (fun bp i => <[i := path_at p i]> bp) bp (seq 0 n)).

Definition record_best (g : Globals) (total_cost : Z) (current : TSPNode) : Globals :=
  mkGlobals (graph g) (n g) total_cost (copy_path (n g) (path current) (best_path g))
            (nodes_explored g) (nodes_pruned g).

Definition child (g : Globals) (current : TSPNode) (city : nat) : TSPNode :=
  let nd := mkNode (<[level current := city]> (path current))
                   (<[city := 1]> (visited current))
                   (cost current
                    + edge g (path_at (path current) (level current - 1)) city)
                   (bound current)
                   (level current + 1) in
  set_bound nd (calculate_bound g nd).

(** The body of [for (city = 1; city < n; city++)]. *)
Definition branch (current : TSPNode) (s : Globals * PriorityQueue) (city : nat)
  : Globals * PriorityQueue :=
  let '(g, pq) := s in
  if visited_at (visited current) city then s
  else
    let c := child g current city in
    if bound c <? best_cost g then (g, pq_push pq c) else (prune g, pq).

(** The cost of the closed tour that a terminal node stands for, as
    [solve_tsp] computes it. *)
Definition total_cost (g : Globals) (current : TSPNode) : Z :=
  cost current + edge g (path_at (path current) (n g - 1)) 0.

(** One round of the [while] loop of [solve_tsp], after [pq_pop]. *)
Definition visit (g : Globals) (current : TSPNode) (pq : PriorityQueue)
  : Globals * PriorityQueue :=
  let g := explore g in
  if best_cost g <=? bound current then (prune g, pq)
  else if (level current =? n g)%nat then
    ((if total_cost g current <? best_cost g
      then record_best g (total_cost g current) current else g), pq)
  else foldl (branch current) (g, pq) (seq 1 (n g - 1)).

Definition step (s : Globals * PriorityQueue) : option (Globals * PriorityQueue) :=
  match pq_pop s.2 with
  | None => None
  | Some (current, pq') => Some (visit s.1 current pq')
  end.

Fixpoint search (fuel : nat) (s : Globals * PriorityQueue) : option Globals :=
  match fuel with
  | O => None
  | S fuel' =>
      match step s with
      | None => Some s.1
      | Some s' => search fuel' s'
      end
  end.

(** The local [TSPNode root] is not initialised as a whole: [root.path[1..]]
    keeps whatever the stack held, here [junk]. *)
Definition root_node (g : Globals) (junk : list nat) : TSPNode :=
  let nd := mkNode (<[0%nat := 0%nat]> junk)
                   (<[0%nat := 1]> (replicate MAX_CITIES 0)) 0 0 1 in
  set_bound nd (calculate_bound g nd).

(** [solve_tsp] up to the first test of the [while] loop; [best_path] is not
    reset. *)
Definition solve_init (g : Globals) (junk : list nat) : Globals * PriorityQueue :=
  let g := mkGlobals (graph g) (n g) INF (best_path g) 0 0 in
  (g, pq_push pq_init (root_node g junk)).

Definition solve_tsp (fuel : nat) (g : Globals) (junk : list nat) : option Globals :=
  search fuel (solve_init g junk).

(** The cost that [brute_force_tsp] assigns to the tour
    [0, cities[0], ..., cities[n-2], 0]. *)
Fixpoint walk_cost (g : Globals) (prev : nat) (cities : list nat) : Z :=
  match cities with
  | [] => edge g prev 0              (* return to start *)
  | c :: rest => edge g prev c + walk_cost g c rest
  end.

Definition tour_cost (g : Globals) (cities : list nat) : Z := walk_cost g 0 cities.

(** The cities [cities[0..n-1)] of the tour that a node of level [n] stands
    for: its path without the leading city 0. *)
Definition tour_of (g : Globals) (node : TSPNode) : list nat :=
  drop 1 (take (n g) (path node)).

(** What the fields of a node of the search mean: the path starts at city 0
    and has [level] cities, and [cost] is the cost of walking along it,
    without any edge back to city 0. *)
Definition node_ok (g : Globals) (node : TSPNode) : Prop :=
  (1 <= level node <= max (n g) 1)%nat /\
  length (path node) = MAX_CITIES /\
  path node !! 0%nat = Some 0%nat /\
  walk_cost g 0 (drop 1 (take (level node) (path node)))
  = cost node + edge g (path_at (path node) (level node - 1)) 0.

(** The search keeps the instance and the meaning of the nodes. *)
Definition state_ok (g : Globals) (s : Globals * PriorityQueue) : Prop :=
  graph s.1 = graph g /\ n s.1 = n g /\ Forall (node_ok g) s.2.

(** Two nodes that agree on everything but the cells of [path] that have not
    been written yet. *)
Definition node_sim (a b : TSPNode) : Prop :=
  (1 <= level a)%nat /\ level a = level b /\ cost a = cost b /\
  bound a = bound b /\ visited a = visited b /\
  length (path a) = length (path b) /\
  take (level a) (path a) = take (level b) (path b).

(** Two states of the globals that agree on everything but [best_path], and
    on [best_path[0..n]] too once a tour has been recorded. *)
Definition globals_sim (g1 g2 : Globals) : Prop :=
  graph g1 = graph g2 /\ n g1 = n g2 /\ best_cost g1 = best_cost g2 /\
  nodes_explored g1 = nodes_explored g2 /\ nodes_pruned g1 = nodes_pruned g2 /\
  length (best_path g1) = length (best_path g2) /\
  (best_cost g1 <> INF ->
   take (n g1 + 1) (best_path g1) = take (n g1 + 1) (best_path g2)).

Definition state_sim (s1 s2 : Globals * PriorityQueue) : Prop :=
  globals_sim s1.1 s2.1 /\ Forall2 node_sim s1.2 s2.2.

(** A bound on the rounds that the queue can still cause: a node of level
    [l] stands for at most [(n + 1) ^ (max n 1 + 1 - l)] of them. *)
Definition work (g : Globals) (pq : PriorityQueue) : nat :=
  sum_list_with (fun node => (n g + 1) ^ (max (n g) 1 + 1 - level node))%nat pq.

Record TSPResult : Type := mkResult {
  res_path : list Z;
  res_cost : Z;
  res_nodes_explored : Z;
  res_nodes_pruned : Z
}.

(** The cost that the [do] loop of [brute_force_tsp] computes:
    [for (i < n - 1) { cost += graph[prev][cities[i]]; prev = cities[i]; }
    cost += graph[prev][0];]  The cells of [cities] hold city numbers, which
    are not negative. *)
Definition cities_cost (g : Globals) (cities : list Z) : Z :=
  let r :=
    foldl (fun (acc : Z * nat) i =>
             let c := Z.to_nat (default 0 (cities !! i)) in
             (acc.1 + edge g acc.2 c, c))
          (0, 0%nat) (seq 0 (n g - 1)) in
  r.1 + edge g r.2 0.

(** [min_path[0] = 0; for (i < n - 1) min_path[i + 1] = cities[i];
    min_path[n] = 0;] *)
Definition record_path (n : nat) (cities min_path : list Z) : list Z :=
  <[n := 0]>
    (foldl (fun mp i => <[(i + 1)%nat := default 0 (cities !! i)]> mp)
           (<[0%nat := 0]> min_path) (seq 0 (n - 1))).

(** The [do { ... } while (next_permutation(cities, n - 1))] loop of
    [brute_force_tsp], with its locals [min_cost], [min_path] and
    [permutations]. *)
Fixpoint brute_force_loop (fuel : nat) (g : Globals) (cities : list Z)
  (min_cost : Z) (min_path : list Z) (permutations : Z)
  : option (Z * list Z * Z) :=
  match fuel with
  | O => None
  | S fuel' =>
      let permutations := permutations + 1 in
      let cost := cities_cost g cities in
      let '(min_cost, min_path) :=
        if cost <? min_cost
        then (cost, record_path (n g) cities min_path)
        else (min_cost, min_path) in
      let '(cities, more) := NextPerm.next_permutation cities (n g - 1) in
      if more
      then brute_force_loop fuel' g cities min_cost min_path permutations
      else Some (min_cost, min_path, permutations)
  end.

(** [junk_c], [junk_p] and [junk_r] stand for the uninitialised locals
    [cities], [min_path] and [result.path]. *)
Definition brute_force_tsp (fuel : nat) (g : Globals)
  (junk_c junk_p junk_r : list Z) : option TSPResult :=
  let cities :=
    foldl (fun a i => <[(i - 1)%nat := Z.of_nat i]> a) junk_c
          (seq 1 (n g - 1)) in
  match brute_force_loop fuel g cities INF junk_p 0 with
  | Some (min_cost, min_path, permutations) =>
      Some (mkResult
              (foldl (fun p i => <[i := default 0 (min_path !! i)]> p) junk_r
                     (seq 0 (n g + 1)))
              min_cost permutations 0)
  | None => None
  end.

(** What [visited] means in a node of the search: the cities of the path are
    cities of the instance, no city comes twice, and [visited[c]] is set for
    the cities of the path and for no other. *)
Definition node_visits (g : Globals) (node : TSPNode) : Prop :=
  length (visited node) = MAX_CITIES /\
  NoDup (take (level node) (path node)) /\
  Forall (fun c => (c < max (n g) 1)%nat) (take (level node) (path node)) /\
  forall c, (c < MAX_CITIES)%nat ->
            visited_at (visited node) c = true
            <-> c ∈ take (level node) (path node).

(** What the incumbent means: no tour has been recorded, or
    [best_path[0..n]] is a closed tour from city 0 through every city once
    and [best_cost] is what [brute_force_tsp] would charge for it. *)
Definition tour_ok (g0 g : Globals) : Prop :=
  best_cost g = INF \/
  (take (n g0) (best_path g) ≡ₚ seq 0 (n g0) /\
   best_path g !! 0%nat = Some 0%nat /\
   best_path g !! n g0 = Some 0%nat /\
   best_cost g = tour_cost g0 (drop 1 (take (n g0) (best_path g)))).

Definition tour_state_ok (g0 : Globals) (s : Globals * PriorityQueue) : Prop :=
  state_ok g0 s /\ Forall (node_visits g0) s.2 /\
  length (best_path s.1) = (MAX_CITIES + 1)%nat /\ tour_ok g0 s.1.

(** "Test Case 1: 4-city symmetric TSP" of [main]. *)
Definition four_cities : Globals :=
  mkGlobals [[0; 10; 15; 20]; [10; 0; 35; 25]; [15; 35; 0; 30]; [20; 25; 30; 0]]
            4 0 (replicate (MAX_CITIES + 1) 0%nat) 0 0.

(** Twenty cities; every edge into city 0 costs 1, every other edge 100. *)
Definition star_cities : Globals :=
  mkGlobals ((fun i => (fun j => if (i =? j)%nat then 0
                                 else if (j =? 0)%nat then 1 else 100)
                       <$> seq 0 20) <$> seq 0 20)
            20 0 (replicate (MAX_CITIES + 1) 0%nat) 0 0.

(** One city. *)
Definition one_city (best_path : list nat) : Globals :=
  mkGlobals [[0]] 1 0 best_path 0 0.

End TSP.

(** ** JobAssignment.c *)

Module Assignment.

Definition MAX_SIZE : nat := 10.
Definition INF : Z := 2147483647.   (* INT_MAX *)

Record AssignmentNode : Type := mkNode {
  level : nat;
  cost : Z;
  bound : Z;
  assignment : list Z;
  worker_used : list Z
}.

Definition PriorityQueue : Type := list AssignmentNode.

Record Globals : Type := mkGlobals {
  cost_matrix : list (list Z);
  n : nat;
  min_cost : Z;
  best_assignment : list Z;
  nodes_explored : Z;
  nodes_pruned : Z
}.

Definition cost_at (g : Globals) (worker job : nat) : Z :=
  default 0 (cost_matrix g !! worker ≫= (.!! job)).

(** The instances on which no sum of costs overflows an [int].
    [child.cost], the [bound] of [calculate_bound] and the [cost] of
    [brute_force_assignment] are sums of at most [n] entries of
    [cost_matrix[0..n)[0..n)]: when every entry times [n] lies within
    [-INT_MAX, INT_MAX], so does every such sum. *)
Definition costs_fit (g : Globals) : bool :=
  forallb (fun worker =>
    forallb (fun job => Z.abs (cost_at g worker job) * Z.of_nat (n g) <=? INF)
            (seq 0 (n g)))
    (seq 0 (n g)).

Definition used_at (u : list Z) (job : nat) : bool :=
  negb (default 0 (u !! job) =? 0).

Definition pq_init : PriorityQueue := Heap.pq_init.

Definition pq_push : PriorityQueue -> AssignmentNode -> PriorityQueue :=
  Heap.pq_push (fun c p => bound p <=? bound c).

Definition pq_pop : PriorityQueue -> option (AssignmentNode * PriorityQueue) :=
  Heap.pq_pop (fun r l => bound r <? bound l)
              (fun x c => bound x <=? bound c).

(** The inner [for (job ...)] loop of [calculate_bound]. *)
Definition cheapest_free (g : Globals) (node : AssignmentNode) (worker : nat)
  (min_cost : Z) (job : nat) : Z :=
  if negb (used_at (worker_used node) job)
     && (cost_at g worker job <? min_cost)
  then cost_at g worker job else min_cost.

Definition bound_round (g : Globals) (node : AssignmentNode) (bnd : Z) (worker : nat) : Z :=
  let min_cost := foldl (cheapest_free g node worker) INF (seq 0 (n g)) in
  if negb (min_cost =? INF) then bnd + min_cost else bnd.

Definition calculate_bound (g : Globals) (node : AssignmentNode) : Z :=
  foldl (bound_round g node) (cost node) (seq (level node) (n g - level node)).

Definition set_bound (nd : AssignmentNode) (b : Z) : AssignmentNode :=
  mkNode (level nd) (cost nd) b (assignment nd) (worker_used nd).

Definition prune (g : Globals) : Globals :=
  mkGlobals (cost_matrix g) (n g) (min_cost g) (best_assignment g)
            (nodes_explored g) (nodes_pruned g + 1).

Definition explore (g : Globals) : Globals :=
  mkGlobals (cost_matrix g) (n g) (min_cost g) (best_assignment g)
            (nodes_explored g + 1) (nodes_pruned g).

(** [for (i < n) best_assignment[i] = current.assignment[i];] *)
Definition copy_assignment (n : nat) (a : list Z) (best : list Z) : list Z :=
  foldl (fun b i => <[i := default 0 (a !! i)]> b) best (seq 0 n).

Definition record_best (g : Globals) (current : AssignmentNode) : Globals :=
  mkGlobals (cost_matrix g) (n g) (cost current)
            (copy_assignment (n g) (assignment current) (best_assignment g))
            (nodes_explored g) (nodes_pruned g).

Definition child (g : Globals) (current : AssignmentNode) (job : nat) : AssignmentNode :=
  let nd := mkNode (level current + 1)
                   (cost current + cost_at g (level current) job)
                   (bound current)
                   (<[level current := Z.of_nat job]> (assignment current))
                   (<[job := 1]> (worker_used current)) in
  set_bound nd (calculate_bound g nd).

Definition branch (current : AssignmentNode) (s : Globals * PriorityQueue) (job : nat)
  : Globals * PriorityQueue :=
  let '(g, pq) := s in
  if used_at (worker_used current) job then s
  else
    let c := child g current job in
    if bound c <? min_cost g then (g, pq_push pq c) else (prune g, pq).

Definition visit (g : Globals) (current : AssignmentNode) (pq : PriorityQueue)
  : Globals * PriorityQueue :=
  let g := explore g in
  if min_cost g <=? bound current then (prune g, pq)
  else if (level current =? n g)%nat then
    ((if cost current <? min_cost g then record_best g current else g), pq)
  else foldl (branch current) (g, pq) (seq 0 (n g)).

Definition step (s : Globals * PriorityQueue) : option (Globals * PriorityQueue) :=
  match pq_pop s.2 with
  | None => None
  | Some (current, pq') => Some (visit s.1 current pq')
  end.

Fixpoint search (fuel : nat) (s : Globals * PriorityQueue) : option Globals :=
  match fuel with
  | O => None
  | S fuel' =>
      match step s with
      | None => Some s.1
      | Some s' => search fuel' s'
      end
  end.

(** [for (i < n) a[i] = v;] *)
Definition fill (n : nat) (v : Z) (a : list Z) : list Z :=
  foldl (fun a i => <[i := v]> a) a (seq 0 n).

(** The local [AssignmentNode root]: its arrays are set up to [n] and keep
    the stack's contents, [junk_a] and [junk_u], beyond. *)
Definition root_node (g : Globals) (junk_a junk_u : list Z) : AssignmentNode :=
  let nd := mkNode 0 0 0 (fill (n g) (-1) junk_a) (fill (n g) 0 junk_u) in
  set_bound nd (calculate_bound g nd).

(** [solve_assignment] up to the first test of the [while] loop. *)
Definition solve_init (g : Globals) (junk_a junk_u : list Z)
  : Globals * PriorityQueue :=
  let g := mkGlobals (cost_matrix g) (n g) INF
                     (fill (n g) (-1) (best_assignment g)) 0 0 in
  (g, pq_push pq_init (root_node g junk_a junk_u)).

Definition solve_assignment (fuel : nat) (g : Globals) (junk_a junk_u : list Z)
  : option Globals :=
  search fuel (solve_init g junk_a junk_u).

(** The cost [brute_force_assignment] computes for the assignment
    worker [w] -> job [jobs[w]]. *)
Definition assignment_cost (g : Globals) (jobs : list nat) : Z :=
  foldl (fun c worker => c + cost_at g worker (default 0%nat (jobs !! worker)))
        0 (seq 0 (n g)).

Record AssignmentResult : Type := mkResult {
  res_assignment : list Z;
  res_min_cost : Z;
  res_nodes_explored : Z;
  res_nodes_pruned : Z
}.

(** [for (worker < n) cost += cost_matrix[worker][jobs[worker]];] the cells
    of [jobs] hold job numbers, which are not negative. *)
Definition jobs_cost (g : Globals) (jobs : list Z) : Z :=
  foldl (fun cost worker =>
           cost + cost_at g worker (Z.to_nat (default 0 (jobs !! worker))))
        0 (seq 0 (n g)).

(** The [do { ... } while (next_permutation(jobs, n))] loop of
    [brute_force_assignment], with its locals [min_cost], [best_assignment]
    and [permutations]. *)
Fixpoint brute_force_loop (fuel : nat) (g : Globals) (jobs : list Z)
  (min_cost : Z) (best_assignment : list Z) (permutations : Z)
  : option (Z * list Z * Z) :=
  match fuel with
  | O => None
  | S fuel' =>
      let permutations := permutations + 1 in
      let cost := jobs_cost g jobs in
      let '(min_cost, best_assignment) :=
        if cost <? min_cost
        then (cost, copy_assignment (n g) jobs best_assignment)
        else (min_cost, best_assignment) in
      let '(jobs, more) := NextPerm.next_permutation jobs (n g) in
      if more
      then brute_force_loop fuel' g jobs min_cost best_assignment permutations
      else Some (min_cost, best_assignment, permutations)
  end.

(** [junk_j], [junk_b] and [junk_r] stand for the uninitialised locals
    [jobs], [best_assignment] and [result.assignment]. *)
Definition brute_force_assignment (fuel : nat) (g : Globals)
  (junk_j junk_b junk_r : list Z) : option AssignmentResult :=
  let jobs := foldl (fun a i => <[i := Z.of_nat i]> a) junk_j (seq 0 (n g)) in
  match brute_force_loop fuel g jobs INF junk_b 0 with
  | Some (min_cost, best_assignment, permutations) =>
      Some (mkResult (copy_assignment (n g) best_assignment junk_r)
                     min_cost permutations 0)
  | None => None
  end.

(** "Test Case 1: 4x4 assignment problem" of [main]. *)
Definition four_workers : Globals :=
  mkGlobals [[9; 2; 7; 8]; [6; 4; 3; 7]; [5; 8; 1; 8]; [7; 6; 9; 4]]
            4 0 (replicate MAX_SIZE 0) 0 0.

Definition QUEUE_CAPACITY : nat := 10000.

(** The queues the solver can build in [AssignmentNode nodes[10000]]. *)
Definition pq_reachable : PriorityQueue -> Prop :=
  Heap.reachable (fun c p => bound p <=? bound c)
                 (fun r l => bound r <? bound l)
                 (fun x c => bound x <=? bound c) QUEUE_CAPACITY.

(** The jobs that a node gives to the workers [0..level). *)
Definition jobs_of (node : AssignmentNode) : list nat :=
  Z.to_nat <$> take (level node) (assignment node).

(** The cost of giving job [jobs[w]] to each worker [w < k]. *)
Definition cost_upto (g : Globals) (jobs : list nat) (k : nat) : Z :=
  foldl (fun c worker => c + cost_at g worker (default 0%nat (jobs !! worker)))
        0 (seq 0 k).

(** What the fields of a node of the search mean: the workers [0..level)
    have distinct jobs below [n], [worker_used] flags exactly these jobs,
    [cost] is what they cost and [bound] is what [calculate_bound] says. *)
Definition node_ok (g : Globals) (node : AssignmentNode) : Prop :=
  (level node <= n g)%nat /\
  length (assignment node) = MAX_SIZE /\
  length (worker_used node) = MAX_SIZE /\
  take (level node) (assignment node) = (Z.of_nat <$> jobs_of node) /\
  NoDup (jobs_of node) /\
  Forall (fun j => (j < n g)%nat) (jobs_of node) /\
  (forall j, (j < n g)%nat ->
             (used_at (worker_used node) j = true <-> j ∈ jobs_of node)) /\
  cost node = cost_upto g (jobs_of node) (level node) /\
  bound node = calculate_bound g node.

(** The incumbent is the sentinel, or [best_assignment[0..n)] gives every
    worker a job of its own and [min_cost] is what that costs. *)
Definition incumbent_ok (g : Globals) : Prop :=
  min_cost g = INF \/
  ((Z.to_nat <$> take (n g) (best_assignment g)) ≡ₚ seq 0 (n g) /\
   take (n g) (best_assignment g)
   = (Z.of_nat <$> (Z.to_nat <$> take (n g) (best_assignment g))) /\
   min_cost g
   = assignment_cost g (Z.to_nat <$> take (n g) (best_assignment g))).

(** The search keeps the instance, the meaning of the nodes and of the
    incumbent. *)
Definition state_ok (g : Globals) (s : Globals * PriorityQueue) : Prop :=
  cost_matrix s.1 = cost_matrix g /\ n s.1 = n g /\
  length (best_assignment s.1) = MAX_SIZE /\
  incumbent_ok s.1 /\ Forall (node_ok g) s.2.

(** The assignment [sigma] is still within reach: the incumbent is at least
    as good, or a node of the queue gives the workers it has decided the
    jobs they have in [sigma]. *)
Definition covered (g : Globals) (sigma : list nat) (s : Globals * PriorityQueue)
  : Prop :=
  min_cost s.1 <= assignment_cost g sigma \/
  exists node, node ∈ s.2 /\ node_ok g node /\
               jobs_of node = take (level node) sigma.

(** A bound on the rounds that the queue can still cause: a node of level
    [l] stands for at most [(n + 2) ^ (n + 1 - l)] of them. *)
Definition work (g : Globals) (pq : PriorityQueue) : nat :=
  sum_list_with (fun node => (n g + 2) ^ (n g + 1 - level node))%nat pq.

End Assignment.

(** ** FacilityLocation.c: the set-up of [solve_facility_location] *)

Module Facility.

Definition MAX_FACILITIES : nat := 10.
Definition MAX_CUSTOMERS : nat := 15.

Section WithDouble.
Context {D : Type} `{Double D}.

Record FacilityNode : Type := mkNode {
  level : nat;
  facility_open : list Z;
  fixed_cost : D;
  service_cost : D;
  total_cost : D;
  bound : D
}.

Record FacilitySolution : Type := mkSolution {
  sol_facility_open : list Z;
  customer_assignment : list Z;
  sol_fixed_cost : D;
  sol_service_cost : D;
  sol_total_cost : D
}.

Definition PriorityQueue : Type := list FacilityNode.

Record Globals : Type := mkGlobals {
  facility_costs : list D;
  service_costs : list (list D);
  num_facilities : nat;
  num_customers : nat;
  best_solution : FacilitySolution;
  best_cost : D;
  nodes_explored : Z;
  nodes_pruned : Z
}.

Definition zero : D := d_of_int 0.

Definition fcost (g : Globals) (i : nat) : D := default zero (facility_costs g !! i).
Definition scost (g : Globals) (i j : nat) : D :=
  default zero (service_costs g !! i ≫= (.!! j)).
Definition flag (a : list Z) (i : nat) : bool := negb (default 0 (a !! i) =? 0).

Definition pq_init : PriorityQueue := Heap.pq_init.

(** Min-heap on [bound]. *)
Definition pq_push : PriorityQueue -> FacilityNode -> PriorityQueue :=
  Heap.pq_push (fun c p => d_le (bound p) (bound c)).

(** The body of the [for (j ...)] loop of [calculate_bound]. *)
Definition bound_round (g : Globals) (node : FacilityNode) (bnd : D) (j : nat) : D :=
  let '(min_service_cost, has_open_facility) :=
    foldl (fun (acc : D * bool) i =>
             if flag (facility_open node) i then
               ((if d_lt (scost g i j) acc.1 then scost g i j else acc.1), true)
             else acc)
          (d_max, false) (seq 0 (level node)) in
  let min_service_cost :=
    if negb has_open_facility || (level node <? num_facilities g)%nat then
      foldl (fun m i =>
               let cost_with_facility :=
                 if negb has_open_facility
                 then d_add (scost g i j)
                            (d_div (fcost g i) (d_of_int (Z.of_nat (num_customers g))))
                 else scost g i j in
               if d_lt cost_with_facility m then cost_with_facility else m)
            min_service_cost
            (seq (level node) (num_facilities g - level node))
    else min_service_cost in
  if d_ne min_service_cost d_max then d_add bnd min_service_cost else bnd.

Definition calculate_bound (g : Globals) (node : FacilityNode) : D :=
  foldl (bound_round g node) (fixed_cost node) (seq 0 (num_customers g)).

Definition get_current_service_cost (g : Globals) (customer : nat)
  (facility_open : list Z) : D :=
  foldl (fun min_cost i =>
           if flag facility_open i && d_lt (scost g i customer) min_cost
           then scost g i customer else min_cost)
        d_max (seq 0 (num_facilities g)).

Definition calculate_improvement (g : Globals) (facility : nat)
  (facility_open customer_served : list Z) : D :=
  foldl (fun improvement j =>
           if negb (flag customer_served j) then
             d_add improvement (d_div d_max (d_of_int (Z.of_nat (num_customers g))))
           else
             let current_cost := get_current_service_cost g j facility_open in
             let new_cost := scost g facility j in
             if d_lt new_cost current_cost
             then d_add improvement (d_sub current_cost new_cost)
             else improvement)
        (d_opp (fcost g facility)) (seq 0 (num_customers g)).

(** The [for (i ...)] loop at the head of the [while (1)] loop of
    [greedy_heuristic]: the best improvement and the facility giving it
    ([-1] when there is none). *)
Definition best_candidate (g : Globals) (facility_open customer_served : list Z)
  : D * Z :=
  foldl (fun (acc : D * Z) i =>
           if negb (flag facility_open i) then
             let improvement :=
               calculate_improvement g i facility_open customer_served in
             if d_lt acc.1 improvement then (improvement, Z.of_nat i) else acc
           else acc)
        (zero, -1) (seq 0 (num_facilities g)).

(** The "update customer service status" loop after opening
    [best_facility]. *)
Definition serve (g : Globals) (best_facility : nat) (facility_open : list Z)
  (acc : list Z * D) (j : nat) : list Z * D :=
  let '(customer_served, total_cost) := acc in
  if negb (flag customer_served j) then
    (<[j := 1]> customer_served, d_add total_cost (scost g best_facility j))
  else
    let current_cost := get_current_service_cost g j facility_open in
    if d_lt (scost g best_facility j) current_cost then
      (customer_served,
       d_add (d_sub total_cost current_cost) (scost g best_facility j))
    else acc.

(** The [while (1)] loop; every round but the last opens a facility that was
    closed, so [num_facilities + 1] rounds are enough. *)
Fixpoint greedy_loop (fuel : nat) (g : Globals)
  (facility_open customer_served : list Z) (total_cost : D)
  : list Z * list Z * D :=
  match fuel with
  | O => (facility_open, customer_served, total_cost)
  | S fuel' =>
      let '(best_improvement, best_facility) :=
        best_candidate g facility_open customer_served in
      if (best_facility =? -1) || d_le best_improvement zero
      then (facility_open, customer_served, total_cost)
      else
        let bf := Z.to_nat best_facility in
        let facility_open := <[bf := 1]> facility_open in
        let total_cost := d_add total_cost (fcost g bf) in
        let '(customer_served, total_cost) :=
          foldl (serve g bf facility_open) (customer_served, total_cost)
                (seq 0 (num_customers g)) in
        greedy_loop fuel' g facility_open customer_served total_cost
  end.

(** The "ensure all customers are served" loop. *)
Definition ensure_served (g : Globals) (customer_served : list Z)
  (acc : list Z * D) (j : nat) : list Z * D :=
  let '(facility_open, total_cost) := acc in
  if negb (flag customer_served j) then
    let '(_, cheapest_facility) :=
      foldl (fun (m : D * Z) i =>
               let cost := d_add (fcost g i) (scost g i j) in
               if d_lt cost m.1 then (cost, Z.of_nat i) else m)
            (d_max, -1) (seq 0 (num_facilities g)) in
    if negb (cheapest_facility =? -1)
       && negb (flag facility_open (Z.to_nat cheapest_facility))
    then (<[Z.to_nat cheapest_facility := 1]> facility_open,
          d_add total_cost (fcost g (Z.to_nat cheapest_facility)))
    else acc
  else acc.

(** The first loop of [construct_solution]: copies the flags, notes whether
    a facility is open and adds the fixed costs up. *)
Definition copy_open (g : Globals) (node : FacilityNode)
  (acc : list Z * bool * D) (i : nat) : list Z * bool * D :=
  let '(open, has_facility, fixed) := acc in
  let open := <[i := default 0 (facility_open node !! i)]> open in
  if flag (facility_open node) i
  then (open, true, d_add fixed (fcost g i))
  else (open, has_facility, fixed).

(** The second loop of [construct_solution]: each customer goes to the
    cheapest open facility. *)
Definition assign_customer (g : Globals) (open : list Z)
  (acc : list Z * D) (j : nat) : list Z * D :=
  let '(customer_assignment, service) := acc in
  let '(min_cost, best_facility) :=
    foldl (fun (m : D * Z) i =>
             if flag open i && d_lt (scost g i j) m.1
             then (scost g i j, Z.of_nat i) else m)
          (d_max, -1) (seq 0 (num_facilities g)) in
  (<[j := best_facility]> customer_assignment, d_add service min_cost).

(** [junk] stands for the uninitialised local [FacilitySolution solution]. *)
Definition construct_solution (g : Globals) (node : FacilityNode)
  (junk : FacilitySolution) : FacilitySolution :=
  let '(open, has_facility, fixed) :=
    foldl (copy_open g node) (sol_facility_open junk, false, zero)
          (seq 0 (num_facilities g)) in
  if negb has_facility then
    mkSolution open (customer_assignment junk) fixed zero d_max
  else
    let '(assignment, service) :=
      foldl (assign_customer g open) (customer_assignment junk, zero)
            (seq 0 (num_customers g)) in
    mkSolution open assignment fixed service (d_add fixed service).

(** The local [FacilityNode greedy_node] that [greedy_heuristic] builds;
    [junk_open] stands for the cells of its array that stay uninitialised.
    Its fields [service_cost], [total_cost] and [bound] are never written
    and never read; they are shown as zero. *)
Definition greedy_node (g : Globals) (junk_open : list Z) : FacilityNode :=
  let '(facility_open, customer_served, total_cost) :=
    greedy_loop (num_facilities g + 1) g
                (replicate MAX_FACILITIES 0) (replicate MAX_CUSTOMERS 0) zero in
  let '(facility_open, total_cost) :=
    foldl (ensure_served g customer_served) (facility_open, total_cost)
          (seq 0 (num_customers g)) in
  let '(open, fixed) :=
    foldl (fun (acc : list Z * D) i =>
             (<[i := default 0 (facility_open !! i)]> acc.1,
              if flag facility_open i then d_add acc.2 (fcost g i) else acc.2))
          (junk_open, zero) (seq 0 (num_facilities g)) in
  mkNode (num_facilities g) open fixed zero zero zero.

Definition greedy_heuristic (g : Globals) (junk_open : list Z)
  (junk : FacilitySolution) : FacilitySolution :=
  construct_solution g (greedy_node g junk_open) junk.

Definition root_node (g : Globals) : FacilityNode :=
  let nd := mkNode 0 (replicate MAX_FACILITIES 0) zero zero zero zero in
  mkNode 0 (replicate MAX_FACILITIES 0) zero zero zero (calculate_bound g nd).

(** [solve_facility_location] up to the first test of the [while] loop. *)
Definition solve_init (g : Globals) (junk_open : list Z) (junk : FacilitySolution)
  : Globals * PriorityQueue :=
  let greedy_solution := greedy_heuristic g junk_open junk in
  let g :=
    if d_ne (sol_total_cost greedy_solution) d_max then
      mkGlobals (facility_costs g) (service_costs g) (num_facilities g)
                (num_customers g) greedy_solution
                (sol_total_cost greedy_solution) 0 0
    else
      mkGlobals (facility_costs g) (service_costs g) (num_facilities g)
                (num_customers g) (best_solution g) d_max 0 0 in
  (g, pq_push pq_init (root_node g)).

Definition pq_pop : PriorityQueue -> option (FacilityNode * PriorityQueue) :=
  Heap.pq_pop (fun r l => d_lt (bound r) (bound l))
              (fun x c => d_le (bound x) (bound c)).

(** [calculate_service_cost]: every customer goes to the cheapest open
    facility; [None] stands for the early [return DBL_MAX]. *)
Definition calculate_service_cost (g : Globals) (node : FacilityNode) : D :=
  let r :=
    foldl (fun (acc : option D) j =>
             match acc with
             | None => None
             | Some service_cost =>
                 let min_cost :=
                   foldl (fun m i =>
                            if flag (facility_open node) i then
                              if d_lt (scost g i j) m then scost g i j else m
                            else m)
                         d_max (seq 0 (num_facilities g)) in
                 if d_ne min_cost d_max
                 then Some (d_add service_cost min_cost)
                 else None
             end)
          (Some zero) (seq 0 (num_customers g)) in
  match r with
  | Some service_cost => service_cost
  | None => d_max
  end.

Definition set_costs (nd : FacilityNode) (total bnd : D) : FacilityNode :=
  mkNode (level nd) (facility_open nd) (fixed_cost nd) (service_cost nd)
         total bnd.

(** "Branch 1: Open current facility". *)
Definition open_node (g : Globals) (current : FacilityNode) : FacilityNode :=
  let nd := mkNode (level current + 1)
                   (<[level current := 1]> (facility_open current))
                   (d_add (fixed_cost current) (fcost g (level current)))
                   (service_cost current) (total_cost current)
                   (bound current) in
  let nd := set_costs nd (d_add (fixed_cost nd) (calculate_service_cost g nd))
                      (bound nd) in
  set_costs nd (total_cost nd) (calculate_bound g nd).

(** "Branch 2: Don't open current facility". *)
Definition close_node (g : Globals) (current : FacilityNode) : FacilityNode :=
  let nd := mkNode (level current + 1) (facility_open current)
                   (fixed_cost current) (service_cost current)
                   (total_cost current) (bound current) in
  let nd := set_costs nd (d_add (fixed_cost nd) (calculate_service_cost g nd))
                      (bound nd) in
  set_costs nd (total_cost nd) (calculate_bound g nd).

Definition prune (g : Globals) : Globals :=
  mkGlobals (facility_costs g) (service_costs g) (num_facilities g)
            (num_customers g) (best_solution g) (best_cost g)
            (nodes_explored g) (nodes_pruned g + 1).

Definition explore (g : Globals) : Globals :=
  mkGlobals (facility_costs g) (service_costs g) (num_facilities g)
            (num_customers g) (best_solution g) (best_cost g)
            (nodes_explored g + 1) (nodes_pruned g).

Definition record_best (g : Globals) (solution : FacilitySolution) : Globals :=
  mkGlobals (facility_costs g) (service_costs g) (num_facilities g)
            (num_customers g) solution (sol_total_cost solution)
            (nodes_explored g) (nodes_pruned g).

(** [if (node.bound < best_cost) pq_push(&pq, node); else nodes_pruned++;] *)
Definition offer (s : Globals * PriorityQueue) (nd : FacilityNode)
  : Globals * PriorityQueue :=
  if d_lt (bound nd) (best_cost s.1) then (s.1, pq_push s.2 nd)
  else (prune s.1, s.2).

(** One round of the [while] loop of [solve_facility_location], after
    [pq_pop]; [junk] stands for the uninitialised local of
    [construct_solution] in this round. *)
Definition visit (g : Globals) (current : FacilityNode) (pq : PriorityQueue)
  (junk : FacilitySolution) : Globals * PriorityQueue :=
  let g := explore g in
  if d_le (best_cost g) (bound current) then (prune g, pq)
  else if (level current =? num_facilities g)%nat then
    let solution := construct_solution g current junk in
    ((if d_ne (sol_total_cost solution) d_max
         && d_lt (sol_total_cost solution) (best_cost g)
      then record_best g solution else g), pq)
  else
    offer (offer (g, pq) (open_node g current)) (close_node g current).

(** The uninitialised memory may differ from round to round: [junks]
    gives it for the round that counts [nodes_explored] up from its
    argument. *)
Definition step (junks : Z -> FacilitySolution) (s : Globals * PriorityQueue)
  : option (Globals * PriorityQueue) :=
  match pq_pop s.2 with
  | None => None
  | Some (current, pq') =>
      Some (visit s.1 current pq' (junks (nodes_explored s.1)))
  end.

Fixpoint search (fuel : nat) (junks : Z -> FacilitySolution)
  (s : Globals * PriorityQueue) : option Globals :=
  match fuel with
  | O => None
  | S fuel' =>
      match step junks s with
      | None => Some s.1
      | Some s' => search fuel' junks s'
      end
  end.

(** The globals when [solve_facility_location] returns; its result copies
    [best_solution], [nodes_explored] and [nodes_pruned] from them. *)
Definition solve_facility_location (fuel : nat) (g : Globals)
  (junk_open : list Z) (junk : FacilitySolution)
  (junks : Z -> FacilitySolution) : option Globals :=
  search fuel junks (solve_init g junk_open junk).

(** A bound on the rounds that the queue can still cause: a node of level
    [l] stands for at most [3 ^ (num_facilities + 1 - l)] of them. *)
Definition work (g : Globals) (pq : PriorityQueue) : nat :=
  sum_list_with
    (fun node => (3 ^ (num_facilities g + 1 - level node))%nat) pq.

(** The incumbent is the sentinel, or [best_cost] is the total cost of
    [best_solution], which is its fixed cost plus its service cost. *)
Definition incumbent_ok (g : Globals) : Prop :=
  best_cost g = d_max \/
  (best_cost g = sol_total_cost (best_solution g) /\
   sol_total_cost (best_solution g)
   = d_add (sol_fixed_cost (best_solution g))
           (sol_service_cost (best_solution g))).
End WithDouble.

Definition QUEUE_CAPACITY : nat := 5000.

Arguments FacilityNode D : clear implicits.
Arguments FacilitySolution D : clear implicits.
Arguments Globals D : clear implicits.
Arguments PriorityQueue D : clear implicits.

(** Every cost of the instance, the fixed costs [facility_costs[0..nf)] and
    the service costs [service_costs[0..nf)[0..nc)], lies between 0 and
    [limit], in exact arithmetic. *)
Definition costs_within (g : Globals Q) (limit : Q) : bool :=
  forallb (fun i =>
    Qle_bool 0 (fcost g i) && Qle_bool (fcost g i) limit
    && forallb (fun j => Qle_bool 0 (scost g i j) && Qle_bool (scost g i j) limit)
               (seq 0 (num_customers g)))
    (seq 0 (num_facilities g)).

Definition distance (a b : float * float) : float :=
  PrimFloat.sqrt ((a.1 - b.1) * (a.1 - b.1) + (a.2 - b.2) * (a.2 - b.2))%float.

(** "Test Case 1: 3 Warehouses, 4 Customers" of [main]. *)
Definition test_case_1 : Globals float :=
  mkGlobals [50; 60; 55]%float
            ((fun f => distance f <$> [(2, 2); (3, 1); (1, 3); (4, 3)]%float)
             <$> [(1, 1); (4, 1); (2, 4)]%float)
            3 4
            (mkSolution (replicate MAX_FACILITIES 0) (replicate MAX_CUSTOMERS 0)
                        0%float 0%float 0%float)
            0%float 0 0.

(** The warehouses of test case 1 before any customer is entered. *)
Definition warehouses_only : Globals float :=
  mkGlobals [50; 60; 55]%float [[]; []; []] 3 0
            (mkSolution (replicate MAX_FACILITIES 0) (replicate MAX_CUSTOMERS 0)
                        0%float 0%float 0%float)
            0%float 0 0.

(** Two warehouses and two customers, in exact arithmetic. *)
Definition two_warehouses : Globals Q :=
  mkGlobals [50; 60]%Q [[4; 9]; [7; 3]]%Q 2 2
            (mkSolution (replicate MAX_FACILITIES 0) (replicate MAX_CUSTOMERS 0)
                        0%Q 0%Q 0%Q)
            0%Q 0 0.

End Facility.

(* ================================================================== *)
(** * Part II: the properties                                         *)
(* ================================================================== *)

(** ** Runs that keep the queue within its array *)

Lemma queue_fits_run_sound {S : Type} (step : S -> option S) (size : S -> nat)
  (cap : nat) : forall fuel s,
  queue_fits_run step size cap fuel s = true -> queue_fits step size cap s.
Proof.
  induction fuel as [|fuel IH]; intros s Hrun; simpl in Hrun;
    apply andb_true_iff in Hrun as [Hsize Hrest]; [done|].
  intros k s' Hk. destruct k as [|k]; simpl in Hk.
  - injection Hk as <-. by apply Nat.leb_le.
  - destruct (step s) as [s1|]; [|done]. by apply (IH s1 Hrest k).
Qed.

(** ** The binary heap *)

Section HeapArithmetic.
Local Open Scope nat_scope.
Import Heap.

Lemma parent_lt i : 0 < i -> parent i < i.
Proof. unfold parent. intros. apply Nat.Div0.div_lt_upper_bound. lia. Qed.

Lemma parent_child i j : 0 < j -> (parent j = i <-> j = 2 * i + 1 \/ j = 2 * i + 2).
Proof.
  unfold parent. intros Hj. split.
  - intros <-. pose proof (Nat.div_mod_eq (j - 1) 2) as E.
    pose proof (Nat.mod_upper_bound (j - 1) 2). lia.
  - intros [-> | ->].
    + replace (2 * i + 1 - 1) with (i * 2) by lia. apply Nat.div_mul. lia.
    + replace (2 * i + 2 - 1) with (1 + i * 2) by lia.
      rewrite Nat.div_add by lia. reflexivity.
Qed.
End HeapArithmetic.

(** Facts that hold whatever the three comparisons are: the loops only swap
    cells. *)
Section HeapPermutation.
Local Open Scope nat_scope.
Context {node : Type}.
Variables (stop_up pick_right stop_down : node -> node -> bool).

Lemma swap_lookup (q : list node) i j k a b :
  q !! i = Some a -> q !! j = Some b -> i <> j ->
  Heap.swap q i j !! k =
    if decide (k = j) then Some a else if decide (k = i) then Some b else q !! k.
Proof.
  intros Hi Hj Hne. unfold Heap.swap. rewrite Hi, Hj.
  apply lookup_lt_Some in Hi as Li. apply lookup_lt_Some in Hj as Lj.
  destruct (decide (k = j)) as [-> | Hkj].
  - apply list_lookup_insert_eq. rewrite length_insert. exact Lj.
  - rewrite list_lookup_insert_ne by congruence.
    destruct (decide (k = i)) as [-> | Hki].
    + apply list_lookup_insert_eq. exact Li.
    + rewrite list_lookup_insert_ne by congruence. reflexivity.
Qed.

Lemma swap_length (q : list node) i j : length (Heap.swap q i j) = length q.
Proof.
  unfold Heap.swap. destruct (q !! i), (q !! j); try reflexivity.
  rewrite !length_insert. reflexivity.
Qed.

Lemma swap_perm (q : list node) i j : Heap.swap q i j ≡ₚ q.
Proof.
  unfold Heap.swap.
  destruct (q !! i) as [a|] eqn:Hi; [|reflexivity].
  destruct (q !! j) as [b|] eqn:Hj; [|reflexivity].
  destruct (decide (i = j)) as [-> | Hne].
  - rewrite list_insert_insert_eq. rewrite list_insert_id by congruence. reflexivity.
  - apply Permutation_inj. split; [by rewrite !length_insert|].
    exists (fun k => if decide (k = j) then i else if decide (k = i) then j else k).
    split.
    + intros x y. repeat case_decide; congruence.
    + intros k. 
      assert (i < length q) by (by eapply lookup_lt_Some).
      assert (j < length q) by (by eapply lookup_lt_Some).
      simpl. destruct (decide (k = j)) as [-> | Hkj].
      * rewrite list_lookup_insert_eq by (by rewrite length_insert). congruence.
      * rewrite list_lookup_insert_ne by congruence.
        destruct (decide (k = i)) as [-> | Hki].
        -- rewrite list_lookup_insert_eq by done. congruence.
        -- rewrite list_lookup_insert_ne by congruence. reflexivity.
Qed.


Lemma bubble_up_perm fuel : forall (q : list node) i,
  Heap.bubble_up stop_up fuel q i ≡ₚ q.
Proof.
  induction fuel as [|fuel IH]; intros q i; cbn [Heap.bubble_up]; [done|].
  destruct (0 <? i)%nat; [|done].
  destruct (q !! i); [|done]. destruct (q !! ((i - 1) / 2)); [|done].
  destruct (stop_up _ _); [done|].
  rewrite IH. apply swap_perm.
Qed.

Lemma pq_push_perm (q : list node) x : Heap.pq_push stop_up q x ≡ₚ x :: q.
Proof.
  unfold Heap.pq_push. rewrite bubble_up_perm.
  symmetry. apply Permutation_cons_append.
Qed.


Lemma bubble_down_perm fuel : forall (q : list node) i,
  Heap.bubble_down pick_right stop_down fuel q i ≡ₚ q.
Proof.
  induction fuel as [|fuel IH]; intros q i; cbn [Heap.bubble_down]; [done|].
  destruct (q !! (2 * i + 1)); [|done]. destruct (q !! i); [|done].
  match goal with |- context [q !! ?k] => destruct (q !! k) end; [|done].
  destruct (stop_down _ _); [done|].
  rewrite IH. apply swap_perm.
Qed.


Lemma pq_pop_perm (q : list node) top q' :
  Heap.pq_pop pick_right stop_down q = Some (top, q') -> q ≡ₚ top :: q'.
Proof.
  unfold Heap.pq_pop. destruct q as [|top0 rest]; [done|].
  set (size' := length (top0 :: rest) - 1).
  assert (Hsz : size' = length rest) by (unfold size'; simpl; lia).
  destruct ((top0 :: rest) !! size') as [lst|] eqn:Hlst; [|done].
  intros [= <- <-]. rewrite bubble_down_perm.
  destruct (decide (rest = [])) as [-> | Hrest]; [reflexivity|].
  destruct (exists_last Hrest) as (mid & lst' & ->).
  rewrite Hsz, length_app in *. simpl in *.
  replace (top0 :: mid ++ [lst']) with ((top0 :: mid) ++ [lst']) in * by done.
  rewrite lookup_app_r in Hlst by (simpl; lia).
  replace (length mid + 1 - length (top0 :: mid)) with 0 in Hlst by (simpl; lia).
  inversion Hlst; subst lst'.
  rewrite take_app_length' by (simpl; lia). simpl.
  rewrite <- Permutation_cons_append. reflexivity.
Qed.

Lemma pq_pop_is_Some (q : list node) :
  q <> [] -> exists top q', Heap.pq_pop pick_right stop_down q = Some (top, q').
Proof.
  intros Hne. destruct q as [|top rest]; [done|]. unfold Heap.pq_pop.
  destruct (lookup_lt_is_Some_2 (top :: rest) (length (top :: rest) - 1))
    as [lst ->]; [simpl; lia|]. eauto.
Qed.

Lemma pq_pop_top (q : list node) top q' :
  Heap.pq_pop pick_right stop_down q = Some (top, q') -> q !! 0 = Some top.
Proof.
  unfold Heap.pq_pop. destruct q as [|top0 rest]; [done|].
  destruct (_ !! _); [|done]. by intros [= <- <-].
Qed.

Lemma pq_push_length (q : list node) x :
  length (Heap.pq_push stop_up q x) = S (length q).
Proof. rewrite (Permutation_length (pq_push_perm q x)). done. Qed.
End HeapPermutation.

(** The heap order, for comparisons that all read one total preorder. *)
Section HeapOrder.
Local Open Scope nat_scope.
Import Heap.
Context {node : Type}.
Variables (stop_up pick_right stop_down : node -> node -> bool).
Variable leb : node -> node -> bool.
Hypothesis leb_total : forall a b, leb a b = true \/ leb b a = true.
Hypothesis leb_trans :
  forall a b c, leb a b = true -> leb b c = true -> leb a c = true.
Hypothesis stop_up_leb : forall c p, stop_up c p = leb c p.
Hypothesis pick_right_leb : forall r l, pick_right r l = negb (leb r l).
Hypothesis stop_down_leb : forall x c, stop_down x c = leb c x.

Lemma leb_refl a : leb a a = true.
Proof. destruct (leb_total a a); assumption. Qed.

Lemma up_inv_root q : up_inv leb q 0 -> heap leb q.
Proof. intros [Ha _] j Hj. apply Ha; lia. Qed.

Lemma bubble_up_heap fuel : forall q i,
  i <= fuel -> i < length q -> up_inv leb q i ->
  heap leb (Heap.bubble_up stop_up fuel q i).
Proof.
  induction fuel as [|fuel IH]; intros q i Hfuel Hlen Hinv;
    cbn [Heap.bubble_up].
  { apply up_inv_root. replace i with 0 in Hinv by lia. exact Hinv. }
  destruct (Nat.ltb_spec 0 i) as [Hpos | Hz];
    [| apply up_inv_root; replace i with 0 in Hinv by lia; exact Hinv].
  change ((i - 1) / 2) with (parent i).
  pose proof (parent_lt i Hpos) as Hpar.
  destruct (lookup_lt_is_Some_2 q i Hlen) as [c Hc].
  destruct (lookup_lt_is_Some_2 q (parent i) ltac:(lia)) as [p Hp].
  rewrite Hc, Hp, stop_up_leb.
  destruct Hinv as [Ha Hb].
  destruct (leb c p) eqn:Hcp.
  - (* the loop ends: the heap order holds at [i] too *)
    intros j Hj. destruct (decide (j = i)) as [-> | Hne]; [| by apply Ha].
    intros c' p' Hc' Hp'. congruence.
  - assert (Hpc : leb p c = true) by (destruct (leb_total p c); congruence).
    assert (Hsw : forall k, Heap.swap q i (parent i) !! k =
               if decide (k = parent i) then Some c
               else if decide (k = i) then Some p else q !! k).
    { intros k. apply swap_lookup; [done | done | lia]. }
    apply IH; [lia | rewrite swap_length; lia |].
    split.
    + intros j Hj Hne c' p' Hc' Hp'. rewrite Hsw in Hc', Hp'.
      destruct (decide (j = parent i)) as [|_]; [done|].
      destruct (decide (j = i)) as [-> | Hji].
      * rewrite decide_True in Hp' by done. congruence.
      * destruct (decide (parent j = parent i)) as [Epp | Npp].
        -- inversion Hp'; subst p'. apply leb_trans with p; [| exact Hpc].
           apply (Ha j Hj Hji c' p Hc'). by rewrite Epp.
        -- destruct (decide (parent j = i)) as [Epi | Npi].
           ++ inversion Hp'; subst p'. by apply (Hb j c' p Hpos Hj Epi Hc').
           ++ by apply (Ha j Hj Hji c' p' Hc').
    + intros j c' gp Hpp Hj Epj Hc' Hgp. rewrite Hsw in Hc', Hgp.
      pose proof (parent_lt (parent i) Hpp) as Hlt.
      rewrite decide_False in Hgp by lia.
      rewrite decide_False in Hgp by lia.
      assert (Hpgp : leb p gp = true).
      { apply (Ha (parent i) Hpp ltac:(lia) p gp Hp Hgp). }
      rewrite decide_False in Hc' by (pose proof (parent_lt j Hj); lia).
      destruct (decide (j = i)) as [-> | Hji].
      * congruence.
      * apply leb_trans with p; [| exact Hpgp].
        apply (Ha j Hj Hji c' p Hc'). by rewrite Epj.
Qed.

Lemma heap_snoc (q : list node) x : heap leb q -> up_inv leb (q ++ [x]) (length q).
Proof.
  intros Hq. split.
  - intros j Hj Hne c p Hc Hp.
    assert (j < length q).
    { apply lookup_lt_Some in Hc. rewrite length_app in Hc. simpl in Hc. lia. }
    rewrite lookup_app_l in Hc by lia.
    rewrite lookup_app_l in Hp by (pose proof (parent_lt j Hj); lia).
    by apply (Hq j Hj).
  - intros j c gp _ Hj Epj Hc _.
    apply lookup_lt_Some in Hc. rewrite length_app in Hc. simpl in Hc.
    pose proof (parent_lt j Hj). lia.
Qed.

Lemma pq_push_heap (q : list node) x : heap leb q -> heap leb (Heap.pq_push stop_up q x).
Proof.
  intros Hq. unfold Heap.pq_push. apply bubble_up_heap.
  - lia.
  - rewrite length_app. simpl. lia.
  - by apply heap_snoc.
Qed.

Lemma down_inv_heap q i :
  down_inv leb q i ->
  (forall j c x, 0 < j -> parent j = i ->
      q !! j = Some c -> q !! i = Some x -> leb c x = true) ->
  heap leb q.
Proof.
  intros [Ha _] Hch j Hj. destruct (decide (parent j = i)) as [E | N].
  - intros c p Hc Hp. rewrite E in Hp. by apply (Hch j c p).
  - by apply Ha.
Qed.

Lemma pick_largest (q : list node) i l :
  q !! (2 * i + 1) = Some l ->
  exists largest c,
    match q !! (2 * i + 2) with
    | Some r => if pick_right r l then 2 * i + 2 else 2 * i + 1
    | None => 2 * i + 1
    end = largest /\
    q !! largest = Some c /\ parent largest = i /\ i < largest /\
    forall j cj, 0 < j -> parent j = i -> q !! j = Some cj -> leb cj c = true.
Proof.
  intros Hl.
  assert (Pl : parent (2 * i + 1) = i) by (apply parent_child; lia).
  assert (Pr : parent (2 * i + 2) = i) by (apply parent_child; lia).
  destruct (q !! (2 * i + 2)) as [r|] eqn:Hr.
  - rewrite pick_right_leb. destruct (leb r l) eqn:Hrl; simpl.
    + exists (2 * i + 1), l. repeat split; [done | done | lia |].
      intros j cj Hj Epj Hcj. apply (parent_child i j Hj) in Epj as [-> | ->].
      * rewrite Hl in Hcj. inversion Hcj; subst. apply leb_refl.
      * congruence.
    + exists (2 * i + 2), r. repeat split; [done | done | lia |].
      intros j cj Hj Epj Hcj. apply (parent_child i j Hj) in Epj as [-> | ->].
      * rewrite Hl in Hcj. inversion Hcj; subst.
        destruct (leb_total cj r); congruence.
      * rewrite Hr in Hcj. inversion Hcj; subst. apply leb_refl.
  - exists (2 * i + 1), l. repeat split; [done | done | lia |].
    intros j cj Hj Epj Hcj. apply (parent_child i j Hj) in Epj as [-> | ->].
    + rewrite Hl in Hcj. inversion Hcj; subst. apply leb_refl.
    + congruence.
Qed.

Lemma bubble_down_heap fuel : forall q i,
  length q <= fuel + i -> down_inv leb q i ->
  heap leb (Heap.bubble_down pick_right stop_down fuel q i).
Proof.
  induction fuel as [|fuel IH]; intros q i Hfuel Hinv;
    cbn [Heap.bubble_down].
  { apply (down_inv_heap q i Hinv). intros j c x Hj Epj Hc _.
    apply lookup_lt_Some in Hc. apply (parent_child i j Hj) in Epj; lia. }
  destruct (q !! (2 * i + 1)) as [l|] eqn:Hl.
  2:{ apply (down_inv_heap q i Hinv). intros j c x Hj Epj Hc _.
      apply lookup_ge_None in Hl. apply lookup_lt_Some in Hc.
      apply (parent_child i j Hj) in Epj; lia. }
  destruct (q !! i) as [x|] eqn:Hx.
  2:{ apply lookup_ge_None in Hx. apply lookup_lt_Some in Hl. lia. }
  destruct (pick_largest q i l Hl) as (largest & c & -> & Hc & Epl & Hil & Hbest).
  rewrite Hc, stop_down_leb.
  destruct (leb c x) eqn:Hcx.
  - apply (down_inv_heap q i Hinv). intros j cj x' Hj Epj Hcj Hx'.
    rewrite Hx in Hx'. inversion Hx'; subst x'.
    apply leb_trans with c; [by apply (Hbest j) | done].
  - assert (Hxc : leb x c = true) by (destruct (leb_total x c); congruence).
    assert (Hsw : forall k, Heap.swap q i largest !! k =
               if decide (k = largest) then Some x
               else if decide (k = i) then Some c else q !! k).
    { intros k. apply swap_lookup; [done | done | lia]. }
    destruct Hinv as [Ha Hb].
    apply IH; [rewrite swap_length; lia |].
    split.
    + intros j Hj Npj c' p' Hc' Hp'. rewrite Hsw in Hc', Hp'.
      rewrite (decide_False (P := parent j = largest)) in Hp' by done.
      destruct (decide (j = largest)) as [-> | Njl].
      * rewrite Epl, decide_True in Hp' by done. congruence.
      * destruct (decide (j = i)) as [-> | Nji].
        -- rewrite decide_False in Hp' by (pose proof (parent_lt i Hj); lia).
           inversion Hc'; subst c'.
           apply (Hb largest c p' Hj ltac:(lia) Epl Hc Hp').
        -- destruct (decide (parent j = i)) as [Epj | Npi].
           ++ inversion Hp'; subst p'. by apply (Hbest j).
           ++ by apply (Ha j Hj Npi).
    + intros j c' gp Hlpos Hj Epj Hc' Hgp. rewrite Hsw in Hc', Hgp.
      pose proof (parent_lt j Hj) as Hlt.
      rewrite Epl in Hgp.
      rewrite decide_False, decide_True in Hgp by (done || lia).
      rewrite !decide_False in Hc' by lia.
      inversion Hgp; subst gp.
      apply (Ha j Hj ltac:(lia) c' c Hc'). by rewrite Epj.
Qed.

(** The root of a heap is a best element. *)
Lemma heap_root_best (q : list node) top :
  heap leb q -> q !! 0 = Some top ->
  forall j c, q !! j = Some c -> leb c top = true.
Proof.
  intros Hq Htop j. induction (lt_wf j) as [j _ IH]. intros c Hc.
  destruct (decide (j = 0)) as [-> | Hj].
  - replace c with top by congruence. apply leb_refl.
  - assert (0 < j) as Hpos by lia. pose proof (parent_lt j Hpos) as Hlt.
    destruct (lookup_lt_is_Some_2 q (parent j)) as [p Hp].
    { apply lookup_lt_Some in Hc. lia. }
    apply leb_trans with p; [by apply (Hq j Hpos) | by apply (IH (parent j) Hlt)].
Qed.


Lemma pq_pop_heap (q : list node) top q' :
  heap leb q -> Heap.pq_pop pick_right stop_down q = Some (top, q') ->
  heap leb q'.
Proof.
  intros Hq. unfold Heap.pq_pop. destruct q as [|top0 rest]; [done|].
  set (size' := length (top0 :: rest) - 1).
  destruct ((top0 :: rest) !! size') as [lst|] eqn:Hlst; [|done].
  intros [= <- <-].
  apply bubble_down_heap; [rewrite length_insert, length_take; lia|].
  split.
  - intros j Hj Npj c p Hc Hp.
    assert (j < size').
    { apply lookup_lt_Some in Hc. rewrite length_insert, length_take in Hc. lia. }
    pose proof (parent_lt j Hj).
    rewrite list_lookup_insert_ne in Hc by lia.
    rewrite list_lookup_insert_ne in Hp by lia.
    rewrite lookup_take_lt in Hc by lia. rewrite lookup_take_lt in Hp by lia.
    by apply (Hq j Hj).
  - intros; lia.
Qed.

Lemma reachable_heap capacity (q : list node) :
  Heap.reachable stop_up pick_right stop_down capacity q -> heap leb q.
Proof.
  induction 1 as [| q x _ IH _ | q top q' _ IH Hpop].
  - intros j _ c p Hc. done.
  - by apply pq_push_heap.
  - by apply (pq_pop_heap q top).
Qed.

(** [pq_pop] on a non-empty heap returns a best node and keeps the others. *)
Lemma pq_pop_spec (q : list node) :
  heap leb q -> q <> [] ->
  exists top q',
    Heap.pq_pop pick_right stop_down q = Some (top, q') /\
    q ≡ₚ top :: q' /\
    heap leb q' /\
    Forall (fun c => leb c top = true) q.
Proof.
  intros Hq Hne.
  destruct (pq_pop_is_Some pick_right stop_down q Hne) as (top & q' & Hpop).
  exists top, q'. split; [done|]. split; [by eapply pq_pop_perm|].
  split; [by eapply pq_pop_heap|].
  apply Forall_lookup. intros j c Hc.
  apply (heap_root_best q top Hq (pq_pop_top _ _ _ _ _ Hpop) j c Hc).
Qed.
End HeapOrder.

(** ** The priority queues of the knapsack and the TSP solver *)

Lemma Qle_bool_total (a b : Q) : Qle_bool a b = true \/ Qle_bool b a = true.
Proof.
  destruct (Qlt_le_dec a b) as [Hlt | Hle].
  - left. apply Qle_bool_iff, Qlt_le_weak, Hlt.
  - right. apply Qle_bool_iff, Hle.
Qed.

Lemma Qle_bool_trans (a b c : Q) :
  Qle_bool a b = true -> Qle_bool b c = true -> Qle_bool a c = true.
Proof. rewrite !Qle_bool_iff. apply Qle_trans. Qed.

Lemma knapsack_queue_heap (q : Knapsack.PriorityQueue Q) :
  Knapsack.pq_reachable q ->
  Heap.heap (fun c p => Qle_bool (Knapsack.bound c) (Knapsack.bound p)) q.
Proof.
  apply reachable_heap; intros; try reflexivity.
  - apply Qle_bool_total.
  - eapply Qle_bool_trans; eassumption.
Qed.

Lemma tsp_queue_heap (q : TSP.PriorityQueue) :
  TSP.pq_reachable q ->
  Heap.heap (fun c p => TSP.bound p <=? TSP.bound c) q.
Proof.
  apply reachable_heap; intros; try reflexivity.
  - lia.
  - lia.
  - apply Z.ltb_antisym.
Qed.

(** C4.  In every queue built from [pq_init] by [pq_push] while the array has
    room and by [pq_pop] on non-empty queues, [pq_pop] succeeds, takes out one
    occurrence of the node it returns and leaves the others, and no node of
    the queue has a better bound than the returned one: none has a larger
    bound in the knapsack queue (a max-heap), none a smaller bound in the TSP
    queue (a min-heap). *)
Theorem pq_pop_returns_best :
  (forall q : Knapsack.PriorityQueue Q,
      Knapsack.pq_reachable q -> q <> [] ->
      exists top q',
        Knapsack.pq_pop q = Some (top, q') /\ q ≡ₚ top :: q' /\
        Forall (fun c => (Knapsack.bound c <= Knapsack.bound top)%Q) q) /\
  (forall q : TSP.PriorityQueue,
      TSP.pq_reachable q -> q <> [] ->
      exists top q',
        TSP.pq_pop q = Some (top, q') /\ q ≡ₚ top :: q' /\
        Forall (fun c => TSP.bound top <= TSP.bound c) q).
Proof.
  split; intros q Hreach Hne.
  - destruct (pq_pop_spec
                (fun r l => d_lt (Knapsack.bound l) (Knapsack.bound r))
                (fun x c => d_le (Knapsack.bound c) (Knapsack.bound x))
                (fun c p => Qle_bool (Knapsack.bound c) (Knapsack.bound p)))
      with (q := q) as (top & q' & Hpop & Hperm & _ & Hbest);
      try (intros; reflexivity); try done.
    + intros; apply Qle_bool_total.
    + intros; eapply Qle_bool_trans; eassumption.
    + by apply knapsack_queue_heap.
    + exists top, q'. split; [exact Hpop|]. split; [exact Hperm|].
      eapply Forall_impl; [exact Hbest|]. intros c Hc. by apply Qle_bool_iff.
  - destruct (pq_pop_spec
                (fun r l => TSP.bound r <? TSP.bound l)
                (fun x c => TSP.bound x <=? TSP.bound c)
                (fun c p => TSP.bound p <=? TSP.bound c))
      with (q := q) as (top & q' & Hpop & Hperm & _ & Hbest);
      try (intros; reflexivity); try done.
    + intros; lia.
    + intros; lia.
    + intros; apply Z.ltb_antisym.
    + by apply tsp_queue_heap.
    + exists top, q'. split; [exact Hpop|]. split; [exact Hperm|].
      eapply Forall_impl; [exact Hbest|]. intros c Hc. simpl in Hc. lia.
Qed.

Lemma pq_pop_returns_best_witness :
  let q := TSP.pq_push (TSP.pq_push (TSP.pq_push TSP.pq_init
             (TSP.mkNode [] [] 0 30 1)) (TSP.mkNode [] [] 0 10 1))
             (TSP.mkNode [] [] 0 20 1) in
  exists top q',
    TSP.pq_pop q = Some (top, q') /\ q ≡ₚ top :: q' /\
    Forall (fun c => TSP.bound top <= TSP.bound c) q.
Proof.
  apply (proj2 pq_pop_returns_best).
  - repeat (apply Heap.reach_push; [| vm_compute; lia]). apply Heap.reach_init.
  - vm_compute. discriminate.
Defined.

(** ** The knapsack solver on concrete instances *)

(** C8.  On items A(1, 15), B(3, 20), C(4, 30), D(5, 40) with capacity 7,
    [solve_knapsack] ends (13 rounds of fuel are enough) with maximum profit
    55; the flagged items are those with [index] 0 and 3, that is A and D,
    of total weight 6.  This holds in binary64 arithmetic and in exact
    arithmetic alike. *)
Theorem scenario_A_solved :
  (exists g : Knapsack.Globals float,
      Knapsack.solve_knapsack 13 Knapsack.scenario_A = Some g /\
      Knapsack.max_profit g = 55 /\
      Knapsack.index <$> Knapsack.chosen (take (Knapsack.n g) (Knapsack.items g))
                                         (Knapsack.best_solution g) = [0; 3] /\
      Knapsack.solution_weight g (Knapsack.best_solution g) = 6) /\
  (exists g : Knapsack.Globals Q,
      Knapsack.solve_knapsack 13 Knapsack.scenario_A = Some g /\
      Knapsack.max_profit g = 55 /\
      Knapsack.index <$> Knapsack.chosen (take (Knapsack.n g) (Knapsack.items g))
                                         (Knapsack.best_solution g) = [0; 3] /\
      Knapsack.solution_weight g (Knapsack.best_solution g) = 6).
Proof.
  split; eexists; (split; [vm_compute; reflexivity |]);
    repeat split; vm_compute; reflexivity.
Qed.

(** C1, at the first test case of [main]: branch and bound ends with profit
    180, the exhaustive enumeration that [main] runs next finds 220. *)
Theorem test_case_1_not_optimal :
  exists g : Knapsack.Globals float,
    Knapsack.solve_knapsack 12 Knapsack.test_case_1 = Some g /\
    Knapsack.max_profit g = 180 /\
    Knapsack.res_max_profit (Knapsack.brute_force_knapsack g) = 220.
Proof.
  eexists; (split; [vm_compute; reflexivity |]); split; vm_compute; reflexivity.
Qed.

(** C2, at a node of the same run: items 1 and 2 taken (weight 50, the
    capacity; profit 220).  The node is within capacity and is its own
    completion, yet its bound is 0. *)
Theorem bound_at_capacity_undersells :
  let g : Knapsack.Globals float := (Knapsack.solve_init Knapsack.test_case_1).1 in
  let node := Knapsack.mkNode 3 220 50 0%float ([0; 1; 1] ++ replicate 17 0) in
  Knapsack.node_weight node <= Knapsack.capacity g /\
  Knapsack.solution_profit g (Knapsack.included node) = Knapsack.profit node /\
  Knapsack.solution_weight g (Knapsack.included node) = Knapsack.node_weight node /\
  Knapsack.calculate_bound g node = 0%float /\
  d_lt (Knapsack.calculate_bound g node) (d_of_int (Knapsack.profit node)) = true.
Proof. repeat split; vm_compute; (reflexivity || discriminate). Qed.

(** ** The incumbent only improves *)

Section KnapsackIncumbent.
Context {D : Type} `{Double D}.
Import Knapsack.

Lemma offer_max_profit (g : Globals D) pq nd :
  max_profit (offer g pq nd).1 = max_profit g.
Proof. unfold offer. by destruct (d_lt _ _). Qed.

Lemma visit_max_profit (g : Globals D) current pq :
  max_profit (visit g current pq).1 = max_profit g \/
  (level current = n g /\ max_profit g < profit current /\
   max_profit (visit g current pq).1 = profit current).
Proof.
  unfold visit. simpl.
  destruct (d_le _ _); [by left|].
  destruct (Nat.eqb_spec (level current) (n g)) as [Hlvl | _].
  - destruct (Z.ltb_spec (max_profit g) (profit current)); simpl; [right | left]; done.
  - left. destruct (_ <=? _).
    + destruct (offer (explore g) pq _) as [g1 pq1] eqn:E. simpl.
      rewrite offer_max_profit.
      change g1 with (g1, pq1).1. rewrite <- E. by rewrite offer_max_profit.
    + simpl. by rewrite offer_max_profit.
Qed.
End KnapsackIncumbent.

Section TSPIncumbent.
Import TSP.

Lemma branch_best_cost current s city :
  best_cost (branch current s city).1 = best_cost s.1.
Proof.
  unfold branch. destruct s as [g pq]. destruct (visited_at _ _); [done|].
  by destruct (_ <? _).
Qed.

Lemma branches_best_cost current cities : forall s,
  best_cost (foldl (branch current) s cities).1 = best_cost s.1.
Proof.
  induction cities as [|c cities IH]; intros s; simpl; [done|].
  by rewrite IH, branch_best_cost.
Qed.

Lemma visit_best_cost g current pq :
  best_cost (visit g current pq).1 = best_cost g \/
  (level current = n g /\ total_cost g current < best_cost g /\
   best_cost (visit g current pq).1 = total_cost g current).
Proof.
  unfold visit. simpl.
  destruct (_ <=? _); [by left|].
  destruct (Nat.eqb_spec (level current) (n g)) as [Hlvl | _].
  - change (total_cost (explore g) current) with (total_cost g current).
    destruct (Z.ltb_spec (total_cost g current) (best_cost g));
      simpl; [right | left]; done.
  - left. by rewrite branches_best_cost.
Qed.
End TSPIncumbent.

Section AssignmentIncumbent.
Import Assignment.

Lemma branch_min_cost current s job :
  min_cost (branch current s job).1 = min_cost s.1.
Proof.
  unfold branch. destruct s as [g pq]. destruct (used_at _ _); [done|].
  by destruct (_ <? _).
Qed.

Lemma branches_min_cost current jobs : forall s,
  min_cost (foldl (branch current) s jobs).1 = min_cost s.1.
Proof.
  induction jobs as [|j jobs IH]; intros s; simpl; [done|].
  by rewrite IH, branch_min_cost.
Qed.

Lemma visit_min_cost g current pq :
  min_cost (visit g current pq).1 = min_cost g \/
  (level current = n g /\ cost current < min_cost g /\
   min_cost (visit g current pq).1 = cost current).
Proof.
  unfold visit. simpl.
  destruct (_ <=? _); [by left|].
  destruct (Nat.eqb_spec (level current) (n g)) as [Hlvl | _].
  - destruct (Z.ltb_spec (cost current) (min_cost g));
      simpl; [right | left]; done.
  - left. by rewrite branches_min_cost.
Qed.
End AssignmentIncumbent.

(** A quantity that no round of a loop lets decrease does not decrease over
    any number of rounds. *)
Lemma iterate_monotone {S : Type} (step : S -> option S) (m : S -> Z) :
  (forall s s', step s = Some s' -> m s <= m s') ->
  forall k s s', iterate step k s = Some s' -> m s <= m s'.
Proof.
  intros Hstep. induction k as [|k IH]; intros s s'; simpl.
  - intros [= ->]. lia.
  - destruct (step s) as [s1|] eqn:E; [|done]. intros Hk.
    pose proof (Hstep s s1 E). pose proof (IH s1 s' Hk). lia.
Qed.

Lemma knapsack_step_incumbent {D : Type} `{Double D}
  (s s' : Knapsack.Globals D * Knapsack.PriorityQueue D) :
  Knapsack.step s = Some s' ->
  Knapsack.max_profit s'.1 = Knapsack.max_profit s.1 \/
  exists current pq,
    Knapsack.pq_pop s.2 = Some (current, pq) /\
    Knapsack.level current = Knapsack.n s.1 /\
    Knapsack.max_profit s.1 < Knapsack.profit current /\
    Knapsack.max_profit s'.1 = Knapsack.profit current.
Proof.
  unfold Knapsack.step.
  destruct (Knapsack.pq_pop s.2) as [[current pq]|]; [|done]. intros [= <-].
  destruct (visit_max_profit s.1 current pq) as [E | (? & ? & ?)];
    [by left | right; eauto 6].
Qed.

Lemma tsp_step_incumbent s s' :
  TSP.step s = Some s' ->
  TSP.best_cost s'.1 = TSP.best_cost s.1 \/
  exists current pq,
    TSP.pq_pop s.2 = Some (current, pq) /\
    TSP.level current = TSP.n s.1 /\
    TSP.total_cost s.1 current < TSP.best_cost s.1 /\
    TSP.best_cost s'.1 = TSP.total_cost s.1 current.
Proof.
  unfold TSP.step.
  destruct (TSP.pq_pop s.2) as [[current pq]|]; [|done]. intros [= <-].
  destruct (visit_best_cost s.1 current pq) as [E | (? & ? & ?)];
    [by left | right; eauto 6].
Qed.

Lemma assignment_step_incumbent s s' :
  Assignment.step s = Some s' ->
  Assignment.min_cost s'.1 = Assignment.min_cost s.1 \/
  exists current pq,
    Assignment.pq_pop s.2 = Some (current, pq) /\
    Assignment.level current = Assignment.n s.1 /\
    Assignment.cost current < Assignment.min_cost s.1 /\
    Assignment.min_cost s'.1 = Assignment.cost current.
Proof.
  unfold Assignment.step.
  destruct (Assignment.pq_pop s.2) as [[current pq]|]; [|done]. intros [= <-].
  destruct (visit_min_cost s.1 current pq) as [E | (? & ? & ?)];
    [by left | right; eauto 6].
Qed.

(** C7.  In every round of the loop of each solver the incumbent value either
    stays as it is, or the node popped in this round is terminal
    ([level = n]), its value (the profit of the knapsack node, the cost of the
    TSP node plus the edge back to city 0, the cost of the assignment node) is
    strictly better than the incumbent and becomes the new incumbent.  So
    over any number of rounds, from any state, [max_profit] does not decrease
    and [best_cost] and [min_cost] do not increase. *)
Theorem incumbent_monotone :
  (forall (D : Type) (HD : Double D)
          (s s' : Knapsack.Globals D * Knapsack.PriorityQueue D),
      Knapsack.step s = Some s' ->
      Knapsack.max_profit s'.1 = Knapsack.max_profit s.1 \/
      exists current pq,
        Knapsack.pq_pop s.2 = Some (current, pq) /\
        Knapsack.level current = Knapsack.n s.1 /\
        Knapsack.max_profit s.1 < Knapsack.profit current /\
        Knapsack.max_profit s'.1 = Knapsack.profit current) /\
  (forall s s',
      TSP.step s = Some s' ->
      TSP.best_cost s'.1 = TSP.best_cost s.1 \/
      exists current pq,
        TSP.pq_pop s.2 = Some (current, pq) /\
        TSP.level current = TSP.n s.1 /\
        TSP.total_cost s.1 current < TSP.best_cost s.1 /\
        TSP.best_cost s'.1 = TSP.total_cost s.1 current) /\
  (forall s s',
      Assignment.step s = Some s' ->
      Assignment.min_cost s'.1 = Assignment.min_cost s.1 \/
      exists current pq,
        Assignment.pq_pop s.2 = Some (current, pq) /\
        Assignment.level current = Assignment.n s.1 /\
        Assignment.cost current < Assignment.min_cost s.1 /\
        Assignment.min_cost s'.1 = Assignment.cost current) /\
  (forall (D : Type) (HD : Double D) k
          (s s' : Knapsack.Globals D * Knapsack.PriorityQueue D),
      iterate Knapsack.step k s = Some s' ->
      Knapsack.max_profit s.1 <= Knapsack.max_profit s'.1) /\
  (forall k s s',
      iterate TSP.step k s = Some s' ->
      TSP.best_cost s'.1 <= TSP.best_cost s.1) /\
  (forall k s s',
      iterate Assignment.step k s = Some s' ->
      Assignment.min_cost s'.1 <= Assignment.min_cost s.1).
Proof.
  split; [exact (@knapsack_step_incumbent)|].
  split; [exact tsp_step_incumbent|].
  split; [exact assignment_step_incumbent|].
  split; [|split].
  - intros D HD k.
    apply (iterate_monotone Knapsack.step (fun s => Knapsack.max_profit s.1)).
    intros s s' Hs.
    destruct (knapsack_step_incumbent s s' Hs) as [-> | (c & pq & _ & _ & ? & ->)];
      lia.
  - intros k s s' Hk.
    pose proof (iterate_monotone TSP.step (fun s => - TSP.best_cost s.1)) as M.
    simpl in M. cut (- TSP.best_cost s.1 <= - TSP.best_cost s'.1); [lia|].
    eapply M; [|exact Hk].
    intros s0 s1 Hs.
    destruct (tsp_step_incumbent s0 s1 Hs) as [-> | (c & pq & _ & _ & ? & ->)];
      lia.
  - intros k s s' Hk.
    pose proof (iterate_monotone Assignment.step
                  (fun s => - Assignment.min_cost s.1)) as M.
    simpl in M.
    cut (- Assignment.min_cost s.1 <= - Assignment.min_cost s'.1); [lia|].
    eapply M; [|exact Hk].
    intros s0 s1 Hs.
    destruct (assignment_step_incumbent s0 s1 Hs)
      as [-> | (c & pq & _ & _ & ? & ->)]; lia.
Qed.

(** ** What a node of the TSP search stands for *)

Section TSPNodes.
Import TSP.

Lemma edge_graph g g' i j : graph g = graph g' -> edge g i j = edge g' i j.
Proof. unfold edge. by intros ->. Qed.

Lemma walk_cost_graph g g' : graph g = graph g' ->
  forall cities prev, walk_cost g prev cities = walk_cost g' prev cities.
Proof.
  intros E. induction cities as [|c cities IH]; intros prev; simpl.
  - by apply edge_graph.
  - by rewrite IH, (edge_graph g g').
Qed.

(** Going on to one more city replaces the edge back to city 0. *)
Lemma walk_cost_snoc g c : forall cities prev,
  walk_cost g prev (cities ++ [c])
  = walk_cost g prev cities - edge g (default prev (last cities)) 0
    + edge g (default prev (last cities)) c + edge g c 0.
Proof.
  induction cities as [|a cities IH]; intros prev; simpl; [lia|].
  rewrite IH. destruct cities as [|b cities]; [simpl; lia|].
  replace (default prev (last (a :: b :: cities)))
    with (default a (last (b :: cities))); [lia|].
  rewrite last_cons_cons. destruct (last_is_Some (b :: cities)) as [_ [x Hx]];
    [done|]. by rewrite Hx.
Qed.

Lemma tsp_node_ok_graph g g' nd :
  graph g = graph g' -> n g = n g' -> node_ok g nd -> node_ok g' nd.
Proof.
  intros Eg En (Hl & Hp & H0 & Hw). unfold node_ok.
  rewrite <- En, <- (walk_cost_graph g g' Eg), <- (edge_graph g g' _ _ Eg).
  done.
Qed.

Lemma tsp_root_node_ok g junk :
  length junk = MAX_CITIES -> node_ok g (root_node g junk).
Proof.
  intros Hj. unfold node_ok, root_node, set_bound; simpl.
  assert (<[0%nat:=0%nat]> junk !! 0%nat = Some 0%nat) as H0.
  { apply list_lookup_insert_eq. rewrite Hj. unfold MAX_CITIES. lia. }
  split; [lia|]. split; [by rewrite length_insert|]. split; [done|].
  unfold path_at. rewrite H0. simpl.
  destruct (<[0%nat:=0%nat]> junk) as [|a l]; [done|]. simpl.
  rewrite ?take_0. simpl. lia.
Qed.

Lemma tsp_child_ok g current city :
  (n g <= MAX_CITIES)%nat -> (level current < n g)%nat ->
  node_ok g current -> node_ok g (child g current city).
Proof.
  intros Hn Hlt (Hl & Hp & H0 & Hw). unfold node_ok, child, set_bound; simpl.
  assert (Hin : (level current < length (path current))%nat) by lia.
  split; [lia|]. split; [by rewrite length_insert|].
  split; [rewrite list_lookup_insert_ne by lia; done|].
  replace (level current + 1)%nat with (S (level current)) by lia.
  rewrite (take_S_r _ _ city) by (by apply list_lookup_insert_eq).
  rewrite take_insert_ge by lia.
  rewrite drop_app_le by (rewrite length_take; lia).
  rewrite walk_cost_snoc, Hw.
  replace (S (level current) - 1)%nat with (level current) by lia.
  unfold path_at at 3. rewrite list_lookup_insert_eq by done. simpl.
  assert (default 0%nat (last (drop 1 (take (level current) (path current))))
          = path_at (path current) (level current - 1)) as ->; [|lia].
  unfold path_at.
  destruct (decide (level current = 1%nat)) as [E1 | N1].
  - rewrite E1. simpl. destruct (path current) as [|a l]; [done|].
    simpl. rewrite ?take_0. simpl. simpl in H0. by inversion H0.
  - rewrite last_lookup, length_drop, length_take, lookup_drop.
    rewrite lookup_take_lt by lia.
    replace (1 + Init.Nat.pred (level current `min` length (path current) - 1))%nat
      with (level current - 1)%nat by lia.
    destruct (lookup_lt_is_Some_2 (path current) (level current - 1)) as [x ->];
      [lia | done].
Qed.

Lemma tsp_pq_push_Forall (P : TSPNode -> Prop) pq nd :
  Forall P pq -> P nd -> Forall P (pq_push pq nd).
Proof.
  intros Hpq Hnd. unfold pq_push.
  rewrite (pq_push_perm _ pq nd). by constructor.
Qed.

Lemma tsp_pq_pop_Forall (P : TSPNode -> Prop) pq current pq' :
  Forall P pq -> pq_pop pq = Some (current, pq') -> P current /\ Forall P pq'.
Proof.
  intros Hpq Hpop. apply pq_pop_perm in Hpop. rewrite Hpop in Hpq.
  by apply Forall_cons_1 in Hpq.
Qed.

Lemma tsp_branch_ok g current s city :
  (n g <= MAX_CITIES)%nat -> (level current < n g)%nat -> node_ok g current ->
  state_ok g s -> state_ok g (branch current s city).
Proof.
  intros Hn Hlt Hcur (Eg & En & Hq). unfold branch. destruct s as [g1 pq].
  simpl in *. destruct (visited_at _ _); [done|].
  destruct (_ <? _); [|done].
  split; [done|]. split; [done|]. simpl.
  apply tsp_pq_push_Forall; [done|].
  apply (tsp_node_ok_graph g1 g); [done | done |].
  apply tsp_child_ok; [lia | lia |]. by apply (tsp_node_ok_graph g g1).
Qed.

Lemma tsp_branches_ok g current cities :
  (n g <= MAX_CITIES)%nat -> (level current < n g)%nat -> node_ok g current ->
  forall s, state_ok g s -> state_ok g (foldl (branch current) s cities).
Proof.
  intros Hn Hlt Hcur. induction cities as [|c cities IH]; intros s Hs; simpl;
    [done|]. apply IH. by apply tsp_branch_ok.
Qed.

Lemma tsp_visit_ok g g1 current pq :
  (n g <= MAX_CITIES)%nat -> node_ok g current ->
  state_ok g (g1, pq) -> state_ok g (visit g1 current pq).
Proof.
  intros Hn Hcur (Eg & En & Hq). simpl in *. unfold visit.
  destruct (_ <=? _); [done|].
  destruct (Nat.eqb_spec (level current) (n (explore g1))) as [E | N].
  - by destruct (_ <? _).
  - simpl in N. destruct (decide (n g <= 1)%nat) as [Hsmall | Hbig].
    + replace (n (explore g1) - 1)%nat with 0%nat by (simpl; lia). done.
    + apply tsp_branches_ok; [done | | done | done].
      destruct Hcur as (Hl & _). lia.
Qed.

Lemma tsp_step_ok g s s' :
  (n g <= MAX_CITIES)%nat -> state_ok g s -> step s = Some s' -> state_ok g s'.
Proof.
  intros Hn Hs. unfold step.
  destruct (pq_pop s.2) as [[current pq]|] eqn:Hpop; [|done]. intros [= <-].
  destruct Hs as (Eg & En & Hq).
  destruct (tsp_pq_pop_Forall _ _ _ _ Hq Hpop) as [Hcur Hq'].
  by apply tsp_visit_ok.
Qed.

Lemma tsp_solve_init_ok g junk :
  length junk = MAX_CITIES -> state_ok g (solve_init g junk).
Proof.
  intros Hj. unfold solve_init. split; [done|]. split; [done|]. simpl.
  apply tsp_pq_push_Forall; [constructor|].
  apply (tsp_node_ok_graph (mkGlobals (graph g) (n g) INF (best_path g) 0 0) g);
    [done | done |]. by apply tsp_root_node_ok.
Qed.

Lemma tsp_iterate_ok g k : forall s s',
  (n g <= MAX_CITIES)%nat -> state_ok g s ->
  iterate step k s = Some s' -> state_ok g s'.
Proof.
  induction k as [|k IH]; intros s s' Hn Hs; simpl.
  - by intros [= <-].
  - destruct (step s) as [s1|] eqn:E; [|done].
    apply IH; [done|]. by apply (tsp_step_ok g s).
Qed.
End TSPNodes.

(** C3, as the code has it.  For an instance of at most [MAX_CITIES] cities,
    every node that is in the queue after any number of rounds of [solve_tsp]
    and has [level = n] satisfies: the cost of the closed tour
    [0, path[1], ..., path[n-1], 0], as [brute_force_tsp] computes it, is the
    node's [cost] plus [graph[path[n-1]][0]], the sum [total_cost] that the
    loop compares with the incumbent.  The [cost] field alone is the cost of
    the open path. *)
Theorem terminal_cost_excludes_return g junk k s node :
  (TSP.n g <= TSP.MAX_CITIES)%nat ->
  length junk = TSP.MAX_CITIES ->
  iterate TSP.step k (TSP.solve_init g junk) = Some s ->
  node ∈ s.2 ->
  TSP.level node = TSP.n g ->
  TSP.tour_cost g (TSP.tour_of g node)
  = TSP.cost node + TSP.edge g (TSP.path_at (TSP.path node) (TSP.n g - 1)) 0
  /\ TSP.total_cost s.1 node = TSP.tour_cost g (TSP.tour_of g node).
Proof.
  intros Hn Hj Hk Hin Hlvl.
  pose proof (tsp_iterate_ok g k _ _ Hn (tsp_solve_init_ok g junk Hj) Hk) as (Eg & En & Hq).
  rewrite Forall_forall in Hq. destruct (Hq node Hin) as (_ & _ & _ & Hw).
  rewrite Hlvl in Hw. unfold TSP.tour_cost, TSP.tour_of. split; [exact Hw|].
  unfold TSP.total_cost. rewrite En, Hw. by rewrite (edge_graph s.1 g).
Qed.

Lemma terminal_cost_excludes_return_witness :
  exists s node,
    iterate TSP.step 7 (TSP.solve_init TSP.four_cities (replicate TSP.MAX_CITIES 0%nat))
    = Some s /\ s.2 !! 0%nat = Some node /\
    TSP.level node = 4%nat /\
    (TSP.tour_cost TSP.four_cities (TSP.tour_of TSP.four_cities node)
     = TSP.cost node
       + TSP.edge TSP.four_cities (TSP.path_at (TSP.path node) (4 - 1)) 0
     /\ TSP.total_cost s.1 node
        = TSP.tour_cost TSP.four_cities (TSP.tour_of TSP.four_cities node)).
Proof.
  eexists _, _. split; [vm_compute; reflexivity|].
  split; [vm_compute; reflexivity|]. split; [vm_compute; reflexivity|].
  apply (terminal_cost_excludes_return TSP.four_cities
           (replicate TSP.MAX_CITIES 0%nat) 7).
  - vm_compute; lia.
  - vm_compute; reflexivity.
  - vm_compute; reflexivity.
  - apply list_elem_of_lookup. exists 0%nat. vm_compute; reflexivity.
  - vm_compute; reflexivity.
Defined.

(** ** The heap moves nodes by their bounds alone *)

Section HeapRelational.
Local Open Scope nat_scope.
Context {node : Type}.
Variables (stop_up pick_right stop_down : node -> node -> bool).
Variable R : node -> node -> Prop.
Hypothesis stop_up_R : forall a a' b b',
  R a a' -> R b b' -> stop_up a b = stop_up a' b'.
Hypothesis pick_right_R : forall a a' b b',
  R a a' -> R b b' -> pick_right a b = pick_right a' b'.
Hypothesis stop_down_R : forall a a' b b',
  R a a' -> R b b' -> stop_down a b = stop_down a' b'.

Lemma Forall2_lookup_cases (q q' : list node) i :
  Forall2 R q q' ->
  (exists x y, q !! i = Some x /\ q' !! i = Some y /\ R x y) \/
  (q !! i = None /\ q' !! i = None).
Proof.
  intros HR. pose proof (proj1 (Forall2_lookup R q q') HR i) as Hi.
  inversion Hi; [left | right]; eauto.
Qed.

Lemma swap_Forall2 (q q' : list node) i j :
  Forall2 R q q' -> Forall2 R (Heap.swap q i j) (Heap.swap q' i j).
Proof.
  intros HR. unfold Heap.swap.
  destruct (Forall2_lookup_cases q q' i HR) as [(a & a' & -> & -> & Ha) | [-> ->]];
    [|done].
  destruct (Forall2_lookup_cases q q' j HR) as [(b & b' & -> & -> & Hb) | [-> ->]];
    [|done].
  by repeat apply Forall2_insert.
Qed.

Lemma bubble_up_Forall2 fuel : forall (q q' : list node) i,
  Forall2 R q q' ->
  Forall2 R (Heap.bubble_up stop_up fuel q i) (Heap.bubble_up stop_up fuel q' i).
Proof.
  induction fuel as [|fuel IH]; intros q q' i HR; cbn [Heap.bubble_up]; [done|].
  destruct (0 <? i); [|done].
  destruct (Forall2_lookup_cases q q' i HR) as [(c & c' & -> & -> & Hc) | [-> ->]];
    [|done].
  destruct (Forall2_lookup_cases q q' ((i - 1) / 2) HR)
    as [(p & p' & -> & -> & Hp) | [-> ->]]; [|done].
  rewrite (stop_up_R c c' p p' Hc Hp). destruct (stop_up c' p'); [done|].
  apply IH. by apply swap_Forall2.
Qed.

Lemma pq_push_Forall2 (q q' : list node) x x' :
  Forall2 R q q' -> R x x' ->
  Forall2 R (Heap.pq_push stop_up q x) (Heap.pq_push stop_up q' x').
Proof.
  intros HR Hx. unfold Heap.pq_push. rewrite <- (Forall2_length _ _ _ HR).
  apply bubble_up_Forall2. apply Forall2_app; [done|]. by constructor.
Qed.

Lemma bubble_down_Forall2 fuel : forall (q q' : list node) i,
  Forall2 R q q' ->
  Forall2 R (Heap.bubble_down pick_right stop_down fuel q i)
            (Heap.bubble_down pick_right stop_down fuel q' i).
Proof.
  induction fuel as [|fuel IH]; intros q q' i HR; cbn [Heap.bubble_down]; [done|].
  destruct (Forall2_lookup_cases q q' (2 * i + 1) HR)
    as [(l & l' & -> & -> & Hl) | [-> ->]]; [|done].
  destruct (Forall2_lookup_cases q q' i HR) as [(x & x' & -> & -> & Hx) | [-> ->]];
    [|done].
  assert (match q !! (2 * i + 2) with
          | Some r => if pick_right r l then 2 * i + 2 else 2 * i + 1
          | None => 2 * i + 1
          end
          = match q' !! (2 * i + 2) with
            | Some r => if pick_right r l' then 2 * i + 2 else 2 * i + 1
            | None => 2 * i + 1
            end) as ->.
  { destruct (Forall2_lookup_cases q q' (2 * i + 2) HR)
      as [(r & r' & -> & -> & Hr) | [-> ->]]; [|done].
    by rewrite (pick_right_R r r' l l' Hr Hl). }
  generalize (match q' !! (2 * i + 2) with
              | Some r => if pick_right r l' then 2 * i + 2 else 2 * i + 1
              | None => 2 * i + 1
              end). intros largest.
  destruct (Forall2_lookup_cases q q' largest HR)
    as [(c & c' & -> & -> & Hc) | [-> ->]]; [|done].
  rewrite (stop_down_R x x' c c' Hx Hc). destruct (stop_down x' c'); [done|].
  apply IH. by apply swap_Forall2.
Qed.

Lemma pq_pop_Forall2 (q q' : list node) :
  Forall2 R q q' ->
  option_Forall2 (fun r r' => R r.1 r'.1 /\ Forall2 R r.2 r'.2)
    (Heap.pq_pop pick_right stop_down q) (Heap.pq_pop pick_right stop_down q').
Proof.
  intros HR. unfold Heap.pq_pop.
  destruct HR as [|top top' rest rest' Htop Hrest]; [constructor|].
  assert (HR : Forall2 R (top :: rest) (top' :: rest')) by (by constructor).
  rewrite <- (Forall2_length _ _ _ HR).
  destruct (Forall2_lookup_cases _ _ (length (top :: rest) - 1) HR)
    as [(x & x' & -> & -> & Hx) | [-> ->]]; [|constructor].
  constructor. simpl. split; [done|].
  apply bubble_down_Forall2. apply Forall2_insert; [|done].
  by apply Forall2_take.
Qed.
End HeapRelational.

(** ** Two runs of the TSP solver on one instance *)

Lemma foldl_pointwise {A B : Type} (f f' : A -> B -> A) :
  (forall a x, f a x = f' a x) -> forall l a, foldl f a l = foldl f' a l.
Proof.
  intros Hf. induction l as [|x l IH]; intros a; simpl; [done|].
  by rewrite Hf, IH.
Qed.

Lemma take_S_insert {A : Type} (l : list A) (k : nat) (x : A) :
  take (S k) (<[k := x]> l)
  = take k l ++ (if decide (k < length l)%nat then [x] else []).
Proof.
  destruct (decide (k < length l)%nat) as [Hlt | Hge].
  - rewrite (take_S_r _ _ x) by (by apply list_lookup_insert_eq).
    by rewrite take_insert_ge.
  - rewrite list_insert_ge by lia. rewrite !take_ge by lia.
    by rewrite app_nil_r.
Qed.

Section TSPDeterminism.
Import TSP.

Lemma node_sim_last a b :
  node_sim a b ->
  path_at (path a) (level a - 1) = path_at (path b) (level b - 1).
Proof.
  intros (H1 & Hl & _ & _ & _ & _ & Ht). unfold path_at. rewrite <- Hl.
  rewrite <- (lookup_take_lt (path a) (level a)) by lia.
  rewrite <- (lookup_take_lt (path b) (level a)) by lia.
  rewrite Ht. by rewrite Hl.
Qed.

Lemma node_sim_path_at a b i :
  node_sim a b -> (i < level a)%nat -> path_at (path a) i = path_at (path b) i.
Proof.
  intros (H1 & Hl & _ & _ & _ & _ & Ht) Hi. unfold path_at.
  rewrite <- (lookup_take_lt (path a) (level a)) by lia.
  rewrite <- (lookup_take_lt (path b) (level a)) by lia.
  rewrite Ht. by rewrite Hl.
Qed.

Lemma two_smallest_graph g1 g2 i acc j :
  graph g1 = graph g2 -> two_smallest g1 i acc j = two_smallest g2 i acc j.
Proof. intros E. unfold two_smallest. by rewrite !(edge_graph g1 g2 _ _ E). Qed.

Lemma calculate_bound_sim g1 g2 a b :
  graph g1 = graph g2 -> n g1 = n g2 -> node_sim a b ->
  calculate_bound g1 a = calculate_bound g2 b.
Proof.
  intros Eg En Hab. pose proof (node_sim_last a b Hab) as Hlast.
  destruct Hab as (H1 & Hl & Hc & _ & Hv & _ & _).
  unfold calculate_bound. rewrite Hc, En. apply foldl_pointwise.
  intros bnd i. unfold bound_round, is_last.
  rewrite Hv, Hlast, Hl, En.
  rewrite (foldl_pointwise (two_smallest g1 i) (two_smallest g2 i)); [done|].
  intros acc j. by apply two_smallest_graph.
Qed.

Lemma child_sim g1 g2 a b city :
  graph g1 = graph g2 -> n g1 = n g2 -> node_sim a b ->
  node_sim (child g1 a city) (child g2 b city).
Proof.
  intros Eg En Hab. pose proof (node_sim_last a b Hab) as Hlast.
  assert (Hpre : node_sim
    (mkNode (<[level a := city]> (path a)) (<[city := 1]> (visited a))
            (cost a + edge g1 (path_at (path a) (level a - 1)) city)
            (bound a) (level a + 1))
    (mkNode (<[level b := city]> (path b)) (<[city := 1]> (visited b))
            (cost b + edge g2 (path_at (path b) (level b - 1)) city)
            (bound b) (level b + 1))).
  { destruct Hab as (H1 & Hl & Hc & Hb & Hv & Hlen & Ht).
    unfold node_sim; simpl. rewrite !length_insert.
    rewrite Hlast, (edge_graph g1 g2 _ _ Eg), Hc, Hb, Hv, Hl.
    repeat split; try done; try lia.
    replace (level b + 1)%nat with (S (level b)) by lia.
    rewrite !take_S_insert. rewrite <- Hl, Ht, Hl, Hlen. done. }
  unfold child. set (nd1 := mkNode _ _ _ _ _) in *.
  set (nd2 := mkNode (<[level b := city]> (path b)) _ _ _ _) in *.
  rewrite (calculate_bound_sim g1 g2 nd1 nd2 Eg En Hpre).
  destruct Hpre as (H1 & Hl & Hc & Hb & Hv & Hlen & Ht).
  unfold node_sim, set_bound; simpl. done.
Qed.

Lemma prune_sim g1 g2 : globals_sim g1 g2 -> globals_sim (prune g1) (prune g2).
Proof.
  intros (Eg & En & Ec & Ee & Ep & El & Et). unfold globals_sim; simpl.
  rewrite Ep. done.
Qed.

Lemma explore_sim g1 g2 :
  globals_sim g1 g2 -> globals_sim (explore g1) (explore g2).
Proof.
  intros (Eg & En & Ec & Ee & Ep & El & Et). unfold globals_sim; simpl.
  rewrite Ee. done.
Qed.

Lemma tsp_push_sim pq1 pq2 a b :
  Forall2 node_sim pq1 pq2 -> node_sim a b ->
  Forall2 node_sim (pq_push pq1 a) (pq_push pq2 b).
Proof.
  intros Hq Hab. apply pq_push_Forall2; [|done|done].
  intros x x' y y' (_ & _ & _ & Hx & _) (_ & _ & _ & Hy & _).
  by rewrite Hx, Hy.
Qed.

Lemma tsp_pop_sim pq1 pq2 :
  Forall2 node_sim pq1 pq2 ->
  option_Forall2 (fun r r' => node_sim r.1 r'.1 /\ Forall2 node_sim r.2 r'.2)
                 (pq_pop pq1) (pq_pop pq2).
Proof.
  intros Hq. apply pq_pop_Forall2; [| |done];
    intros x x' y y' (_ & _ & _ & Hx & _) (_ & _ & _ & Hy & _);
    by rewrite Hx, Hy.
Qed.

Lemma branch_eq current g pq city :
  branch current (g, pq) city
  = if visited_at (visited current) city then (g, pq)
    else if bound (child g current city) <? best_cost g
         then (g, pq_push pq (child g current city))
         else (prune g, pq).
Proof. reflexivity. Qed.

Lemma branch_sim a b s1 s2 city :
  node_sim a b -> state_sim s1 s2 ->
  state_sim (branch a s1 city) (branch b s2 city).
Proof.
  intros Hab [Hg Hq]. destruct s1 as [g1 pq1], s2 as [g2 pq2].
  simpl in Hg, Hq. rewrite !branch_eq.
  assert (Hv : visited a = visited b) by (by destruct Hab as (_&_&_&_&?&_)).
  rewrite Hv. destruct (visited_at (visited b) city); [by split|].
  assert (Hc : node_sim (child g1 a city) (child g2 b city)).
  { destruct Hg as (Eg & En & _). by apply child_sim. }
  assert (Hb : bound (child g1 a city) = bound (child g2 b city))
    by (by destruct Hc as (_&_&_&?&_)).
  assert (Hbc : best_cost g1 = best_cost g2) by (by destruct Hg as (_&_&?&_)).
  rewrite Hb, Hbc. destruct (_ <? _); split; simpl; try done.
  - by apply tsp_push_sim.
  - by apply prune_sim.
Qed.

Lemma branches_sim a b cities :
  node_sim a b -> forall s1 s2, state_sim s1 s2 ->
  state_sim (foldl (branch a) s1 cities) (foldl (branch b) s2 cities).
Proof.
  intros Hab. induction cities as [|c cities IH]; intros s1 s2 Hs; simpl;
    [done|]. apply IH. by apply branch_sim.
Qed.

(** The loop [for (i < n) best_path[i] = current.path[i]]. *)
Lemma copy_loop_sim (p1 p2 : list nat) k : forall bp1 bp2,
  length bp1 = length bp2 ->
  (forall i, (i < k)%nat -> path_at p1 i = path_at p2 i) ->
  let r1 := foldl (fun bp i => <[i := path_at p1 i]> bp) bp1 (seq 0 k) in
  let r2 := foldl (fun bp i => <[i := path_at p2 i]> bp) bp2 (seq 0 k) in
  length r1 = length bp1 /\ length r2 = length bp2 /\ take k r1 = take k r2.
Proof.
  induction k as [|k IH]; intros bp1 bp2 Hlen Hp; cbv zeta.
  - simpl. by rewrite ?take_0.
  - rewrite seq_S, !foldl_snoc. cbn [Nat.add].
    destruct (IH bp1 bp2 Hlen) as (L1 & L2 & Ht); [intros; apply Hp; lia|].
    rewrite !length_insert. split; [done|]. split; [done|].
    rewrite !take_S_insert, Ht, L1, L2, Hlen, (Hp k) by lia. done.
Qed.

Lemma copy_path_sim (p1 p2 : list nat) k bp1 bp2 :
  length bp1 = length bp2 ->
  (forall i, (i < k)%nat -> path_at p1 i = path_at p2 i) ->
  length (copy_path k p1 bp1) = length (copy_path k p2 bp2) /\
  take (k + 1) (copy_path k p1 bp1) = take (k + 1) (copy_path k p2 bp2).
Proof.
  intros Hlen Hp. unfold copy_path.
  destruct (copy_loop_sim p1 p2 k bp1 bp2 Hlen Hp) as (L1 & L2 & Ht).
  rewrite !length_insert. split; [congruence|].
  replace (k + 1)%nat with (S k) by lia.
  rewrite !take_S_insert, Ht, L1, L2, Hlen. done.
Qed.

Lemma visit_sim g1 g2 a b pq1 pq2 :
  node_sim a b -> state_sim (g1, pq1) (g2, pq2) ->
  state_sim (visit g1 a pq1) (visit g2 b pq2).
Proof.
  intros Hab [Hg Hq]. simpl in *. unfold visit.
  pose proof (explore_sim g1 g2 Hg) as Hge.
  pose proof (node_sim_last a b Hab) as Hlast.
  destruct Hge as (Eg & En & Ec & Ee & Ep & El & Et).
  pose proof Hab as (H1 & Hl & Hc & Hb & Hv & Hlen & Ht).
  rewrite Ec, Hb, Hl, En.
  destruct (_ <=? _); [split; [by apply prune_sim, explore_sim | done]|].
  destruct (Nat.eqb_spec (level b) (n (explore g2))) as [Elvl | _].
  - assert (Htot : total_cost (explore g1) a = total_cost (explore g2) b).
    { unfold total_cost. rewrite Hc, En, <- Elvl, <- Hlast, <- Hl.
      by rewrite (edge_graph _ _ _ _ Eg). }
    rewrite Htot. destruct (_ <? _); [|split; [by apply explore_sim | done]].
    split; [|done]. simpl.
    destruct (copy_path_sim (path a) (path b) (n g1) (best_path g1) (best_path g2))
      as (L & T).
    { by destruct Hg as (_&_&_&_&_&?&_). }
    { intros i Hi. apply node_sim_path_at; [done|]. simpl in *. lia. }
    simpl in *. unfold globals_sim; simpl.
    rewrite <- En. repeat split; done.
  - apply branches_sim; [done|]. split; [by apply explore_sim | done].
Qed.

Lemma step_sim s1 s2 :
  state_sim s1 s2 -> option_Forall2 state_sim (step s1) (step s2).
Proof.
  intros [Hg Hq]. unfold step.
  destruct (tsp_pop_sim s1.2 s2.2 Hq) as [[a pq1] [b pq2] [Hab Hpq] |];
    constructor. by apply visit_sim.
Qed.

Lemma search_sim fuel : forall s1 s2,
  state_sim s1 s2 -> option_Forall2 globals_sim (search fuel s1) (search fuel s2).
Proof.
  induction fuel as [|fuel IH]; intros s1 s2 Hs; simpl; [constructor|].
  destruct (step_sim s1 s2 Hs) as [s1' s2' Hs' |].
  - by apply IH.
  - constructor. by destruct Hs.
Qed.

Lemma solve_init_sim g1 g2 junk1 junk2 :
  graph g1 = graph g2 -> n g1 = n g2 ->
  length (best_path g1) = length (best_path g2) ->
  length junk1 = length junk2 ->
  state_sim (solve_init g1 junk1) (solve_init g2 junk2).
Proof.
  intros Eg En Hbp Hj. unfold solve_init.
  set (h1 := mkGlobals (graph g1) _ _ _ _ _).
  set (h2 := mkGlobals (graph g2) _ _ _ _ _).
  assert (Hpre : node_sim
    (mkNode (<[0%nat:=0%nat]> junk1) (<[0%nat:=1]> (replicate MAX_CITIES 0)) 0 0 1)
    (mkNode (<[0%nat:=0%nat]> junk2) (<[0%nat:=1]> (replicate MAX_CITIES 0)) 0 0 1)).
  { unfold node_sim; simpl. rewrite !length_insert.
    repeat split; try done.
    rewrite !take_S_insert, !take_0, Hj. done. }
  split; simpl.
  - unfold globals_sim; simpl. repeat split; try done.
  - apply tsp_push_sim; [constructor|]. unfold root_node.
    rewrite (calculate_bound_sim h1 h2 _ _ Eg En Hpre).
    destruct Hpre as (H1 & Hl & Hc & Hb & Hv & Hlen & Ht).
    unfold node_sim, set_bound; simpl. done.
Qed.

(** The loop does not touch [n]. *)
Lemma branches_n current cities : forall s,
  n (foldl (branch current) s cities).1 = n s.1.
Proof.
  induction cities as [|c cities IH]; intros s; simpl; [done|].
  rewrite IH. unfold branch. destruct s as [g pq].
  destruct (visited_at _ _); [done|]. by destruct (_ <? _).
Qed.

Lemma visit_n g current pq : n (visit g current pq).1 = n g.
Proof.
  unfold visit. destruct (_ <=? _); [done|].
  destruct (_ =? _)%nat; [by destruct (_ <? _)|].
  by rewrite branches_n.
Qed.

Lemma search_n fuel : forall s r, search fuel s = Some r -> n r = n s.1.
Proof.
  induction fuel as [|fuel IH]; intros s r; simpl; [done|].
  unfold step. destruct (pq_pop s.2) as [[current pq]|]; [|by intros [= <-]].
  intros Hr. rewrite (IH _ _ Hr). simpl. apply visit_n.
Qed.
End TSPDeterminism.

(** ** The incumbent before the first round *)

Section AssignmentSetup.
Import Assignment.

Lemma fill_lookup k v : forall a i,
  (i < k)%nat -> (i < length a)%nat -> fill k v a !! i = Some v.
Proof.
  unfold fill. induction k as [|k IH]; intros a i Hi Hlen; [lia|].
  rewrite seq_S, foldl_snoc. cbn [Nat.add].
  destruct (decide (i = k)) as [-> | Hne].
  - apply list_lookup_insert_eq.
    clear IH Hi. revert a Hlen. generalize (seq 0 k).
    induction l as [|x l IHl]; intros a Hlen; simpl; [done|].
    apply IHl. by rewrite length_insert.
  - rewrite list_lookup_insert_ne by done. apply IH; [lia | done].
Qed.

Lemma four_workers_cost_le w j : 0 <= cost_at four_workers w j <= 9.
Proof.
  unfold cost_at, four_workers; simpl.
  destruct w as [|[|[|[|w]]]]; simpl;
    destruct j as [|[|[|[|j]]]]; simpl; lia.
Qed.
End AssignmentSetup.

(** On the 4x4 instance of [main] the job-assignment solver enters its loop
    with [min_cost = INT_MAX] and [best_assignment] all [-1]: there is no
    heuristic in [JobAssignment.c], and [INT_MAX] is the cost of no
    assignment at all. *)
Lemma assignment_starts_without_incumbent :
  let s := Assignment.solve_init Assignment.four_workers
             (replicate Assignment.MAX_SIZE 0) (replicate Assignment.MAX_SIZE 0) in
  Assignment.min_cost s.1 = 2147483647 /\
  take 4 (Assignment.best_assignment s.1) = [-1; -1; -1; -1] /\
  forall jobs,
    Assignment.min_cost s.1 <> Assignment.assignment_cost Assignment.four_workers jobs.
Proof.
  split; [reflexivity|]. split; [reflexivity|].
  intros jobs. unfold Assignment.assignment_cost. simpl.
  pose proof (four_workers_cost_le 0 (default 0%nat (jobs !! 0%nat))).
  pose proof (four_workers_cost_le 1 (default 0%nat (jobs !! 1%nat))).
  pose proof (four_workers_cost_le 2 (default 0%nat (jobs !! 2%nat))).
  pose proof (four_workers_cost_le 3 (default 0%nat (jobs !! 3%nat))).
  unfold Assignment.INF. lia.
Qed.

Section FacilitySetup.
Context {D : Type} `{Double D}.
Import Facility.

Lemma copy_open_has_facility (g : Globals D) node l : forall open has fixed,
  (foldl (copy_open g node) (open, has, fixed) l).1.2 = true ->
  has = true \/ exists i, i ∈ l /\ flag (facility_open node) i = true.
Proof.
  induction l as [|i l IH]; intros open has fixed; simpl; [by left|].
  destruct (flag (facility_open node) i) eqn:Hi.
  - intros _. right. exists i. split; [left | done].
  - intros Hl. destruct (IH _ _ _ Hl) as [? | (j & Hj & Hf)]; [by left|].
    right. exists j. split; [by right | done].
Qed.

(** A solution whose total cost is not [DBL_MAX] went through the feasible
    branch of [construct_solution]. *)
Lemma construct_solution_feasible (g : Globals D) node junk :
  d_eq (d_max : D) d_max = true ->
  d_ne (sol_total_cost (construct_solution g node junk)) d_max = true ->
  (exists i, (i < num_facilities g)%nat /\ flag (facility_open node) i = true) /\
  sol_total_cost (construct_solution g node junk)
  = d_add (sol_fixed_cost (construct_solution g node junk))
          (sol_service_cost (construct_solution g node junk)).
Proof.
  intros Hirr. unfold construct_solution.
  destruct (foldl (copy_open g node) _ _) as [[open has] fixed] eqn:E.
  destruct has; simpl.
  - destruct (foldl (assign_customer g open) _ _) as [assignment service].
    simpl. intros _. split; [|done].
    destruct (copy_open_has_facility g node (seq 0 (num_facilities g))
                (sol_facility_open junk) false zero) as [? | (i & Hi & Hf)];
      [by rewrite E | done |].
    exists i. split; [|done]. apply elem_of_seq in Hi. lia.
  - unfold d_ne. rewrite Hirr. done.
Qed.

Lemma facility_setup (g : Globals D) junk_open junk :
  d_eq (d_max : D) d_max = true ->
  let greedy := greedy_heuristic g junk_open junk in
  let s := solve_init g junk_open junk in
  if d_ne (sol_total_cost greedy) d_max then
    best_cost s.1 = sol_total_cost greedy /\
    best_solution s.1 = greedy /\
    (exists i, (i < num_facilities g)%nat /\
               flag (facility_open (greedy_node g junk_open)) i = true) /\
    sol_total_cost greedy = d_add (sol_fixed_cost greedy) (sol_service_cost greedy)
  else
    best_cost s.1 = d_max /\ best_solution s.1 = best_solution g.
Proof.
  intros Hirr greedy s. unfold s, solve_init. fold greedy.
  destruct (d_ne (sol_total_cost greedy) d_max) eqn:Hne; simpl; [|done].
  split; [done|]. split; [done|].
  by apply construct_solution_feasible.
Qed.
End FacilitySetup.

(** On the first test case of [main] the greedy choice is warehouse A alone,
    and its cost is the incumbent when the loop starts. *)
Lemma facility_test_case_1_seed :
  let s := Facility.solve_init Facility.test_case_1
             (replicate Facility.MAX_FACILITIES 0)
             (Facility.best_solution Facility.test_case_1) in
  take 3 (Facility.sol_facility_open (Facility.best_solution s.1)) = [1; 0; 0] /\
  Facility.best_cost s.1 = Facility.sol_total_cost (Facility.best_solution s.1) /\
  d_lt (Facility.best_cost s.1) (d_of_int 60) = true.
Proof. repeat split; vm_compute; reflexivity. Qed.

(** ** What [solve_knapsack] leaves in the globals *)

Section KnapsackSort.
Context {A : Type}.
Variable cmp : A -> A -> Z.

Lemma qsort_insert_perm x l : Knapsack.qsort_insert cmp x l ≡ₚ x :: l.
Proof.
  induction l as [|y l IH]; simpl; [done|].
  destruct (cmp x y <=? 0); [done|]. rewrite IH. apply Permutation_swap.
Qed.

Lemma qsort_sort_perm (k : list A) : foldr (Knapsack.qsort_insert cmp) [] k ≡ₚ k.
Proof.
  induction k as [|x k IH]; simpl; [done|]. by rewrite qsort_insert_perm, IH.
Qed.

Lemma qsort_take l nmemb :
  take nmemb (Knapsack.qsort l nmemb cmp)
  = foldr (Knapsack.qsort_insert cmp) [] (take nmemb l).
Proof.
  unfold Knapsack.qsort.
  pose proof (Permutation_length (qsort_sort_perm (take nmemb l))) as Hlen.
  rewrite length_take in Hlen.
  destruct (decide (nmemb <= length l)%nat).
  - rewrite take_app_length' by lia. done.
  - rewrite (drop_ge l) by lia. rewrite app_nil_r. apply take_ge. lia.
Qed.

Lemma qsort_perm l nmemb :
  take nmemb (Knapsack.qsort l nmemb cmp) ≡ₚ take nmemb l /\
  drop nmemb (Knapsack.qsort l nmemb cmp) = drop nmemb l /\
  length (Knapsack.qsort l nmemb cmp) = length l.
Proof.
  split; [rewrite qsort_take; apply qsort_sort_perm|].
  unfold Knapsack.qsort.
  pose proof (Permutation_length (qsort_sort_perm (take nmemb l))) as Hlen.
  rewrite length_take in Hlen.
  split.
  - destruct (decide (nmemb <= length l)%nat).
    + rewrite drop_app_length' by lia. done.
    + rewrite (drop_ge l) by lia. rewrite app_nil_r. apply drop_ge. lia.
  - rewrite length_app, Hlen, length_drop. lia.
Qed.

(** The comparison orders any two elements one way or the other. *)
Hypothesis cmp_total : forall x y, 0 < cmp x y -> cmp y x <= 0.

Lemma qsort_insert_sorted x l :
  Sorted (fun a b => cmp a b <= 0) l ->
  Sorted (fun a b => cmp a b <= 0) (Knapsack.qsort_insert cmp x l).
Proof.
  induction 1 as [|y l Hl IH Hy]; simpl; [repeat constructor|].
  destruct (Z.leb_spec (cmp x y) 0) as [Hxy | Hxy].
  - constructor; [by constructor | by constructor].
  - constructor; [done|].
    destruct l as [|z l]; simpl.
    + constructor. by apply cmp_total.
    + destruct (Z.leb_spec (cmp x z) 0); constructor.
      * by apply cmp_total.
      * by inversion Hy.
Qed.

Lemma qsort_sorted l nmemb :
  Sorted (fun a b => cmp a b <= 0) (take nmemb (Knapsack.qsort l nmemb cmp)).
Proof.
  rewrite qsort_take. induction (take nmemb l) as [|x k IH]; simpl; [constructor|].
  by apply qsort_insert_sorted.
Qed.
End KnapsackSort.

Section KnapsackInvariant.
Context {D : Type} `{Double D}.
Import Knapsack.

Lemma chosen_zeros (its : list (Item D)) : forall k,
  chosen its (replicate k 0) = [].
Proof.
  induction its as [|it its IH]; intros [|k]; simpl; done.
Qed.

(** Flagging one more item adds this item to the sums. *)
Lemma chosen_insert_sum (f : Item D -> Z) : forall its flags k it,
  its !! k = Some it -> flags !! k = Some 0 ->
  foldr Z.add 0 (f <$> chosen its (<[k := 1]> flags))
  = foldr Z.add 0 (f <$> chosen its flags) + f it.
Proof.
  induction its as [|it0 its IH]; intros flags k it Hit Hfl; [done|].
  destruct flags as [|fl flags]; [done|].
  destruct k as [|k]; simpl in Hit, Hfl.
  - inversion Hit; inversion Hfl; subst.
    change (<[0%nat:=1]> (0 :: flags)) with (1 :: flags).
    change (chosen (it :: its) (1 :: flags)) with (it :: chosen its flags).
    change (chosen (it :: its) (0 :: flags)) with (chosen its flags).
    rewrite fmap_cons. cbn [foldr]. lia.
  - change (<[S k:=1]> (fl :: flags)) with (fl :: <[k:=1]> flags).
    change (chosen (it0 :: its) (fl :: ?l))
      with (if fl =? 0 then chosen its l else it0 :: chosen its l).
    destruct (fl =? 0); [by apply IH|].
    rewrite !fmap_cons. cbn [foldr]. rewrite (IH flags k it Hit Hfl). lia.
Qed.

Lemma knap_node_ok_instance (g g' : Globals D) nd :
  same_instance g g' -> node_ok g nd -> node_ok g' nd.
Proof.
  intros (Ei & En & Ec). unfold node_ok, solution_profit, solution_weight.
  by rewrite Ei, En, Ec.
Qed.

Lemma knap_incumbent_ok_zero (g : Globals D) :
  max_profit g = 0 -> best_solution g = replicate MAX_ITEMS 0 ->
  0 <= capacity g -> incumbent_ok g.
Proof.
  intros Hm Hb Hc. unfold incumbent_ok, solution_profit, solution_weight.
  rewrite Hm, Hb, chosen_zeros. simpl. lia.
Qed.

Lemma knap_root_node_ok (g : Globals D) : 0 <= capacity g -> node_ok g (root_node g).
Proof.
  intros Hc. unfold node_ok, root_node, set_bound, solution_profit,
    solution_weight; cbn [level profit node_weight included].
  rewrite chosen_zeros, length_replicate.
  split; [lia|]. split; [done|].
  split; [intros i _ Hi; by apply lookup_replicate_2|].
  cbn [fmap list_fmap foldr]. lia.
Qed.

Lemma knap_exclude_node_ok (g : Globals D) current :
  (level current < n g)%nat -> node_ok g current ->
  node_ok g (exclude_node g current).
Proof.
  intros Hlt (Hl & Hlen & Hz & Hp & Hw & Hc).
  unfold node_ok, exclude_node, set_bound; simpl.
  repeat split; try done; try lia. intros i Hi. apply Hz. lia.
Qed.

Lemma knap_include_node_ok (g : Globals D) current :
  (n g <= length (items g))%nat -> (n g <= MAX_ITEMS)%nat ->
  (level current < n g)%nat ->
  node_weight current + weight (item_at (items g) (level current)) <= capacity g ->
  node_ok g current -> node_ok g (include_node g current).
Proof.
  intros Hn Hmax Hlt Hfit (Hl & Hlen & Hz & Hp & Hw & Hc).
  destruct (lookup_lt_is_Some_2 (items g) (level current)) as [it Hit]; [lia|].
  assert (Hitem : item_at (items g) (level current) = it)
    by (unfold item_at; by rewrite Hit).
  assert (Htake : take (n g) (items g) !! level current = Some it)
    by (by rewrite lookup_take_lt).
  assert (Hflag : included current !! level current = Some 0)
    by (apply Hz; lia).
  unfold node_ok, include_node, set_bound; simpl.
  rewrite length_insert, Hitem in *.
  unfold solution_profit, solution_weight.
  rewrite !(chosen_insert_sum _ _ _ _ it Htake Hflag).
  repeat split; try done; try lia.
  - intros i Hi Hi'. rewrite list_lookup_insert_ne by lia. apply Hz; lia.
  - fold (solution_profit g (included current)). lia.
  - fold (solution_weight g (included current)). lia.
Qed.

Lemma knap_offer_ok (g0 g : Globals D) pq nd :
  node_ok g0 nd -> state_ok g0 (g, pq) -> state_ok g0 (offer g pq nd).
Proof.
  intros Hnd (Hi & Hinc & Hq). unfold offer.
  destruct (d_lt _ _); [|done].
  split; [done|]. split; [done|]. simpl. unfold pq_push.
  rewrite (pq_push_perm _ pq nd). by constructor.
Qed.

Lemma knap_same_instance_sym (g g' : Globals D) :
  same_instance g g' -> same_instance g' g.
Proof. intros (? & ? & ?). by split. Qed.

Lemma knap_visit_ok (g0 g : Globals D) current pq :
  (n g0 <= length (items g0))%nat -> (n g0 <= MAX_ITEMS)%nat ->
  node_ok g0 current -> state_ok g0 (g, pq) -> state_ok g0 (visit g current pq).
Proof.
  intros Hn Hmax Hcur (Hi & Hinc & Hq). simpl in Hi, Hinc, Hq.
  unfold visit. set (ge := explore g).
  assert (Hie : same_instance g0 ge) by exact Hi.
  assert (Hince : incumbent_ok ge) by exact Hinc.
  assert (Hse : state_ok g0 (ge, pq)) by (by split).
  pose proof (knap_node_ok_instance g0 ge current Hie Hcur) as Hcure.
  pose proof Hie as (Ei & En & Ec).
  destruct (d_le _ _); [done|].
  destruct (Nat.eqb_spec (level current) (n ge)) as [Elvl | Nlvl].
  - destruct (_ <? _); [|done].
    split; [done|]. split; [|done].
    destruct Hcure as (_ & _ & _ & Hp & Hw & Hc).
    unfold incumbent_ok, solution_profit, solution_weight, record_best in *.
    cbn [max_profit best_solution items n capacity fst].
    by rewrite <- Hp, <- Hw.
  - assert (Hlt : (level current < n ge)%nat).
    { destruct Hcure as (Hl & _). lia. }
    assert (Hex : node_ok g0 (exclude_node ge current)).
    { apply (knap_node_ok_instance ge g0); [by apply knap_same_instance_sym|].
      by apply knap_exclude_node_ok. }
    destruct (Z.leb_spec (node_weight current
                          + weight (item_at (items ge) (level current)))
                         (capacity ge)) as [Hfit | _].
    + destruct (offer ge pq (include_node ge current)) as [g1 pq1] eqn:E.
      assert (Hs1 : state_ok g0 (g1, pq1)).
      { rewrite <- E. apply knap_offer_ok; [|done].
        apply (knap_node_ok_instance ge g0); [by apply knap_same_instance_sym|].
        apply knap_include_node_ok; try done.
        - by rewrite <- Ei, <- En.
        - by rewrite <- En. }
      by apply knap_offer_ok.
    + by apply knap_offer_ok.
Qed.

Lemma knap_step_ok (g0 : Globals D) s s' :
  (n g0 <= length (items g0))%nat -> (n g0 <= MAX_ITEMS)%nat ->
  state_ok g0 s -> step s = Some s' -> state_ok g0 s'.
Proof.
  intros Hn Hmax (Hi & Hinc & Hq). unfold step.
  destruct (pq_pop s.2) as [[current pq]|] eqn:Hpop; [|done]. intros [= <-].
  apply pq_pop_perm in Hpop. rewrite Hpop in Hq.
  apply Forall_cons_1 in Hq as [Hcur Hq].
  by apply knap_visit_ok.
Qed.

Lemma knap_search_ok (g0 : Globals D) fuel : forall s r,
  (n g0 <= length (items g0))%nat -> (n g0 <= MAX_ITEMS)%nat ->
  state_ok g0 s -> search fuel s = Some r ->
  same_instance g0 r /\ incumbent_ok r.
Proof.
  induction fuel as [|fuel IH]; intros s r Hn Hmax Hs; simpl; [done|].
  destruct (step s) as [s'|] eqn:E.
  - apply IH; [done | done |]. by apply (knap_step_ok g0 s).
  - intros [= <-]. by destruct Hs as (? & ? & _).
Qed.

Lemma knap_solve_init_ok (g : Globals D) :
  0 <= capacity g -> state_ok (solve_init g).1 (solve_init g).
Proof.
  intros Hc. unfold solve_init. simpl.
  split; [done|]. split; [by apply knap_incumbent_ok_zero|]. simpl.
  unfold pq_push. rewrite (pq_push_perm _ pq_init _).
  constructor; [|constructor]. by apply knap_root_node_ok.
Qed.

Lemma solve_knapsack_ok (g : Globals D) fuel r :
  (n g <= length (items g))%nat -> (n g <= MAX_ITEMS)%nat -> 0 <= capacity g ->
  solve_knapsack fuel g = Some r ->
  items r = qsort (items g) (n g) compare_items /\
  n r = n g /\ capacity r = capacity g /\ incumbent_ok r.
Proof.
  intros Hn Hmax Hc Hr. unfold solve_knapsack in Hr.
  destruct (knap_search_ok (solve_init g).1 fuel (solve_init g) r) as ((Ei & En & Ec) & Hinc);
    try done.
  - simpl. destruct (qsort_perm compare_items (items g) (n g)) as (_ & _ & ->). done.
  - by apply knap_solve_init_ok.
Qed.
End KnapsackInvariant.

Lemma Sorted_weaken {A : Type} (R R' : A -> A -> Prop) (l : list A) :
  (forall a b, R a b -> R' a b) -> Sorted R l -> Sorted R' l.
Proof.
  intros HR. induction 1 as [|x l Hl IH Hx]; constructor; [done|].
  destruct Hx; constructor. by apply HR.
Qed.

Lemma compare_items_Q_le (a b : Knapsack.Item Q) :
  Knapsack.compare_items a b <= 0 <-> (Knapsack.ratio b <= Knapsack.ratio a)%Q.
Proof.
  unfold Knapsack.compare_items. simpl.
  destruct (Qle_bool (Knapsack.ratio b) (Knapsack.ratio a)) eqn:E1; simpl.
  - apply Qle_bool_iff in E1. split; [done|].
    intros _. destruct (negb _); lia.
  - split; [lia|]. intros Hle. apply Qle_bool_iff in Hle. congruence.
Qed.

Lemma StronglySorted_weaken {A : Type} (R R' : A -> A -> Prop) (l : list A) :
  (forall a b, R a b -> R' a b) -> StronglySorted R l -> StronglySorted R' l.
Proof.
  intros HR. induction 1 as [|x l Hl IH Hx]; constructor; [done|].
  eapply Forall_impl; [exact Hx|]. intros y. apply HR.
Qed.

(** [qsort] on elements that the comparison orders consistently: the result
    is sorted in the strong sense, every element stands before all those it
    is not to follow. *)
Section KnapsackSortConsistent.
Context {A : Type}.
Variable cmp : A -> A -> Z.
Variable k : list A.
Hypothesis cmp_asym : forall a b, a ∈ k -> b ∈ k -> 0 < cmp a b -> cmp b a <= 0.
Hypothesis cmp_trans : forall a b c, a ∈ k -> b ∈ k -> c ∈ k ->
  cmp a b <= 0 -> cmp b c <= 0 -> cmp a c <= 0.

Lemma qsort_insert_ssorted x l :
  x ∈ k -> Forall (fun y => y ∈ k) l ->
  StronglySorted (fun a b => cmp a b <= 0) l ->
  StronglySorted (fun a b => cmp a b <= 0) (Knapsack.qsort_insert cmp x l).
Proof.
  intros Hx Hl Hs. induction Hs as [|y l Hs IH Hy]; simpl.
  - by repeat constructor.
  - apply Forall_cons_1 in Hl as [Hyk Hl].
    destruct (Z.leb_spec (cmp x y) 0) as [Hxy | Hxy].
    + constructor; [by constructor|]. constructor; [done|].
      rewrite Forall_forall in Hy, Hl |- *. intros z Hz.
      apply (cmp_trans x y z); try done; [by apply Hl | by apply Hy].
    + constructor; [by apply IH|].
      rewrite (qsort_insert_perm cmp x l). constructor; [|done].
      by apply cmp_asym.
Qed.

Lemma qsort_ssorted l nmemb :
  Forall (fun y => y ∈ k) (take nmemb l) ->
  StronglySorted (fun a b => cmp a b <= 0)
                 (take nmemb (Knapsack.qsort l nmemb cmp)).
Proof.
  rewrite qsort_take. induction (take nmemb l) as [|x t IH]; intros Ht; simpl;
    [constructor|].
  apply Forall_cons_1 in Ht as [Hx Ht].
  apply qsort_insert_ssorted; [done | | by apply IH].
  by rewrite (qsort_sort_perm cmp t).
Qed.
End KnapsackSortConsistent.

Section KnapsackRatios.
Context {D : Type} `{Double D}.
Import Knapsack.

Lemma compare_items_le (a b : Item D) :
  compare_items a b <= 0 <-> d_lt (ratio a) (ratio b) = false.
Proof.
  unfold compare_items.
  destruct (d_lt (ratio a) (ratio b)); [split; [lia | done]|].
  destruct (d_lt (ratio b) (ratio a)); split; (done || lia).
Qed.

Lemma ratios_ordered_spec (its : list (Item D)) :
  ratios_ordered its = true ->
  (forall a b, a ∈ its -> b ∈ its ->
     0 < compare_items a b -> compare_items b a <= 0) /\
  (forall a b c, a ∈ its -> b ∈ its -> c ∈ its ->
     compare_items a b <= 0 -> compare_items b c <= 0 ->
     compare_items a c <= 0).
Proof.
  unfold ratios_ordered. rewrite forallb_forall. intros Hord.
  assert (Hpair : forall a b, a ∈ its -> b ∈ its ->
            (negb (d_lt (ratio a) (ratio b)) || negb (d_lt (ratio b) (ratio a)))
            = true /\
            forall c, c ∈ its ->
              d_lt (ratio a) (ratio b) || d_lt (ratio b) (ratio c)
              || negb (d_lt (ratio a) (ratio c)) = true).
  { intros a b Ha Hb. apply list_elem_of_In in Ha, Hb.
    specialize (Hord a Ha). rewrite forallb_forall in Hord.
    specialize (Hord b Hb). apply andb_true_iff in Hord as [Has Htr].
    split; [done|]. intros c Hc. apply list_elem_of_In in Hc.
    rewrite forallb_forall in Htr. by apply Htr. }
  split.
  - intros a b Ha Hb Hab. apply compare_items_le.
    destruct (Hpair a b Ha Hb) as [Has _].
    assert (Hlt : d_lt (ratio a) (ratio b) = true).
    { destruct (d_lt (ratio a) (ratio b)) eqn:E; [done|].
      apply compare_items_le in E. lia. }
    rewrite Hlt in Has. simpl in Has. by apply negb_true_iff in Has.
  - intros a b c Ha Hb Hc Hab Hbc. apply compare_items_le.
    apply compare_items_le in Hab, Hbc.
    destruct (Hpair a b Ha Hb) as [_ Htr]. specialize (Htr c Hc).
    rewrite Hab, Hbc in Htr. simpl in Htr. by apply negb_true_iff in Htr.
Qed.

(** After [qsort] no item of [items[0..n)] has a smaller ratio than an
    item behind it. *)
Lemma qsort_items_ssorted (its : list (Item D)) (nmemb : nat) :
  ratios_ordered (take nmemb its) = true ->
  StronglySorted (fun a b => d_lt (ratio a) (ratio b) = false)
                 (take nmemb (qsort its nmemb compare_items)).
Proof.
  intros Hord. destruct (ratios_ordered_spec _ Hord) as [Hasym Htrans].
  pose proof (qsort_ssorted compare_items (take nmemb its) Hasym Htrans
                its nmemb) as Hs.
  eapply StronglySorted_weaken; [|apply Hs].
  - intros a b. apply compare_items_le.
  - by apply Forall_forall.
Qed.
End KnapsackRatios.

(** ** The fractional bound of the knapsack solver, in exact arithmetic *)

Section FractionalBound.
Import Knapsack.
Local Open Scope Q_scope.

(** The relaxed optimum of the items [its] in a knapsack of capacity [R],
    as the loop of [calculate_bound] computes it from 0. *)
Local Abbreviation relaxed its R := (bound_loop its 0 R).

Lemma item_wf_value it :
  item_wf it -> inject_Z (value it) == ratio it * inject_Z (weight it).
Proof.
  intros (Hw & _ & ->). field.
  intros E. unfold Qeq in E. simpl in E. lia.
Qed.

Lemma item_wf_ratio it : item_wf it -> 0 <= ratio it.
Proof.
  intros (Hw & Hv & ->). apply Qle_shift_div_l.
  - change 0 with (inject_Z 0). rewrite <- Zlt_Qlt. lia.
  - rewrite Qmult_0_l. change 0 with (inject_Z 0). rewrite <- Zle_Qle. lia.
Qed.

Lemma bound_loop_shift its : forall b R,
  bound_loop its b R == b + relaxed its R.
Proof.
  induction its as [|it rest IH]; intros b R; simpl.
  - lra.
  - destruct (weight it <=? R)%Z.
    + rewrite (IH (Qred (b + inject_Z (value it)))).
      rewrite (IH (Qred (0 + inject_Z (value it)))).
      rewrite !Qred_correct. lra.
    + rewrite !Qred_correct. lra.
Qed.

Lemma relaxed_take it rest R :
  (weight it <= R)%Z ->
  relaxed (it :: rest) R == inject_Z (value it) + relaxed rest (R - weight it).
Proof.
  intros Hfit. simpl. apply Z.leb_le in Hfit. rewrite Hfit.
  rewrite bound_loop_shift, Qred_correct. lra.
Qed.

Lemma relaxed_break it rest R :
  (R < weight it)%Z ->
  relaxed (it :: rest) R == ratio it * inject_Z R.
Proof.
  intros Hfit. simpl. apply Z.leb_gt in Hfit. rewrite Hfit.
  rewrite !Qred_correct. lra.
Qed.

Lemma relaxed_empty its : Forall item_wf its -> relaxed its 0 == 0.
Proof.
  intros Hwf. destruct Hwf as [|it rest (Hw & _) _]; [reflexivity|].
  rewrite relaxed_break by lia. change (inject_Z 0) with 0. lra.
Qed.

Lemma relaxed_nonneg its :
  Forall item_wf its -> forall R, (0 <= R)%Z -> 0 <= relaxed its R.
Proof.
  induction 1 as [|it rest Hit Hrest IH]; intros R HR.
  - simpl. lra.
  - destruct (Z.le_gt_cases (weight it) R) as [Hfit | Hfit].
    + rewrite relaxed_take by done.
      assert (0 <= inject_Z (value it)).
      { change 0 with (inject_Z 0). rewrite <- Zle_Qle. by destruct Hit as (_ & ? & _). }
      pose proof (IH (R - weight it)%Z ltac:(lia)). lra.
    + rewrite relaxed_break by done. apply Qmult_le_0_compat.
      * by apply item_wf_ratio.
      * change 0 with (inject_Z 0). rewrite <- Zle_Qle. lia.
Qed.

(** A unit of capacity is worth at most the largest ratio. *)
Lemma relaxed_lipschitz rho its :
  0 <= rho -> Forall item_wf its -> Forall (fun it => ratio it <= rho) its ->
  forall R1 R2, (0 <= R1 <= R2)%Z ->
  relaxed its R2 <= relaxed its R1 + rho * (inject_Z R2 - inject_Z R1).
Proof.
  intros Hrho0. induction 1 as [|it rest Hit Hrest IH]; intros Hrho R1 R2 HR.
  - simpl. assert (inject_Z R1 <= inject_Z R2) by (rewrite <- Zle_Qle; lia).
    assert (0 <= rho * (inject_Z R2 - inject_Z R1))
      by (apply Qmult_le_0_compat; lra).
    lra.
  - apply Forall_cons_1 in Hrho as [Hr Hrho].
    pose proof (item_wf_value it Hit) as Hv.
    assert (Ha : inject_Z R1 <= inject_Z R2) by (rewrite <- Zle_Qle; lia).
    destruct (Z.le_gt_cases (weight it) R1) as [Hfit1 | Hfit1].
    + rewrite !relaxed_take by lia.
      pose proof (IH Hrho (R1 - weight it)%Z (R2 - weight it)%Z ltac:(lia)) as HL.
      unfold Zminus in HL. rewrite !inject_Z_plus, !inject_Z_opp in HL.
      unfold Zminus. lra.
    + rewrite (relaxed_break it rest R1) by done.
      assert (Hb : inject_Z R1 <= inject_Z (weight it)) by (rewrite <- Zle_Qle; lia).
      destruct (Z.le_gt_cases (weight it) R2) as [Hfit2 | Hfit2].
      * rewrite relaxed_take by done.
        pose proof (IH Hrho 0%Z (R2 - weight it)%Z ltac:(lia)) as HL.
        rewrite (relaxed_empty rest Hrest) in HL.
        unfold Zminus in HL. rewrite !inject_Z_plus, !inject_Z_opp in HL.
        assert (0 <= (rho - ratio it) * (inject_Z (weight it) - inject_Z R1))
          by (apply Qmult_le_0_compat; lra).
        unfold Zminus. change (inject_Z 0) with 0 in HL. lra.
      * rewrite relaxed_break by done.
        assert (0 <= (rho - ratio it) * (inject_Z R2 - inject_Z R1))
          by (apply Qmult_le_0_compat; lra).
        lra.
Qed.

Lemma chosen_weight_nonneg its : Forall item_wf its ->
  forall flags, (0 <= foldr Z.add 0 (weight <$> chosen its flags))%Z.
Proof.
  induction 1 as [|it rest Hit Hrest IH]; intros flags; [done|].
  destruct flags as [|f flags]; [done|].
  change (chosen (it :: rest) (f :: flags))
    with (if (f =? 0)%Z then chosen rest flags else it :: chosen rest flags).
  destruct (f =? 0)%Z; [apply IH|].
  rewrite fmap_cons. cbn [foldr]. pose proof (IH flags).
  destruct Hit as (? & _). lia.
Qed.

(** The relaxed optimum is at least the value of every choice of items that
    fits. *)
Lemma relaxed_dominates its :
  Forall item_wf its ->
  StronglySorted (fun a b => ratio b <= ratio a) its ->
  forall flags R,
    (0 <= R)%Z ->
    (foldr Z.add 0 (weight <$> chosen its flags) <= R)%Z ->
    inject_Z (foldr Z.add 0%Z (value <$> chosen its flags)) <= relaxed its R.
Proof.
  induction 1 as [|it rest Hit Hrest IH]; intros Hsort flags R HR Hfit.
  - simpl. change (inject_Z 0) with 0. lra.
  - apply StronglySorted_inv in Hsort as [Hsort Hhead].
    pose proof (item_wf_value it Hit) as Hv.
    pose proof (item_wf_ratio it Hit) as Hr.
    destruct flags as [|f flags].
    { apply (relaxed_nonneg (it :: rest)); [by constructor | done]. }
    change (chosen (it :: rest) (f :: flags))
      with (if (f =? 0)%Z then chosen rest flags else it :: chosen rest flags)
      in *.
    destruct (f =? 0)%Z.
    + pose proof (IH Hsort flags R HR Hfit) as HV.
      destruct (Z.le_gt_cases (weight it) R) as [Hw | Hw].
      * rewrite relaxed_take by done.
        pose proof (relaxed_lipschitz (ratio it) rest Hr Hrest Hhead
                      (R - weight it)%Z R ltac:(destruct Hit; lia)) as HL.
        unfold Zminus in HL. rewrite !inject_Z_plus, !inject_Z_opp in HL.
        unfold Zminus. lra.
      * rewrite relaxed_break by done.
        pose proof (relaxed_lipschitz (ratio it) rest Hr Hrest Hhead
                      0%Z R ltac:(lia)) as HL.
        rewrite (relaxed_empty rest Hrest) in HL.
        change (inject_Z 0) with 0 in HL. lra.
    + rewrite fmap_cons in Hfit. rewrite fmap_cons. cbn [foldr] in *.
      pose proof (chosen_weight_nonneg rest Hrest flags).
      rewrite relaxed_take by lia.
      pose proof (IH Hsort flags (R - weight it)%Z ltac:(lia) ltac:(lia)) as HV.
      rewrite inject_Z_plus. lra.
Qed.
End FractionalBound.

(** C2, away from the boundary.  In exact arithmetic, for items sorted by
    non-increasing ratio, a node whose weight is strictly below the capacity
    has a bound that is at least the profit of every completion that fits:
    the bound only fails for nodes whose weight equals the capacity. *)
Lemma calculate_bound_admissible_below_capacity
  (g : Knapsack.Globals Q) (node : Knapsack.KnapsackNode Q) (flags : list Z) :
  let rest := drop (Knapsack.level node) (take (Knapsack.n g) (Knapsack.items g)) in
  Forall Knapsack.item_wf rest ->
  StronglySorted (fun a b => (Knapsack.ratio b <= Knapsack.ratio a)%Q) rest ->
  Knapsack.node_weight node < Knapsack.capacity g ->
  Knapsack.node_weight node
  + foldr Z.add 0 (Knapsack.weight <$> Knapsack.chosen rest flags)
  <= Knapsack.capacity g ->
  (inject_Z (Knapsack.profit node
             + foldr Z.add 0%Z (Knapsack.value <$> Knapsack.chosen rest flags))
   <= Knapsack.calculate_bound g node)%Q.
Proof.
  intros rest Hwf Hsort Hlt Hfit. unfold Knapsack.calculate_bound.
  destruct (Z.leb_spec (Knapsack.capacity g) (Knapsack.node_weight node)); [lia|].
  fold rest. rewrite bound_loop_shift.
  pose proof (relaxed_dominates rest Hwf Hsort flags
                (Knapsack.capacity g - Knapsack.node_weight node)
                ltac:(lia) ltac:(lia)) as HV.
  rewrite inject_Z_plus. simpl d_of_int. lra.
Qed.

(** ** [solve_knapsack] ends *)

Section KnapsackTermination.
Context {D : Type} `{Double D}.
Import Knapsack.
Local Open Scope nat_scope.

Lemma work_push (g : Globals D) pq nd :
  work g (pq_push pq nd) = 3 ^ (n g + 1 - level nd) + work g pq.
Proof. unfold work, pq_push. by rewrite (pq_push_perm _ pq nd). Qed.

Lemma work_pop (g : Globals D) pq current pq' :
  pq_pop pq = Some (current, pq') ->
  work g pq = 3 ^ (n g + 1 - level current) + work g pq'.
Proof. intros Hpop. unfold work. by rewrite (pq_pop_perm _ _ _ _ _ Hpop). Qed.

Lemma work_offer (g g1 : Globals D) pq nd :
  work g (offer g1 pq nd).2 <= 3 ^ (n g + 1 - level nd) + work g pq.
Proof.
  unfold offer. destruct (d_lt _ _); simpl; [by rewrite work_push | lia].
Qed.

Lemma pow3_step k : 2 * 3 ^ k < 3 ^ (k + 1).
Proof. rewrite Nat.add_1_r, Nat.pow_succ_r'. pose proof (Nat.pow_nonzero 3 k ltac:(lia)). lia. Qed.

Lemma work_visit (g0 g : Globals D) current pq :
  n g = n g0 -> level current <= n g0 ->
  work g0 (visit g current pq).2 < 3 ^ (n g0 + 1 - level current) + work g0 pq.
Proof.
  intros En Hl. pose proof (Nat.pow_nonzero 3 (n g0 + 1 - level current) ltac:(lia)).
  unfold visit. destruct (d_le _ _); [simpl; lia|].
  destruct (Nat.eqb_spec (level current) (n (explore g))) as [_ | Nlvl];
    [simpl; lia|].
  simpl in Nlvl.
  assert (Hk : n g0 + 1 - level current = (n g0 - level current) + 1) by lia.
  pose proof (pow3_step (n g0 - level current)) as H3. rewrite <- Hk in H3.
  assert (Hchild : forall nd : KnapsackNode D, level nd = level current + 1 ->
             3 ^ (n g0 + 1 - level nd) = 3 ^ (n g0 - level current)).
  { intros nd ->. f_equal. lia. }
  destruct (_ <=? _)%Z.
  - destruct (offer (explore g) pq (include_node (explore g) current))
      as [g1 pq1] eqn:E.
    pose proof (work_offer g0 (explore g) pq (include_node (explore g) current)) as W1.
    rewrite E in W1. simpl in W1.
    pose proof (work_offer g0 g1 pq1 (exclude_node (explore g) current)) as W2.
    rewrite (Hchild (include_node (explore g) current)) in W1 by done.
    rewrite (Hchild (exclude_node (explore g) current)) in W2 by done.
    lia.
  - pose proof (work_offer g0 (explore g) pq (exclude_node (explore g) current)) as W2.
    rewrite (Hchild (exclude_node (explore g) current)) in W2 by done.
    lia.
Qed.

Lemma search_ends (g0 : Globals D) fuel : forall s,
  (n g0 <= length (items g0))%nat -> (n g0 <= MAX_ITEMS)%nat ->
  state_ok g0 s -> work g0 s.2 < fuel -> is_Some (search fuel s).
Proof.
  induction fuel as [|fuel IH]; intros s Hn Hmax Hs Hw; [lia|]. simpl.
  destruct (step s) as [s'|] eqn:E; [|done].
  apply IH; [done | done | by apply (knap_step_ok g0 s) |].
  unfold step in E.
  destruct (pq_pop s.2) as [[current pq]|] eqn:Hpop; [|done].
  inversion E; subst s'. rewrite (work_pop g0 _ _ _ Hpop) in Hw.
  destruct Hs as ((_ & En & _) & _ & Hq).
  apply pq_pop_perm in Hpop. rewrite Hpop in Hq.
  apply Forall_cons_1 in Hq as [(Hl & _) _].
  pose proof (work_visit g0 s.1 current pq (eq_sym En) Hl). lia.
Qed.

Lemma solve_knapsack_ends (g : Globals D) :
  (n g <= length (items g))%nat -> (n g <= MAX_ITEMS)%nat -> (0 <= capacity g)%Z ->
  is_Some (solve_knapsack (3 ^ (n g + 1) + 1) g).
Proof.
  intros Hn Hmax Hc. unfold solve_knapsack.
  apply (search_ends (solve_init g).1).
  - simpl. destruct (qsort_perm compare_items (items g) (n g)) as (_ & _ & ->). done.
  - done.
  - by apply knap_solve_init_ok.
  - unfold solve_init. cbn [fst snd]. rewrite work_push.
    unfold root_node, set_bound. cbn [level n]. unfold work, pq_init, Heap.pq_init.
    cbn [sum_list_with]. rewrite Nat.sub_0_r. lia.
Qed.

(** More fuel does not change the result. *)
Lemma search_more_fuel fuel : forall (s : Globals D * PriorityQueue D) r k,
  search fuel s = Some r -> search (fuel + k) s = Some r.
Proof.
  induction fuel as [|fuel IH]; intros s r k; simpl; [done|].
  destruct (step s) as [s'|]; [apply IH | done].
Qed.
End KnapsackTermination.

(** ** [solve_tsp] ends *)

Section TSPTermination.
Import TSP.
Local Open Scope nat_scope.

Lemma tsp_work_push g pq nd :
  work g (pq_push pq nd) = (n g + 1) ^ (max (n g) 1 + 1 - level nd) + work g pq.
Proof. unfold work, pq_push. by rewrite (pq_push_perm _ pq nd). Qed.

Lemma tsp_work_pop g pq current pq' :
  pq_pop pq = Some (current, pq') ->
  work g pq = (n g + 1) ^ (max (n g) 1 + 1 - level current) + work g pq'.
Proof. intros Hpop. unfold work. by rewrite (pq_pop_perm _ _ _ _ _ Hpop). Qed.

Lemma tsp_work_branch g current s city :
  work g (branch current s city).2
  <= (n g + 1) ^ (max (n g) 1 + 1 - (level current + 1)) + work g s.2.
Proof.
  unfold branch. destruct s as [g1 pq]. destruct (visited_at _ _); [simpl; lia|].
  destruct (_ <? _)%Z; simpl; [|lia]. by rewrite tsp_work_push.
Qed.

Lemma tsp_work_branches g current cities : forall s,
  work g (foldl (branch current) s cities).2
  <= length cities * (n g + 1) ^ (max (n g) 1 + 1 - (level current + 1))
     + work g s.2.
Proof.
  induction cities as [|c cities IH]; intros s; simpl; [lia|].
  pose proof (IH (branch current s c)).
  pose proof (tsp_work_branch g current s c). lia.
Qed.

Lemma tsp_work_visit g0 g current pq :
  n g = n g0 -> level current <= max (n g0) 1 ->
  work g0 (visit g current pq).2
  < (n g0 + 1) ^ (max (n g0) 1 + 1 - level current) + work g0 pq.
Proof.
  intros En Hl.
  pose proof (Nat.pow_nonzero (n g0 + 1) (max (n g0) 1 + 1 - level current)
                ltac:(lia)).
  unfold visit. destruct (_ <=? _)%Z; [simpl; lia|].
  destruct (Nat.eqb_spec (level current) (n (explore g))) as [_ | Nlvl];
    [destruct (_ <? _)%Z; simpl; lia|].
  pose proof (tsp_work_branches g0 current (seq 1 (n (explore g) - 1))
                (explore g, pq)) as W.
  rewrite length_seq in W. simpl in W. rewrite En in W.
  replace (max (n g0) 1 + 1 - level current)
    with (S (max (n g0) 1 + 1 - (level current + 1))) by lia.
  rewrite Nat.pow_succ_r'.
  pose proof (Nat.pow_nonzero (n g0 + 1)
                (max (n g0) 1 + 1 - (level current + 1)) ltac:(lia)).
  simpl. rewrite En. nia.
Qed.

Lemma tsp_search_ends g0 fuel : forall s,
  n g0 <= MAX_CITIES -> state_ok g0 s -> work g0 s.2 < fuel ->
  is_Some (search fuel s).
Proof.
  induction fuel as [|fuel IH]; intros s Hn Hs Hw; [lia|]. simpl.
  destruct (step s) as [s'|] eqn:E; [|done].
  apply IH; [done | by apply (tsp_step_ok g0 s) |].
  unfold step in E.
  destruct (pq_pop s.2) as [[current pq]|] eqn:Hpop; [|done].
  inversion E; subst s'. rewrite (tsp_work_pop g0 _ _ _ Hpop) in Hw.
  destruct Hs as (_ & En & Hq).
  apply pq_pop_perm in Hpop. rewrite Hpop in Hq.
  apply Forall_cons_1 in Hq as [(Hl & _) _].
  pose proof (tsp_work_visit g0 s.1 current pq En ltac:(lia)). lia.
Qed.

Lemma solve_tsp_ends g junk :
  n g <= MAX_CITIES -> length junk = MAX_CITIES ->
  is_Some (solve_tsp ((n g + 1) ^ (max (n g) 1) + 1) g junk).
Proof.
  intros Hn Hj. unfold solve_tsp. apply (tsp_search_ends g).
  - done.
  - by apply tsp_solve_init_ok.
  - unfold solve_init. cbn [fst snd]. rewrite tsp_work_push.
    unfold root_node, set_bound. cbn [level n]. unfold work, pq_init, Heap.pq_init.
    cbn [sum_list_with].
    replace (max (n g) 1 + 1 - 1) with (max (n g) 1) by lia. lia.
Qed.
End TSPTermination.

(** Apart from [best_path], two runs of [solve_tsp] agree.  Take two runs
    on the same graph and the same number of cities, at most [MAX_CITIES],
    the first of which keeps the queue within its array (the queue of the
    second is as long in every round); the other globals and the
    uninitialised cells of the root node may hold anything at the start.
    Both runs end.  Whenever the first run ends the second ends with the
    same fuel, with the same [best_cost], [nodes_explored] and
    [nodes_pruned], and, if a tour was recorded ([best_cost] is not
    [INT_MAX]), with the same [best_path[0..n]]. *)
Lemma tsp_runs_agree g1 g2 junk1 junk2 :
  TSP.graph g1 = TSP.graph g2 ->
  TSP.n g1 = TSP.n g2 ->
  (TSP.n g1 <= TSP.MAX_CITIES)%nat ->
  length (TSP.best_path g1) = length (TSP.best_path g2) ->
  length junk1 = TSP.MAX_CITIES ->
  length junk2 = TSP.MAX_CITIES ->
  queue_fits TSP.step (fun s => length s.2) TSP.QUEUE_CAPACITY
             (TSP.solve_init g1 junk1) ->
  (exists fuel, is_Some (TSP.solve_tsp fuel g1 junk1)) /\
  (forall fuel r1,
      TSP.solve_tsp fuel g1 junk1 = Some r1 ->
      exists r2,
        TSP.solve_tsp fuel g2 junk2 = Some r2 /\
        TSP.best_cost r1 = TSP.best_cost r2 /\
        TSP.nodes_explored r1 = TSP.nodes_explored r2 /\
        TSP.nodes_pruned r1 = TSP.nodes_pruned r2 /\
        (TSP.best_cost r1 <> TSP.INF ->
         take (TSP.n g1 + 1) (TSP.best_path r1)
         = take (TSP.n g1 + 1) (TSP.best_path r2))).
Proof.
  intros Eg En Hn Hbp Hj1 Hj2 _. split.
  - eexists. by apply solve_tsp_ends.
  - intros fuel r1 E1. unfold TSP.solve_tsp in *.
    pose proof (search_sim fuel _ _
                  (solve_init_sim g1 g2 junk1 junk2 Eg En Hbp ltac:(congruence)))
      as Hs.
    rewrite E1 in Hs.
    inversion Hs as [? r2 (Eg' & En' & Ec & Ee & Ep & El & Et) |]; subst.
    exists r2. repeat split; try done.
    intros Hc. rewrite <- (search_n _ _ _ E1) at 1 2. by apply Et.
Qed.

(** ** The globals after [solve_knapsack] *)

(** C10.  Take an instance that fits the arrays ([n <= MAX_ITEMS] items in
    [items], non-negative capacity), in any arithmetic of [double], on whose
    ratios [compare_items] is consistent (in binary64: no NaN beside ratios
    that differ), and a run of [solve_knapsack] that keeps the queue within
    its array.  The run ends, and when it has ended [items[0..n)] holds the
    items it held at the call, each with its [index] field, in another
    order: no item has a smaller ratio than an item behind it; the rest of
    the array is untouched.  [max_profit] is the sum of the values of the
    items [items[i]] of this sorted array with [best_solution[i]] set, and
    these items fit the capacity. *)
Theorem solve_knapsack_sorts_items
  (D : Type) (HD : Double D) (g : Knapsack.Globals D) :
  (Knapsack.n g <= length (Knapsack.items g))%nat ->
  (Knapsack.n g <= Knapsack.MAX_ITEMS)%nat ->
  0 <= Knapsack.capacity g ->
  Knapsack.ratios_ordered (take (Knapsack.n g) (Knapsack.items g)) = true ->
  queue_fits Knapsack.step (fun s => length s.2) Knapsack.QUEUE_CAPACITY
             (Knapsack.solve_init g) ->
  (exists fuel, is_Some (Knapsack.solve_knapsack fuel g)) /\
  (forall fuel r,
      Knapsack.solve_knapsack fuel g = Some r ->
      take (Knapsack.n g) (Knapsack.items r)
        ≡ₚ take (Knapsack.n g) (Knapsack.items g) /\
      drop (Knapsack.n g) (Knapsack.items r)
      = drop (Knapsack.n g) (Knapsack.items g) /\
      StronglySorted
        (fun a b => d_lt (Knapsack.ratio a) (Knapsack.ratio b) = false)
        (take (Knapsack.n g) (Knapsack.items r)) /\
      Knapsack.max_profit r
      = Knapsack.solution_profit r (Knapsack.best_solution r) /\
      Knapsack.solution_weight r (Knapsack.best_solution r)
      <= Knapsack.capacity g).
Proof.
  intros Hn Hmax Hc Hord _. split; [eexists; by apply solve_knapsack_ends|].
  intros fuel r Hr.
  destruct (solve_knapsack_ok g fuel r Hn Hmax Hc Hr) as (Ei & En & Ec & Hp & Hw).
  destruct (qsort_perm Knapsack.compare_items (Knapsack.items g) (Knapsack.n g))
    as (Hperm & Hdrop & _).
  rewrite Ei. split; [done|]. split; [done|].
  split; [by apply qsort_items_ssorted | split; [done | by rewrite <- Ec]].
Qed.

Lemma solve_knapsack_sorts_items_witness :
  (exists fuel,
      is_Some (Knapsack.solve_knapsack fuel (Knapsack.scenario_A (D:=float)))) /\
  (forall fuel r,
      Knapsack.solve_knapsack fuel (Knapsack.scenario_A (D:=float)) = Some r ->
      take 4 (Knapsack.items r) ≡ₚ take 4 (Knapsack.items Knapsack.scenario_A) /\
      drop 4 (Knapsack.items r) = drop 4 (Knapsack.items Knapsack.scenario_A) /\
      StronglySorted
        (fun a b => d_lt (Knapsack.ratio a) (Knapsack.ratio b) = false)
        (take 4 (Knapsack.items r)) /\
      Knapsack.max_profit r
      = Knapsack.solution_profit r (Knapsack.best_solution r) /\
      Knapsack.solution_weight r (Knapsack.best_solution r) <= 7).
Proof.
  apply (solve_knapsack_sorts_items float _ Knapsack.scenario_A).
  - vm_compute; lia.
  - vm_compute; lia.
  - vm_compute; discriminate.
  - vm_compute; reflexivity.
  - apply (queue_fits_run_sound _ _ _ 100). vm_compute; reflexivity.
Defined.

(** Read against the order in which scenario A supplies the items, the flags
    of the result would stand for A and B, of profit 35. *)
Lemma flags_follow_sorted_order :
  exists r : Knapsack.Globals Q,
    Knapsack.solve_knapsack 13 Knapsack.scenario_A = Some r /\
    Knapsack.index <$> take 4 (Knapsack.items r) = [0; 3; 2; 1] /\
    take 4 (Knapsack.best_solution r) = [1; 1; 0; 0] /\
    Knapsack.solution_profit r (Knapsack.best_solution r) = 55 /\
    Knapsack.solution_profit Knapsack.scenario_A (Knapsack.best_solution r) = 35.
Proof.
  eexists. split; [vm_compute; reflexivity|]. repeat split; vm_compute; reflexivity.
Qed.

Lemma incumbent_monotone_witness :
  exists s',
    TSP.step (TSP.solve_init TSP.four_cities (replicate TSP.MAX_CITIES 0%nat))
    = Some s' /\
    (TSP.best_cost s'.1
     = TSP.best_cost
         (TSP.solve_init TSP.four_cities (replicate TSP.MAX_CITIES 0%nat)).1 \/
     exists current pq,
       TSP.pq_pop (TSP.solve_init TSP.four_cities (replicate TSP.MAX_CITIES 0%nat)).2
       = Some (current, pq) /\
       TSP.level current
       = TSP.n (TSP.solve_init TSP.four_cities (replicate TSP.MAX_CITIES 0%nat)).1 /\
       TSP.total_cost
         (TSP.solve_init TSP.four_cities (replicate TSP.MAX_CITIES 0%nat)).1 current
       < TSP.best_cost
           (TSP.solve_init TSP.four_cities (replicate TSP.MAX_CITIES 0%nat)).1 /\
       TSP.best_cost s'.1
       = TSP.total_cost
           (TSP.solve_init TSP.four_cities (replicate TSP.MAX_CITIES 0%nat)).1
           current).
Proof.
  eexists. split; [vm_compute; reflexivity|].
  apply (proj1 (proj2 incumbent_monotone)). vm_compute. reflexivity.
Defined.

(** ** JobAssignment.c: what the nodes mean *)

Section AssignmentNodes.
Import Assignment.

Lemma cost_upto_S g js k :
  cost_upto g js (S k)
  = cost_upto g js k + cost_at g k (default 0%nat (js !! k)).
Proof. unfold cost_upto. by rewrite seq_S, foldl_snoc. Qed.

Lemma cost_upto_ext g js js' k :
  (forall w, (w < k)%nat -> js !! w = js' !! w) ->
  cost_upto g js k = cost_upto g js' k.
Proof.
  induction k as [|k IH]; intros Hw; [done|].
  rewrite !cost_upto_S, IH by (intros; apply Hw; lia).
  by rewrite (Hw k) by lia.
Qed.

Lemma cost_at_instance g g' w j :
  cost_matrix g = cost_matrix g' -> cost_at g w j = cost_at g' w j.
Proof. unfold cost_at. by intros ->. Qed.

Lemma cost_upto_instance g g' js k :
  cost_matrix g = cost_matrix g' -> cost_upto g js k = cost_upto g' js k.
Proof.
  intros E. induction k as [|k IH]; [done|].
  by rewrite !cost_upto_S, IH, (cost_at_instance g g' _ _ E).
Qed.

Lemma calculate_bound_instance g g' node :
  cost_matrix g = cost_matrix g' -> n g = n g' ->
  calculate_bound g node = calculate_bound g' node.
Proof.
  intros E En. unfold calculate_bound. rewrite En.
  apply foldl_pointwise. intros b w. unfold bound_round. rewrite En.
  rewrite (foldl_pointwise (cheapest_free g node w) (cheapest_free g' node w));
    [done|].
  intros m j. unfold cheapest_free. by rewrite (cost_at_instance g g' _ _ E).
Qed.

Lemma child_instance g g' current job :
  cost_matrix g = cost_matrix g' -> n g = n g' ->
  child g current job = child g' current job.
Proof.
  intros E En. unfold child.
  rewrite (cost_at_instance g g' _ _ E).
  by rewrite (calculate_bound_instance g g' _ E En).
Qed.

Lemma assign_node_ok_instance g g' node :
  cost_matrix g = cost_matrix g' -> n g = n g' ->
  node_ok g node -> node_ok g' node.
Proof.
  intros E En (Hl & La & Lu & Ht & Hd & Hj & Hu & Hc & Hb).
  unfold node_ok. rewrite <- En.
  rewrite <- (cost_upto_instance g g' _ _ E).
  by rewrite <- (calculate_bound_instance g g' _ E En).
Qed.

Lemma length_fill k v : forall a, length (fill k v a) = length a.
Proof.
  unfold fill. induction (seq 0 k) as [|x l IH]; intros a; simpl; [done|].
  by rewrite IH, length_insert.
Qed.

Lemma used_at_insert u job j :
  (job < length u)%nat ->
  used_at (<[job := 1]> u) j = if decide (j = job) then true else used_at u j.
Proof.
  intros Hlen. unfold used_at. destruct (decide (j = job)) as [-> | Hne].
  - by rewrite list_lookup_insert_eq.
  - by rewrite list_lookup_insert_ne.
Qed.

Lemma assign_root_node_ok g junk_a junk_u :
  (n g <= MAX_SIZE)%nat ->
  length junk_a = MAX_SIZE -> length junk_u = MAX_SIZE ->
  node_ok g (root_node g junk_a junk_u).
Proof.
  intros Hn Ha Hu. unfold node_ok, root_node, set_bound, jobs_of.
  cbn [level assignment worker_used cost bound].
  rewrite !length_fill, take_0. simpl.
  repeat split; try done; try lia; try constructor.
  - intros Hused. unfold used_at in Hused.
    rewrite fill_lookup in Hused by lia. done.
  - intros Hin. by apply elem_of_nil in Hin.
Qed.

Lemma jobs_of_child g current job :
  (level current < length (assignment current))%nat ->
  jobs_of (child g current job) = jobs_of current ++ [job].
Proof.
  intros Hlen. unfold jobs_of, child, set_bound. cbn [level assignment].
  replace (level current + 1)%nat with (S (level current)) by lia.
  rewrite take_S_insert. destruct (decide _) as [_ | ?]; [|lia].
  rewrite fmap_app. simpl. by rewrite Nat2Z.id.
Qed.

Lemma assign_child_ok g current job :
  (n g <= MAX_SIZE)%nat -> (level current < n g)%nat -> (job < n g)%nat ->
  used_at (worker_used current) job = false ->
  node_ok g current -> node_ok g (child g current job).
Proof.
  intros Hn Hlvl Hjob Hfree (Hl & La & Lu & Ht & Hd & Hj & Hu & Hc & Hb).
  assert (Hlen : length (jobs_of current) = level current).
  { unfold jobs_of. rewrite length_fmap, length_take. lia. }
  assert (Hnew : job ∉ jobs_of current).
  { intros Hin. apply (Hu job Hjob) in Hin. congruence. }
  unfold node_ok. rewrite jobs_of_child by lia.
  unfold child, set_bound. cbn [level assignment worker_used cost bound].
  rewrite !length_insert.
  split; [lia|]. split; [done|]. split; [done|].
  split.
  { replace (level current + 1)%nat with (S (level current)) by lia.
    rewrite take_S_insert. destruct (decide _) as [_ | ?]; [|lia].
    by rewrite fmap_app, Ht. }
  split.
  { apply NoDup_app. split; [done|]. split; [|apply NoDup_singleton].
    intros x Hx Hx'. apply list_elem_of_singleton in Hx'. by subst. }
  split.
  { apply Forall_app. split; [done|]. by constructor. }
  split.
  { intros j Hjn. rewrite used_at_insert by lia.
    rewrite elem_of_app, list_elem_of_singleton.
    destruct (decide (j = job)) as [-> | Hne].
    - split; [by right | done].
    - rewrite (Hu j Hjn). split; [by left | by intros [? | ?]]. }
  split; [|done].
  replace (level current + 1)%nat with (S (level current)) by lia.
  rewrite cost_upto_S.
  rewrite lookup_app_r by lia. rewrite Hlen, Nat.sub_diag. simpl.
  rewrite Hc. f_equal. apply cost_upto_ext.
  intros w Hw. by rewrite lookup_app_l by lia.
Qed.
End AssignmentNodes.

(** ** JobAssignment.c: the bound never exceeds the cost of a completion *)

Section AssignmentBound.
Import Assignment.

Lemma cheapest_free_le g node w jobs : forall m,
  foldl (cheapest_free g node w) m jobs <= m /\
  forall j, j ∈ jobs -> used_at (worker_used node) j = false ->
            foldl (cheapest_free g node w) m jobs <= cost_at g w j.
Proof.
  induction jobs as [|j0 jobs IH]; intros m; simpl.
  - split; [lia|]. intros j Hj. by apply elem_of_nil in Hj.
  - destruct (IH (cheapest_free g node w m j0)) as [Hle Hall].
    assert (Hm : cheapest_free g node w m j0 <= m).
    { unfold cheapest_free. destruct (used_at _ _); simpl; [lia|].
      destruct (Z.ltb_spec (cost_at g w j0) m); lia. }
    split; [lia|]. intros j Hj Hfree.
    apply elem_of_cons in Hj as [-> | Hj]; [|by apply Hall].
    assert (cheapest_free g node w m j0 <= cost_at g w j0); [|lia].
    unfold cheapest_free. rewrite Hfree. simpl.
    destruct (Z.ltb_spec (cost_at g w j0) m); lia.
Qed.

Lemma bound_round_le g node bnd w j :
  (j < n g)%nat -> used_at (worker_used node) j = false ->
  bound_round g node bnd w <= bnd + cost_at g w j.
Proof.
  intros Hj Hfree. unfold bound_round.
  destruct (cheapest_free_le g node w (seq 0 (n g)) INF) as [Hle Hall].
  specialize (Hall j ltac:(apply elem_of_seq; lia) Hfree).
  destruct (Z.eqb_spec (foldl (cheapest_free g node w) INF (seq 0 (n g))) INF)
    as [E | _]; simpl; [|lia].
  rewrite E in Hall. unfold INF in Hall. lia.
Qed.

Lemma bound_rounds_le g node sigma lvl : forall k bnd,
  (forall w, (lvl <= w < lvl + k)%nat ->
     (default 0%nat (sigma !! w) < n g)%nat /\
     used_at (worker_used node) (default 0%nat (sigma !! w)) = false) ->
  foldl (bound_round g node) bnd (seq lvl k)
  <= bnd + cost_upto g sigma (lvl + k) - cost_upto g sigma lvl.
Proof.
  induction k as [|k IH]; intros bnd Hw.
  - simpl. rewrite Nat.add_0_r. lia.
  - rewrite seq_S, foldl_snoc.
    replace (lvl + S k)%nat with (S (lvl + k)) by lia. rewrite cost_upto_S.
    pose proof (IH bnd ltac:(intros; apply Hw; lia)).
    destruct (Hw (lvl + k)%nat ltac:(lia)) as [Hj Hfree].
    pose proof (bound_round_le g node
                  (foldl (bound_round g node) bnd (seq lvl k))
                  (lvl + k) _ Hj Hfree).
    lia.
Qed.

(** The jobs of a permutation of [0..n) beyond position [lvl] are below
    [n] and are not among the first [lvl]. *)
Lemma perm_suffix_fresh (sigma : list nat) k lvl w :
  sigma ≡ₚ seq 0 k -> (lvl <= w < k)%nat ->
  (default 0%nat (sigma !! w) < k)%nat /\
  default 0%nat (sigma !! w) ∉ take lvl sigma.
Proof.
  intros Hperm Hw.
  assert (Hlen : length sigma = k) by (by rewrite Hperm, length_seq).
  destruct (lookup_lt_is_Some_2 sigma w ltac:(lia)) as [j Hj].
  rewrite Hj. simpl. split.
  - assert (j ∈ seq 0 k) as Hin.
    { rewrite <- Hperm. by apply list_elem_of_lookup_2 in Hj. }
    apply elem_of_seq in Hin. lia.
  - intros Hin. apply list_elem_of_lookup in Hin as [i Hi].
    assert (i < lvl)%nat as Hlt.
    { apply lookup_lt_Some in Hi. rewrite length_take in Hi. lia. }
    rewrite lookup_take_lt in Hi by done.
    assert (NoDup sigma) as Hnd by (rewrite Hperm; apply NoDup_seq).
    pose proof (NoDup_lookup _ _ _ _ Hnd Hi Hj). lia.
Qed.

(** The bound of a node is admissible: no way of giving the remaining
    workers the remaining jobs costs less. *)
Lemma assign_bound_admissible g node sigma :
  node_ok g node -> sigma ≡ₚ seq 0 (n g) ->
  jobs_of node = take (level node) sigma ->
  bound node <= assignment_cost g sigma.
Proof.
  intros (Hl & La & Lu & Ht & Hd & Hj & Hu & Hc & Hb) Hperm Hpre.
  rewrite Hb. unfold calculate_bound.
  pose proof (bound_rounds_le g node sigma (level node)
                (n g - level node) (cost node)) as Hle.
  replace (level node + (n g - level node))%nat with (n g) in Hle by lia.
  change (assignment_cost g sigma) with (cost_upto g sigma (n g)).
  assert (cost node = cost_upto g sigma (level node)) as Ec.
  { rewrite Hc, Hpre. apply cost_upto_ext. intros w Hw.
    by rewrite lookup_take_lt. }
  rewrite Ec in *.
  cut (foldl (bound_round g node) (cost_upto g sigma (level node))
         (seq (level node) (n g - level node))
       <= cost_upto g sigma (level node) + cost_upto g sigma (n g)
          - cost_upto g sigma (level node)); [lia|].
  apply Hle. intros w Hw.
  destruct (perm_suffix_fresh sigma (n g) (level node) w Hperm Hw) as [Hlt Hnew].
  split; [done|].
  rewrite <- Hpre in Hnew.
  destruct (used_at (worker_used node) (default 0%nat (sigma !! w))) eqn:E;
    [|done].
  by apply (Hu _ Hlt) in E.
Qed.
End AssignmentBound.

(** ** JobAssignment.c: the search keeps its invariants *)

(** A list of [k] distinct numbers below [k] lists all of [0..k). *)
Lemma NoDup_below_perm (l : list nat) (k : nat) :
  NoDup l -> Forall (fun j => (j < k)%nat) l -> length l = k -> l ≡ₚ seq 0 k.
Proof.
  intros Hnd Hlt Hlen. apply submseteq_length_Permutation.
  - apply NoDup_submseteq; [done|]. intros x Hx.
    rewrite Forall_forall in Hlt. apply elem_of_seq. specialize (Hlt x Hx). lia.
  - rewrite length_seq. lia.
Qed.

Section AssignmentSearch.
Import Assignment.

Lemma assign_push_elem pq nd x : x ∈ pq_push pq nd <-> x = nd \/ x ∈ pq.
Proof. unfold pq_push. rewrite (pq_push_perm _ pq nd). apply elem_of_cons. Qed.

Lemma assign_pq_push_Forall (P : AssignmentNode -> Prop) pq nd :
  Forall P pq -> P nd -> Forall P (pq_push pq nd).
Proof.
  intros Hq Hnd. unfold pq_push. rewrite (pq_push_perm _ pq nd). by constructor.
Qed.

Lemma length_copy_assignment k a : forall best,
  length (copy_assignment k a best) = length best.
Proof.
  unfold copy_assignment. induction (seq 0 k) as [|x l IH]; intros best; simpl;
    [done|].
  by rewrite IH, length_insert.
Qed.

Lemma copy_assignment_take k a best :
  (k <= length a)%nat -> (k <= length best)%nat ->
  take k (copy_assignment k a best) = take k a.
Proof.
  unfold copy_assignment. induction k as [|k IH]; intros Ha Hb.
  - by rewrite !take_0.
  - rewrite seq_S, foldl_snoc. cbn [Nat.add]. rewrite take_S_insert.
    fold (copy_assignment k a best). rewrite length_copy_assignment.
    destruct (decide _) as [_ | ?]; [|lia].
    unfold copy_assignment. rewrite IH by lia.
    destruct (lookup_lt_is_Some_2 a k ltac:(lia)) as [x Hx].
    rewrite Hx. simpl. by rewrite (take_S_r _ _ x).
Qed.

Lemma assign_record_best_ok g0 g current :
  (n g0 <= MAX_SIZE)%nat ->
  cost_matrix g = cost_matrix g0 -> n g = n g0 ->
  length (best_assignment g) = MAX_SIZE ->
  node_ok g0 current -> level current = n g0 ->
  incumbent_ok (record_best g current).
Proof.
  intros Hn Ec En Lb (Hl & La & Lu & Ht & Hd & Hj & Hu & Hc & Hb) Hlvl.
  right. unfold record_best. cbn [n best_assignment min_cost].
  rewrite copy_assignment_take by lia. rewrite En, <- Hlvl.
  fold (jobs_of current).
  split; [|split; [done|]].
  - rewrite Hlvl. apply NoDup_below_perm; [done | done |].
    unfold jobs_of. rewrite length_fmap, length_take. lia.
  - rewrite Hc. unfold assignment_cost. cbn [n].
    symmetry. by apply (cost_upto_instance _ g0).
Qed.

Lemma assign_branch_ok g0 current s job :
  (n g0 <= MAX_SIZE)%nat -> (level current < n g0)%nat -> (job < n g0)%nat ->
  node_ok g0 current -> state_ok g0 s -> state_ok g0 (branch current s job).
Proof.
  intros Hn Hlvl Hjob Hcur (Ec & En & Lb & Hinc & Hq).
  destruct s as [g pq]. simpl in *. unfold branch.
  destruct (used_at (worker_used current) job) eqn:Hfree;
    [by repeat split|].
  rewrite (child_instance g g0 _ _ Ec En).
  destruct (_ <? _).
  - repeat split; try done. cbn [snd].
    apply assign_pq_push_Forall; [done|]. by apply assign_child_ok.
  - by repeat split.
Qed.

Lemma assign_branches_ok g0 current jobs :
  (n g0 <= MAX_SIZE)%nat -> (level current < n g0)%nat ->
  Forall (fun job => (job < n g0)%nat) jobs ->
  node_ok g0 current ->
  forall s, state_ok g0 s -> state_ok g0 (foldl (branch current) s jobs).
Proof.
  intros Hn Hlvl Hjobs Hcur.
  induction Hjobs as [|job jobs Hjob _ IH]; intros s Hs; simpl; [done|].
  apply IH. by apply assign_branch_ok.
Qed.

Lemma assign_visit_ok g0 g current pq :
  (n g0 <= MAX_SIZE)%nat -> node_ok g0 current ->
  state_ok g0 (g, pq) -> state_ok g0 (visit g current pq).
Proof.
  intros Hn Hcur (Ec & En & Lb & Hinc & Hq). simpl in *. unfold visit.
  destruct (_ <=? _); [by repeat split|].
  destruct (Nat.eqb_spec (level current) (n (explore g))) as [Hlvl | Hlvl].
  - destruct (_ <? _); [|by repeat split].
    repeat split; try done; cbn [fst snd].
    + unfold record_best. cbn [best_assignment].
      by rewrite length_copy_assignment.
    + apply (assign_record_best_ok g0); try done. by rewrite <- En.
  - apply assign_branches_ok; [done | | | done | by repeat split].
    + destruct Hcur as (Hl & _). cbn [explore n] in Hlvl. lia.
    + apply Forall_forall. intros j Hj. apply elem_of_seq in Hj.
      cbn [explore n] in Hj. lia.
Qed.

Lemma assign_pop_ok g0 pq current pq' :
  Forall (node_ok g0) pq -> pq_pop pq = Some (current, pq') ->
  node_ok g0 current /\ Forall (node_ok g0) pq'.
Proof.
  intros Hq Hpop. apply pq_pop_perm in Hpop. rewrite Hpop in Hq.
  by apply Forall_cons_1 in Hq.
Qed.

Lemma assign_step_ok g0 s s' :
  (n g0 <= MAX_SIZE)%nat -> state_ok g0 s -> step s = Some s' -> state_ok g0 s'.
Proof.
  intros Hn Hs. unfold step.
  destruct (pq_pop s.2) as [[current pq]|] eqn:Hpop; [|done]. intros [= <-].
  destruct Hs as (Ec & En & Lb & Hinc & Hq).
  destruct (assign_pop_ok g0 _ _ _ Hq Hpop) as [Hcur Hq'].
  apply assign_visit_ok; [done | done | by repeat split].
Qed.

Lemma assign_solve_init_ok g junk_a junk_u :
  (n g <= MAX_SIZE)%nat -> length (best_assignment g) = MAX_SIZE ->
  length junk_a = MAX_SIZE -> length junk_u = MAX_SIZE ->
  state_ok g (solve_init g junk_a junk_u).
Proof.
  intros Hn Lb La Lu. unfold solve_init.
  repeat split; cbn [fst snd cost_matrix n best_assignment]; try done.
  - by rewrite length_fill.
  - by left.
  - apply assign_pq_push_Forall; [constructor|].
    apply (assign_node_ok_instance
             (mkGlobals (cost_matrix g) (n g) INF
                        (fill (n g) (-1) (best_assignment g)) 0 0) g);
      [done | done |].
    by apply assign_root_node_ok.
Qed.

Lemma assign_search_ok g0 fuel : forall s r,
  (n g0 <= MAX_SIZE)%nat -> state_ok g0 s -> search fuel s = Some r ->
  cost_matrix r = cost_matrix g0 /\ n r = n g0 /\ incumbent_ok r.
Proof.
  induction fuel as [|fuel IH]; intros s r Hn Hs; simpl; [done|].
  destruct (step s) as [s'|] eqn:E.
  - apply IH; [done|]. by apply (assign_step_ok g0 s).
  - intros [= <-]. by destruct Hs as (? & ? & ? & ? & ?).
Qed.
End AssignmentSearch.

(** ** JobAssignment.c: no assignment is lost, and the search ends *)

Section AssignmentCoverage.
Import Assignment.

Lemma assign_branch_globals current s job :
  cost_matrix (branch current s job).1 = cost_matrix s.1 /\
  n (branch current s job).1 = n s.1.
Proof.
  unfold branch. destruct s as [g pq]. destruct (used_at _ _); [done|].
  by destruct (_ <? _).
Qed.

Lemma assign_branch_queue current s job x :
  x ∈ s.2 -> x ∈ (branch current s job).2.
Proof.
  unfold branch. destruct s as [g pq]. destruct (used_at _ _); [done|].
  destruct (_ <? _); [|done]. simpl. intros Hx.
  apply assign_push_elem. by right.
Qed.

Lemma assign_branches_queue current jobs x : forall s,
  x ∈ s.2 -> x ∈ (foldl (branch current) s jobs).2.
Proof.
  induction jobs as [|j jobs IH]; intros s Hx; simpl; [done|].
  by apply IH, assign_branch_queue.
Qed.

Lemma assign_visit_queue g current pq x :
  x ∈ pq -> x ∈ (visit g current pq).2.
Proof.
  intros Hx. unfold visit. destruct (_ <=? _); [done|].
  destruct (_ =? _)%nat; [done|]. by apply assign_branches_queue.
Qed.

Lemma covered_branch g0 sigma current s job :
  covered g0 sigma s -> covered g0 sigma (branch current s job).
Proof.
  intros [Hle | (node & Hin & Hok & Hpre)].
  - left. by rewrite branch_min_cost.
  - right. exists node. split; [by apply assign_branch_queue | done].
Qed.

(** Branching on the job that [sigma] gives to the next worker keeps
    [sigma] within reach. *)
Lemma branch_covers g0 sigma current s :
  (n g0 <= MAX_SIZE)%nat -> sigma ≡ₚ seq 0 (n g0) ->
  cost_matrix s.1 = cost_matrix g0 -> n s.1 = n g0 ->
  node_ok g0 current -> (level current < n g0)%nat ->
  jobs_of current = take (level current) sigma ->
  covered g0 sigma (branch current s (default 0%nat (sigma !! level current))).
Proof.
  intros Hn Hperm Ec En Hcur Hlvl Hpre.
  destruct (perm_suffix_fresh sigma (n g0) (level current) (level current)
              Hperm ltac:(lia)) as [Hjob Hnew].
  set (job := default 0%nat (sigma !! level current)) in *.
  assert (Hfree : used_at (worker_used current) job = false).
  { destruct (used_at (worker_used current) job) eqn:E; [|done].
    destruct Hcur as (_ & _ & _ & _ & _ & _ & Hu & _).
    apply (Hu job Hjob) in E. by rewrite Hpre in E. }
  pose proof (assign_child_ok g0 current job Hn Hlvl Hjob Hfree Hcur) as Hchild.
  assert (Hpre' : jobs_of (child g0 current job)
                  = take (level (child g0 current job)) sigma).
  { rewrite jobs_of_child by (destruct Hcur as (_ & -> & _); lia).
    unfold child, set_bound. cbn [level].
    replace (level current + 1)%nat with (S (level current)) by lia.
    assert (length sigma = n g0) as Hlen by (by rewrite Hperm, length_seq).
    destruct (lookup_lt_is_Some_2 sigma (level current) ltac:(lia)) as [j Hj].
    rewrite (take_S_r _ _ j) by done. rewrite Hpre. unfold job. by rewrite Hj. }
  destruct s as [g pq]. simpl in Ec, En. unfold branch. rewrite Hfree.
  rewrite (child_instance g g0 _ _ Ec En).
  destruct (Z.ltb_spec (bound (child g0 current job)) (min_cost g)).
  - right. exists (child g0 current job).
    split; [apply assign_push_elem; by left | done].
  - left. simpl.
    pose proof (assign_bound_admissible g0 _ sigma Hchild Hperm Hpre'). lia.
Qed.

Lemma branches_cover g0 sigma current jobs :
  (n g0 <= MAX_SIZE)%nat -> sigma ≡ₚ seq 0 (n g0) ->
  node_ok g0 current -> (level current < n g0)%nat ->
  jobs_of current = take (level current) sigma ->
  forall s,
    cost_matrix s.1 = cost_matrix g0 -> n s.1 = n g0 ->
    covered g0 sigma s \/ default 0%nat (sigma !! level current) ∈ jobs ->
    covered g0 sigma (foldl (branch current) s jobs).
Proof.
  intros Hn Hperm Hcur Hlvl Hpre.
  induction jobs as [|j jobs IH]; intros s Ec En Hs; simpl.
  - destruct Hs as [Hs | Hin]; [done | by apply elem_of_nil in Hin].
  - destruct (assign_branch_globals current s j) as [Ec' En'].
    apply IH; [congruence | congruence |].
    destruct Hs as [Hs | Hin]; [left; by apply covered_branch|].
    apply elem_of_cons in Hin as [<- | Hin]; [left | by right].
    by apply branch_covers.
Qed.

Lemma covered_step g0 sigma s s' :
  (n g0 <= MAX_SIZE)%nat -> sigma ≡ₚ seq 0 (n g0) ->
  cost_matrix s.1 = cost_matrix g0 -> n s.1 = n g0 ->
  covered g0 sigma s -> step s = Some s' -> covered g0 sigma s'.
Proof.
  intros Hn Hperm Ec En Hcov. unfold step.
  destruct (pq_pop s.2) as [[current pq]|] eqn:Hpop; [|done]. intros [= <-].
  destruct Hcov as [Hle | (node & Hin & Hok & Hpre)].
  { left. destruct (visit_min_cost s.1 current pq) as [-> | (_ & ? & ->)]; lia. }
  apply pq_pop_perm in Hpop. rewrite Hpop in Hin.
  apply elem_of_cons in Hin as [-> | Hin];
    [|right; exists node; split; [by apply assign_visit_queue | done]].
  pose proof (assign_bound_admissible g0 current sigma Hok Hperm Hpre) as Hadm.
  unfold visit. cbn [explore min_cost].
  destruct (Z.leb_spec (min_cost s.1) (bound current)); [left; simpl; lia|].
  destruct (Nat.eqb_spec (level current) (n (explore s.1))) as [Hlvl | Hlvl].
  - left. cbn [explore n] in Hlvl. rewrite En in Hlvl.
    assert (cost current = assignment_cost g0 sigma) as Ecost.
    { destruct Hok as (_ & _ & _ & _ & _ & _ & _ & -> & _).
      rewrite Hpre, Hlvl. unfold assignment_cost. apply cost_upto_ext.
      intros w Hw. by rewrite lookup_take_lt. }
    destruct (Z.ltb_spec (cost current) (min_cost s.1)); simpl; lia.
  - cbn [explore n] in Hlvl. rewrite En in Hlvl.
    apply branches_cover; try done.
    + destruct Hok as (? & _). lia.
    + right. cbn [explore n]. rewrite En.
      destruct (perm_suffix_fresh sigma (n g0) (level current) (level current)
                  Hperm) as [Hjob _].
      { destruct Hok as (? & _). lia. }
      apply elem_of_seq. lia.
Qed.

Lemma covered_search g0 sigma fuel : forall s r,
  (n g0 <= MAX_SIZE)%nat -> sigma ≡ₚ seq 0 (n g0) ->
  state_ok g0 s -> covered g0 sigma s -> search fuel s = Some r ->
  min_cost r <= assignment_cost g0 sigma.
Proof.
  induction fuel as [|fuel IH]; intros s r Hn Hperm Hs Hcov; simpl; [done|].
  destruct (step s) as [s'|] eqn:E.
  - apply IH; [done | done | by apply (assign_step_ok g0 s) |].
    destruct Hs as (Ec & En & _). by apply (covered_step g0 sigma s).
  - intros [= <-]. destruct Hcov as [Hle | (node & Hin & _)]; [done|].
    unfold step in E.
    destruct (pq_pop s.2) as [[current pq]|] eqn:Hpop; [done|].
    destruct (pq_pop_is_Some (fun r l => bound r <? bound l)
                (fun x c => bound x <=? bound c) s.2) as (top & q' & Hp).
    { intros Hnil. rewrite Hnil in Hin. by apply elem_of_nil in Hin. }
    unfold pq_pop in Hpop. congruence.
Qed.

Lemma covered_solve_init g sigma junk_a junk_u :
  (n g <= MAX_SIZE)%nat ->
  length junk_a = MAX_SIZE -> length junk_u = MAX_SIZE ->
  covered g sigma (solve_init g junk_a junk_u).
Proof.
  intros Hn La Lu. right. unfold solve_init. cbn [snd].
  set (g1 := mkGlobals _ _ _ _ _ _).
  exists (root_node g1 junk_a junk_u).
  split; [apply assign_push_elem; by left|].
  split; [|by rewrite take_0].
  apply (assign_node_ok_instance g1 g); [done | done |].
  by apply assign_root_node_ok.
Qed.
End AssignmentCoverage.

Section AssignmentTermination.
Import Assignment.
Local Open Scope nat_scope.

Lemma assign_work_push g pq nd :
  work g (pq_push pq nd) = (n g + 2) ^ (n g + 1 - level nd) + work g pq.
Proof. unfold work, pq_push. by rewrite (pq_push_perm _ pq nd). Qed.

Lemma assign_work_pop g pq current pq' :
  pq_pop pq = Some (current, pq') ->
  work g pq = (n g + 2) ^ (n g + 1 - level current) + work g pq'.
Proof. intros Hpop. unfold work. by rewrite (pq_pop_perm _ _ _ _ _ Hpop). Qed.

Lemma assign_work_branch g current s job :
  work g (branch current s job).2
  <= (n g + 2) ^ (n g + 1 - (level current + 1)) + work g s.2.
Proof.
  unfold branch. destruct s as [g1 pq]. destruct (used_at _ _); [simpl; lia|].
  destruct (_ <? _)%Z; simpl; [|lia]. by rewrite assign_work_push.
Qed.

Lemma assign_work_branches g current jobs : forall s,
  work g (foldl (branch current) s jobs).2
  <= length jobs * (n g + 2) ^ (n g + 1 - (level current + 1)) + work g s.2.
Proof.
  induction jobs as [|j jobs IH]; intros s; simpl; [lia|].
  pose proof (IH (branch current s j)).
  pose proof (assign_work_branch g current s j). lia.
Qed.

Lemma assign_work_visit g0 g current pq :
  n g = n g0 -> level current <= n g0 ->
  work g0 (visit g current pq).2
  < (n g0 + 2) ^ (n g0 + 1 - level current) + work g0 pq.
Proof.
  intros En Hl.
  pose proof (Nat.pow_nonzero (n g0 + 2) (n g0 + 1 - level current) ltac:(lia)).
  unfold visit. destruct (_ <=? _)%Z; [simpl; lia|].
  destruct (Nat.eqb_spec (level current) (n (explore g))) as [_ | Nlvl];
    [destruct (_ <? _)%Z; simpl; lia|].
  pose proof (assign_work_branches g0 current (seq 0 (n (explore g)))
                (explore g, pq)) as W.
  rewrite length_seq in W. simpl in W. rewrite En in W.
  replace (n g0 + 1 - level current)
    with (S (n g0 + 1 - (level current + 1))) by lia.
  rewrite Nat.pow_succ_r'.
  pose proof (Nat.pow_nonzero (n g0 + 2) (n g0 + 1 - (level current + 1))
                ltac:(lia)).
  simpl. rewrite En. nia.
Qed.

Lemma assign_search_ends g0 fuel : forall s,
  n g0 <= MAX_SIZE -> state_ok g0 s -> work g0 s.2 < fuel ->
  is_Some (search fuel s).
Proof.
  induction fuel as [|fuel IH]; intros s Hn Hs Hw; [lia|]. simpl.
  destruct (step s) as [s'|] eqn:E; [|done].
  apply IH; [done | by apply (assign_step_ok g0 s) |].
  unfold step in E.
  destruct (pq_pop s.2) as [[current pq]|] eqn:Hpop; [|done].
  inversion E; subst s'. rewrite (assign_work_pop g0 _ _ _ Hpop) in Hw.
  destruct Hs as (_ & En & _ & _ & Hq).
  destruct (assign_pop_ok g0 _ _ _ Hq Hpop) as [(Hl & _) _].
  pose proof (assign_work_visit g0 s.1 current pq En Hl). simpl. lia.
Qed.

Lemma assign_search_more_fuel fuel : forall s r k,
  search fuel s = Some r -> search (fuel + k) s = Some r.
Proof.
  induction fuel as [|fuel IH]; intros s r k; simpl; [done|].
  destruct (step s) as [s'|]; [apply IH | done].
Qed.

Lemma solve_assignment_ends g junk_a junk_u :
  n g <= MAX_SIZE -> length (best_assignment g) = MAX_SIZE ->
  length junk_a = MAX_SIZE -> length junk_u = MAX_SIZE ->
  is_Some (solve_assignment ((n g + 2) ^ (n g + 1) + 1) g junk_a junk_u).
Proof.
  intros Hn Lb La Lu. unfold solve_assignment. apply (assign_search_ends g).
  - done.
  - by apply assign_solve_init_ok.
  - unfold solve_init. cbn [fst snd]. rewrite assign_work_push.
    unfold root_node, set_bound. cbn [level n]. unfold work, pq_init, Heap.pq_init.
    cbn [sum_list_with]. rewrite Nat.sub_0_r. lia.
Qed.
End AssignmentTermination.

(** ** JobAssignment.c: what a user of [solve_assignment] can rely on *)

Lemma assign_iterate_ok g0 k : forall s s',
  (Assignment.n g0 <= Assignment.MAX_SIZE)%nat -> Assignment.state_ok g0 s ->
  iterate Assignment.step k s = Some s' -> Assignment.state_ok g0 s'.
Proof.
  induction k as [|k IH]; intros s s' Hn Hs; simpl; [by intros [= <-]|].
  destruct (Assignment.step s) as [s1|] eqn:E; [|done].
  apply IH; [done|]. by apply (assign_step_ok g0 s).
Qed.

Lemma assignment_queue_heap (q : Assignment.PriorityQueue) :
  Assignment.pq_reachable q ->
  Heap.heap (fun c p => Assignment.bound p <=? Assignment.bound c) q.
Proof.
  apply reachable_heap; try (intros; reflexivity).
  - intros a b. lia.
  - intros a b c. lia.
  - intros r l. apply Z.ltb_antisym.
Qed.

(** X1.  In every queue that [solve_assignment] can build in its array (from
    [pq_init], by [pq_push] while there is room and by [pq_pop] on non-empty
    queues), [pq_pop] succeeds, takes out one occurrence of the node it
    returns and leaves the others, and no node of the queue has a smaller
    bound than the returned one. *)
Theorem assignment_pq_pop_returns_min (q : Assignment.PriorityQueue) :
  Assignment.pq_reachable q -> q <> [] ->
  exists top q',
    Assignment.pq_pop q = Some (top, q') /\ q ≡ₚ top :: q' /\
    Forall (fun c => Assignment.bound top <= Assignment.bound c) q.
Proof.
  intros Hreach Hne.
  destruct (pq_pop_spec
              (fun r l => Assignment.bound r <? Assignment.bound l)
              (fun x c => Assignment.bound x <=? Assignment.bound c)
              (fun c p => Assignment.bound p <=? Assignment.bound c))
    with (q := q) as (top & q' & Hpop & Hperm & _ & Hbest);
    try (intros; reflexivity); try done.
  - intros; lia.
  - intros; lia.
  - intros; apply Z.ltb_antisym.
  - by apply assignment_queue_heap.
  - exists top, q'. split; [exact Hpop|]. split; [exact Hperm|].
    eapply Forall_impl; [exact Hbest|]. intros c Hc. simpl in Hc. lia.
Qed.

Lemma assignment_pq_pop_returns_min_witness :
  let q := Assignment.pq_push (Assignment.pq_push (Assignment.pq_push
             Assignment.pq_init (Assignment.mkNode 1 0 30 [] []))
             (Assignment.mkNode 1 0 10 [] [])) (Assignment.mkNode 1 0 20 [] []) in
  exists top q',
    Assignment.pq_pop q = Some (top, q') /\ q ≡ₚ top :: q' /\
    Forall (fun c => Assignment.bound top <= Assignment.bound c) q.
Proof.
  apply assignment_pq_pop_returns_min.
  - repeat (apply Heap.reach_push; [| vm_compute; lia]). apply Heap.reach_init.
  - vm_compute. discriminate.
Defined.



(** X3.  [solve_assignment] ends: on an instance of at most [MAX_SIZE]
    workers, in a run that keeps the queue within its array, the [while]
    loop runs fewer than [(n + 2) ^ (n + 1) + 1] rounds,
    whatever the cost matrix and the uninitialised cells of the root node
    hold, and the globals it leaves do not depend on the fuel of the
    model. *)
Theorem solve_assignment_terminates g junk_a junk_u :
  (Assignment.n g <= Assignment.MAX_SIZE)%nat ->
  length (Assignment.best_assignment g) = Assignment.MAX_SIZE ->
  length junk_a = Assignment.MAX_SIZE -> length junk_u = Assignment.MAX_SIZE ->
  queue_fits Assignment.step (fun s => length s.2) Assignment.QUEUE_CAPACITY
             (Assignment.solve_init g junk_a junk_u) ->
  exists r,
    forall fuel,
      ((Assignment.n g + 2) ^ (Assignment.n g + 1) + 1 <= fuel)%nat ->
      Assignment.solve_assignment fuel g junk_a junk_u = Some r.
Proof.
  intros Hn Lb La Lu _.
  destruct (solve_assignment_ends g junk_a junk_u Hn Lb La Lu) as [r Hr].
  exists r. intros fuel Hfuel.
  replace fuel
    with (((Assignment.n g + 2) ^ (Assignment.n g + 1) + 1)
          + (fuel - ((Assignment.n g + 2) ^ (Assignment.n g + 1) + 1)))%nat
    by lia.
  by apply assign_search_more_fuel.
Qed.

Lemma solve_assignment_terminates_witness :
  exists r,
    forall fuel,
      ((Assignment.n Assignment.four_workers + 2)
         ^ (Assignment.n Assignment.four_workers + 1) + 1 <= fuel)%nat ->
      Assignment.solve_assignment fuel Assignment.four_workers
        (replicate Assignment.MAX_SIZE 0) (replicate Assignment.MAX_SIZE 0)
      = Some r.
Proof.
  apply (solve_assignment_terminates Assignment.four_workers).
  - vm_compute; lia.
  - vm_compute; reflexivity.
  - vm_compute; reflexivity.
  - vm_compute; reflexivity.
  - apply (queue_fits_run_sound _ _ _ 100). vm_compute; reflexivity.
Defined.

(** X4.  [solve_assignment] is optimal: when it has ended, in a run that
    keeps the queue within its array, [min_cost] is at most the cost of every way of giving the [n] workers a job each, all
    jobs different. *)
Theorem solve_assignment_optimal g junk_a junk_u fuel r sigma :
  (Assignment.n g <= Assignment.MAX_SIZE)%nat ->
  length (Assignment.best_assignment g) = Assignment.MAX_SIZE ->
  length junk_a = Assignment.MAX_SIZE -> length junk_u = Assignment.MAX_SIZE ->
  queue_fits Assignment.step (fun s => length s.2) Assignment.QUEUE_CAPACITY
             (Assignment.solve_init g junk_a junk_u) ->
  Assignment.solve_assignment fuel g junk_a junk_u = Some r ->
  sigma ≡ₚ seq 0 (Assignment.n g) ->
  Assignment.min_cost r <= Assignment.assignment_cost g sigma.
Proof.
  intros Hn Lb La Lu _ Hr Hperm.
  apply (covered_search g sigma fuel (Assignment.solve_init g junk_a junk_u));
    [done | done | by apply assign_solve_init_ok | by apply covered_solve_init
    | done].
Qed.

Lemma solve_assignment_optimal_witness :
  exists r,
    Assignment.solve_assignment 100 Assignment.four_workers
      (replicate Assignment.MAX_SIZE 0) (replicate Assignment.MAX_SIZE 0)
    = Some r /\
    Assignment.min_cost r
    <= Assignment.assignment_cost Assignment.four_workers [1; 0; 2; 3]%nat.
Proof.
  eexists. split; [vm_compute; reflexivity|].
  apply (solve_assignment_optimal Assignment.four_workers
           (replicate Assignment.MAX_SIZE 0) (replicate Assignment.MAX_SIZE 0) 100).
  - vm_compute; lia.
  - vm_compute; reflexivity.
  - vm_compute; reflexivity.
  - vm_compute; reflexivity.
  - apply (queue_fits_run_sound _ _ _ 100). vm_compute; reflexivity.
  - vm_compute; reflexivity.
  - change (seq 0 (Assignment.n Assignment.four_workers)) with [0; 1; 2; 3]%nat.
    apply perm_swap.
Defined.

(** X5.  What [solve_assignment] reports is a real assignment.  On an
    instance on which no sum of costs can overflow an [int] ([costs_fit]),
    in a run that keeps the queue within its array: when the solver has
    ended with [min_cost] other than [INT_MAX], [best_assignment[0..n)]
    holds job numbers, every job of [0..n) once, and [min_cost] is the cost
    of giving worker [w] the job [best_assignment[w]]. *)
Theorem solve_assignment_feasible g junk_a junk_u fuel r :
  (Assignment.n g <= Assignment.MAX_SIZE)%nat ->
  Assignment.costs_fit g = true ->
  length (Assignment.best_assignment g) = Assignment.MAX_SIZE ->
  length junk_a = Assignment.MAX_SIZE -> length junk_u = Assignment.MAX_SIZE ->
  queue_fits Assignment.step (fun s => length s.2) Assignment.QUEUE_CAPACITY
             (Assignment.solve_init g junk_a junk_u) ->
  Assignment.solve_assignment fuel g junk_a junk_u = Some r ->
  Assignment.min_cost r <> Assignment.INF ->
  let jobs := Z.to_nat <$> take (Assignment.n g) (Assignment.best_assignment r) in
  jobs ≡ₚ seq 0 (Assignment.n g) /\
  take (Assignment.n g) (Assignment.best_assignment r) = (Z.of_nat <$> jobs) /\
  Assignment.min_cost r = Assignment.assignment_cost g jobs.
Proof.
  intros Hn _ Lb La Lu _ Hr Hinf jobs. unfold jobs.
  destruct (assign_search_ok g fuel _ r Hn
              (assign_solve_init_ok g junk_a junk_u Hn Lb La Lu) Hr)
    as (Ec & En & [Hs | (Hperm & Hz & Hcost)]); [done|].
  rewrite En in *. split; [done|]. split; [done|].
  rewrite Hcost. unfold Assignment.assignment_cost. rewrite En.
  by apply (cost_upto_instance r g).
Qed.

Lemma solve_assignment_feasible_witness :
  exists r,
    Assignment.solve_assignment 100 Assignment.four_workers
      (replicate Assignment.MAX_SIZE 0) (replicate Assignment.MAX_SIZE 0)
    = Some r /\
    let jobs := Z.to_nat <$> take (Assignment.n Assignment.four_workers)
                                  (Assignment.best_assignment r) in
    jobs ≡ₚ seq 0 (Assignment.n Assignment.four_workers) /\
    take (Assignment.n Assignment.four_workers) (Assignment.best_assignment r)
    = (Z.of_nat <$> jobs) /\
    Assignment.min_cost r = Assignment.assignment_cost Assignment.four_workers jobs.
Proof.
  eexists. split; [vm_compute; reflexivity|].
  apply (solve_assignment_feasible Assignment.four_workers
           (replicate Assignment.MAX_SIZE 0) (replicate Assignment.MAX_SIZE 0) 100).
  - vm_compute; lia.
  - vm_compute; reflexivity.
  - vm_compute; reflexivity.
  - vm_compute; reflexivity.
  - vm_compute; reflexivity.
  - apply (queue_fits_run_sound _ _ _ 100). vm_compute; reflexivity.
  - vm_compute; reflexivity.
  - vm_compute; discriminate.
Defined.

(** ** KnapsackBranchBound.c: the exhaustive enumeration *)

Lemma land_bit mask i :
  0 <= i -> (Z.land mask (Z.shiftl 1 i) =? 0) = negb (Z.testbit mask i).
Proof.
  intros Hi. rewrite Z.shiftl_1_l.
  destruct (Z.testbit mask i) eqn:Hb; simpl.
  - apply Z.eqb_neq. intros E.
    assert (Z.testbit (Z.land mask (2 ^ i)) i = true) as Hbit.
    { rewrite Z.land_spec, Hb, Z.pow2_bits_true; [done | lia]. }
    rewrite E, Z.bits_0 in Hbit. done.
  - apply Z.eqb_eq. apply Z.bits_inj'. intros k Hk.
    rewrite Z.land_spec, Z.bits_0, (Z.pow2_bits_eqb i k) by lia.
    destruct (Z.eqb_spec i k) as [-> | _]; [by rewrite Hb | by rewrite andb_false_r].
Qed.

(** Every choice among [k] items is the choice some [mask < 2^k] stands
    for. *)
Lemma mask_of_flags (k : nat) : forall flags : list Z,
  exists mask,
    0 <= mask < 2 ^ Z.of_nat k /\
    forall i, (i < k)%nat ->
      Z.testbit mask (Z.of_nat i) = negb (default 0 (flags !! i) =? 0).
Proof.
  induction k as [|k IH]; intros flags.
  - exists 0. split; [simpl; lia | intros; lia].
  - destruct (IH (drop 1 flags)) as (m & Hm & Hbits).
    set (b := negb (default 0 (flags !! 0%nat) =? 0)).
    exists (2 * m + Z.b2z b). split.
    + rewrite Nat2Z.inj_succ, Z.pow_succ_r by lia. destruct b; simpl; lia.
    + intros [|i] Hi.
      * by rewrite Z.testbit_0_r.
      * rewrite Nat2Z.inj_succ, Z.testbit_succ_r by lia.
        rewrite Hbits by lia. by rewrite lookup_drop.
Qed.

Section KnapsackBruteForce.
Context {D : Type} `{Double D}.
Import Knapsack.

Lemma chosen_nil_flags (its : list (Item D)) : chosen its [] = [].
Proof. by destruct its. Qed.

Lemma chosen_cons (it : Item D) its f flags :
  chosen (it :: its) (f :: flags)
  = if f =? 0 then chosen its flags else it :: chosen its flags.
Proof. done. Qed.

(** Only whether a flag is zero matters, and missing flags count as
    zero. *)
Lemma chosen_ext (its : list (Item D)) : forall f f',
  (forall k, (k < length its)%nat ->
     (default 0 (f !! k) =? 0) = (default 0 (f' !! k) =? 0)) ->
  chosen its f = chosen its f'.
Proof.
  induction its as [|it its IH]; intros f f' Hk; [done|].
  assert (Htail : forall g g' : list Z,
             (forall k, (k < length (it :: its))%nat ->
                (default 0 (g !! k) =? 0) = (default 0 (g' !! k) =? 0)) ->
             forall k, (k < length its)%nat ->
                (default 0 (drop 1 g !! k) =? 0)
                = (default 0 (drop 1 g' !! k) =? 0)).
  { intros g g' Hg k Hlt. rewrite !lookup_drop. apply Hg. simpl. lia. }
  pose proof (Hk 0%nat ltac:(simpl; lia)) as H0.
  pose proof (IH _ _ (Htail f f' Hk)) as Hrec.
  destruct f as [|a f], f' as [|a' f']; simpl in H0, Hrec.
  - done.
  - rewrite chosen_cons, <- H0. simpl. rewrite drop_0 in Hrec.
    by rewrite <- Hrec, chosen_nil_flags.
  - rewrite chosen_cons, H0. simpl. rewrite drop_0 in Hrec.
    by rewrite Hrec, chosen_nil_flags.
  - rewrite !chosen_cons, H0. rewrite !drop_0 in Hrec. by rewrite Hrec.
Qed.

(** What the inner loop computes for one mask: the sums over the items
    whose bit is set, and their flags. *)
Lemma select_spec (its : list (Item D)) : forall i mask cur,
  let bits := (fun k => Z.b2z (Z.testbit mask (Z.of_nat k)))
                <$> seq i (length its) in
  let '(w, p, sol) := select its i mask cur in
  w = foldr Z.add 0 (weight <$> chosen its bits) /\
  p = foldr Z.add 0 (value <$> chosen its bits) /\
  length sol = length cur /\
  forall k,
    sol !! k = if decide ((i <= k < i + length its)%nat /\
                          Z.testbit mask (Z.of_nat k) = true)
               then (fun _ => 1) <$> cur !! k else cur !! k.
Proof.
  induction its as [|it its IH]; intros i mask cur; simpl.
  - repeat split; try done. intros k. destruct (decide _) as [[? _] | _]; [lia | done].
  - rewrite land_bit by lia.
    specialize (IH (S i) mask).
    destruct (Z.testbit mask (Z.of_nat i)) eqn:Hb; simpl.
    + specialize (IH (<[i := 1]> cur)).
      destruct (select its (S i) mask (<[i := 1]> cur)) as [[w p] sol].
      destruct IH as (Hw & Hp & Hlen & Hsol).
      split; [by rewrite Hw|]. split; [by rewrite Hp|].
      split; [by rewrite Hlen, length_insert|].
      intros k. rewrite Hsol.
      destruct (decide (k = i)) as [-> | Hne].
      * destruct (decide _) as [[? _] | _]; [lia|].
        destruct (decide _) as [_ | Hn]; [|exfalso; apply Hn; split; [lia | done]].
        destruct (decide (i < length cur)%nat).
        -- rewrite list_lookup_insert_eq by done.
           by destruct (lookup_lt_is_Some_2 cur i) as [x ->].
        -- rewrite list_insert_ge by lia.
           by rewrite lookup_ge_None_2 by lia.
      * rewrite list_lookup_insert_ne by done.
        destruct (decide _) as [[? ?] | Hn].
        -- destruct (decide _) as [_ | Hn']; [done|].
           exfalso; apply Hn'; split; [lia | done].
        -- destruct (decide _) as [[? ?] | _]; [|done].
           exfalso; apply Hn; split; [lia | done].
    + specialize (IH cur).
      destruct (select its (S i) mask cur) as [[w p] sol].
      destruct IH as (Hw & Hp & Hlen & Hsol).
      split; [exact Hw|]. split; [exact Hp|]. split; [done|].
      intros k. rewrite Hsol.
      destruct (decide _) as [[? ?] | Hn].
      * destruct (decide _) as [_ | Hn']; [done|].
        exfalso; apply Hn'; split; [lia | done].
      * destruct (decide _) as [[? ?] | _]; [|done].
        destruct (decide (k = i)) as [-> | ?]; [congruence|].
        exfalso; apply Hn; split; [lia | done].
Qed.

(** One mask of the outer loop, read through [solution_weight] and
    [solution_profit]. *)
Lemma select_solution (g : Globals D) mask :
  (n g <= MAX_ITEMS)%nat ->
  let '(w, p, sol) :=
    select (take (n g) (items g)) 0 mask (replicate MAX_ITEMS 0) in
  w = solution_weight g sol /\ p = solution_profit g sol /\
  forall flags,
    (forall i, (i < n g)%nat ->
       Z.testbit mask (Z.of_nat i) = negb (default 0 (flags !! i) =? 0)) ->
    solution_weight g flags = w /\ solution_profit g flags = p.
Proof.
  intros Hn.
  pose proof (select_spec (take (n g) (items g)) 0 mask (replicate MAX_ITEMS 0))
    as Hspec.
  destruct (select _ _ _ _) as [[w p] sol]. cbv beta iota zeta in Hspec.
  destruct Hspec as (Hw & Hp & Hlen & Hsol).
  set (its := take (n g) (items g)) in *.
  assert (Hlen' : (length its <= n g)%nat)
    by (unfold its; rewrite length_take; lia).
  set (bits := (fun k => Z.b2z (Z.testbit mask (Z.of_nat k)))
                 <$> seq 0 (length its)) in *.
  assert (Hbits : forall k, (k < length its)%nat ->
            (default 0 (bits !! k) =? 0) = negb (Z.testbit mask (Z.of_nat k))).
  { intros k Hk. unfold bits. rewrite list_lookup_fmap, lookup_seq_lt by done.
    simpl. by destruct (Z.testbit mask (Z.of_nat k)). }
  assert (Hsame : chosen its sol = chosen its bits).
  { apply chosen_ext. intros k Hk. rewrite Hbits by done. rewrite Hsol.
    rewrite lookup_replicate_2 by lia.
    destruct (decide _) as [[_ ->] | Hn']; [done|].
    destruct (Z.testbit mask (Z.of_nat k)); [|done].
    exfalso. apply Hn'. split; [lia | done]. }
  unfold solution_weight, solution_profit. fold its. rewrite Hsame.
  split; [done|]. split; [done|]. intros flags Hflags.
  assert (chosen its flags = chosen its bits) as ->; [|done].
  apply chosen_ext. intros k Hk. rewrite Hbits by done.
  rewrite Hflags by lia. by rewrite negb_involutive.
Qed.

(** The accumulator of the outer loop: it is the best feasible profit so
    far, and it is the profit of the flags kept with it. *)
Lemma brute_force_rounds (g : Globals D) masks :
  (n g <= MAX_ITEMS)%nat ->
  forall acc : Z * list Z,
    acc.1 = solution_profit g acc.2 -> solution_weight g acc.2 <= capacity g ->
    let best := foldl (brute_force_round g) acc masks in
    best.1 = solution_profit g best.2 /\
    solution_weight g best.2 <= capacity g /\
    acc.1 <= best.1 /\
    forall mask flags,
      mask ∈ masks ->
      (forall i, (i < n g)%nat ->
         Z.testbit mask (Z.of_nat i) = negb (default 0 (flags !! i) =? 0)) ->
      solution_weight g flags <= capacity g ->
      solution_profit g flags <= best.1.
Proof.
  intros Hn. induction masks as [|m masks IH]; intros acc Hp Hw; simpl.
  - repeat split; try done; try lia.
    intros mask flags Hin. by apply elem_of_nil in Hin.
  - pose proof (select_solution g m Hn) as Hsel.
    assert (Hround :
      (brute_force_round g acc m).1
      = solution_profit g (brute_force_round g acc m).2 /\
      solution_weight g (brute_force_round g acc m).2 <= capacity g /\
      acc.1 <= (brute_force_round g acc m).1 /\
      forall flags,
        (forall i, (i < n g)%nat ->
           Z.testbit m (Z.of_nat i) = negb (default 0 (flags !! i) =? 0)) ->
        solution_weight g flags <= capacity g ->
        solution_profit g flags <= (brute_force_round g acc m).1).
    { unfold brute_force_round.
      destruct (select _ _ _ _) as [[w p] sol].
      destruct Hsel as (Ew & Ep & Hflags).
      destruct (Z.leb_spec w (capacity g)); simpl.
      - destruct (Z.ltb_spec acc.1 p); simpl.
        + repeat split; try done; try lia.
          intros flags Hf Hfit. destruct (Hflags flags Hf) as [_ ->]. lia.
        + repeat split; try done; try lia.
          intros flags Hf Hfit. destruct (Hflags flags Hf) as [_ ->]. lia.
      - repeat split; try done; try lia.
        intros flags Hf Hfit. destruct (Hflags flags Hf) as [Hfw _]. lia. }
    destruct Hround as (Hp' & Hw' & Hle & Hm).
    destruct (IH _ Hp' Hw') as (Hbp & Hbw & Hble & Hball).
    split; [done|]. split; [done|]. split; [lia|].
    intros mask flags Hin Hf Hfit.
    apply elem_of_cons in Hin as [-> | Hin]; [|by apply (Hball mask)].
    pose proof (Hm flags Hf Hfit). lia.
Qed.

Lemma brute_force_knapsack_spec (g : Globals D) :
  (n g <= MAX_ITEMS)%nat -> 0 <= capacity g ->
  let res := brute_force_knapsack g in
  res_max_profit res = solution_profit g (solution res) /\
  total_weight res = solution_weight g (solution res) /\
  total_weight res <= capacity g /\
  forall flags,
    solution_weight g flags <= capacity g ->
    solution_profit g flags <= res_max_profit res.
Proof.
  intros Hn Hc. unfold brute_force_knapsack.
  cbn [res_max_profit solution total_weight].
  destruct (brute_force_rounds g
              (Z.of_nat <$> seq 0 (Z.to_nat (Z.shiftl 1 (Z.of_nat (n g)))))
              Hn (0, replicate MAX_ITEMS 0))
    as (Hp & Hw & _ & Hall).
  { cbn [fst snd]. unfold solution_profit. by rewrite chosen_zeros. }
  { cbn [fst snd]. unfold solution_weight. by rewrite chosen_zeros. }
  split; [done|]. split; [done|]. split; [done|].
  intros flags Hfit.
  destruct (mask_of_flags (n g) flags) as (mask & Hm & Hbits).
  apply (Hall mask flags); [|done | done].
  apply list_elem_of_fmap. exists (Z.to_nat mask). split; [lia|].
  apply elem_of_seq. rewrite Z.shiftl_1_l. lia.
Qed.
End KnapsackBruteForce.

(** ** KnapsackBranchBound.c: which choices the search cannot lose *)

Lemma foldr_add_app (a b : list Z) :
  foldr Z.add 0 (a ++ b) = foldr Z.add 0 a + foldr Z.add 0 b.
Proof. induction a as [|x a IH]; simpl; lia. Qed.

Lemma StronglySorted_drop {A : Type} (R : A -> A -> Prop) (l : list A) : forall k,
  StronglySorted R l -> StronglySorted R (drop k l).
Proof.
  induction l as [|x l IH]; intros [|k] Hs; simpl; try done.
  apply IH. by apply StronglySorted_inv in Hs as [? _].
Qed.

Section KnapsackChoices.
Context {D : Type} `{Double D}.
Import Knapsack.

Lemma chosen_split (its : list (Item D)) : forall l flags,
  chosen its flags
  = chosen (take l its) (take l flags) ++ chosen (drop l its) (drop l flags).
Proof.
  induction its as [|it its IH]; intros l flags.
  - by rewrite take_nil, drop_nil.
  - destruct l as [|l]; [done|]. destruct flags as [|f flags].
    + by rewrite !chosen_nil_flags.
    + cbn [take drop]. rewrite !chosen_cons, (IH l flags).
      by destruct (f =? 0).
Qed.

Lemma chosen_all_zero (its : list (Item D)) flags :
  (forall k, (k < length its)%nat -> default 0 (flags !! k) = 0) ->
  chosen its flags = [].
Proof.
  intros Hz. rewrite (chosen_ext its flags []); [apply chosen_nil_flags|].
  intros k Hk. by rewrite (Hz k Hk).
Qed.

(** The sums over a choice that a node agrees with: what the node has
    taken, and what the choice takes among the items still open. *)
Lemma agrees_sums (g : Globals D) node flags (f : Item D -> Z) :
  node_ok g node -> agrees node flags ->
  foldr Z.add 0 (f <$> chosen (take (n g) (items g)) flags)
  = foldr Z.add 0 (f <$> chosen (take (n g) (items g)) (included node))
    + foldr Z.add 0
        (f <$> chosen (drop (level node) (take (n g) (items g)))
                      (drop (level node) flags)).
Proof.
  intros (Hl & Hlen & Hz & _) Hagree.
  set (its := take (n g) (items g)).
  rewrite (chosen_split its (level node) flags).
  rewrite (chosen_split its (level node) (included node)).
  rewrite !fmap_app, !foldr_add_app.
  rewrite (chosen_all_zero (drop (level node) its)
             (drop (level node) (included node))).
  - rewrite (chosen_ext (take (level node) its)
               (take (level node) (included node)) (take (level node) flags)).
    + simpl. lia.
    + intros k Hk. rewrite length_take in Hk.
      rewrite !lookup_take_lt by lia. apply Hagree. lia.
  - intros k Hk. rewrite lookup_drop.
    destruct (decide (level node + k < MAX_ITEMS)%nat) as [Hlt | Hge].
    + by rewrite Hz by lia.
    + by rewrite lookup_ge_None_2 by lia.
Qed.

Lemma agrees_exclude (g : Globals D) current flags :
  node_ok g current -> (level current < n g)%nat -> (n g <= MAX_ITEMS)%nat ->
  agrees current flags ->
  default 0 (flags !! level current) = 0 ->
  agrees (exclude_node g current) flags.
Proof.
  intros (Hl & Hlen & Hz & _) Hlt Hmax Hagree Hflag i Hi.
  unfold exclude_node, set_bound in *. cbn [level included] in *.
  destruct (decide (i = level current)) as [-> | Hne]; [|apply Hagree; lia].
  by rewrite Hz, Hflag by lia.
Qed.

Lemma agrees_include (g : Globals D) current flags :
  node_ok g current -> (level current < n g)%nat -> (n g <= MAX_ITEMS)%nat ->
  agrees current flags ->
  default 0 (flags !! level current) <> 0 ->
  agrees (include_node g current) flags.
Proof.
  intros (Hl & Hlen & Hz & _) Hlt Hmax Hagree Hflag i Hi.
  unfold include_node, set_bound in *. cbn [level included] in *.
  destruct (decide (i = level current)) as [-> | Hne].
  - rewrite list_lookup_insert_eq by lia. simpl. symmetry. by apply Z.eqb_neq.
  - rewrite list_lookup_insert_ne by done. apply Hagree. lia.
Qed.

Lemma knap_calculate_bound_instance (g g' : Globals D) node :
  same_instance g g' -> calculate_bound g node = calculate_bound g' node.
Proof. intros (Ei & En & Ec). unfold calculate_bound. by rewrite Ei, En, Ec. Qed.

Lemma knap_include_node_instance (g g' : Globals D) current :
  same_instance g g' -> include_node g current = include_node g' current.
Proof.
  intros Hi. pose proof Hi as (Ei & En & Ec). unfold include_node.
  by rewrite Ei, (knap_calculate_bound_instance g g' _ Hi).
Qed.

Lemma knap_exclude_node_instance (g g' : Globals D) current :
  same_instance g g' -> exclude_node g current = exclude_node g' current.
Proof.
  intros Hi. unfold exclude_node. by rewrite (knap_calculate_bound_instance g g' _ Hi).
Qed.

Lemma knap_push_elem (pq : PriorityQueue D) nd x :
  x ∈ pq_push pq nd <-> x = nd \/ x ∈ pq.
Proof. unfold pq_push. rewrite (pq_push_perm _ pq nd). apply elem_of_cons. Qed.

Lemma knap_offer_queue (g : Globals D) pq nd x :
  x ∈ pq -> x ∈ (offer g pq nd).2.
Proof.
  intros Hx. unfold offer. destruct (d_lt _ _); [|done].
  apply knap_push_elem. by right.
Qed.

Lemma knap_visit_queue (g : Globals D) current pq x :
  x ∈ pq -> x ∈ (visit g current pq).2.
Proof.
  intros Hx. unfold visit. destruct (d_le _ _); [done|].
  destruct (_ =? _)%nat; [done|].
  destruct (_ <=? _).
  - destruct (offer (explore g) pq _) as [g1 pq1] eqn:E.
    apply knap_offer_queue.
    change pq1 with (g1, pq1).2. rewrite <- E. by apply knap_offer_queue.
  - by apply knap_offer_queue.
Qed.

Lemma knap_covered_offer (g0 g : Globals D) flags pq nd :
  covered g0 flags (g, pq) -> covered g0 flags (offer g pq nd).
Proof.
  intros [Hle | (node & Hin & Hok)].
  - left. by rewrite offer_max_profit.
  - right. exists node. split; [by apply knap_offer_queue | done].
Qed.
End KnapsackChoices.

Section KnapsackCoverage.
Import Knapsack.

Lemma knap_bound_dominates (g : Globals Q) node flags :
  (n g <= MAX_ITEMS)%nat ->
  Forall item_wf (take (n g) (items g)) ->
  StronglySorted (fun a b => (ratio b <= ratio a)%Q) (take (n g) (items g)) ->
  node_ok g node -> agrees node flags ->
  solution_weight g flags < capacity g ->
  (inject_Z (solution_profit g flags) <= calculate_bound g node)%Q.
Proof.
  intros Hmax Hwf Hsort Hok Hagree Hfit.
  pose proof (agrees_sums g node flags weight Hok Hagree) as Hw.
  pose proof (agrees_sums g node flags value Hok Hagree) as Hp.
  pose proof Hok as (_ & _ & _ & Epr & Ewt & _).
  fold (solution_weight g flags) in Hw. fold (solution_profit g flags) in Hp.
  fold (solution_weight g (included node)) in Hw.
  fold (solution_profit g (included node)) in Hp.
  rewrite <- Ewt in Hw. rewrite <- Epr in Hp.
  set (rest := drop (level node) (take (n g) (items g))) in *.
  assert (Hwf' : Forall item_wf rest) by (by apply Forall_drop).
  pose proof (chosen_weight_nonneg rest Hwf' (drop (level node) flags)) as Hpos.
  unfold calculate_bound.
  destruct (Z.leb_spec (capacity g) (node_weight node)); [lia|].
  fold rest. rewrite bound_loop_shift.
  pose proof (relaxed_dominates rest Hwf' (StronglySorted_drop _ _ _ Hsort)
                (drop (level node) flags)
                (capacity g - node_weight node) ltac:(lia) ltac:(lia)) as HV.
  rewrite Hp, inject_Z_plus. simpl d_of_int. lra.
Qed.

Lemma knap_offer_covers (g0 g : Globals Q) flags pq nd :
  (n g0 <= MAX_ITEMS)%nat ->
  Forall item_wf (take (n g0) (items g0)) ->
  StronglySorted (fun a b => (ratio b <= ratio a)%Q) (take (n g0) (items g0)) ->
  solution_weight g0 flags < capacity g0 ->
  node_ok g0 nd -> agrees nd flags -> bound nd = calculate_bound g0 nd ->
  covered g0 flags (offer g pq nd).
Proof.
  intros Hmax Hwf Hsort Hfit Hok Hagree Hb.
  pose proof (knap_bound_dominates g0 nd flags Hmax Hwf Hsort Hok Hagree Hfit)
    as Hdom.
  unfold offer. simpl d_lt. simpl d_of_int.
  destruct (Qle_bool (bound nd) (inject_Z (max_profit g))) eqn:E; simpl.
  - left. simpl. apply Qle_bool_iff in E. rewrite Hb in E.
    rewrite Zle_Qle. lra.
  - right. exists nd. split; [apply knap_push_elem; by left | done].
Qed.

Lemma knap_fits_include (g : Globals Q) current flags :
  Forall item_wf (take (n g) (items g)) ->
  (n g <= length (items g))%nat ->
  node_ok g current -> agrees current flags -> (level current < n g)%nat ->
  default 0 (flags !! level current) <> 0 ->
  node_weight current + weight (item_at (items g) (level current))
  <= solution_weight g flags.
Proof.
  intros Hwf Hn Hok Hagree Hlt Hflag.
  pose proof (agrees_sums g current flags weight Hok Hagree) as Hw.
  pose proof Hok as (_ & _ & _ & _ & Ewt & _).
  fold (solution_weight g flags) in Hw.
  fold (solution_weight g (included current)) in Hw. rewrite <- Ewt in Hw.
  destruct (lookup_lt_is_Some_2 (items g) (level current)) as [it Hit]; [lia|].
  assert (item_at (items g) (level current) = it) as ->
    by (unfold item_at; by rewrite Hit).
  destruct (flags !! level current) as [f|] eqn:Hf; [|done]. simpl in Hflag.
  rewrite (drop_S _ it (level current)) in Hw by (by rewrite lookup_take_lt).
  rewrite (drop_S _ f (level current)) in Hw by done.
  rewrite chosen_cons in Hw.
  destruct (Z.eqb_spec f 0) as [? | _]; [done|].
  rewrite fmap_cons in Hw. cbn [foldr] in Hw.
  pose proof (chosen_weight_nonneg
                (drop (S (level current)) (take (n g) (items g)))
                ltac:(by apply Forall_drop)
                (drop (S (level current)) flags)).
  lia.
Qed.

Lemma knap_covered_visit (g0 g : Globals Q) flags current pq :
  (n g0 <= length (items g0))%nat -> (n g0 <= MAX_ITEMS)%nat ->
  Forall item_wf (take (n g0) (items g0)) ->
  StronglySorted (fun a b => (ratio b <= ratio a)%Q) (take (n g0) (items g0)) ->
  solution_weight g0 flags < capacity g0 ->
  same_instance g0 g ->
  node_ok g0 current -> agrees current flags ->
  bound current = calculate_bound g0 current ->
  covered g0 flags (visit g current pq).
Proof.
  intros Hn Hmax Hwf Hsort Hfit Hi Hok Hagree Hb.
  pose proof (knap_bound_dominates g0 current flags Hmax Hwf Hsort Hok Hagree
                Hfit) as Hdom.
  rewrite <- Hb in Hdom.
  unfold visit. set (ge := explore g).
  assert (Hie : same_instance g0 ge) by exact Hi.
  pose proof Hie as (Ei & En & Ec).
  simpl d_le. simpl d_of_int.
  destruct (Qle_bool (bound current) (inject_Z (max_profit g))) eqn:E.
  { left. change (solution_profit g0 flags <= max_profit g).
    apply Qle_bool_iff in E. rewrite Zle_Qle. lra. }
  destruct (Nat.eqb_spec (level current) (n ge)) as [Elvl | Nlvl].
  - left.
    assert (profit current = solution_profit g0 flags) as Ep.
    { pose proof (agrees_sums g0 current flags value Hok Hagree) as Hp.
      pose proof Hok as (_ & _ & _ & Epr & _).
      fold (solution_profit g0 flags) in Hp.
      fold (solution_profit g0 (included current)) in Hp.
      rewrite <- Epr in Hp. rewrite Hp.
      rewrite Elvl, <- En. rewrite drop_ge; [simpl; lia|].
      rewrite length_take. lia. }
    destruct (Z.ltb_spec (max_profit ge) (profit current)); simpl.
    + lia.
    + change (max_profit ge) with (max_profit g) in *. lia.
  - assert (Hlt : (level current < n g0)%nat).
    { destruct Hok as (Hl & _). lia. }
    rewrite <- (knap_include_node_instance g0 ge _ Hie).
    rewrite <- (knap_exclude_node_instance g0 ge _ Hie).
    rewrite <- Ei, <- Ec.
    destruct (Z.eq_dec (default 0 (flags !! level current)) 0) as [Hz | Hnz].
    + assert (Hex : node_ok g0 (exclude_node g0 current))
        by (by apply knap_exclude_node_ok).
      assert (Hag : agrees (exclude_node g0 current) flags)
        by (by apply agrees_exclude).
      destruct (_ <=? _).
      * destruct (offer ge pq (include_node g0 current)) as [g1 pq1].
        by apply knap_offer_covers.
      * by apply knap_offer_covers.
    + pose proof (knap_fits_include g0 current flags Hwf Hn Hok Hagree Hlt Hnz)
        as Hfits.
      destruct (Z.leb_spec
                  (node_weight current
                   + weight (item_at (items g0) (level current)))
                  (capacity g0)); [|lia].
      assert (Hin : node_ok g0 (include_node g0 current))
        by (by apply knap_include_node_ok).
      assert (Hag : agrees (include_node g0 current) flags)
        by (by apply agrees_include).
      destruct (offer ge pq (include_node g0 current)) as [g1 pq1] eqn:E1.
      apply knap_covered_offer. rewrite <- E1.
      by apply knap_offer_covers.
Qed.

Lemma knap_covered_step (g0 : Globals Q) flags s s' :
  (n g0 <= length (items g0))%nat -> (n g0 <= MAX_ITEMS)%nat ->
  Forall item_wf (take (n g0) (items g0)) ->
  StronglySorted (fun a b => (ratio b <= ratio a)%Q) (take (n g0) (items g0)) ->
  solution_weight g0 flags < capacity g0 ->
  same_instance g0 s.1 ->
  covered g0 flags s -> step s = Some s' -> covered g0 flags s'.
Proof.
  intros Hn Hmax Hwf Hsort Hfit Hi Hcov. unfold step.
  destruct (pq_pop s.2) as [[current pq]|] eqn:Hpop; [|done]. intros [= <-].
  destruct Hcov as [Hle | (node & Hin & Hok & Hagree & Hb)].
  { left.
    destruct (visit_max_profit s.1 current pq) as [-> | (_ & ? & ->)]; lia. }
  apply pq_pop_perm in Hpop. rewrite Hpop in Hin.
  apply elem_of_cons in Hin as [-> | Hin].
  - by apply knap_covered_visit.
  - right. exists node. split; [by apply knap_visit_queue | done].
Qed.

Lemma knap_covered_search (g0 : Globals Q) flags fuel : forall s r,
  (n g0 <= length (items g0))%nat -> (n g0 <= MAX_ITEMS)%nat ->
  Forall item_wf (take (n g0) (items g0)) ->
  StronglySorted (fun a b => (ratio b <= ratio a)%Q) (take (n g0) (items g0)) ->
  solution_weight g0 flags < capacity g0 ->
  state_ok g0 s -> covered g0 flags s -> search fuel s = Some r ->
  solution_profit g0 flags <= max_profit r.
Proof.
  induction fuel as [|fuel IH]; intros s r Hn Hmax Hwf Hsort Hfit Hs Hcov;
    simpl; [done|].
  destruct (step s) as [s'|] eqn:E.
  - apply IH; try done.
    + by apply (knap_step_ok g0 s).
    + destruct Hs as (Hi & _). by apply (knap_covered_step g0 flags s).
  - intros [= <-]. destruct Hcov as [Hle | (node & Hin & _)]; [done|].
    unfold step in E.
    destruct (pq_pop s.2) as [[current pq]|] eqn:Hpop; [done|].
    destruct (pq_pop_is_Some
                (fun r l : KnapsackNode Q => d_lt (bound l) (bound r))
                (fun x c : KnapsackNode Q => d_le (bound c) (bound x)) s.2)
      as (top & q' & Hp).
    { intros Hnil. rewrite Hnil in Hin. by apply elem_of_nil in Hin. }
    unfold pq_pop in Hpop. congruence.
Qed.
End KnapsackCoverage.

(** ** KnapsackBranchBound.c: what a user of the three solvers can rely on *)

Lemma qsort_items_sorted (l : list (Knapsack.Item Q)) k :
  StronglySorted (fun a b => (Knapsack.ratio b <= Knapsack.ratio a)%Q)
                 (take k (Knapsack.qsort l k Knapsack.compare_items)).
Proof.
  apply Sorted_StronglySorted.
  - intros a b c Hab Hbc. by apply (Qle_trans _ (Knapsack.ratio b)).
  - eapply Sorted_weaken; [| apply (qsort_sorted Knapsack.compare_items)].
    + intros a b. apply compare_items_Q_le.
    + intros x y Hxy. apply compare_items_Q_le.
      assert (~ (Knapsack.ratio y <= Knapsack.ratio x)%Q) as Hn'.
      { intros Hle. apply compare_items_Q_le in Hle. lia. }
      apply Qlt_le_weak, Qnot_le_lt, Hn'.
Qed.

(** X6.  In exact arithmetic [solve_knapsack] can only lose choices that fill
    the knapsack exactly: when it has ended, in a run that keeps the queue
    within its array, [max_profit] is at least the
    profit of every choice of items (flags over the sorted array) whose
    weight is strictly below the capacity.  The items are as [main] builds
    them: positive weight, value not negative, [ratio = value / weight]. *)
Theorem solve_knapsack_keeps_loose_choices (g : Knapsack.Globals Q) fuel r flags :
  (Knapsack.n g <= length (Knapsack.items g))%nat ->
  (Knapsack.n g <= Knapsack.MAX_ITEMS)%nat ->
  0 <= Knapsack.capacity g ->
  Forall Knapsack.item_wf (take (Knapsack.n g) (Knapsack.items g)) ->
  queue_fits Knapsack.step (fun s => length s.2) Knapsack.QUEUE_CAPACITY
             (Knapsack.solve_init g) ->
  Knapsack.solve_knapsack fuel g = Some r ->
  Knapsack.solution_weight r flags < Knapsack.capacity g ->
  Knapsack.solution_profit r flags <= Knapsack.max_profit r.
Proof.
  intros Hn Hmax Hc Hwf _ Hr Hfit. unfold Knapsack.solve_knapsack in Hr.
  set (s0 := Knapsack.solve_init g) in *. set (g0 := s0.1).
  destruct (qsort_perm Knapsack.compare_items (Knapsack.items g) (Knapsack.n g))
    as (Hperm & _ & Hlen).
  assert (Hn0 : (Knapsack.n g0 <= length (Knapsack.items g0))%nat).
  { unfold g0, s0, Knapsack.solve_init. cbn [fst Knapsack.items Knapsack.n].
    by rewrite Hlen. }
  assert (Hwf0 : Forall Knapsack.item_wf
                   (take (Knapsack.n g0) (Knapsack.items g0))).
  { unfold g0, s0, Knapsack.solve_init. cbn [fst Knapsack.items Knapsack.n].
    by rewrite Hperm. }
  assert (Hs0 : Knapsack.state_ok g0 s0) by (by apply knap_solve_init_ok).
  destruct (knap_search_ok g0 fuel s0 r Hn0 Hmax Hs0 Hr) as ((Ei & En & Ec) & _).
  assert (Knapsack.solution_profit r flags = Knapsack.solution_profit g0 flags)
    as -> by (unfold Knapsack.solution_profit; by rewrite Ei, En).
  assert (Knapsack.solution_weight r flags = Knapsack.solution_weight g0 flags)
    as Ew by (unfold Knapsack.solution_weight; by rewrite Ei, En).
  apply (knap_covered_search g0 flags fuel s0 r); try done.
  - apply qsort_items_sorted.
  - by rewrite <- Ew.
  - right. exists (Knapsack.root_node g0).
    split; [apply knap_push_elem; by left|].
    split; [by apply knap_root_node_ok|]. split; [|done].
    intros i Hi. unfold Knapsack.root_node, Knapsack.set_bound in Hi.
    cbn [Knapsack.level] in Hi. lia.
Qed.

Lemma solve_knapsack_keeps_loose_choices_witness :
  exists r,
    Knapsack.solve_knapsack 13 (Knapsack.scenario_A (D:=Q)) = Some r /\
    Knapsack.solution_profit r [1; 0; 1; 0] <= Knapsack.max_profit r.
Proof.
  eexists. split; [vm_compute; reflexivity|].
  apply (solve_knapsack_keeps_loose_choices Knapsack.scenario_A 13).
  - vm_compute; lia.
  - vm_compute; lia.
  - vm_compute; discriminate.
  - repeat (constructor;
            [split; [vm_compute; reflexivity
                    | split; [vm_compute; discriminate | vm_compute; reflexivity]]
            |]).
    constructor.
  - apply (queue_fits_run_sound _ _ _ 100). vm_compute; reflexivity.
  - vm_compute; reflexivity.
  - vm_compute; reflexivity.
Defined.



(** X8.  Branch and bound never reports more than the exhaustive
    enumeration, in any arithmetic of [double]: when [solve_knapsack] has
    ended, in a run that keeps the queue within its array, [max_profit] is
    at most what [brute_force_knapsack] then
    returns. *)
Theorem solve_knapsack_below_brute_force
  (D : Type) (HD : Double D) (g : Knapsack.Globals D) fuel r :
  (Knapsack.n g <= length (Knapsack.items g))%nat ->
  (Knapsack.n g <= Knapsack.MAX_ITEMS)%nat ->
  0 <= Knapsack.capacity g ->
  queue_fits Knapsack.step (fun s => length s.2) Knapsack.QUEUE_CAPACITY
             (Knapsack.solve_init g) ->
  Knapsack.solve_knapsack fuel g = Some r ->
  Knapsack.max_profit r
  <= Knapsack.res_max_profit (Knapsack.brute_force_knapsack r).
Proof.
  intros Hn Hmax Hc _ Hr.
  destruct (solve_knapsack_ok g fuel r Hn Hmax Hc Hr) as (_ & En & Ec & Hp & Hw).
  destruct (brute_force_knapsack_spec r) as (_ & _ & _ & Hall);
    [by rewrite En | by rewrite Ec |].
  rewrite Hp. by apply Hall.
Qed.

Lemma solve_knapsack_below_brute_force_witness :
  exists r : Knapsack.Globals float,
    Knapsack.solve_knapsack 12 Knapsack.test_case_1 = Some r /\
    Knapsack.max_profit r
    <= Knapsack.res_max_profit (Knapsack.brute_force_knapsack r).
Proof.
  eexists. split; [vm_compute; reflexivity|].
  apply (solve_knapsack_below_brute_force float _ Knapsack.test_case_1 12).
  - vm_compute; lia.
  - vm_compute; lia.
  - vm_compute; discriminate.
  - apply (queue_fits_run_sound _ _ _ 100). vm_compute; reflexivity.
  - vm_compute; reflexivity.
Defined.

(** X9.  [solve_knapsack] ends, in any arithmetic of [double]: on at most
    [MAX_ITEMS] items and a capacity that is not negative, in a run that
    keeps the queue within its array, the [while] loop
    runs fewer than [3 ^ (n + 1) + 1] rounds, and the globals it leaves do
    not depend on the fuel of the model. *)
Theorem solve_knapsack_terminates
  (D : Type) (HD : Double D) (g : Knapsack.Globals D) :
  (Knapsack.n g <= length (Knapsack.items g))%nat ->
  (Knapsack.n g <= Knapsack.MAX_ITEMS)%nat ->
  0 <= Knapsack.capacity g ->
  queue_fits Knapsack.step (fun s => length s.2) Knapsack.QUEUE_CAPACITY
             (Knapsack.solve_init g) ->
  exists r,
    forall fuel,
      (3 ^ (Knapsack.n g + 1) + 1 <= fuel)%nat ->
      Knapsack.solve_knapsack fuel g = Some r.
Proof.
  intros Hn Hmax Hc _.
  destruct (solve_knapsack_ends g Hn Hmax Hc) as [r Hr].
  exists r. intros fuel Hfuel.
  replace fuel
    with ((3 ^ (Knapsack.n g + 1) + 1)
          + (fuel - (3 ^ (Knapsack.n g + 1) + 1)))%nat by lia.
  by apply search_more_fuel.
Qed.

Lemma solve_knapsack_terminates_witness :
  exists r : Knapsack.Globals float,
    forall fuel,
      (3 ^ (Knapsack.n (Knapsack.test_case_1 (D:=float)) + 1) + 1 <= fuel)%nat ->
      Knapsack.solve_knapsack fuel Knapsack.test_case_1 = Some r.
Proof.
  apply (solve_knapsack_terminates float _ Knapsack.test_case_1).
  - vm_compute; lia.
  - vm_compute; lia.
  - vm_compute; discriminate.
  - apply (queue_fits_run_sound _ _ _ 100). vm_compute; reflexivity.
Defined.

(** X23.  [calculate_bound] is admissible below the capacity, in exact
    arithmetic: for items sorted by non-increasing ratio, the bound of a node
    whose weight is strictly below the capacity is at least the profit of
    the node plus the profit of every choice among the items still open that
    fits the remaining capacity. *)
Theorem knapsack_bound_admissible_below_capacity
  (g : Knapsack.Globals Q) (node : Knapsack.KnapsackNode Q) (flags : list Z) :
  let rest := drop (Knapsack.level node) (take (Knapsack.n g) (Knapsack.items g)) in
  Forall Knapsack.item_wf rest ->
  StronglySorted (fun a b => (Knapsack.ratio b <= Knapsack.ratio a)%Q) rest ->
  Knapsack.node_weight node < Knapsack.capacity g ->
  Knapsack.node_weight node
  + foldr Z.add 0 (Knapsack.weight <$> Knapsack.chosen rest flags)
  <= Knapsack.capacity g ->
  (inject_Z (Knapsack.profit node
             + foldr Z.add 0%Z (Knapsack.value <$> Knapsack.chosen rest flags))
   <= Knapsack.calculate_bound g node)%Q.
Proof. apply calculate_bound_admissible_below_capacity. Qed.

Lemma knapsack_bound_admissible_below_capacity_witness :
  let g : Knapsack.Globals Q := (Knapsack.solve_init Knapsack.test_case_1).1 in
  let node := Knapsack.mkNode 2 60 10 0%Q ([1; 0] ++ replicate 18 0) in
  (inject_Z (Knapsack.profit node
             + foldr Z.add 0%Z
                 (Knapsack.value
                    <$> Knapsack.chosen
                          (drop (Knapsack.level node)
                                (take (Knapsack.n g) (Knapsack.items g)))
                          [1%Z]))
   <= Knapsack.calculate_bound g node)%Q.
Proof.
  apply (knapsack_bound_admissible_below_capacity
           (Knapsack.solve_init Knapsack.test_case_1).1
           (Knapsack.mkNode 2 60 10 0%Q ([1; 0] ++ replicate 18 0)) [1]).
  - repeat (constructor;
            [split; [vm_compute; reflexivity
                    | split; [vm_compute; discriminate | vm_compute; reflexivity]]
            |]).
    constructor.
  - repeat constructor.
  - vm_compute; reflexivity.
  - vm_compute; discriminate.
Defined.

(** ** KnapsackBranchBound.c: the dynamic program *)

Section KnapsackTable.
Context {D : Type} `{Double D}.
Import Knapsack.
Variable g : Globals D.

(** The value that the "fill" loop gives [dp[i][w]], read from row
    [i - 1]. *)
Local Abbreviation dp_rec dp i w :=
  (if weight (item_at (items g) (i - 1)) <=? Z.of_nat w then
     if dp_at dp (i - 1)
              (Z.to_nat (Z.of_nat w - weight (item_at (items g) (i - 1))))
        + value (item_at (items g) (i - 1)) <? dp_at dp (i - 1) w
     then dp_at dp (i - 1) w
     else dp_at dp (i - 1)
                (Z.to_nat (Z.of_nat w - weight (item_at (items g) (i - 1))))
          + value (item_at (items g) (i - 1))
   else dp_at dp (i - 1) w).

(** The table has [rows] rows of [cols] cells. *)
Local Abbreviation dp_shape dp rows cols :=
  (length dp = rows /\
   forall r (row : list Z), dp !! r = Some row -> length row = cols).

Lemma dp_fill_cell_set dp i w :
  dp_fill_cell g dp i w = dp_set dp i w (dp_rec dp i w).
Proof. unfold dp_fill_cell. by destruct (_ <=? _). Qed.

Lemma dp_at_set dp i w v i' w' :
  (i < length dp)%nat -> (w < length (default [] (dp !! i)))%nat ->
  dp_at (dp_set dp i w v) i' w'
  = if decide (i' = i /\ w' = w) then v else dp_at dp i' w'.
Proof.
  intros Hi Hw. unfold dp_at, dp_set.
  destruct (lookup_lt_is_Some_2 dp i Hi) as [row Hrow].
  rewrite Hrow in *. simpl in Hw.
  destruct (decide (i' = i)) as [-> | Hne].
  - rewrite list_lookup_insert_eq by done. simpl.
    destruct (decide (w' = w)) as [-> | Hnw].
    + rewrite list_lookup_insert_eq by done.
      destruct (decide _) as [_ | Hn]; [done | by destruct Hn].
    + rewrite list_lookup_insert_ne by done. rewrite Hrow. simpl.
      destruct (decide _) as [[_ ?] | _]; done.
  - rewrite list_lookup_insert_ne by done.
    destruct (decide _) as [[? _] | _]; done.
Qed.

Lemma dp_set_shape dp i w v rows cols :
  dp_shape dp rows cols -> dp_shape (dp_set dp i w v) rows cols.
Proof.
  intros [Hlen Hrows]. unfold dp_set. split; [by rewrite length_insert|].
  intros r row Hr.
  destruct (decide (r = i)) as [-> | Hne].
  - destruct (decide (i < length dp)%nat) as [Hlt | Hge].
    + rewrite list_lookup_insert_eq in Hr by done. inversion Hr; subst.
      rewrite length_insert.
      destruct (lookup_lt_is_Some_2 dp i Hlt) as [row0 Hrow0].
      rewrite Hrow0. simpl. by apply (Hrows i).
    + rewrite list_insert_ge in Hr by lia. by apply (Hrows i).
  - rewrite list_lookup_insert_ne in Hr by done. by apply (Hrows r).
Qed.

Lemma dp_rec_ext dp dp' i w :
  (forall w', dp_at dp' (i - 1) w' = dp_at dp (i - 1) w') ->
  dp_rec dp' i w = dp_rec dp i w.
Proof. intros E. by rewrite !E. Qed.

(** The inner loop over [w = 1..k] for row [i]. *)
Lemma dp_fill_row rows cols i : forall k dp,
  (1 <= i < rows)%nat -> (k < cols)%nat -> dp_shape dp rows cols ->
  let dp' := foldl (fun dp w => dp_fill_cell g dp i w) dp (seq 1 k) in
  dp_shape dp' rows cols /\
  (forall r w, r <> i -> dp_at dp' r w = dp_at dp r w) /\
  (forall w, (1 <= w <= k)%nat -> dp_at dp' i w = dp_rec dp i w) /\
  (forall w, (w = 0 \/ k < w)%nat -> dp_at dp' i w = dp_at dp i w).
Proof.
  induction k as [|k IH]; intros dp Hi Hk Hshape; cbv zeta.
  - simpl. split; [done|]. split; [done|]. split; [intros; lia | done].
  - rewrite seq_S, foldl_snoc. cbn [Nat.add].
    destruct (IH dp Hi ltac:(lia) Hshape) as (Hsh & Hother & Hdone & Hrest).
    set (dpk := foldl (fun dp w => dp_fill_cell g dp i w) dp (seq 1 k)) in *.
    rewrite dp_fill_cell_set.
    assert (Hrow : (S k < length (default [] (dpk !! i)))%nat).
    { destruct Hsh as [Hlen Hrows].
      destruct (lookup_lt_is_Some_2 dpk i ltac:(lia)) as [row Hr].
      rewrite Hr. simpl. rewrite (Hrows i row Hr). lia. }
    assert (Hlen : (i < length dpk)%nat) by (destruct Hsh as [-> _]; lia).
    assert (Hrec : forall w, dp_rec dpk i w = dp_rec dp i w).
    { intros w. apply dp_rec_ext. intros w'. apply Hother. lia. }
    split; [by apply dp_set_shape|].
    split.
    { intros r w Hr. rewrite dp_at_set by done.
      destruct (decide _) as [[? _] | _]; [done | by apply Hother]. }
    split.
    { intros w Hw. rewrite dp_at_set by done.
      destruct (decide _) as [[_ ->] | Hn]; [apply Hrec|].
      apply Hdone. destruct (decide (w = S k)) as [-> | ?]; [|lia].
      by destruct Hn. }
    intros w Hw. rewrite dp_at_set by done.
    destruct (decide _) as [[_ ->] | _]; [lia|]. apply Hrest. lia.
Qed.

Lemma dp_at_zeros rows cols r w :
  dp_at (replicate rows (replicate cols 0)) r w = 0.
Proof.
  unfold dp_at. destruct (decide (r < rows)%nat).
  - rewrite lookup_replicate_2 by done. simpl.
    destruct (decide (w < cols)%nat).
    + by rewrite lookup_replicate_2.
    + by rewrite lookup_ge_None_2 by (rewrite length_replicate; lia).
  - by rewrite lookup_ge_None_2 by (rewrite length_replicate; lia).
Qed.

(** The outer loop over the rows [1..m]. *)
Lemma dp_fill_rows rows cols : forall m,
  (m < rows)%nat -> (0 < cols)%nat ->
  let dp :=
    foldl (fun dp i =>
             foldl (fun dp w => dp_fill_cell g dp i w) dp (seq 1 (cols - 1)))
          (replicate rows (replicate cols 0)) (seq 1 m) in
  dp_shape dp rows cols /\
  (forall r w, (m < r)%nat -> dp_at dp r w = 0) /\
  (forall r w, (1 <= r <= m)%nat -> (1 <= w < cols)%nat ->
               dp_at dp r w = dp_rec dp r w) /\
  (forall r, dp_at dp r 0 = 0) /\
  (forall w, dp_at dp 0 w = 0).
Proof.
  induction m as [|m IH]; intros Hm Hc; cbv zeta.
  - simpl. split.
    { split; [by rewrite length_replicate|].
      intros r row Hr. apply lookup_replicate in Hr as [-> _].
      by rewrite length_replicate. }
    split; [intros; apply dp_at_zeros|]. split; [intros; lia|].
    split; intros; apply dp_at_zeros.
  - rewrite seq_S, foldl_snoc. cbn [Nat.add].
    destruct (IH ltac:(lia) Hc) as (Hsh & Hzero & Hdone & Hcol0 & Hrow0).
    set (dpm := foldl _ _ (seq 1 m)) in *.
    destruct (dp_fill_row rows cols (S m) (cols - 1) dpm ltac:(lia) ltac:(lia)
                Hsh) as (Hsh' & Hother & Hnew & Hrest).
    set (dp' := foldl _ dpm (seq 1 (cols - 1))) in *.
    split; [done|].
    split; [intros r w Hr; rewrite Hother by lia; apply Hzero; lia|].
    split.
    { intros r w Hr Hw.
      destruct (decide (r = S m)) as [-> | Hne].
      - rewrite Hnew by lia. symmetry. apply dp_rec_ext.
        intros w'. apply Hother. lia.
      - rewrite Hother by done. rewrite Hdone by lia. symmetry.
        apply dp_rec_ext. intros w'. apply Hother. lia. }
    split.
    { intros r. destruct (decide (r = S m)) as [-> | Hne].
      - rewrite Hrest by (by left). apply Hzero. lia.
      - rewrite Hother by done. apply Hcol0. }
    intros w. rewrite Hother by lia. apply Hrow0.
Qed.

(** The table that [dynamic_programming_knapsack] fills obeys the knapsack
    recurrence. *)
Lemma dp_fill_spec :
  0 <= capacity g ->
  (forall r, dp_at (dp_fill g) r 0 = 0) /\
  (forall w, dp_at (dp_fill g) 0 w = 0) /\
  (forall r w, (1 <= r <= n g)%nat -> (1 <= w <= Z.to_nat (capacity g))%nat ->
               dp_at (dp_fill g) r w = dp_rec (dp_fill g) r w).
Proof.
  intros Hc.
  destruct (dp_fill_rows (n g + 1) (Z.to_nat (capacity g) + 1) (n g)
              ltac:(lia) ltac:(lia)) as (_ & _ & Hrec & Hcol0 & Hrow0).
  replace (Z.to_nat (capacity g) + 1 - 1)%nat with (Z.to_nat (capacity g))
    in * by lia.
  split; [exact Hcol0|]. split; [exact Hrow0|].
  intros r w Hr Hw. apply Hrec; lia.
Qed.
End KnapsackTable.

Section KnapsackDP.
Context {D : Type} `{Double D}.
Import Knapsack.
Variable g : Globals D.
Hypothesis Hn : (n g <= length (items g))%nat.
Hypothesis Hc : 0 <= capacity g.
Hypothesis Hpos :
  Forall (fun it : Item D => 0 < weight it) (take (n g) (items g)).

Local Abbreviation its := (take (n g) (items g)).
Local Abbreviation total f l := (foldr Z.add 0 (f <$> l)).

Lemma its_lookup i :
  (i < n g)%nat -> its !! i = Some (item_at (items g) i).
Proof.
  intros Hi. rewrite lookup_take_lt by done. unfold item_at.
  destruct (lookup_lt_is_Some_2 (items g) i ltac:(lia)) as [it ->]. done.
Qed.

Lemma item_weight_pos i : (i < n g)%nat -> 0 < weight (item_at (items g) i).
Proof.
  intros Hi. eapply (proj1 (Forall_lookup _ _) Hpos), its_lookup, Hi.
Qed.

(** The choice among the first [i + 1] items: the choice among the first
    [i], and item [i] when its flag is set. *)
Lemma chosen_snoc i flags :
  (i < n g)%nat ->
  chosen (take (S i) its) flags
  = chosen (take i its) flags
    ++ (if default 0 (flags !! i) =? 0 then [] else [item_at (items g) i]).
Proof.
  intros Hi.
  assert (Hlen : length (take i its) = i).
  { rewrite !length_take. lia. }
  rewrite (take_S_r _ _ _ (its_lookup i Hi)).
  rewrite (chosen_split _ i flags).
  rewrite take_app_length' by done. rewrite drop_app_length' by done.
  f_equal.
  - apply chosen_ext. intros k Hk. rewrite lookup_take_lt; [done | lia].
  - destruct (flags !! i) as [f|] eqn:Ef.
    + rewrite (drop_S _ _ _ Ef). rewrite chosen_cons. simpl.
      by destruct (f =? 0).
    + rewrite drop_ge by (by apply lookup_ge_None). done.
Qed.

Lemma chosen_prefix_weight_nonneg i flags :
  (i <= n g)%nat -> 0 <= total weight (chosen (take i its) flags).
Proof.
  induction i as [|i IH]; intros Hi; [rewrite take_0; by destruct flags|].
  rewrite chosen_snoc by lia. rewrite fmap_app, foldr_add_app.
  specialize (IH ltac:(lia)).
  destruct (_ =? 0); simpl; [lia|].
  pose proof (item_weight_pos i ltac:(lia)). lia.
Qed.

(** No cell of the table is negative, and the rows grow with [i]. *)
Lemma dp_fill_mono r w :
  (r < n g)%nat -> dp_at (dp_fill g) r w <= dp_at (dp_fill g) (S r) w.
Proof.
  intros Hr. destruct (dp_fill_spec g Hc) as (Hcol0 & Hrow0 & Hrec).
  destruct (decide (1 <= w <= Z.to_nat (capacity g))%nat) as [Hw | Hw].
  - rewrite (Hrec (S r) w) by lia.
    replace (S r - 1)%nat with r by lia.
    destruct (_ <=? _); [|lia].
    destruct (_ <? _) eqn:E; [lia|]. apply Z.ltb_ge in E. lia.
  - destruct (decide (w = 0)%nat) as [-> | Hw0]; [by rewrite !Hcol0|].
    unfold dp_at, dp_fill.
    destruct (dp_fill_rows g (n g + 1) (Z.to_nat (capacity g) + 1) (n g)
                ltac:(lia) ltac:(lia)) as ((Hlen & Hrows) & _).
    replace (Z.to_nat (capacity g) + 1 - 1)%nat with (Z.to_nat (capacity g))
      in * by lia.
    set (dp := foldl _ _ _) in *.
    assert (Hout : forall r', default 0 (dp !! r' ≫= (.!! w)) = 0).
    { intros r'. destruct (dp !! r') as [row|] eqn:Er; [|done]. simpl.
      rewrite lookup_ge_None_2; [done|]. rewrite (Hrows r' row Er). lia. }
    by rewrite !Hout.
Qed.

Lemma dp_fill_nonneg r w : (r <= n g)%nat -> 0 <= dp_at (dp_fill g) r w.
Proof.
  induction r as [|r IH]; intros Hr.
  - destruct (dp_fill_spec g Hc) as (_ & Hrow0 & _). by rewrite Hrow0.
  - specialize (IH ltac:(lia)). pose proof (dp_fill_mono r w ltac:(lia)). lia.
Qed.

(** [dp[i][w]] is at least the value of every choice among the first [i]
    items that weighs at most [w]. *)
Lemma dp_fill_upper : forall i w flags,
  (i <= n g)%nat -> (w <= Z.to_nat (capacity g))%nat ->
  total weight (chosen (take i its) flags) <= Z.of_nat w ->
  total value (chosen (take i its) flags) <= dp_at (dp_fill g) i w.
Proof.
  destruct (dp_fill_spec g Hc) as (Hcol0 & Hrow0 & Hrec).
  induction i as [|i IH]; intros w flags Hi Hw Hfit.
  - rewrite take_0. rewrite Hrow0. by destruct flags.
  - rewrite chosen_snoc in Hfit |- * by lia.
    rewrite fmap_app, foldr_add_app in Hfit |- *.
    pose proof (chosen_prefix_weight_nonneg i flags ltac:(lia)) as Hnn.
    pose proof (item_weight_pos i ltac:(lia)) as Hwp.
    pose proof (dp_fill_mono i w ltac:(lia)) as Hmono.
    destruct (_ =? 0); simpl in Hfit |- *.
    + specialize (IH w flags ltac:(lia) Hw ltac:(lia)). lia.
    + rewrite (Hrec (S i) w) by lia.
      replace (S i - 1)%nat with i by lia.
      destruct (Z.leb_spec (weight (item_at (items g) i)) (Z.of_nat w));
        [|lia].
      specialize (IH (Z.to_nat (Z.of_nat w - weight (item_at (items g) i)))
                     flags ltac:(lia) ltac:(lia) ltac:(lia)).
      destruct (_ <? _) eqn:E; [apply Z.ltb_lt in E|]; lia.
Qed.

(** The "backtrack" loop recovers a choice among the first [i] items that
    is worth [dp[i][w]] and weighs at most [w]; it leaves the flags from
    [i] on alone. *)
Lemma dp_backtrack_spec : forall i w solution,
  (i <= n g)%nat -> 0 <= w <= capacity g ->
  (n g <= length solution)%nat ->
  (forall k, (k < i)%nat -> solution !! k = Some 0) ->
  let solution' := dp_backtrack g (dp_fill g) i w solution in
  total value (chosen (take i its) solution')
  = dp_at (dp_fill g) i (Z.to_nat w) /\
  total weight (chosen (take i its) solution') <= w /\
  length solution' = length solution /\
  (forall k, (i <= k)%nat -> solution' !! k = solution !! k).
Proof.
  destruct (dp_fill_spec g Hc) as (Hcol0 & Hrow0 & Hrec).
  induction i as [|i IH]; intros w solution Hi Hw Hlen Hz; cbv zeta.
  - cbn [dp_backtrack]. rewrite take_0, Hrow0. simpl. repeat split; lia.
  - cbn [dp_backtrack].
    pose proof (dp_fill_nonneg (S i) (Z.to_nat w) Hi) as Hnn.
    destruct (Z.ltb_spec 0 (dp_at (dp_fill g) (S i) (Z.to_nat w))) as [Hgt | Hle].
    + destruct (Z.eqb_spec (dp_at (dp_fill g) (S i) (Z.to_nat w))
                           (dp_at (dp_fill g) i (Z.to_nat w))) as [Heq | Hne];
        cbn [negb].
      * destruct (IH w solution ltac:(lia) Hw Hlen
                    ltac:(intros k Hk; apply Hz; lia))
          as (Hval & Hwt & Hl & Hkeep).
        rewrite chosen_snoc by lia.
        rewrite (Hkeep i) by lia. rewrite (Hz i) by lia. simpl.
        rewrite !app_nil_r. rewrite Heq. repeat split; try done.
        intros k Hk. apply Hkeep. lia.
      * assert (Hw1 : (1 <= Z.to_nat w <= Z.to_nat (capacity g))%nat).
        { split; [|lia]. destruct (decide (Z.to_nat w = 0)%nat) as [E|]; [|lia].
          rewrite E, !Hcol0 in Hne. done. }
        pose proof (Hrec (S i) (Z.to_nat w) ltac:(lia) Hw1) as Hcell.
        replace (S i - 1)%nat with i in Hcell by lia.
        rewrite Z2Nat.id in Hcell by lia.
        destruct (Z.leb_spec (weight (item_at (items g) i)) w); [|done].
        destruct (_ <? _); [done|].
        pose proof (item_weight_pos i ltac:(lia)) as Hwp.
        destruct (IH (w - weight (item_at (items g) i)) (<[i := 1]> solution)
                    ltac:(lia) ltac:(lia) ltac:(by rewrite length_insert)
                    ltac:(intros k Hk; rewrite list_lookup_insert_ne by lia;
                          apply Hz; lia))
          as (Hval & Hwt & Hl & Hkeep).
        rewrite chosen_snoc by lia.
        rewrite (Hkeep i) by lia.
        rewrite list_lookup_insert_eq by lia. simpl.
        rewrite !fmap_app, !foldr_add_app. simpl.
        rewrite Hval, Hcell. rewrite length_insert in Hl.
        repeat split; [lia | lia | done |].
        intros k Hk. rewrite Hkeep by lia.
        rewrite list_lookup_insert_ne by lia. done.
    + assert (E0 : dp_at (dp_fill g) (S i) (Z.to_nat w) = 0) by lia.
      rewrite E0. rewrite chosen_all_zero.
      * simpl. repeat split; try done; lia.
      * intros k Hk. rewrite length_take in Hk. rewrite Hz by lia. done.
Qed.

(** What [dynamic_programming_knapsack] returns. *)
Lemma dynamic_programming_knapsack_spec :
  (n g <= MAX_ITEMS)%nat ->
  let res := dynamic_programming_knapsack g in
  res_max_profit res = solution_profit g (solution res) /\
  total_weight res = solution_weight g (solution res) /\
  total_weight res <= capacity g /\
  forall flags,
    solution_weight g flags <= capacity g ->
    solution_profit g flags <= res_max_profit res.
Proof.
  intros Hmax. cbv zeta. unfold dynamic_programming_knapsack.
  cbn [res_max_profit solution total_weight].
  assert (Htake : take (n g) its = its).
  { apply take_ge. rewrite length_take. lia. }
  destruct (dp_backtrack_spec (n g) (capacity g) (replicate MAX_ITEMS 0))
    as (Hval & Hwt & _ & _).
  - lia.
  - lia.
  - by rewrite length_replicate.
  - intros k Hk. apply lookup_replicate_2. lia.
  - rewrite Htake in Hval, Hwt.
    unfold solution_profit, solution_weight.
    split; [by rewrite Hval|]. split; [done|]. split; [done|].
    intros flags Hfit.
    pose proof (dp_fill_upper (n g) (Z.to_nat (capacity g)) flags
                  ltac:(lia) ltac:(lia)) as Hup.
    rewrite Htake in Hup. apply Hup. lia.
Qed.
End KnapsackDP.





(** ** TravelingSalesman.c: the tour that [solve_tsp] records *)

Section TSPTour.
Import TSP.

Lemma tsp_root_visits g junk :
  length junk = MAX_CITIES -> node_visits g (root_node g junk).
Proof.
  intros Hj. unfold node_visits, root_node, set_bound.
  cbn [visited path level].
  assert (Ht : take 1 (<[0%nat := 0%nat]> junk) = [0%nat]).
  { destruct junk as [|a junk]; [done|]. done. }
  rewrite Ht.
  split; [by rewrite length_insert, length_replicate|].
  split; [apply NoDup_singleton|].
  split; [apply Forall_singleton; lia|].
  intros c Hc. rewrite list_elem_of_singleton. unfold visited_at.
  destruct c as [|c].
  - by rewrite list_lookup_insert_eq by (rewrite length_replicate; lia).
  - rewrite list_lookup_insert_ne by done.
    rewrite lookup_replicate_2 by lia. simpl. split; done.
Qed.

Lemma tsp_child_visits g0 g current city :
  (n g0 <= MAX_CITIES)%nat -> (level current < n g0)%nat ->
  (city < n g0)%nat ->
  length (path current) = MAX_CITIES ->
  node_visits g0 current ->
  visited_at (visited current) city = false ->
  node_visits g0 (child g current city).
Proof.
  intros Hn Hlvl Hcity Hp (Hv & Hnd & Hlt & Hiff) Hfree.
  unfold node_visits, child, set_bound. cbn [visited path level].
  replace (level current + 1)%nat with (S (level current)) by lia.
  rewrite take_S_insert.
  destruct (decide _) as [_ | ?]; [|lia].
  assert (Hnew : city ∉ take (level current) (path current)).
  { intros Hin. apply Hiff in Hin; [|lia]. by rewrite Hfree in Hin. }
  split; [by rewrite length_insert|].
  split.
  { apply NoDup_app. split; [done|]. split; [|apply NoDup_singleton].
    intros x Hx Hx'. apply list_elem_of_singleton in Hx'. by subst. }
  split.
  { apply Forall_app. split; [done|]. apply Forall_singleton. lia. }
  intros c Hc. rewrite elem_of_app, list_elem_of_singleton.
  unfold visited_at. destruct (decide (c = city)) as [-> | Hne].
  - rewrite list_lookup_insert_eq by lia. simpl. split; [by right | done].
  - rewrite list_lookup_insert_ne by done. fold (visited_at (visited current) c).
    rewrite (Hiff c Hc). split; [by left | by intros [? | ?]].
Qed.

(** The loop [for (i < n) best_path[i] = current.path[i]]. *)
Lemma copy_loop_take (p : list nat) : forall k bp,
  (k <= length p)%nat -> (k <= length bp)%nat ->
  let r := foldl (fun bp i => <[i := path_at p i]> bp) bp (seq 0 k) in
  length r = length bp /\ take k r = take k p.
Proof.
  induction k as [|k IH]; intros bp Hp Hb; cbv zeta.
  - simpl. by rewrite !take_0.
  - rewrite seq_S, foldl_snoc. cbn [Nat.add].
    destruct (IH bp ltac:(lia) ltac:(lia)) as (L & Ht).
    rewrite length_insert. split; [done|].
    rewrite take_S_insert, Ht, L.
    destruct (decide _) as [_ | ?]; [|lia].
    destruct (lookup_lt_is_Some_2 p k ltac:(lia)) as [x Hx].
    unfold path_at. rewrite Hx. simpl. by rewrite (take_S_r _ _ x).
Qed.

Lemma copy_path_tour (p bp : list nat) k :
  (k <= length p)%nat -> (k < length bp)%nat ->
  length (copy_path k p bp) = length bp /\
  take k (copy_path k p bp) = take k p /\
  copy_path k p bp !! k = Some 0%nat.
Proof.
  intros Hp Hb. unfold copy_path.
  destruct (copy_loop_take p k bp Hp ltac:(lia)) as (L & Ht).
  rewrite length_insert. split; [done|].
  split; [by rewrite take_insert_ge|].
  apply list_lookup_insert_eq. lia.
Qed.

Lemma tsp_record_best_tour g0 g current :
  (n g0 <= MAX_CITIES)%nat ->
  graph g = graph g0 -> n g = n g0 ->
  length (best_path g) = (MAX_CITIES + 1)%nat ->
  node_ok g0 current -> node_visits g0 current -> level current = n g0 ->
  let g' := record_best g (total_cost g current) current in
  length (best_path g') = (MAX_CITIES + 1)%nat /\ tour_ok g0 g'.
Proof.
  intros Hn Eg En Lb (Hl & Hp & H0 & Hw) (Hv & Hnd & Hlt & Hiff) Hlvl.
  cbv zeta. unfold record_best. cbn [best_path best_cost].
  destruct (copy_path_tour (path current) (best_path g) (n g))
    as (L & Ht & Hlast); [lia | lia |].
  split; [by rewrite L|]. right. cbn [best_path best_cost].
  rewrite En in *. rewrite Ht.
  assert (Hn1 : (1 <= n g0)%nat) by lia.
  split.
  { rewrite <- Hlvl. apply NoDup_below_perm; [done | |].
    - eapply Forall_impl; [exact Hlt|]. intros c Hc. simpl in Hc. lia.
    - rewrite length_take. lia. }
  split.
  { rewrite <- (lookup_take_lt _ (n g0)) by lia. rewrite Ht.
    rewrite lookup_take_lt by lia. done. }
  split; [done|].
  unfold tour_cost, total_cost. rewrite <- Hlvl, Hw.
  rewrite En, <- Hlvl. by rewrite (edge_graph g g0).
Qed.

Lemma tsp_branch_tour g0 current s city :
  (n g0 <= MAX_CITIES)%nat -> (level current < n g0)%nat ->
  (city < n g0)%nat ->
  node_ok g0 current -> node_visits g0 current ->
  tour_state_ok g0 s -> tour_state_ok g0 (branch current s city).
Proof.
  intros Hn Hlvl Hcity Hcur Hvis (Hs & Hq & Lb & Ht).
  split; [by apply tsp_branch_ok|].
  unfold branch. destruct s as [g pq]. cbn [fst snd] in *.
  destruct (visited_at (visited current) city) eqn:Hfree; [done|].
  destruct (_ <? _); cbn [fst snd]; [|done].
  split; [|done].
  apply tsp_pq_push_Forall; [done|].
  apply tsp_child_visits; try done. by destruct Hcur as (_ & ? & _).
Qed.

Lemma tsp_branches_tour g0 current cities :
  (n g0 <= MAX_CITIES)%nat -> (level current < n g0)%nat ->
  Forall (fun city => (city < n g0)%nat) cities ->
  node_ok g0 current -> node_visits g0 current ->
  forall s, tour_state_ok g0 s ->
            tour_state_ok g0 (foldl (branch current) s cities).
Proof.
  intros Hn Hlvl Hc Hcur Hvis.
  induction Hc as [|c cities Hc _ IH]; intros s Hs; simpl; [done|].
  apply IH. by apply tsp_branch_tour.
Qed.

Lemma tsp_visit_tour g0 g1 current pq :
  (n g0 <= MAX_CITIES)%nat -> node_ok g0 current -> node_visits g0 current ->
  tour_state_ok g0 (g1, pq) -> tour_state_ok g0 (visit g1 current pq).
Proof.
  intros Hn Hcur Hvis (Hs & Hq & Lb & Ht).
  split; [by apply tsp_visit_ok|].
  destruct Hs as (Eg & En & Hok). cbn [fst snd] in *.
  unfold visit.
  destruct (_ <=? _); [done|].
  destruct (Nat.eqb_spec (level current) (n (explore g1))) as [E | N].
  - cbn [n explore] in E. destruct (_ <? _); cbn [fst snd]; [|done].
    split; [done|].
    apply (tsp_record_best_tour g0 (explore g1) current); try done.
    congruence.
  - cbn [n explore] in N.
    assert (Hgoal : tour_state_ok g0 (foldl (branch current) (explore g1, pq)
                                            (seq 1 (n (explore g1) - 1)))).
    { destruct (decide (level current < n g0)%nat) as [Hlt | Hge].
      - apply tsp_branches_tour; [done | done | | done | done | by repeat split].
        apply Forall_forall. intros c Hc. apply elem_of_seq in Hc.
        cbn [n explore] in Hc. lia.
      - destruct Hcur as (Hl & _).
        assert (Hsmall : (n g0 <= 1)%nat) by lia.
        cbn [n explore]. rewrite En.
        replace (n g0 - 1)%nat with 0%nat by lia. simpl.
        by repeat split. }
    by destruct Hgoal as (_ & ? & ? & ?).
Qed.

Lemma tsp_step_tour g0 s s' :
  (n g0 <= MAX_CITIES)%nat -> tour_state_ok g0 s -> step s = Some s' ->
  tour_state_ok g0 s'.
Proof.
  intros Hn (Hs & Hq & Lb & Ht). unfold step.
  destruct (pq_pop s.2) as [[current pq]|] eqn:Hpop; [|done]. intros [= <-].
  destruct Hs as (Eg & En & Hok).
  destruct (tsp_pq_pop_Forall _ _ _ _ Hok Hpop) as [Hcur Hok'].
  destruct (tsp_pq_pop_Forall _ _ _ _ Hq Hpop) as [Hvis Hq'].
  apply tsp_visit_tour; [done | done | done | by repeat split].
Qed.

Lemma tsp_search_tour g0 fuel : forall s r,
  (n g0 <= MAX_CITIES)%nat -> tour_state_ok g0 s -> search fuel s = Some r ->
  length (best_path r) = (MAX_CITIES + 1)%nat /\ tour_ok g0 r.
Proof.
  induction fuel as [|fuel IH]; intros s r Hn Hs; simpl; [done|].
  destruct (step s) as [s'|] eqn:E.
  - apply IH; [done|]. by apply (tsp_step_tour g0 s).
  - intros [= <-]. by destruct Hs as (_ & _ & ? & ?).
Qed.

Lemma tsp_solve_init_tour g junk :
  length junk = MAX_CITIES -> length (best_path g) = (MAX_CITIES + 1)%nat ->
  tour_state_ok g (solve_init g junk).
Proof.
  intros Hj Lb. split; [by apply tsp_solve_init_ok|].
  unfold solve_init. cbn [fst snd best_path].
  split; [|split; [done | by left]].
  apply tsp_pq_push_Forall; [constructor|].
  by apply (tsp_root_visits g junk) in Hj.
Qed.
End TSPTour.

(** X12.  What [solve_tsp] reports is a real tour.  On an instance on which
    no sum of costs can overflow an [int] ([edges_fit]), in a run that keeps
    the queue within its array: when the solver has ended with [best_cost]
    other than [INT_MAX], [best_path[0..n)] holds every city of [0..n) once,
    [best_path[0]] and [best_path[n]] are city 0, and [best_cost] is the cost
    of that closed tour, the edge back to city 0 included. *)
Theorem solve_tsp_tour_feasible g junk fuel r :
  (TSP.n g <= TSP.MAX_CITIES)%nat ->
  TSP.edges_fit g = true ->
  length junk = TSP.MAX_CITIES ->
  length (TSP.best_path g) = (TSP.MAX_CITIES + 1)%nat ->
  queue_fits TSP.step (fun s => length s.2) TSP.QUEUE_CAPACITY
             (TSP.solve_init g junk) ->
  TSP.solve_tsp fuel g junk = Some r ->
  TSP.best_cost r <> TSP.INF ->
  take (TSP.n g) (TSP.best_path r) ≡ₚ seq 0 (TSP.n g) /\
  TSP.best_path r !! 0%nat = Some 0%nat /\
  TSP.best_path r !! TSP.n g = Some 0%nat /\
  TSP.best_cost r
  = TSP.tour_cost g (drop 1 (take (TSP.n g) (TSP.best_path r))).
Proof.
  intros Hn _ Hj Lb _ Hr Hinf.
  destruct (tsp_search_tour g fuel _ r Hn (tsp_solve_init_tour g junk Hj Lb) Hr)
    as (_ & [Hs | Hok]); done.
Qed.

Lemma solve_tsp_tour_feasible_witness :
  exists r,
    TSP.solve_tsp 100 TSP.four_cities (replicate TSP.MAX_CITIES 0%nat) = Some r /\
    take (TSP.n TSP.four_cities) (TSP.best_path r)
      ≡ₚ seq 0 (TSP.n TSP.four_cities) /\
    TSP.best_path r !! 0%nat = Some 0%nat /\
    TSP.best_path r !! TSP.n TSP.four_cities = Some 0%nat /\
    TSP.best_cost r
    = TSP.tour_cost TSP.four_cities
        (drop 1 (take (TSP.n TSP.four_cities) (TSP.best_path r))).
Proof.
  eexists. split; [vm_compute; reflexivity|].
  apply (solve_tsp_tour_feasible TSP.four_cities
           (replicate TSP.MAX_CITIES 0%nat) 100).
  - vm_compute; lia.
  - vm_compute; reflexivity.
  - vm_compute; reflexivity.
  - vm_compute; reflexivity.
  - apply (queue_fits_run_sound _ _ _ 100). vm_compute; reflexivity.
  - vm_compute; reflexivity.
  - vm_compute; discriminate.
Defined.

(** ** FacilityLocation.c: the solution that [construct_solution] builds *)

Lemma d_lt_Q (a b : Q) : d_lt a b = true <-> (a < b)%Q.
Proof.
  cbn [d_lt Double_Q]. rewrite negb_true_iff. split.
  - intros Hf. apply Qnot_le_lt. intros Hle. apply Qle_bool_iff in Hle.
    congruence.
  - intros Hlt. apply not_true_is_false. intros Hle. apply Qle_bool_iff in Hle.
    by apply (Qlt_not_le _ _ Hlt).
Qed.

Section FacilityCopy.
Context {D : Type} `{Double D}.
Import Facility.

(** The first loop of [construct_solution] copies the flags of the node
    and notes whether one of them is set. *)
Lemma copy_open_loop (g : Globals D) node : forall k open,
  (k <= length open)%nat ->
  let r := foldl (copy_open g node) (open, false, zero) (seq 0 k) in
  length r.1.1 = length open /\
  (forall i, (i < k)%nat -> flag r.1.1 i = flag (facility_open node) i) /\
  ((exists i, (i < k)%nat /\ flag (facility_open node) i = true) ->
   r.1.2 = true).
Proof.
  induction k as [|k IH]; intros open Hk; cbv zeta.
  - simpl. split; [done|]. split; [intros; lia|]. intros (i & Hi & _). lia.
  - rewrite seq_S, foldl_snoc. cbn [Nat.add].
    destruct (IH open ltac:(lia)) as (L & Hflags & Hhas).
    destruct (foldl (copy_open g node) _ (seq 0 k)) as [[o h] f].
    cbn [fst snd] in *. unfold copy_open.
    assert (Hcopy : forall i, (i < S k)%nat ->
              flag (<[k := default 0 (facility_open node !! k)]> o) i
              = flag (facility_open node) i).
    { intros i Hi. unfold flag. destruct (decide (i = k)) as [-> | Hne].
      - by rewrite list_lookup_insert_eq by lia.
      - rewrite list_lookup_insert_ne by done. apply Hflags. lia. }
    destruct (flag (facility_open node) k) eqn:Ek; cbn [fst snd].
    + rewrite length_insert. by repeat split.
    + rewrite length_insert. split; [done|]. split; [done|].
      intros (i & Hi & Hf). apply Hhas. exists i. split; [|done].
      destruct (decide (i = k)) as [-> | ?]; [congruence | lia].
Qed.

(** The second loop writes, for customer [j], the facility that its inner
    loop has picked, and later rounds leave that cell alone. *)
Lemma assign_customer_loop (g : Globals D) open : forall k acc,
  let r := foldl (assign_customer g open) acc (seq 0 k) in
  length r.1 = length acc.1 /\
  forall j, (j < k)%nat -> (j < length acc.1)%nat ->
    r.1 !! j
    = Some (foldl (fun (m : D * Z) i =>
                     if flag open i && d_lt (scost g i j) m.1
                     then (scost g i j, Z.of_nat i) else m)
                  (d_max, -1) (seq 0 (num_facilities g))).2.
Proof.
  induction k as [|k IH]; intros acc; cbv zeta.
  - simpl. split; [done|]. intros; lia.
  - rewrite seq_S, foldl_snoc. cbn [Nat.add].
    destruct (IH acc) as (L & Hdone).
    destruct (foldl (assign_customer g open) acc (seq 0 k)) as [ca sv].
    cbn [fst snd] in *. unfold assign_customer.
    destruct (foldl _ (d_max, -1) (seq 0 (num_facilities g)))
      as [min_cost best_facility] eqn:E.
    cbn [fst snd]. rewrite length_insert. split; [done|].
    intros j Hj Hlen. destruct (decide (j = k)) as [-> | Hne].
    + rewrite list_lookup_insert_eq by lia. by rewrite E.
    + rewrite list_lookup_insert_ne by done. apply Hdone; lia.
Qed.
End FacilityCopy.

Section FacilityCheapest.
Import Facility.

(** The inner loop of [construct_solution], in exact arithmetic: it ends
    with the first of the cheapest open facilities, or with [-1] when no
    open facility is cheaper than [DBL_MAX]. *)
Lemma cheapest_loop (c : nat -> Q) (b : nat -> bool) : forall k,
  let r := foldl (fun (m : Q * Z) i =>
                    if b i && d_lt (c i) m.1 then (c i, Z.of_nat i) else m)
                 (d_max, -1) (seq 0 k) in
  (r = (d_max, -1) /\
   forall i, (i < k)%nat -> b i = true -> (d_max <= c i)%Q) \/
  (exists i, (i < k)%nat /\ b i = true /\ r = (c i, Z.of_nat i) /\
     (c i < d_max)%Q /\
     (forall i', (i' < k)%nat -> b i' = true -> (c i <= c i')%Q) /\
     (forall i', (i' < i)%nat -> b i' = true -> (c i < c i')%Q)).
Proof.
  induction k as [|k IH]; cbv zeta.
  - left. split; [done|]. intros; lia.
  - rewrite seq_S, foldl_snoc. cbn [Nat.add].
    destruct IH as [(-> & Hnone) | (i & Hi & Hb & -> & Hlt & Hmin & Hfirst)];
      cbn [fst].
    + destruct (b k) eqn:Ek; cbn [andb].
      * destruct (d_lt (c k) d_max) eqn:El.
        -- apply d_lt_Q in El. right. exists k.
           split; [lia|]. split; [done|]. split; [done|]. split; [done|].
           split.
           ++ intros i' Hi' Hb'. destruct (decide (i' = k)) as [-> | ?];
                [apply Qle_refl|].
              apply Qlt_le_weak, (Qlt_le_trans _ d_max); [done|].
              apply Hnone; [lia | done].
           ++ intros i' Hi' Hb'. apply (Qlt_le_trans _ d_max); [done|].
              by apply Hnone.
        -- left. split; [done|]. intros i' Hi' Hb'.
           destruct (decide (i' = k)) as [-> | ?]; [|apply Hnone; [lia | done]].
           apply Qnot_lt_le. intros Hc. apply d_lt_Q in Hc. congruence.
      * left. split; [done|]. intros i' Hi' Hb'.
        destruct (decide (i' = k)) as [-> | ?]; [congruence|].
        apply Hnone; [lia | done].
    + destruct (b k) eqn:Ek; cbn [andb].
      * destruct (d_lt (c k) (c i)) eqn:El.
        -- apply d_lt_Q in El. right. exists k.
           split; [lia|]. split; [done|]. split; [done|].
           split; [by apply (Qlt_trans _ (c i))|].
           split.
           ++ intros i' Hi' Hb'. destruct (decide (i' = k)) as [-> | ?];
                [apply Qle_refl|].
              apply Qlt_le_weak, (Qlt_le_trans _ (c i)); [done|].
              apply Hmin; [lia | done].
           ++ intros i' Hi' Hb'. apply (Qlt_le_trans _ (c i)); [done|].
              by apply Hmin.
        -- right. exists i.
           split; [lia|]. split; [done|]. split; [done|]. split; [done|].
           split; [|done].
           intros i' Hi' Hb'.
           destruct (decide (i' = k)) as [-> | ?]; [|apply Hmin; [lia | done]].
           apply Qnot_lt_le. intros Hc. apply d_lt_Q in Hc. congruence.
      * right. exists i.
        split; [lia|]. split; [done|]. split; [done|]. split; [done|].
        split; [|done].
        intros i' Hi' Hb'.
        destruct (decide (i' = k)) as [-> | ?]; [congruence|].
        apply Hmin; [lia | done].
Qed.
End FacilityCheapest.

(** X13.  [construct_solution] gives every customer the cheapest open
    facility, in exact arithmetic: when the node has a facility open among
    the first [num_facilities] and serving customer [j] from an open
    facility costs less than [DBL_MAX], [customer_assignment[j]] is an open
    facility [i] that serves [j] at the least cost among the open ones, and
    the first such: every open facility before [i] costs strictly more. *)
Theorem construct_solution_assigns_cheapest
  (g : Facility.Globals Q) node junk j :
  (Facility.num_facilities g <= Facility.MAX_FACILITIES)%nat ->
  (Facility.num_customers g <= Facility.MAX_CUSTOMERS)%nat ->
  length (Facility.sol_facility_open junk) = Facility.MAX_FACILITIES ->
  length (Facility.customer_assignment junk) = Facility.MAX_CUSTOMERS ->
  (exists i, (i < Facility.num_facilities g)%nat /\
             Facility.flag (Facility.facility_open node) i = true) ->
  (forall i, (i < Facility.num_facilities g)%nat ->
             Facility.flag (Facility.facility_open node) i = true ->
             (Facility.scost g i j < d_max)%Q) ->
  (j < Facility.num_customers g)%nat ->
  exists i,
    Facility.customer_assignment (Facility.construct_solution g node junk) !! j
    = Some (Z.of_nat i) /\
    (i < Facility.num_facilities g)%nat /\
    Facility.flag (Facility.facility_open node) i = true /\
    (forall i', (i' < Facility.num_facilities g)%nat ->
                Facility.flag (Facility.facility_open node) i' = true ->
                (Facility.scost g i j <= Facility.scost g i' j)%Q) /\
    (forall i', (i' < i)%nat ->
                Facility.flag (Facility.facility_open node) i' = true ->
                (Facility.scost g i j < Facility.scost g i' j)%Q).
Proof.
  intros Hnf Hnc Lo La (i0 & Hi0 & Hopen0) Hfin Hj.
  unfold Facility.construct_solution.
  destruct (copy_open_loop g node (Facility.num_facilities g)
              (Facility.sol_facility_open junk) ltac:(lia))
    as (L & Hflags & Hhas).
  destruct (foldl (Facility.copy_open g node) _ _) as [[open has] fixed].
  cbn [fst snd] in *.
  rewrite (Hhas ltac:(by exists i0)). cbn [negb].
  destruct (assign_customer_loop g open (Facility.num_customers g)
              (Facility.customer_assignment junk, Facility.zero))
    as (_ & Hcell).
  destruct (foldl (Facility.assign_customer g open) _ _) as [assignment service].
  cbn [fst snd Facility.customer_assignment] in *.
  rewrite (Hcell j Hj ltac:(lia)).
  destruct (cheapest_loop (fun i => Facility.scost g i j) (Facility.flag open)
              (Facility.num_facilities g))
    as [(_ & Hnone) | (i & Hi & Hb & -> & Hlt & Hmin & Hfirst)].
  - exfalso. specialize (Hfin i0 Hi0 Hopen0).
    apply (Qlt_not_le _ _ Hfin), Hnone; [done|]. by rewrite Hflags.
  - exists i. split; [done|]. split; [done|].
    split; [by rewrite <- Hflags|].
    split.
    + intros i' Hi' Hb'. apply Hmin; [done|]. by rewrite Hflags.
    + intros i' Hi' Hb'. apply Hfirst; [done|]. rewrite Hflags; [done | lia].
Qed.

Lemma construct_solution_assigns_cheapest_witness :
  let g : Facility.Globals Q :=
    Facility.mkGlobals [50; 60]%Q [[4; 9]; [7; 3]]%Q 2 2
      (Facility.mkSolution (replicate Facility.MAX_FACILITIES 0)
                           (replicate Facility.MAX_CUSTOMERS 0) 0%Q 0%Q 0%Q)
      0%Q 0 0 in
  let node :=
    Facility.mkNode 2 ([1; 1] ++ replicate 8 0) 110%Q 0%Q 0%Q 0%Q in
  exists i,
    Facility.customer_assignment
      (Facility.construct_solution g node (Facility.best_solution g)) !! 1%nat
    = Some (Z.of_nat i) /\
    (i < Facility.num_facilities g)%nat /\
    Facility.flag (Facility.facility_open node) i = true /\
    (forall i', (i' < Facility.num_facilities g)%nat ->
                Facility.flag (Facility.facility_open node) i' = true ->
                (Facility.scost g i 1 <= Facility.scost g i' 1)%Q) /\
    (forall i', (i' < i)%nat ->
                Facility.flag (Facility.facility_open node) i' = true ->
                (Facility.scost g i 1 < Facility.scost g i' 1)%Q).
Proof.
  apply (construct_solution_assigns_cheapest
           (Facility.mkGlobals [50; 60]%Q [[4; 9]; [7; 3]]%Q 2 2
              (Facility.mkSolution (replicate Facility.MAX_FACILITIES 0)
                                   (replicate Facility.MAX_CUSTOMERS 0)
                                   0%Q 0%Q 0%Q)
              0%Q 0 0)
           (Facility.mkNode 2 ([1; 1] ++ replicate 8 0) 110%Q 0%Q 0%Q 0%Q)).
  - vm_compute; lia.
  - vm_compute; lia.
  - vm_compute; reflexivity.
  - vm_compute; reflexivity.
  - exists 0%nat. split; [vm_compute; lia | vm_compute; reflexivity].
  - intros i Hi _. destruct i as [|[|i]]; [vm_compute; reflexivity ..|].
    cbn [Facility.num_facilities] in Hi. lia.
  - vm_compute; lia.
Defined.

Lemma copy_open_closed {D : Type} `{Double D} (g : Facility.Globals D) node l :
  forall open has fixed,
  (forall i, i ∈ l -> Facility.flag (Facility.facility_open node) i = false) ->
  (foldl (Facility.copy_open g node) (open, has, fixed) l).1.2 = has /\
  (foldl (Facility.copy_open g node) (open, has, fixed) l).2 = fixed.
Proof.
  induction l as [|i l IH]; intros open has fixed Hclosed; simpl; [done|].
  rewrite (Hclosed i) by left. apply IH. intros j Hj. apply Hclosed. by right.
Qed.

(** X24.  [construct_solution] on a node without an open facility, in any
    arithmetic of [double]: when none of the first [num_facilities] flags of
    the node is set, the solution it returns has [total_cost = DBL_MAX],
    fixed and service cost zero, and its [customer_assignment] is never
    written. *)
Theorem construct_solution_without_facility
  (D : Type) (HD : Double D) (g : Facility.Globals D) node junk :
  (forall i, (i < Facility.num_facilities g)%nat ->
             Facility.flag (Facility.facility_open node) i = false) ->
  let solution := Facility.construct_solution g node junk in
  Facility.sol_total_cost solution = d_max /\
  Facility.sol_fixed_cost solution = Facility.zero /\
  Facility.sol_service_cost solution = Facility.zero /\
  Facility.customer_assignment solution = Facility.customer_assignment junk.
Proof.
  intros Hclosed. cbv zeta. unfold Facility.construct_solution.
  destruct (copy_open_closed g node (seq 0 (Facility.num_facilities g))
              (Facility.sol_facility_open junk) false Facility.zero)
    as (Hhas & Hfixed).
  { intros i Hi. apply Hclosed. apply elem_of_seq in Hi. lia. }
  destruct (foldl (Facility.copy_open g node) _ _) as [[open has] fixed].
  cbn [fst snd] in *. subst has fixed. done.
Qed.

Lemma construct_solution_without_facility_witness :
  let g := Facility.test_case_1 in
  let node := Facility.root_node g in
  let solution := Facility.construct_solution g node (Facility.best_solution g) in
  Facility.sol_total_cost solution = d_max /\
  Facility.sol_fixed_cost solution = Facility.zero /\
  Facility.sol_service_cost solution = Facility.zero /\
  Facility.customer_assignment solution
  = Facility.customer_assignment (Facility.best_solution g).
Proof.
  apply (construct_solution_without_facility float _ Facility.test_case_1
           (Facility.root_node Facility.test_case_1)).
  intros i Hi. unfold Facility.root_node, Facility.flag.
  cbn [Facility.facility_open].
  rewrite lookup_replicate_2; [done|].
  cbn [Facility.num_facilities Facility.test_case_1] in Hi.
  unfold Facility.MAX_FACILITIES. lia.
Defined.

(** ** [next_permutation] *)

Section NextPermutation.
Import NextPerm.

Lemma cell_app_l (l1 l2 : list Z) i :
  (i < length l1)%nat -> cell (l1 ++ l2) i = cell l1 i.
Proof. intros Hi. unfold cell. by rewrite lookup_app_l. Qed.

Lemma cell_app_r (l1 l2 : list Z) k : cell (l1 ++ l2) (length l1 + k) = cell l2 k.
Proof.
  unfold cell. rewrite lookup_app_r by lia. do 2 f_equal. lia.
Qed.

Lemma cell_middle (l1 l2 : list Z) x : cell (l1 ++ x :: l2) (length l1) = x.
Proof. unfold cell. by rewrite list_lookup_middle. Qed.

Lemma cell_take (l : list Z) k i : (i < k)%nat -> cell (take k l) i = cell l i.
Proof. intros Hi. unfold cell. by rewrite lookup_take_lt. Qed.

Lemma cell_drop (l : list Z) k i : cell (drop k l) i = cell l (k + i).
Proof. unfold cell. by rewrite lookup_drop. Qed.

(** The three assignments of a swap, on the array cut at the two cells. *)
Lemma swap_app (pre mid post : list Z) a b :
  swap (pre ++ a :: mid ++ b :: post) (length pre) (length pre + S (length mid))
  = pre ++ b :: mid ++ a :: post.
Proof.
  unfold swap. rewrite cell_middle.
  assert (Hb : cell (pre ++ a :: mid ++ b :: post)
                    (length pre + S (length mid)) = b).
  { replace (pre ++ a :: mid ++ b :: post)
      with ((pre ++ a :: mid) ++ b :: post) by (by rewrite <- app_assoc).
    replace (length pre + S (length mid))%nat with (length (pre ++ a :: mid))
      by (rewrite length_app; simpl; lia).
    apply cell_middle. }
  rewrite Hb.
  rewrite (insert_app_r_alt pre _ (length pre)) by lia.
  replace (length pre - length pre)%nat with 0%nat by lia.
  change (<[0%nat:=b]> (a :: mid ++ b :: post)) with (b :: mid ++ b :: post).
  rewrite insert_app_r_alt by lia.
  replace (length pre + S (length mid) - length pre)%nat
    with (S (length mid)) by lia.
  change (<[S (length mid):=a]> (b :: mid ++ b :: post))
    with (b :: <[length mid:=a]> (mid ++ b :: post)).
  rewrite insert_app_r_alt by lia.
  replace (length mid - length mid)%nat with 0%nat by lia. done.
Qed.

(** The "reverse suffix" loop, on the array cut around the range. *)
Lemma reverse_range_app : forall fuel pre mid post,
  (length mid <= fuel)%nat ->
  reverse_range fuel (pre ++ mid ++ post) (length pre)
                (length pre + length mid - 1)
  = pre ++ reverse mid ++ post.
Proof.
  induction fuel as [|fuel IH]; intros pre mid post Hfuel.
  - destruct mid; [done | simpl in Hfuel; lia].
  - cbn [reverse_range].
    destruct (Nat.ltb_spec (length pre) (length pre + length mid - 1))
      as [Hlt | Hge].
    + destruct mid as [|a mid0]; [simpl in Hlt; lia|].
      destruct (decide (mid0 = [])) as [-> | Hne]; [simpl in Hlt; lia|].
      destruct (exists_last Hne) as (mid' & b & ->).
      replace (pre ++ (a :: mid' ++ [b]) ++ post)
        with (pre ++ a :: mid' ++ b :: post)
        by (simpl; by rewrite <- app_assoc).
      replace (length pre + length (a :: mid' ++ [b]) - 1)%nat
        with (length pre + S (length mid'))%nat
        by (simpl; rewrite length_app; simpl; lia).
      rewrite swap_app.
      replace (pre ++ b :: mid' ++ a :: post)
        with ((pre ++ [b]) ++ mid' ++ (a :: post))
        by (by rewrite <- app_assoc).
      replace (S (length pre)) with (length (pre ++ [b]))
        by (rewrite length_app; simpl; lia).
      replace (length pre + S (length mid') - 1)%nat
        with (length (pre ++ [b]) + length mid' - 1)%nat
        by (rewrite length_app; simpl; lia).
      rewrite IH by (simpl in Hfuel; rewrite length_app in Hfuel; simpl in Hfuel; lia).
      rewrite reverse_cons, reverse_app. simpl.
      rewrite <- !app_assoc. done.
    + destruct mid as [|a [|b mid]]; [done | done | simpl in Hge; lia].
Qed.

(** The swap and the reversal that follow the two searches. *)
Lemma swap_reverse_app p x s1 y s2 rest n :
  n = length (p ++ x :: s1 ++ y :: s2) ->
  reverse_range n
    (swap (p ++ x :: s1 ++ y :: s2 ++ rest) (length p) (length p + S (length s1)))
    (length p + 1) (n - 1)
  = p ++ y :: reverse (s1 ++ x :: s2) ++ rest.
Proof.
  intros ->. rewrite swap_app.
  replace (p ++ y :: s1 ++ x :: s2 ++ rest)
    with ((p ++ [y]) ++ (s1 ++ x :: s2) ++ rest)
    by (rewrite <- ?app_assoc; simpl; by rewrite <- ?app_assoc).
  replace (length p + 1)%nat with (length (p ++ [y]))
    by (rewrite length_app; simpl; lia).
  replace (length (p ++ x :: s1 ++ y :: s2) - 1)%nat
    with (length (p ++ [y]) + length (s1 ++ x :: s2) - 1)%nat
    by (rewrite !length_app; simpl; rewrite !length_app; simpl; lia).
  rewrite reverse_range_app
    by (rewrite !length_app; simpl; rewrite !length_app; simpl; lia).
  rewrite <- ?app_assoc. simpl. by rewrite <- ?app_assoc.
Qed.

Lemma find_pivot_spec arr : forall k,
  match find_pivot arr k with
  | Some i =>
      (i < k)%nat /\ cell arr i < cell arr (S i) /\
      forall m, (i < m < k)%nat -> cell arr (S m) <= cell arr m
  | None => forall m, (m < k)%nat -> cell arr (S m) <= cell arr m
  end.
Proof.
  induction k as [|k IH]; cbn [find_pivot]; [intros; lia|].
  destruct (Z.leb_spec (cell arr (S k)) (cell arr k)) as [Hle | Hgt].
  - destruct (find_pivot arr k) as [i|].
    + destruct IH as (Hi & Hlt & Hdesc). split; [lia|]. split; [done|].
      intros m Hm. destruct (decide (m = k)) as [-> | ?]; [done|].
      apply Hdesc. lia.
    + intros m Hm. destruct (decide (m = k)) as [-> | ?]; [done|].
      apply IH. lia.
  - split; [lia|]. split; [done|]. intros; lia.
Qed.

Lemma find_successor_spec arr x j0 : forall j,
  (1 <= j0 <= j)%nat -> x < cell arr j0 ->
  let r := find_successor arr x j in
  (j0 <= r <= j)%nat /\ x < cell arr r /\
  forall m, (r < m <= j)%nat -> cell arr m <= x.
Proof.
  induction j as [|j IH]; intros Hj Hx; cbv zeta; [lia|].
  cbn [find_successor].
  destruct (Z.leb_spec (cell arr (S j)) x) as [Hle | Hgt].
  - assert (Hj0 : (j0 <= j)%nat).
    { destruct (decide (j0 = S j)) as [-> | ?]; lia. }
    destruct (IH ltac:(lia) Hx) as (Hr & Hxr & Hrest).
    split; [lia|]. split; [done|].
    intros m Hm. destruct (decide (m = S j)) as [-> | ?]; [done|].
    apply Hrest. lia.
  - split; [lia|]. split; [done|]. intros; lia.
Qed.

(** An array whose neighbours never go up is sorted downwards. *)
Lemma sorted_of_cells (l : list Z) :
  (forall m, (S m < length l)%nat -> cell l (S m) <= cell l m) ->
  Sorted Z.ge l.
Proof.
  induction l as [|a l IH]; intros Hd; [constructor|].
  constructor.
  - apply IH. intros m Hm. apply (Hd (S m)). simpl. lia.
  - destruct l as [|b l]; [constructor|]. constructor.
    specialize (Hd 0%nat ltac:(simpl; lia)). unfold cell in Hd. simpl in Hd.
    lia.
Qed.

(** An array cut at two of its cells. *)
Lemma split_two (l : list Z) i j :
  (i < j < length l)%nat ->
  l = take i l ++ cell l i :: take (j - i - 1) (drop (S i) l)
           ++ cell l j :: drop (S j) l.
Proof.
  intros Hij.
  destruct (lookup_lt_is_Some_2 l i ltac:(lia)) as [x Hx].
  destruct (lookup_lt_is_Some_2 l j ltac:(lia)) as [y Hy].
  unfold cell. rewrite Hx, Hy. simpl.
  rewrite <- (take_drop i l) at 1. f_equal.
  rewrite (drop_S _ _ _ Hx). f_equal.
  rewrite <- (take_drop (j - i - 1) (drop (S i) l)) at 1. f_equal.
  rewrite drop_drop.
  replace (S i + (j - i - 1))%nat with j by lia.
  by rewrite (drop_S _ _ _ Hy).
Qed.

(** What [next_permutation] does, on the array cut at the pivot [x] and at
    the cell [y] it is swapped with. *)
Lemma next_permutation_shape arr n :
  (n <= length arr)%nat ->
  match next_permutation arr n with
  | (arr', false) => arr' = arr /\ Sorted Z.ge (take n arr)
  | (arr', true) =>
      exists p x s1 y s2,
        take n arr = p ++ x :: s1 ++ y :: s2 /\
        x < y /\ Sorted Z.ge (s1 ++ y :: s2) /\ Forall (fun z => z <= x) s2 /\
        arr' = p ++ y :: reverse (s1 ++ x :: s2) ++ drop n arr
  end.
Proof.
  intros Hn. unfold next_permutation.
  pose proof (find_pivot_spec arr (n - 1)) as Hpivot.
  destruct (find_pivot arr (n - 1)) as [i|].
  - destruct Hpivot as (Hi & Hlt & Hdesc).
    destruct (find_successor_spec arr (cell arr i) (S i) (n - 1)
                ltac:(lia) Hlt) as (Hj & Hxj & Hrest).
    set (j := find_successor arr (cell arr i) (n - 1)) in *.
    set (l := take n arr).
    assert (Hl : length l = n) by (unfold l; rewrite length_take; lia).
    assert (Hcell : forall m, (m < n)%nat -> cell l m = cell arr m).
    { intros m Hm. by apply cell_take. }
    pose proof (split_two l i j ltac:(lia)) as Hsplit.
    rewrite !Hcell in Hsplit by lia.
    set (p := take i l) in *.
    set (s1 := take (j - i - 1) (drop (S i) l)) in *.
    set (s2 := drop (S j) l) in *.
    assert (Lp : length p = i) by (unfold p; rewrite length_take; lia).
    assert (L1 : length s1 = (j - i - 1)%nat).
    { unfold s1. rewrite length_take, length_drop. lia. }
    assert (L2 : length s2 = (n - 1 - j)%nat).
    { unfold s2. rewrite length_drop. lia. }
    exists p, (cell arr i), s1, (cell arr j), s2.
    split; [exact Hsplit|]. split; [done|].
    split.
    { apply sorted_of_cells. intros m Hm.
      rewrite length_app in Hm. simpl in Hm.
      assert (Hshift : forall k, (k < n - S i)%nat ->
                cell (s1 ++ cell arr j :: s2) k = cell arr (S i + k)).
      { intros k Hk. rewrite <- (Hcell (S i + k)%nat) by lia.
        rewrite Hsplit.
        replace (p ++ cell arr i :: s1 ++ cell arr j :: s2)
          with ((p ++ [cell arr i]) ++ s1 ++ cell arr j :: s2)
          by (by rewrite <- app_assoc).
        replace (S i + k)%nat with (length (p ++ [cell arr i]) + k)%nat
          by (rewrite length_app; simpl; lia).
        by rewrite cell_app_r. }
      rewrite !Hshift by lia.
      replace (S i + S m)%nat with (S (S i + m)) by lia.
      apply Hdesc. lia. }
    split.
    { apply Forall_lookup. intros k z Hz.
      assert (Hk : (k < length s2)%nat) by (by apply lookup_lt_Some in Hz).
      assert (z = cell arr (S j + k)) as ->.
      { rewrite <- Hcell by lia. unfold s2 in Hz. rewrite lookup_drop in Hz.
        unfold cell. by rewrite Hz. }
      apply Hrest. lia. }
    assert (Harr : arr = p ++ cell arr i :: s1 ++ cell arr j :: s2 ++ drop n arr).
    { rewrite <- (take_drop n arr) at 1. fold l. rewrite Hsplit at 1.
      rewrite <- ?app_assoc. simpl. by rewrite <- ?app_assoc. }
    pose proof (swap_reverse_app p (cell arr i) s1 (cell arr j) s2 (drop n arr) n)
      as Hstep.
    rewrite <- Harr in Hstep. rewrite Lp, L1 in Hstep.
    replace (i + S (j - i - 1))%nat with j in Hstep by lia.
    apply Hstep. rewrite <- Hsplit. done.
  - split; [done|]. apply sorted_of_cells. intros m Hm.
    rewrite length_take in Hm. rewrite !cell_take by lia.
    apply Hpivot. lia.
Qed.
End NextPermutation.

(** ** [next_permutation] and the lexicographic order *)

Lemma ss_app_inv {A : Type} (R : A -> A -> Prop) (l1 l2 : list A) :
  StronglySorted R (l1 ++ l2) ->
  StronglySorted R l1 /\ StronglySorted R l2 /\
  Forall (fun a => Forall (R a) l2) l1.
Proof.
  induction l1 as [|a l1 IH]; simpl; intros Hs.
  - split; [constructor|]. split; [done | constructor].
  - apply StronglySorted_inv in Hs as [Hs Ha].
    destruct (IH Hs) as (H1 & H2 & H12).
    apply Forall_app in Ha as [Ha1 Ha2].
    split; [by constructor|]. split; [done|]. by constructor.
Qed.

Lemma ss_app {A : Type} (R : A -> A -> Prop) (l1 l2 : list A) :
  StronglySorted R l1 -> StronglySorted R l2 ->
  Forall (fun a => Forall (R a) l2) l1 ->
  StronglySorted R (l1 ++ l2).
Proof.
  induction l1 as [|a l1 IH]; simpl; intros H1 H2 H12; [done|].
  apply StronglySorted_inv in H1 as [H1 Ha].
  apply Forall_cons_1 in H12 as [Ha2 H12].
  constructor; [by apply IH|]. apply Forall_app. by split.
Qed.

Lemma ss_reverse {A : Type} (R : A -> A -> Prop) (l : list A) :
  StronglySorted R l -> StronglySorted (flip R) (reverse l).
Proof.
  induction l as [|a l IH]; intros Hs; [constructor|].
  apply StronglySorted_inv in Hs as [Hs Ha].
  rewrite reverse_cons. apply ss_app.
  { by apply IH. }
  { repeat constructor. }
  apply Forall_forall. intros b Hb. rewrite elem_of_reverse in Hb.
  constructor; [|constructor]. rewrite Forall_forall in Ha. unfold flip.
  by apply Ha.
Qed.

Lemma ss_impl {A : Type} (R R' : A -> A -> Prop) (l : list A) :
  (forall a b, R a b -> R' a b) -> StronglySorted R l -> StronglySorted R' l.
Proof.
  intros Himpl. induction 1 as [|a l Hs IH Ha]; constructor; [done|].
  eapply Forall_impl; [exact Ha|]. intros b. apply Himpl.
Qed.

Lemma sorted_ge_strong (l : list Z) : Sorted Z.ge l -> StronglySorted Z.ge l.
Proof. apply Sorted_StronglySorted. intros a b c. lia. Qed.

Section LexOrder.
Import NextPerm.

Lemma lex_lt_irrefl l : ~ lex_lt l l.
Proof.
  induction l as [|a l IH]; intros Hl; inversion Hl; subst; [lia | done].
Qed.

Lemma lex_lt_length a b : lex_lt a b -> a <> [] /\ b <> [].
Proof. by intros []. Qed.

(** Two arrays of one length are equal or one is below the other. *)
Lemma lex_lt_trichotomy : forall a b,
  length a = length b -> lex_lt a b \/ a = b \/ lex_lt b a.
Proof.
  induction a as [|x a IH]; intros [|y b] Hlen; try done; [by right; left|].
  destruct (Z.lt_trichotomy x y) as [Hlt | [-> | Hgt]].
  - left. by constructor.
  - destruct (IH b ltac:(by injection Hlen)) as [H1 | [-> | H2]].
    + left. by constructor.
    + by right; left.
    + right; right. by constructor.
  - right; right. by constructor.
Qed.

Lemma lex_lt_app pre a b : lex_lt a b -> lex_lt (pre ++ a) (pre ++ b).
Proof. intros Hlt. induction pre; simpl; [done | by constructor]. Qed.

(** No arrangement of an array sorted downwards is above it. *)
Lemma sorted_ge_last (s t : list Z) :
  StronglySorted Z.ge s -> t ≡ₚ s -> ~ lex_lt s t.
Proof.
  intros Hs Hperm Hlt. revert Hs Hperm.
  induction Hlt as [x y l1 l2 Hxy | x l1 l2 Hlt IH]; intros Hs Hperm.
  - apply StronglySorted_inv in Hs as [_ Hx].
    assert (Hy : y ∈ x :: l1) by (rewrite <- Hperm; left).
    apply elem_of_cons in Hy as [-> | Hy]; [lia|].
    rewrite Forall_forall in Hx. specialize (Hx y Hy). lia.
  - apply StronglySorted_inv in Hs as [Hs _].
    apply IH; [done|]. by apply Permutation_cons_inv in Hperm.
Qed.

(** No arrangement of an array sorted upwards is below it. *)
Lemma sorted_le_first (r t : list Z) :
  StronglySorted Z.le r -> t ≡ₚ r -> ~ lex_lt t r.
Proof.
  intros Hr Hperm Hlt. revert Hr Hperm.
  induction Hlt as [x y l1 l2 Hxy | x l1 l2 Hlt IH]; intros Hr Hperm.
  - apply StronglySorted_inv in Hr as [_ Hy].
    assert (Hx : x ∈ y :: l2) by (rewrite <- Hperm; left).
    apply elem_of_cons in Hx as [-> | Hx]; [lia|].
    rewrite Forall_forall in Hy. specialize (Hy x Hx). lia.
  - apply StronglySorted_inv in Hr as [Hr _].
    apply IH; [done|]. by apply Permutation_cons_inv in Hperm.
Qed.

(** The step of [next_permutation] at the pivot: between [x :: s] and
    [y :: reverse (s with x for y)] lies no arrangement of [x :: s]. *)
Lemma pivot_no_between x y (s1 s2 q : list Z) :
  x < y -> StronglySorted Z.ge (s1 ++ y :: s2) -> Forall (fun z => z <= x) s2 ->
  q ≡ₚ x :: s1 ++ y :: s2 ->
  lex_lt (x :: s1 ++ y :: s2) q ->
  lex_lt q (y :: reverse (s1 ++ x :: s2)) -> False.
Proof.
  intros Hxy Hs H2 Hperm Hlo Hhi.
  destruct (ss_app_inv _ _ _ Hs) as (Hs1 & Hys2 & H12).
  apply StronglySorted_inv in Hys2 as [Hs2 Hy2].
  inversion Hlo as [x' v l1 tq Hxv | x' l1 tq Hlt]; subst.
  - inversion Hhi as [v' y' l1' l2' Hvy | v' l1' l2' Hlt]; subst.
    + assert (Hv : v ∈ x :: s1 ++ y :: s2) by (rewrite <- Hperm; left).
      apply elem_of_cons in Hv as [-> | Hv]; [lia|].
      apply elem_of_app in Hv as [Hv | Hv].
      * rewrite Forall_forall in H12. specialize (H12 v Hv).
        apply Forall_cons_1 in H12 as [Hvy' _]. lia.
      * apply elem_of_cons in Hv as [-> | Hv]; [lia|].
        rewrite Forall_forall in H2. specialize (H2 v Hv). lia.
    + apply (sorted_le_first (reverse (s1 ++ x :: s2)) tq); [| |done].
      * apply (ss_reverse Z.ge) in Hs1 as Hr1.
        assert (StronglySorted Z.ge (s1 ++ x :: s2)) as Hsx.
        { apply ss_app; [done | |].
          - constructor; [done|]. eapply Forall_impl; [exact H2|].
            intros z Hz. simpl in Hz. lia.
          - apply Forall_forall. intros a Ha.
            rewrite Forall_forall in H12. specialize (H12 a Ha).
            apply Forall_cons_1 in H12 as [Hay Ha2].
            constructor; [lia | done]. }
        apply (ss_reverse Z.ge) in Hsx.
        eapply ss_impl; [|exact Hsx]. intros a b Hab.
        unfold flip in Hab. lia.
      * rewrite reverse_Permutation.
        assert (y :: tq ≡ₚ y :: s1 ++ x :: s2) as Hp.
        { rewrite Hperm. rewrite <- (Permutation_middle s1 s2 y).
          rewrite <- (Permutation_middle s1 s2 x). apply perm_swap. }
        by apply Permutation_cons_inv in Hp.
  - apply (sorted_ge_last (s1 ++ y :: s2) tq); [done | | done].
    by apply Permutation_cons_inv in Hperm.
Qed.

(** The same below a common prefix. *)
Lemma prefix_no_between (p a a' : list Z) :
  (forall q, q ≡ₚ a -> lex_lt a q -> lex_lt q a' -> False) ->
  forall q, q ≡ₚ p ++ a -> lex_lt (p ++ a) q -> lex_lt q (p ++ a') -> False.
Proof.
  intros Hbase. induction p as [|h p IH]; intros q Hperm Hlo Hhi; simpl in *.
  - by apply (Hbase q).
  - inversion Hlo as [h' v l1 tq Hhv | h' l1 tq Hlt]; subst.
    + inversion Hhi; subst; lia.
    + inversion Hhi as [| h'' l1' l2' Hlt']; subst; [lia|].
      apply (IH tq); [|done | done]. by apply Permutation_cons_inv in Hperm.
Qed.

(** In base [b], the order of the arrays of digits is the order of the
    numbers they stand for. *)
Lemma value_bounds b (l : list Z) :
  0 < b -> Forall (fun x => 0 <= x < b) l ->
  0 <= value b l < b ^ Z.of_nat (length l).
Proof.
  intros Hb. induction 1 as [|x l Hx _ IH]; simpl; [lia|].
  rewrite Nat2Z.inj_succ, Z.pow_succ_r by lia.
  assert (0 < b ^ Z.of_nat (length l)) by (apply Z.pow_pos_nonneg; lia).
  nia.
Qed.

Lemma value_lex b (a c : list Z) :
  0 < b -> Forall (fun x => 0 <= x < b) a -> Forall (fun x => 0 <= x < b) c ->
  length a = length c -> lex_lt a c -> value b a < value b c.
Proof.
  intros Hb Ha Hc Hlen Hlt. revert Ha Hc Hlen.
  induction Hlt as [x y l1 l2 Hxy | x l1 l2 Hlt IH]; intros Ha Hc Hlen;
    apply Forall_cons_1 in Ha as [Hx Ha]; apply Forall_cons_1 in Hc as [Hy Hc];
    simpl in *; injection Hlen as Hlen.
  - pose proof (value_bounds b l1 Hb Ha). pose proof (value_bounds b l2 Hb Hc).
    rewrite Hlen in *.
    assert (0 < b ^ Z.of_nat (length l2)) by (apply Z.pow_pos_nonneg; lia).
    nia.
  - specialize (IH Ha Hc Hlen). rewrite Hlen. lia.
Qed.
End LexOrder.

Section NextPermutationOrder.
Import NextPerm.

Lemma take_shape (p : list Z) y r rest n :
  n = length (p ++ y :: r) -> take n (p ++ y :: r ++ rest) = p ++ y :: r.
Proof.
  intros ->.
  replace (p ++ y :: r ++ rest) with ((p ++ y :: r) ++ rest)
    by (rewrite <- ?app_assoc; simpl; by rewrite <- ?app_assoc).
  apply take_app_length.
Qed.

(** What a caller of [next_permutation] gets. *)
Lemma next_permutation_spec arr n :
  (n <= length arr)%nat ->
  let r := next_permutation arr n in
  length r.1 = length arr /\
  take n r.1 ≡ₚ take n arr /\
  drop n r.1 = drop n arr /\
  (if r.2 then
     lex_lt (take n arr) (take n r.1) /\
     forall q, q ≡ₚ take n arr ->
               lex_lt (take n arr) q -> lex_lt q (take n r.1) -> False
   else
     r.1 = arr /\
     forall q, q ≡ₚ take n arr -> ~ lex_lt (take n arr) q).
Proof.
  intros Hn. cbv zeta.
  pose proof (next_permutation_shape arr n Hn) as Hshape.
  destruct (next_permutation arr n) as [arr' [|]]; cbn [fst snd].
  - destruct Hshape as (p & x & s1 & y & s2 & Htake & Hxy & Hs & H2 & ->).
    assert (Hlen : n = length (p ++ y :: reverse (s1 ++ x :: s2))).
    { rewrite <- (length_take_le arr n) by lia. rewrite Htake.
      rewrite !length_app. simpl. rewrite length_reverse, !length_app. done. }
    assert (Ht : take n (p ++ y :: reverse (s1 ++ x :: s2) ++ drop n arr)
                 = p ++ y :: reverse (s1 ++ x :: s2)) by (by apply take_shape).
    assert (Hd : drop n (p ++ y :: reverse (s1 ++ x :: s2) ++ drop n arr)
                 = drop n arr).
    { replace (p ++ y :: reverse (s1 ++ x :: s2) ++ drop n arr)
        with ((p ++ y :: reverse (s1 ++ x :: s2)) ++ drop n arr)
        by (rewrite <- ?app_assoc; simpl; by rewrite <- ?app_assoc).
      rewrite Hlen at 1. apply drop_app_length. }
    split.
    { rewrite <- (take_drop n (p ++ _)), Ht, Hd, length_app, <- Hlen.
      rewrite length_drop. lia. }
    rewrite Ht, Htake.
    split.
    { apply Permutation_app_head. rewrite reverse_Permutation.
      rewrite <- (Permutation_middle s1 s2 y), <- (Permutation_middle s1 s2 x).
      apply perm_swap. }
    split; [done|]. split.
    + apply lex_lt_app. by constructor.
    + apply prefix_no_between. intros q. apply pivot_no_between; try done.
      by apply sorted_ge_strong.
  - destruct Hshape as (-> & Hs). repeat split; try done.
    intros q Hq. apply sorted_ge_last; [by apply sorted_ge_strong | done].
Qed.
End NextPermutationOrder.

(** ** JobAssignment.c: the exhaustive baseline *)

Lemma foldl_ext_elem {A B : Type} (f f' : A -> B -> A) (l : list B) : forall a,
  (forall a x, x ∈ l -> f a x = f' a x) -> foldl f a l = foldl f' a l.
Proof.
  induction l as [|x l IH]; intros a Hf; simpl; [done|].
  rewrite (Hf a x) by left. apply IH. intros a' y Hy. apply Hf. by right.
Qed.

Lemma ids_sorted (k : nat) : forall s,
  StronglySorted Z.le (Z.of_nat <$> seq s k).
Proof.
  induction k as [|k IH]; intros s; simpl; constructor; [apply IH|].
  apply Forall_forall. intros x Hx.
  apply list_elem_of_fmap in Hx as (y & -> & Hy). apply elem_of_seq in Hy. lia.
Qed.

Lemma ids_range (k : nat) (l : list Z) :
  l ≡ₚ (Z.of_nat <$> seq 0 k) -> Forall (fun x => 0 <= x < Z.of_nat k) l.
Proof.
  intros ->. apply Forall_forall. intros x Hx.
  apply list_elem_of_fmap in Hx as (y & -> & Hy). apply elem_of_seq in Hy. lia.
Qed.

Lemma to_nat_of_nat_list (l : list nat) : Z.to_nat <$> (Z.of_nat <$> l) = l.
Proof.
  induction l as [|x l IH]; [done|]. by rewrite !fmap_cons, Nat2Z.id, IH.
Qed.

(** The digits of an arrangement of [0..k) stand for a number below
    [k ^ k]. *)
Lemma ids_value (k : nat) (l : list Z) :
  l ≡ₚ (Z.of_nat <$> seq 0 k) ->
  0 <= NextPerm.value (Z.of_nat k) l < Z.of_nat k ^ Z.of_nat k.
Proof.
  intros Hperm.
  assert (Hlen : length l = k).
  { by rewrite Hperm, length_fmap, length_seq. }
  destruct k as [|k].
  - destruct l; [simpl; lia | done].
  - pose proof (value_bounds (Z.of_nat (S k)) l ltac:(lia) (ids_range _ _ Hperm))
      as Hb.
    by rewrite Hlen in Hb.
Qed.

(** The loop [for (i < n) jobs[i] = i]. *)
Lemma init_jobs_take : forall k (junk : list Z),
  (k <= length junk)%nat ->
  let r := foldl (fun a i => <[i := Z.of_nat i]> a) junk (seq 0 k) in
  length r = length junk /\ take k r = (Z.of_nat <$> seq 0 k).
Proof.
  induction k as [|k IH]; intros junk Hk; cbv zeta.
  - simpl. by rewrite take_0.
  - rewrite seq_S, foldl_snoc. cbn [Nat.add].
    destruct (IH junk ltac:(lia)) as (L & Ht).
    rewrite length_insert. split; [done|].
    rewrite take_S_insert, Ht, L.
    destruct (decide _) as [_ | ?]; [|lia].
    by rewrite fmap_app.
Qed.

Section AssignmentBruteForce.
Import Assignment NextPerm.
Variable g : Globals.
Hypothesis Hn : (n g <= MAX_SIZE)%nat.

Local Abbreviation ids := (Z.of_nat <$> seq 0 (n g)).

Lemma jobs_cost_ext (l l' : list Z) :
  (forall w, (w < n g)%nat -> l !! w = l' !! w) ->
  jobs_cost g l = jobs_cost g l'.
Proof.
  intros Hl. unfold jobs_cost. apply foldl_ext_elem.
  intros a w Hw. apply elem_of_seq in Hw. by rewrite Hl by lia.
Qed.

Lemma jobs_cost_take (l : list Z) :
  jobs_cost g (take (n g) l) = jobs_cost g l.
Proof. apply jobs_cost_ext. intros w Hw. by apply lookup_take_lt. Qed.

Lemma jobs_cost_assignment (sigma : list nat) :
  jobs_cost g (Z.of_nat <$> sigma) = assignment_cost g sigma.
Proof.
  unfold jobs_cost, assignment_cost. apply foldl_ext_elem.
  intros a w _. rewrite list_lookup_fmap.
  destruct (sigma !! w); simpl; [by rewrite Nat2Z.id | done].
Qed.

Lemma jobs_cost_to_nat (l : list Z) :
  jobs_cost g l = assignment_cost g (Z.to_nat <$> take (n g) l).
Proof.
  unfold jobs_cost, assignment_cost. apply foldl_ext_elem.
  intros a w Hw. apply elem_of_seq in Hw.
  rewrite list_lookup_fmap, lookup_take_lt by lia.
  by destruct (l !! w).
Qed.

(** The [do ... while] loop ends, and when it has ended every assignment
    has been looked at. *)
Lemma brute_force_loop_spec : forall fuel jobs mc best perms,
  length jobs = MAX_SIZE -> take (n g) jobs ≡ₚ ids ->
  length best = MAX_SIZE -> mc <= INF ->
  (mc = INF \/ (take (n g) best ≡ₚ ids /\ mc = jobs_cost g best)) ->
  (forall q, q ≡ₚ ids -> lex_lt q (take (n g) jobs) -> mc <= jobs_cost g q) ->
  Z.of_nat (n g) ^ Z.of_nat (n g) - value (Z.of_nat (n g)) (take (n g) jobs)
  < Z.of_nat fuel ->
  exists mc' best' perms',
    brute_force_loop fuel g jobs mc best perms = Some (mc', best', perms') /\
    length best' = MAX_SIZE /\ mc' <= INF /\
    (mc' = INF \/ (take (n g) best' ≡ₚ ids /\ mc' = jobs_cost g best')) /\
    forall q, q ≡ₚ ids -> mc' <= jobs_cost g q.
Proof.
  induction fuel as [|fuel IH];
    intros jobs mc best perms Lj Hperm Lb Hinf Hinc Hseen Hfuel.
  { pose proof (ids_value (n g) _ Hperm). lia. }
  cbn [brute_force_loop].
  set (cost := jobs_cost g jobs).
  assert (Hupd : exists mc1 best1,
             (if cost <? mc
              then (cost, copy_assignment (n g) jobs best)
              else (mc, best)) = (mc1, best1) /\
             mc1 <= mc /\ mc1 <= cost /\ length best1 = MAX_SIZE /\
             (mc1 = INF \/
              (take (n g) best1 ≡ₚ ids /\ mc1 = jobs_cost g best1))).
  { destruct (Z.ltb_spec cost mc) as [Hlt | Hge].
    - exists cost, (copy_assignment (n g) jobs best).
      split; [done|]. split; [lia|]. split; [lia|].
      split; [by rewrite length_copy_assignment|]. right.
      rewrite copy_assignment_take by lia. split; [done|].
      rewrite <- (jobs_cost_take (copy_assignment _ _ _)).
      rewrite copy_assignment_take by lia. by rewrite jobs_cost_take.
    - exists mc, best. split; [done|]. split; [lia|]. split; [lia|]. done. }
  destruct Hupd as (mc1 & best1 & -> & Hmc & Hcost & Lb1 & Hinc1).
  assert (Hcur : forall q, q ≡ₚ ids ->
             lex_lt q (take (n g) jobs) \/ q = take (n g) jobs ->
             mc1 <= jobs_cost g q).
  { intros q Hq [Hlt | ->].
    - specialize (Hseen q Hq Hlt). lia.
    - rewrite jobs_cost_take. fold cost. lia. }
  destruct (next_permutation_spec jobs (n g) ltac:(lia))
    as (Lj' & Hperm' & _ & Hcase).
  destruct (next_permutation jobs (n g)) as [jobs' more].
  cbn [fst snd] in *.
  assert (Htri : forall q, q ≡ₚ ids ->
             lex_lt q (take (n g) jobs) \/ q = take (n g) jobs
             \/ lex_lt (take (n g) jobs) q).
  { intros q Hq. apply lex_lt_trichotomy. by rewrite Hq, Hperm. }
  destruct more.
  - destruct Hcase as (Hnext & Hbetween).
    apply IH; try done.
    + lia.
    + by rewrite Hperm'.
    + lia.
    + intros q Hq Hlt. apply Hcur; [done|].
      destruct (Htri q Hq) as [? | [? | Hgt]]; [by left | by right |].
      exfalso. apply (Hbetween q); [by rewrite Hq, Hperm | done | done].
    + assert (value (Z.of_nat (n g)) (take (n g) jobs)
              < value (Z.of_nat (n g)) (take (n g) jobs')).
      { destruct (lex_lt_length _ _ Hnext) as [Hne _].
        apply value_lex; [| | | | done].
        - destruct (n g); [by rewrite take_0 in Hne | lia].
        - by apply ids_range.
        - apply ids_range. by rewrite Hperm'.
        - by rewrite Hperm'. }
      lia.
  - destruct Hcase as (_ & Hlast).
    eexists _, _, _. split; [reflexivity|].
    split; [done|]. split; [lia|]. split; [done|].
    intros q Hq. apply Hcur; [done|].
    destruct (Htri q Hq) as [? | [? | Hgt]]; [by left | by right |].
    exfalso. apply (Hlast q); [by rewrite Hq, Hperm | done].
Qed.

Lemma brute_force_assignment_spec fuel junk_j junk_b junk_r :
  length junk_j = MAX_SIZE -> length junk_b = MAX_SIZE ->
  length junk_r = MAX_SIZE ->
  (n g ^ n g + 1 <= fuel)%nat ->
  exists r,
    brute_force_assignment fuel g junk_j junk_b junk_r = Some r /\
    (forall sigma, sigma ≡ₚ seq 0 (n g) ->
                   res_min_cost r <= assignment_cost g sigma) /\
    res_min_cost r <= INF /\
    (res_min_cost r = INF \/
     ((Z.to_nat <$> take (n g) (res_assignment r)) ≡ₚ seq 0 (n g) /\
      res_min_cost r
      = assignment_cost g (Z.to_nat <$> take (n g) (res_assignment r)))).
Proof.
  intros Lj Lb Lr Hfuel. unfold brute_force_assignment.
  destruct (init_jobs_take (n g) junk_j ltac:(lia)) as (L & Ht).
  set (jobs := foldl _ junk_j _) in *.
  destruct (brute_force_loop_spec fuel jobs INF junk_b 0)
    as (mc & best & perms & -> & Lb' & Hinf & Hinc & Hall); try done.
  - lia.
  - by rewrite Ht.
  - by left.
  - intros q Hq Hlt. exfalso. rewrite Ht in Hlt.
    by apply (sorted_le_first ids q (ids_sorted _ _) Hq).
  - pose proof (ids_value (n g) (take (n g) jobs) ltac:(by rewrite Ht)).
    assert (Z.of_nat (n g ^ n g) = Z.of_nat (n g) ^ Z.of_nat (n g))
      by apply Nat2Z.inj_pow.
    lia.
  - eexists. split; [reflexivity|]. cbn [res_min_cost res_assignment].
    split.
    { intros sigma Hsigma. rewrite <- jobs_cost_assignment. apply Hall.
      by rewrite Hsigma. }
    split; [done|].
    destruct Hinc as [? | (Hperm & Hcost)]; [by left | right].
    rewrite copy_assignment_take by lia. split.
    + by rewrite Hperm, to_nat_of_nat_list.
    + by rewrite <- jobs_cost_to_nat.
Qed.
End AssignmentBruteForce.

Lemma assign_search_le fuel : forall s r,
  Assignment.search fuel s = Some r ->
  Assignment.min_cost r <= Assignment.min_cost s.1.
Proof.
  induction fuel as [|fuel IH]; intros s r; simpl; [done|].
  destruct (Assignment.step s) as [s'|] eqn:E.
  - intros Hr. specialize (IH s' r Hr).
    destruct (assignment_step_incumbent s s' E) as [Heq | (c & pq & _ & _ & Hlt & Heq)];
      lia.
  - intros [= <-]. lia.
Qed.

(** X14.  When [next_permutation] returns 1 it has put the next arrangement
    in lexicographic order into [arr[0..n)]: the same values, an array above
    the old one, no arrangement of these values in between; the cells from
    [n] on are left alone. *)
Theorem next_permutation_gives_successor (arr arr' : list Z) (n : nat) :
  (n <= length arr)%nat ->
  NextPerm.next_permutation arr n = (arr', true) ->
  length arr' = length arr /\
  take n arr' ≡ₚ take n arr /\
  drop n arr' = drop n arr /\
  NextPerm.lex_lt (take n arr) (take n arr') /\
  forall q, q ≡ₚ take n arr ->
            ~ (NextPerm.lex_lt (take n arr) q /\ NextPerm.lex_lt q (take n arr')).
Proof.
  intros Hn Hnext. pose proof (next_permutation_spec arr n Hn) as Hspec.
  rewrite Hnext in Hspec. cbn [fst snd] in Hspec.
  destruct Hspec as (Hlen & Hperm & Hdrop & Hlt & Hbetween).
  repeat split; try done. intros q Hq [Hlo Hhi]. by apply (Hbetween q).
Qed.

Lemma next_permutation_gives_successor_witness :
  length [2; 1; 3; 9] = length [1; 3; 2; 9] /\
  take 3 [2; 1; 3; 9] ≡ₚ take 3 [1; 3; 2; 9] /\
  drop 3 [2; 1; 3; 9] = drop 3 [1; 3; 2; 9] /\
  NextPerm.lex_lt (take 3 [1; 3; 2; 9]) (take 3 [2; 1; 3; 9]) /\
  forall q, q ≡ₚ take 3 [1; 3; 2; 9] ->
            ~ (NextPerm.lex_lt (take 3 [1; 3; 2; 9]) q
               /\ NextPerm.lex_lt q (take 3 [2; 1; 3; 9])).
Proof.
  apply (next_permutation_gives_successor [1; 3; 2; 9] [2; 1; 3; 9] 3).
  - simpl; lia.
  - vm_compute; reflexivity.
Defined.

(** X15.  When [next_permutation] returns 0 it has left the array as it
    was, and [arr[0..n)] is the last arrangement of its values: none is
    above it in lexicographic order. *)
Theorem next_permutation_stops_at_last (arr arr' : list Z) (n : nat) :
  (n <= length arr)%nat ->
  NextPerm.next_permutation arr n = (arr', false) ->
  arr' = arr /\
  forall q, q ≡ₚ take n arr -> ~ NextPerm.lex_lt (take n arr) q.
Proof.
  intros Hn Hnext. pose proof (next_permutation_spec arr n Hn) as Hspec.
  rewrite Hnext in Hspec. cbn [fst snd] in Hspec.
  by destruct Hspec as (_ & _ & _ & ? & ?).
Qed.

Lemma next_permutation_stops_at_last_witness :
  [3; 2; 2; 1] = [3; 2; 2; 1] /\
  forall q, q ≡ₚ take 4 [3; 2; 2; 1] ->
            ~ NextPerm.lex_lt (take 4 [3; 2; 2; 1]) q.
Proof.
  apply (next_permutation_stops_at_last [3; 2; 2; 1] [3; 2; 2; 1] 4).
  - simpl; lia.
  - vm_compute; reflexivity.
Defined.

(** X16.  [brute_force_assignment] ends and returns the optimum.  On an
    instance on which no sum of costs can overflow an [int] ([costs_fit]):
    its [do] loop ends within [n ^ n + 1] rounds, the [min_cost] it returns
    is at most the cost of every way of giving the [n] workers a job each,
    all jobs different, and unless it is [INT_MAX] it is the cost of the
    assignment it returns, which gives every worker a job of its own. *)
Theorem brute_force_assignment_optimal g fuel junk_j junk_b junk_r :
  (Assignment.n g <= Assignment.MAX_SIZE)%nat ->
  Assignment.costs_fit g = true ->
  length junk_j = Assignment.MAX_SIZE -> length junk_b = Assignment.MAX_SIZE ->
  length junk_r = Assignment.MAX_SIZE ->
  (Assignment.n g ^ Assignment.n g + 1 <= fuel)%nat ->
  exists r,
    Assignment.brute_force_assignment fuel g junk_j junk_b junk_r = Some r /\
    (forall sigma, sigma ≡ₚ seq 0 (Assignment.n g) ->
       Assignment.res_min_cost r <= Assignment.assignment_cost g sigma) /\
    (Assignment.res_min_cost r = Assignment.INF \/
     ((Z.to_nat <$> take (Assignment.n g) (Assignment.res_assignment r))
        ≡ₚ seq 0 (Assignment.n g) /\
      Assignment.res_min_cost r
      = Assignment.assignment_cost g
          (Z.to_nat <$> take (Assignment.n g) (Assignment.res_assignment r)))).
Proof.
  intros Hn _ Lj Lb Lr Hfuel.
  destruct (brute_force_assignment_spec g Hn fuel junk_j junk_b junk_r Lj Lb Lr Hfuel)
    as (r & Hr & Hall & _ & Hinc).
  by exists r.
Qed.

Lemma brute_force_assignment_optimal_witness :
  exists r,
    Assignment.brute_force_assignment 257 Assignment.four_workers
      (replicate Assignment.MAX_SIZE 0) (replicate Assignment.MAX_SIZE 0)
      (replicate Assignment.MAX_SIZE 0) = Some r /\
    (forall sigma, sigma ≡ₚ seq 0 (Assignment.n Assignment.four_workers) ->
       Assignment.res_min_cost r
       <= Assignment.assignment_cost Assignment.four_workers sigma) /\
    (Assignment.res_min_cost r = Assignment.INF \/
     ((Z.to_nat <$> take (Assignment.n Assignment.four_workers)
                         (Assignment.res_assignment r))
        ≡ₚ seq 0 (Assignment.n Assignment.four_workers) /\
      Assignment.res_min_cost r
      = Assignment.assignment_cost Assignment.four_workers
          (Z.to_nat <$> take (Assignment.n Assignment.four_workers)
                             (Assignment.res_assignment r)))).
Proof.
  apply (brute_force_assignment_optimal Assignment.four_workers 257).
  - vm_compute; lia.
  - vm_compute; reflexivity.
  - vm_compute; reflexivity.
  - vm_compute; reflexivity.
  - vm_compute; reflexivity.
  - vm_compute; lia.
Defined.

(** X17.  Branch and bound and the exhaustive baseline agree.  On an
    instance on which no sum of costs can overflow an [int] ([costs_fit]):
    when [solve_assignment] has ended, in a run that keeps the queue within
    its array, its [min_cost] is the [min_cost] that
    [brute_force_assignment] returns. *)
Theorem solve_assignment_agrees_with_brute_force
  g junk_a junk_u fuel r junk_j junk_b junk_r fuel' b :
  (Assignment.n g <= Assignment.MAX_SIZE)%nat ->
  Assignment.costs_fit g = true ->
  length (Assignment.best_assignment g) = Assignment.MAX_SIZE ->
  length junk_a = Assignment.MAX_SIZE -> length junk_u = Assignment.MAX_SIZE ->
  length junk_j = Assignment.MAX_SIZE -> length junk_b = Assignment.MAX_SIZE ->
  length junk_r = Assignment.MAX_SIZE ->
  queue_fits Assignment.step (fun s => length s.2) Assignment.QUEUE_CAPACITY
             (Assignment.solve_init g junk_a junk_u) ->
  (Assignment.n g ^ Assignment.n g + 1 <= fuel')%nat ->
  Assignment.solve_assignment fuel g junk_a junk_u = Some r ->
  Assignment.brute_force_assignment fuel' g junk_j junk_b junk_r = Some b ->
  Assignment.min_cost r = Assignment.res_min_cost b.
Proof.
  intros Hn _ Lbest La Lu Lj Lb Lr _ Hfuel Hr Hb.
  destruct (brute_force_assignment_spec g Hn fuel' junk_j junk_b junk_r Lj Lb Lr Hfuel)
    as (b' & Hb' & Hall & Hinf & Hinc).
  rewrite Hb in Hb'. injection Hb' as <-.
  pose proof (assign_solve_init_ok g junk_a junk_u Hn Lbest La Lu) as Hinit.
  assert (Hopt : forall sigma, sigma ≡ₚ seq 0 (Assignment.n g) ->
            Assignment.min_cost r <= Assignment.assignment_cost g sigma).
  { intros sigma Hsigma.
    by apply (covered_search g sigma fuel (Assignment.solve_init g junk_a junk_u));
      [| | | apply covered_solve_init |]. }
  pose proof (assign_search_le fuel _ r Hr) as Hle.
  change (Assignment.min_cost (Assignment.solve_init g junk_a junk_u).1)
    with Assignment.INF in Hle.
  destruct (assign_search_ok g fuel _ r Hn Hinit Hr)
    as (Ec & En & [Hs | (Hperm & _ & Hcost)]).
  - destruct Hinc as [-> | (Hpermb & Hcostb)]; [done|].
    specialize (Hopt _ Hpermb). lia.
  - rewrite En in *.
    assert (Hcost' : Assignment.min_cost r
              = Assignment.assignment_cost g
                  (Z.to_nat <$> take (Assignment.n g) (Assignment.best_assignment r))).
    { rewrite Hcost. unfold Assignment.assignment_cost. rewrite En.
      by apply (cost_upto_instance r g). }
    specialize (Hall _ Hperm).
    destruct Hinc as [Eb | (Hpermb & Hcostb)]; [lia|].
    specialize (Hopt _ Hpermb). lia.
Qed.

Lemma solve_assignment_agrees_with_brute_force_witness :
  exists r b,
    Assignment.solve_assignment 100 Assignment.four_workers
      (replicate Assignment.MAX_SIZE 0) (replicate Assignment.MAX_SIZE 0)
    = Some r /\
    Assignment.brute_force_assignment 257 Assignment.four_workers
      (replicate Assignment.MAX_SIZE 0) (replicate Assignment.MAX_SIZE 0)
      (replicate Assignment.MAX_SIZE 0) = Some b /\
    Assignment.min_cost r = Assignment.res_min_cost b.
Proof.
  eexists _, _. split; [vm_compute; reflexivity|].
  split; [vm_compute; reflexivity|].
  apply (solve_assignment_agrees_with_brute_force Assignment.four_workers
           (replicate Assignment.MAX_SIZE 0) (replicate Assignment.MAX_SIZE 0) 100 _
           (replicate Assignment.MAX_SIZE 0) (replicate Assignment.MAX_SIZE 0)
           (replicate Assignment.MAX_SIZE 0) 257).
  - vm_compute; lia.
  - vm_compute; reflexivity.
  - vm_compute; reflexivity.
  - vm_compute; reflexivity.
  - vm_compute; reflexivity.
  - vm_compute; reflexivity.
  - vm_compute; reflexivity.
  - vm_compute; reflexivity.
  - apply (queue_fits_run_sound _ _ _ 100). vm_compute; reflexivity.
  - vm_compute; lia.
  - vm_compute; reflexivity.
  - vm_compute; reflexivity.
Defined.

(** ** TravelingSalesman.c: the exhaustive baseline *)

Lemma cities_range (n : nat) (l : list Z) :
  l ≡ₚ (Z.of_nat <$> seq 1 (n - 1)) -> Forall (fun x => 0 <= x < Z.of_nat n) l.
Proof.
  intros ->. apply Forall_forall. intros x Hx.
  apply list_elem_of_fmap in Hx as (y & -> & Hy). apply elem_of_seq in Hy. lia.
Qed.

(** The digits of an arrangement of the cities [1..n) stand for a number
    below [n ^ (n - 1)]. *)
Lemma cities_value (n : nat) (l : list Z) :
  l ≡ₚ (Z.of_nat <$> seq 1 (n - 1)) ->
  0 <= NextPerm.value (Z.of_nat n) l < Z.of_nat n ^ Z.of_nat (n - 1).
Proof.
  intros Hperm.
  assert (Hlen : length l = (n - 1)%nat).
  { by rewrite Hperm, length_fmap, length_seq. }
  destruct n as [|n].
  - destruct l; [simpl; lia | done].
  - pose proof (value_bounds (Z.of_nat (S n)) l ltac:(lia) (cities_range _ _ Hperm))
      as Hb.
    by rewrite Hlen in Hb.
Qed.

(** The loop [for (i = 1; i < n; i++) cities[i - 1] = i]. *)
Lemma init_cities_take : forall k (junk : list Z),
  (k <= length junk)%nat ->
  let r := foldl (fun a i => <[(i - 1)%nat := Z.of_nat i]> a) junk (seq 1 k) in
  length r = length junk /\ take k r = (Z.of_nat <$> seq 1 k).
Proof.
  induction k as [|k IH]; intros junk Hk; cbv zeta.
  - simpl. by rewrite take_0.
  - rewrite seq_S, foldl_snoc.
    replace (1 + k - 1)%nat with k by lia.
    destruct (IH junk ltac:(lia)) as (L & Ht).
    rewrite length_insert. split; [done|].
    rewrite take_S_insert, Ht, L.
    destruct (decide _) as [_ | ?]; [|lia].
    by rewrite fmap_app.
Qed.

Section TSPBruteForce.
Import TSP NextPerm.
Variable g : Globals.
Hypothesis Hn : (n g <= MAX_CITIES)%nat.

Local Abbreviation cities_ids := (Z.of_nat <$> seq 1 (n g - 1)).

(** The cost loop walks along the cities and closes the tour. *)
Lemma cost_loop_walk (cities : list Z) : forall k,
  (k <= length cities)%nat ->
  let r :=
    foldl (fun (acc : Z * nat) i =>
             let c := Z.to_nat (default 0 (cities !! i)) in
             (acc.1 + edge g acc.2 c, c))
          (0, 0%nat) (seq 0 k) in
  r.1 + edge g r.2 0 = walk_cost g 0 (Z.to_nat <$> take k cities) /\
  r.2 = default 0%nat (last (Z.to_nat <$> take k cities)).
Proof.
  induction k as [|k IH]; intros Hk; cbv zeta.
  - rewrite take_0. simpl. split; [lia | done].
  - rewrite seq_S, foldl_snoc. cbn [Nat.add].
    destruct (IH ltac:(lia)) as (Hwalk & Hlast).
    destruct (foldl _ (0, 0%nat) (seq 0 k)) as [a prev].
    cbn [fst snd] in *.
    destruct (lookup_lt_is_Some_2 cities k ltac:(lia)) as [x Hx].
    rewrite Hx. simpl default.
    rewrite (take_S_r _ _ x Hx), fmap_app. simpl fmap.
    rewrite walk_cost_snoc, last_snoc. rewrite <- Hlast. simpl. split; [lia | done].
Qed.

Lemma cities_cost_tour (cities : list Z) :
  (n g - 1 <= length cities)%nat ->
  cities_cost g cities = tour_cost g (Z.to_nat <$> take (n g - 1) cities).
Proof.
  intros Hlen. unfold cities_cost, tour_cost. cbv zeta.
  pose proof (cost_loop_walk cities (n g - 1) Hlen) as Hw. cbv zeta in Hw.
  by destruct Hw as (-> & _).
Qed.

Lemma cities_cost_take (cities : list Z) :
  (n g - 1 <= length cities)%nat ->
  cities_cost g (take (n g - 1) cities) = cities_cost g cities.
Proof.
  intros Hlen. rewrite !cities_cost_tour; [|done | rewrite length_take; lia].
  by rewrite take_take, Nat.min_id.
Qed.

Lemma cities_cost_of_nat (tour : list nat) :
  length tour = (n g - 1)%nat ->
  cities_cost g (Z.of_nat <$> tour) = tour_cost g tour.
Proof.
  intros Hlen. rewrite cities_cost_tour by (rewrite length_fmap; lia).
  rewrite take_ge by (rewrite length_fmap; lia).
  by rewrite to_nat_of_nat_list.
Qed.

(** The loop [for (i < n - 1) min_path[i + 1] = cities[i]]. *)
Lemma record_loop (cities : list Z) : forall k mp,
  (k + 1 <= length mp)%nat -> (k <= length cities)%nat ->
  let r := foldl (fun mp i => <[(i + 1)%nat := default 0 (cities !! i)]> mp)
                 mp (seq 0 k) in
  length r = length mp /\ r !! 0%nat = mp !! 0%nat /\
  take k (drop 1 r) = take k cities.
Proof.
  induction k as [|k IH]; intros mp Hmp Hc; cbv zeta.
  - simpl. by rewrite !take_0.
  - rewrite seq_S, foldl_snoc. cbn [Nat.add].
    destruct (IH mp ltac:(lia) ltac:(lia)) as (L & H0 & Ht).
    rewrite length_insert. split; [done|].
    split; [by rewrite list_lookup_insert_ne by lia|].
    rewrite drop_insert_ge by lia.
    replace (k + 1 - 1)%nat with k by lia.
    rewrite take_S_insert, Ht, length_drop, L.
    destruct (decide _) as [_ | ?]; [|lia].
    destruct (lookup_lt_is_Some_2 cities k ltac:(lia)) as [x Hx].
    rewrite Hx. simpl. by rewrite (take_S_r _ _ x).
Qed.

Lemma record_path_spec (cities mp : list Z) :
  length mp = (MAX_CITIES + 1)%nat -> (n g - 1 <= length cities)%nat ->
  length (record_path (n g) cities mp) = (MAX_CITIES + 1)%nat /\
  record_path (n g) cities mp !! 0%nat = Some 0 /\
  record_path (n g) cities mp !! n g = Some 0 /\
  take (n g - 1) (drop 1 (record_path (n g) cities mp))
  = take (n g - 1) cities.
Proof.
  intros Lmp Hc. unfold record_path.
  destruct (record_loop cities (n g - 1) (<[0%nat := 0]> mp))
    as (L & H0 & Ht); [rewrite length_insert; lia | done |].
  set (r := foldl _ _ _) in *.
  rewrite length_insert in L.
  rewrite list_lookup_insert_eq in H0 by lia.
  rewrite length_insert. split; [by rewrite L|].
  split.
  { destruct (decide (n g = 0)%nat) as [E | ?].
    - rewrite E. apply list_lookup_insert_eq. lia.
    - by rewrite list_lookup_insert_ne by lia. }
  split; [apply list_lookup_insert_eq; lia|].
  destruct (decide (n g = 0)%nat) as [E | ?].
  - rewrite E. simpl. by rewrite !take_0.
  - rewrite drop_insert_ge by lia. by rewrite take_insert_ge by lia.
Qed.

(** The [do ... while] loop ends, and when it has ended every tour has been
    looked at. *)
Lemma tsp_brute_force_loop_spec : forall fuel cities mc mp perms,
  length cities = MAX_CITIES -> take (n g - 1) cities ≡ₚ cities_ids ->
  length mp = (MAX_CITIES + 1)%nat -> mc <= INF ->
  (mc = INF \/
   (mp !! 0%nat = Some 0 /\ mp !! n g = Some 0 /\
    take (n g - 1) (drop 1 mp) ≡ₚ cities_ids /\
    mc = cities_cost g (take (n g - 1) (drop 1 mp)))) ->
  (forall q, q ≡ₚ cities_ids -> lex_lt q (take (n g - 1) cities) ->
             mc <= cities_cost g q) ->
  Z.of_nat (n g) ^ Z.of_nat (n g - 1)
  - value (Z.of_nat (n g)) (take (n g - 1) cities) < Z.of_nat fuel ->
  exists mc' mp' perms',
    brute_force_loop fuel g cities mc mp perms = Some (mc', mp', perms') /\
    length mp' = (MAX_CITIES + 1)%nat /\ mc' <= INF /\
    (mc' = INF \/
     (mp' !! 0%nat = Some 0 /\ mp' !! n g = Some 0 /\
      take (n g - 1) (drop 1 mp') ≡ₚ cities_ids /\
      mc' = cities_cost g (take (n g - 1) (drop 1 mp')))) /\
    forall q, q ≡ₚ cities_ids -> mc' <= cities_cost g q.
Proof.
  induction fuel as [|fuel IH];
    intros cities mc mp perms Lc Hperm Lmp Hinf Hinc Hseen Hfuel.
  { pose proof (cities_value (n g) _ Hperm). lia. }
  cbn [brute_force_loop].
  set (cost := cities_cost g cities).
  assert (Hupd : exists mc1 mp1,
             (if cost <? mc
              then (cost, record_path (n g) cities mp)
              else (mc, mp)) = (mc1, mp1) /\
             mc1 <= mc /\ mc1 <= cost /\ length mp1 = (MAX_CITIES + 1)%nat /\
             (mc1 = INF \/
              (mp1 !! 0%nat = Some 0 /\ mp1 !! n g = Some 0 /\
               take (n g - 1) (drop 1 mp1) ≡ₚ cities_ids /\
               mc1 = cities_cost g (take (n g - 1) (drop 1 mp1))))).
  { destruct (Z.ltb_spec cost mc) as [Hlt | Hge].
    - destruct (record_path_spec cities mp Lmp ltac:(lia))
        as (L & H0 & Hlast & Ht).
      exists cost, (record_path (n g) cities mp).
      split; [done|]. split; [lia|]. split; [lia|]. split; [done|]. right.
      rewrite Ht. split; [done|]. split; [done|]. split; [done|].
      by rewrite cities_cost_take by lia.
    - exists mc, mp. split; [done|]. split; [lia|]. split; [lia|]. done. }
  destruct Hupd as (mc1 & mp1 & -> & Hmc & Hcost & Lmp1 & Hinc1).
  assert (Hcur : forall q, q ≡ₚ cities_ids ->
             lex_lt q (take (n g - 1) cities) \/ q = take (n g - 1) cities ->
             mc1 <= cities_cost g q).
  { intros q Hq [Hlt | ->].
    - specialize (Hseen q Hq Hlt). lia.
    - rewrite cities_cost_take by lia. fold cost. lia. }
  destruct (next_permutation_spec cities (n g - 1) ltac:(lia))
    as (Lc' & Hperm' & _ & Hcase).
  destruct (next_permutation cities (n g - 1)) as [cities' more].
  cbn [fst snd] in *.
  assert (Htri : forall q, q ≡ₚ cities_ids ->
             lex_lt q (take (n g - 1) cities) \/ q = take (n g - 1) cities
             \/ lex_lt (take (n g - 1) cities) q).
  { intros q Hq. apply lex_lt_trichotomy. by rewrite Hq, Hperm. }
  destruct more.
  - destruct Hcase as (Hnext & Hbetween).
    apply IH; try done.
    + lia.
    + by rewrite Hperm'.
    + lia.
    + intros q Hq Hlt. apply Hcur; [done|].
      destruct (Htri q Hq) as [? | [? | Hgt]]; [by left | by right |].
      exfalso. apply (Hbetween q); [by rewrite Hq, Hperm | done | done].
    + assert (value (Z.of_nat (n g)) (take (n g - 1) cities)
              < value (Z.of_nat (n g)) (take (n g - 1) cities')).
      { destruct (lex_lt_length _ _ Hnext) as [Hne _].
        apply value_lex; [| | | | done].
        - destruct (n g); [by rewrite take_0 in Hne | lia].
        - by apply cities_range.
        - apply cities_range. by rewrite Hperm'.
        - by rewrite Hperm'. }
      lia.
  - destruct Hcase as (_ & Hlast).
    eexists _, _, _. split; [reflexivity|].
    split; [done|]. split; [lia|]. split; [done|].
    intros q Hq. apply Hcur; [done|].
    destruct (Htri q Hq) as [? | [? | Hgt]]; [by left | by right |].
    exfalso. apply (Hlast q); [by rewrite Hq, Hperm | done].
Qed.

Lemma brute_force_tsp_spec fuel junk_c junk_p junk_r :
  length junk_c = MAX_CITIES -> length junk_p = (MAX_CITIES + 1)%nat ->
  length junk_r = (MAX_CITIES + 1)%nat ->
  (n g ^ (n g - 1) + 1 <= fuel)%nat ->
  exists r,
    brute_force_tsp fuel g junk_c junk_p junk_r = Some r /\
    (forall tour, tour ≡ₚ seq 1 (n g - 1) -> res_cost r <= tour_cost g tour) /\
    res_cost r <= INF /\
    (res_cost r = INF \/
     (res_path r !! 0%nat = Some 0 /\ res_path r !! n g = Some 0 /\
      (Z.to_nat <$> take (n g - 1) (drop 1 (res_path r))) ≡ₚ seq 1 (n g - 1) /\
      res_cost r
      = tour_cost g (Z.to_nat <$> take (n g - 1) (drop 1 (res_path r))))).
Proof.
  intros Lc Lp Lr Hfuel. unfold brute_force_tsp.
  destruct (init_cities_take (n g - 1) junk_c ltac:(lia)) as (L & Ht).
  set (cities := foldl _ junk_c _) in *.
  destruct (tsp_brute_force_loop_spec fuel cities INF junk_p 0)
    as (mc & mp & perms & -> & Lmp & Hinf & Hinc & Hall); try done.
  - lia.
  - by rewrite Ht.
  - by left.
  - intros q Hq Hlt. exfalso. rewrite Ht in Hlt.
    by apply (sorted_le_first cities_ids q (ids_sorted _ _) Hq).
  - pose proof (cities_value (n g) (take (n g - 1) cities)
                  ltac:(by rewrite Ht)).
    assert (Z.of_nat (n g ^ (n g - 1)) = Z.of_nat (n g) ^ Z.of_nat (n g - 1))
      by apply Nat2Z.inj_pow.
    lia.
  - eexists. split; [reflexivity|]. cbn [res_cost res_path].
    split.
    { intros tour Htour. rewrite <- cities_cost_of_nat.
      - apply Hall. by rewrite Htour.
      - by rewrite Htour, length_seq. }
    split; [done|].
    destruct Hinc as [? | (H0 & Hlast & Hperm & Hcost)]; [by left | right].
    pose proof (copy_assignment_take (n g + 1) mp junk_r ltac:(lia) ltac:(lia))
      as Hcopy.
    unfold Assignment.copy_assignment in Hcopy.
    set (path := foldl _ junk_r _) in *.
    assert (Hcell : forall i, (i < n g + 1)%nat -> path !! i = mp !! i).
    { intros i Hi. rewrite <- (lookup_take_lt path (n g + 1)) by done.
      rewrite Hcopy. by apply lookup_take_lt. }
    assert (Htour : take (n g - 1) (drop 1 path) = take (n g - 1) (drop 1 mp)).
    { apply list_eq. intros i.
      destruct (decide (i < n g - 1)%nat) as [Hi | Hi].
      - rewrite !lookup_take_lt, !lookup_drop by done. apply Hcell. lia.
      - rewrite !lookup_take_ge by lia. done. }
    rewrite Htour, !Hcell by lia.
    split; [done|]. split; [done|].
    split; [by rewrite Hperm, to_nat_of_nat_list|].
    rewrite Hcost. rewrite cities_cost_take by (rewrite length_drop; lia).
    apply cities_cost_tour. rewrite length_drop. lia.
Qed.
End TSPBruteForce.

(** X18.  [brute_force_tsp] ends and returns the optimum.  On an instance
    on which no sum of costs can overflow an [int] ([edges_fit]): its [do]
    loop ends within [n ^ (n - 1) + 1] rounds, the [cost] it returns is at
    most the cost of every closed tour from city 0 through the cities [1..n)
    in any order, and unless it is [INT_MAX] it is the cost of the tour in
    [path], which starts and ends in city 0 and goes through every other
    city once. *)
Theorem brute_force_tsp_optimal g fuel junk_c junk_p junk_r :
  (TSP.n g <= TSP.MAX_CITIES)%nat ->
  TSP.edges_fit g = true ->
  length junk_c = TSP.MAX_CITIES ->
  length junk_p = (TSP.MAX_CITIES + 1)%nat ->
  length junk_r = (TSP.MAX_CITIES + 1)%nat ->
  (TSP.n g ^ (TSP.n g - 1) + 1 <= fuel)%nat ->
  exists r,
    TSP.brute_force_tsp fuel g junk_c junk_p junk_r = Some r /\
    (forall tour, tour ≡ₚ seq 1 (TSP.n g - 1) ->
                  TSP.res_cost r <= TSP.tour_cost g tour) /\
    (TSP.res_cost r = TSP.INF \/
     (TSP.res_path r !! 0%nat = Some 0 /\ TSP.res_path r !! TSP.n g = Some 0 /\
      (Z.to_nat <$> take (TSP.n g - 1) (drop 1 (TSP.res_path r)))
        ≡ₚ seq 1 (TSP.n g - 1) /\
      TSP.res_cost r
      = TSP.tour_cost g
          (Z.to_nat <$> take (TSP.n g - 1) (drop 1 (TSP.res_path r))))).
Proof.
  intros Hn _ Lc Lp Lr Hfuel.
  destruct (brute_force_tsp_spec g Hn fuel junk_c junk_p junk_r Lc Lp Lr Hfuel)
    as (r & Hr & Hall & _ & Hinc).
  by exists r.
Qed.

Lemma brute_force_tsp_optimal_witness :
  exists r,
    TSP.brute_force_tsp 65 TSP.four_cities
      (replicate TSP.MAX_CITIES 0) (replicate (TSP.MAX_CITIES + 1) 0)
      (replicate (TSP.MAX_CITIES + 1) 0) = Some r /\
    (forall tour, tour ≡ₚ seq 1 (TSP.n TSP.four_cities - 1) ->
                  TSP.res_cost r <= TSP.tour_cost TSP.four_cities tour) /\
    (TSP.res_cost r = TSP.INF \/
     (TSP.res_path r !! 0%nat = Some 0 /\
      TSP.res_path r !! TSP.n TSP.four_cities = Some 0 /\
      (Z.to_nat <$> take (TSP.n TSP.four_cities - 1) (drop 1 (TSP.res_path r)))
        ≡ₚ seq 1 (TSP.n TSP.four_cities - 1) /\
      TSP.res_cost r
      = TSP.tour_cost TSP.four_cities
          (Z.to_nat <$> take (TSP.n TSP.four_cities - 1)
                             (drop 1 (TSP.res_path r))))).
Proof.
  apply (brute_force_tsp_optimal TSP.four_cities 65).
  - vm_compute; lia.
  - vm_compute; reflexivity.
  - vm_compute; reflexivity.
  - vm_compute; reflexivity.
  - vm_compute; reflexivity.
  - vm_compute; lia.
Defined.

(** X19.  Branch and bound never reports less than the optimum.  On an
    instance on which no sum of costs can overflow an [int] ([edges_fit]):
    when [solve_tsp] has ended, in a run that keeps the queue within its
    array, its [best_cost] is at least the [cost] that [brute_force_tsp]
    returns, and that cost is at most the cost of every closed tour from
    city 0 through the cities [1..n) in any order. *)
Theorem solve_tsp_not_below_brute_force
  g junk fuel r junk_c junk_p junk_r fuel' b :
  (TSP.n g <= TSP.MAX_CITIES)%nat ->
  TSP.edges_fit g = true ->
  length junk = TSP.MAX_CITIES ->
  length (TSP.best_path g) = (TSP.MAX_CITIES + 1)%nat ->
  length junk_c = TSP.MAX_CITIES ->
  length junk_p = (TSP.MAX_CITIES + 1)%nat ->
  length junk_r = (TSP.MAX_CITIES + 1)%nat ->
  queue_fits TSP.step (fun s => length s.2) TSP.QUEUE_CAPACITY
             (TSP.solve_init g junk) ->
  (TSP.n g ^ (TSP.n g - 1) + 1 <= fuel')%nat ->
  TSP.solve_tsp fuel g junk = Some r ->
  TSP.brute_force_tsp fuel' g junk_c junk_p junk_r = Some b ->
  TSP.res_cost b <= TSP.best_cost r /\
  forall tour, tour ≡ₚ seq 1 (TSP.n g - 1) ->
               TSP.res_cost b <= TSP.tour_cost g tour.
Proof.
  intros Hn _ Lj Lbest Lc Lp Lr _ Hfuel Hr Hb.
  destruct (brute_force_tsp_spec g Hn fuel' junk_c junk_p junk_r Lc Lp Lr Hfuel)
    as (b' & Hb' & Hall & Hinf & _).
  rewrite Hb in Hb'. injection Hb' as <-.
  split; [|exact Hall].
  destruct (tsp_search_tour g fuel _ r Hn (tsp_solve_init_tour g junk Lj Lbest) Hr)
    as (_ & [-> | (Hperm & H0 & _ & ->)]); [done|].
  apply Hall.
  destruct (TSP.n g) as [|k]; [by rewrite take_0|].
  destruct (TSP.best_path r) as [|x bp]; [done|].
  injection H0 as ->. simpl in Hperm |- *.
  rewrite Nat.sub_0_r, drop_0.
  by apply Permutation_cons_inv in Hperm.
Qed.

Lemma solve_tsp_not_below_brute_force_witness :
  exists r b,
    TSP.solve_tsp 100 TSP.four_cities (replicate TSP.MAX_CITIES 0%nat) = Some r /\
    TSP.brute_force_tsp 65 TSP.four_cities
      (replicate TSP.MAX_CITIES 0) (replicate (TSP.MAX_CITIES + 1) 0)
      (replicate (TSP.MAX_CITIES + 1) 0) = Some b /\
    TSP.res_cost b <= TSP.best_cost r /\
    forall tour, tour ≡ₚ seq 1 (TSP.n TSP.four_cities - 1) ->
                 TSP.res_cost b <= TSP.tour_cost TSP.four_cities tour.
Proof.
  eexists _, _. split; [vm_compute; reflexivity|].
  split; [vm_compute; reflexivity|].
  apply (solve_tsp_not_below_brute_force TSP.four_cities
           (replicate TSP.MAX_CITIES 0%nat) 100 _
           (replicate TSP.MAX_CITIES 0) (replicate (TSP.MAX_CITIES + 1) 0)
           (replicate (TSP.MAX_CITIES + 1) 0) 65).
  - vm_compute; lia.
  - vm_compute; reflexivity.
  - vm_compute; reflexivity.
  - vm_compute; reflexivity.
  - vm_compute; reflexivity.
  - vm_compute; reflexivity.
  - vm_compute; reflexivity.
  - apply (queue_fits_run_sound _ _ _ 100). vm_compute; reflexivity.
  - vm_compute; lia.
  - vm_compute; reflexivity.
  - vm_compute; reflexivity.
Defined.

(** ** FacilityLocation.c: the search loop *)

Section FacilitySearch.
Context {D : Type} `{Double D}.
Import Facility.
Local Open Scope nat_scope.

Lemma fac_work_push (g : Globals D) pq nd :
  work g (pq_push pq nd) = 3 ^ (num_facilities g + 1 - level nd) + work g pq.
Proof. unfold work, pq_push. by rewrite (pq_push_perm _ pq nd). Qed.

Lemma fac_work_pop (g : Globals D) pq current pq' :
  pq_pop pq = Some (current, pq') ->
  work g pq = 3 ^ (num_facilities g + 1 - level current) + work g pq'.
Proof. intros Hpop. unfold work. by rewrite (pq_pop_perm _ _ _ _ _ Hpop). Qed.

Lemma fac_work_offer (g : Globals D) s nd :
  work g (offer s nd).2 <= 3 ^ (num_facilities g + 1 - level nd) + work g s.2.
Proof.
  unfold offer. destruct (d_lt _ _); simpl; [by rewrite fac_work_push | lia].
Qed.

Lemma fac_offer_globals (s : Globals D * PriorityQueue D) nd :
  facility_costs (offer s nd).1 = facility_costs s.1 /\
  service_costs (offer s nd).1 = service_costs s.1 /\
  num_facilities (offer s nd).1 = num_facilities s.1 /\
  num_customers (offer s nd).1 = num_customers s.1 /\
  best_solution (offer s nd).1 = best_solution s.1 /\
  best_cost (offer s nd).1 = best_cost s.1.
Proof. unfold offer. by destruct (d_lt _ _). Qed.

Lemma fac_offer_levels (P : FacilityNode D -> Prop) s nd :
  Forall P s.2 -> P nd -> Forall P (offer s nd).2.
Proof.
  intros Hq Hnd. unfold offer. destruct (d_lt _ _); simpl; [|done].
  unfold pq_push. rewrite (pq_push_perm _ s.2 nd). by constructor.
Qed.

(** The search keeps the size of the instance, and no node lies below
    the last facility. *)
Lemma fac_visit_levels (g0 g : Globals D) current (pq : PriorityQueue D) junk :
  num_facilities g = num_facilities g0 ->
  level current <= num_facilities g0 ->
  Forall (fun nd => level nd <= num_facilities g0) pq ->
  num_facilities (visit g current pq junk).1 = num_facilities g0 /\
  Forall (fun nd => level nd <= num_facilities g0) (visit g current pq junk).2.
Proof.
  intros En Hl Hq. unfold visit.
  destruct (d_le _ _); [done|].
  destruct (Nat.eqb_spec (level current) (num_facilities (explore g)))
    as [_ | Nlvl].
  - by destruct (_ && _).
  - cbn [num_facilities explore] in Nlvl.
    set (s1 := offer (explore g, pq) (open_node (explore g) current)).
    destruct (fac_offer_globals (explore g, pq) (open_node (explore g) current))
      as (_ & _ & E1 & _).
    destruct (fac_offer_globals s1 (close_node (explore g) current))
      as (_ & _ & E2 & _).
    split; [rewrite E2; unfold s1; by rewrite E1|].
    apply fac_offer_levels; [apply fac_offer_levels; [done|] |];
      cbn [open_node close_node set_costs level]; lia.
Qed.

Lemma fac_work_visit (g0 g : Globals D) current (pq : PriorityQueue D) junk :
  num_facilities g = num_facilities g0 ->
  level current <= num_facilities g0 ->
  work g0 (visit g current pq junk).2
  < 3 ^ (num_facilities g0 + 1 - level current) + work g0 pq.
Proof.
  intros En Hl.
  pose proof (Nat.pow_nonzero 3 (num_facilities g0 + 1 - level current)
                ltac:(lia)).
  unfold visit. destruct (d_le _ _); [simpl; lia|].
  destruct (Nat.eqb_spec (level current) (num_facilities (explore g)))
    as [_ | Nlvl]; [simpl; lia|].
  cbn [num_facilities explore] in Nlvl.
  assert (Hk : num_facilities g0 + 1 - level current
               = (num_facilities g0 - level current) + 1) by lia.
  pose proof (pow3_step (num_facilities g0 - level current)) as H3.
  rewrite <- Hk in H3.
  set (s1 := offer (explore g, pq) (open_node (explore g) current)).
  pose proof (fac_work_offer g0 (explore g, pq) (open_node (explore g) current))
    as W1.
  pose proof (fac_work_offer g0 s1 (close_node (explore g) current)) as W2.
  fold s1 in W1.
  replace (num_facilities g0 + 1 - level (open_node (explore g) current))
    with (num_facilities g0 - level current) in W1
    by (cbn [open_node set_costs level]; lia).
  replace (num_facilities g0 + 1 - level (close_node (explore g) current))
    with (num_facilities g0 - level current) in W2
    by (cbn [close_node set_costs level]; lia).
  cbn [snd] in W1. lia.
Qed.

Lemma fac_search_ends (g0 : Globals D) junks fuel :
  forall s : Globals D * PriorityQueue D,
  num_facilities s.1 = num_facilities g0 ->
  Forall (fun nd => level nd <= num_facilities g0) s.2 ->
  work g0 s.2 < fuel -> is_Some (search fuel junks s).
Proof.
  induction fuel as [|fuel IH]; intros s En Hq Hw; [lia|]. simpl.
  destruct (step junks s) as [s'|] eqn:E; [|done].
  unfold step in E.
  destruct (pq_pop s.2) as [[current pq]|] eqn:Hpop; [|done].
  injection E as <-.
  pose proof (pq_pop_perm _ _ _ _ _ Hpop) as Hperm.
  rewrite Hperm in Hq. apply Forall_cons_1 in Hq as [Hcur Hq].
  destruct (fac_visit_levels g0 s.1 current pq (junks (nodes_explored s.1))
              En Hcur Hq) as (En' & Hq').
  apply IH; [done | done |].
  pose proof (fac_work_visit g0 s.1 current pq (junks (nodes_explored s.1))
                En Hcur).
  rewrite (fac_work_pop g0 _ _ _ Hpop) in Hw. lia.
Qed.

Lemma fac_search_more_fuel junks fuel k : forall (s : Globals D * PriorityQueue D) r,
  search fuel junks s = Some r -> search (fuel + k) junks s = Some r.
Proof.
  induction fuel as [|fuel IH]; intros s r; simpl; [done|].
  destruct (step junks s) as [s'|]; [apply IH | done].
Qed.

Lemma solve_facility_location_ends (g : Globals D) junk_open junk junks :
  is_Some (solve_facility_location (3 ^ (num_facilities g + 1) + 1) g
                                   junk_open junk junks).
Proof.
  unfold solve_facility_location.
  apply (fac_search_ends g).
  - unfold solve_init. by destruct (d_ne _ _).
  - unfold solve_init. cbn [snd]. unfold pq_push.
    rewrite (pq_push_perm _ pq_init _). repeat constructor.
    unfold root_node. cbn [level]. lia.
  - unfold solve_init. cbn [snd]. rewrite fac_work_push.
    unfold root_node. cbn [level]. unfold work, pq_init, Heap.pq_init. simpl.
    rewrite Nat.sub_0_r. lia.
Qed.

(** The incumbent keeps its meaning. *)
Lemma fac_visit_incumbent (g : Globals D) current (pq : PriorityQueue D) junk :
  d_eq (d_max : D) d_max = true ->
  incumbent_ok g -> incumbent_ok (visit g current pq junk).1.
Proof.
  intros Hirr Hinc. unfold visit.
  assert (Hexp : incumbent_ok (explore g)) by done.
  destruct (d_le _ _); [done|].
  destruct (Nat.eqb_spec (level current) (num_facilities (explore g)))
    as [_ | _].
  - destruct (d_ne _ d_max) eqn:Hne; cbn [andb fst]; [|done].
    destruct (d_lt _ _); [|done].
    right. cbn [record_best best_cost best_solution]. split; [done|].
    by apply construct_solution_feasible.
  - destruct (fac_offer_globals (explore g, pq) (open_node (explore g) current))
      as (_ & _ & _ & _ & Es1 & Ec1).
    destruct (fac_offer_globals
                (offer (explore g, pq) (open_node (explore g) current))
                (close_node (explore g) current))
      as (_ & _ & _ & _ & Es2 & Ec2).
    unfold incumbent_ok. rewrite Es2, Ec2, Es1, Ec1. done.
Qed.

Lemma fac_search_incumbent junks fuel : forall (s : Globals D * PriorityQueue D) r,
  d_eq (d_max : D) d_max = true ->
  incumbent_ok s.1 -> search fuel junks s = Some r -> incumbent_ok r.
Proof.
  induction fuel as [|fuel IH]; intros s r Hirr Hinc; simpl; [done|].
  destruct (step junks s) as [s'|] eqn:E; [|by intros [= <-]].
  unfold step in E. destruct (pq_pop s.2) as [[current pq]|]; [|done].
  injection E as <-.
  apply IH; [done|]. by apply fac_visit_incumbent.
Qed.

Lemma fac_solve_init_incumbent (g : Globals D) junk_open junk :
  d_eq (d_max : D) d_max = true ->
  incumbent_ok (solve_init g junk_open junk).1.
Proof.
  intros Hirr. pose proof (facility_setup g junk_open junk Hirr) as Hset.
  cbv zeta in Hset. unfold incumbent_ok.
  destruct (d_ne _ d_max).
  - destruct Hset as (-> & -> & _ & ?). by right.
  - destruct Hset as (-> & _). by left.
Qed.
End FacilitySearch.

Section FacilitySearchExact.
Import Facility.

(** In exact arithmetic no round lets [best_cost] go up. *)
Lemma fac_visit_best_cost (g : Globals Q) current (pq : PriorityQueue Q) junk :
  (best_cost (visit g current pq junk).1 <= best_cost g)%Q.
Proof.
  unfold visit. destruct (d_le _ _); [apply Qle_refl|].
  destruct (Nat.eqb_spec (level current) (num_facilities (explore g)))
    as [_ | _].
  - destruct (d_ne _ d_max); cbn [andb fst]; [|apply Qle_refl].
    destruct (d_lt _ _) eqn:Hlt; [|apply Qle_refl].
    apply d_lt_Q in Hlt. cbn [record_best best_cost explore] in *.
    by apply Qlt_le_weak.
  - destruct (fac_offer_globals (explore g, pq) (open_node (explore g) current))
      as (_ & _ & _ & _ & _ & Ec1).
    destruct (fac_offer_globals
                (offer (explore g, pq) (open_node (explore g) current))
                (close_node (explore g) current))
      as (_ & _ & _ & _ & _ & Ec2).
    rewrite Ec2, Ec1. apply Qle_refl.
Qed.

Lemma fac_search_best_cost junks fuel : forall (s : Globals Q * PriorityQueue Q) r,
  search fuel junks s = Some r -> (best_cost r <= best_cost s.1)%Q.
Proof.
  induction fuel as [|fuel IH]; intros s r; simpl; [done|].
  destruct (step junks s) as [s'|] eqn:E; [|intros [= <-]; apply Qle_refl].
  unfold step in E. destruct (pq_pop s.2) as [[current pq]|]; [|done].
  injection E as <-.
  intros Hr. eapply Qle_trans; [exact (IH _ r Hr)|].
  apply fac_visit_best_cost.
Qed.
End FacilitySearchExact.

(** X20.  [solve_facility_location] ends, in any arithmetic of [double]: in
    a run that keeps the queue within its array the [while] loop runs fewer
    than [3 ^ (num_facilities + 1) + 1] rounds, whatever the costs and the
    uninitialised memory hold, and the globals it leaves do not depend on
    the fuel of the model. *)
Theorem solve_facility_location_terminates
  (D : Type) (HD : Double D) (g : Facility.Globals D) junk_open junk junks :
  (Facility.num_facilities g <= Facility.MAX_FACILITIES)%nat ->
  (Facility.num_customers g <= Facility.MAX_CUSTOMERS)%nat ->
  queue_fits (Facility.step junks) (fun s => length s.2) Facility.QUEUE_CAPACITY
             (Facility.solve_init g junk_open junk) ->
  exists r,
    forall fuel,
      (3 ^ (Facility.num_facilities g + 1) + 1 <= fuel)%nat ->
      Facility.solve_facility_location fuel g junk_open junk junks = Some r.
Proof.
  intros _ _ _.
  destruct (solve_facility_location_ends g junk_open junk junks) as [r Hr].
  exists r. intros fuel Hfuel.
  replace fuel
    with ((3 ^ (Facility.num_facilities g + 1) + 1)
          + (fuel - (3 ^ (Facility.num_facilities g + 1) + 1)))%nat by lia.
  by apply fac_search_more_fuel.
Qed.

Lemma solve_facility_location_terminates_witness :
  exists r,
    forall fuel,
      (3 ^ (Facility.num_facilities Facility.test_case_1 + 1) + 1 <= fuel)%nat ->
      Facility.solve_facility_location fuel Facility.test_case_1
        (replicate Facility.MAX_FACILITIES 0)
        (Facility.best_solution Facility.test_case_1)
        (fun _ => Facility.best_solution Facility.test_case_1) = Some r.
Proof.
  apply (solve_facility_location_terminates float _ Facility.test_case_1).
  - vm_compute; lia.
  - vm_compute; lia.
  - apply (queue_fits_run_sound _ _ _ 100). vm_compute; reflexivity.
Defined.

(** X21.  What [solve_facility_location] reports is consistent: when it has
    ended, in a run that keeps the queue within its array, [best_cost] is
    [DBL_MAX] or it is the total cost of [best_solution], which is the fixed
    cost of that solution plus its service cost.  The arithmetic is any in
    which [DBL_MAX == DBL_MAX] holds. *)
Theorem solve_facility_location_incumbent
  (D : Type) (HD : Double D) (g : Facility.Globals D) junk_open junk junks fuel r :
  d_eq (d_max : D) d_max = true ->
  (Facility.num_facilities g <= Facility.MAX_FACILITIES)%nat ->
  (Facility.num_customers g <= Facility.MAX_CUSTOMERS)%nat ->
  queue_fits (Facility.step junks) (fun s => length s.2) Facility.QUEUE_CAPACITY
             (Facility.solve_init g junk_open junk) ->
  Facility.solve_facility_location fuel g junk_open junk junks = Some r ->
  Facility.best_cost r = d_max \/
  (Facility.best_cost r = Facility.sol_total_cost (Facility.best_solution r) /\
   Facility.sol_total_cost (Facility.best_solution r)
   = d_add (Facility.sol_fixed_cost (Facility.best_solution r))
           (Facility.sol_service_cost (Facility.best_solution r))).
Proof.
  intros Hirr _ _ _ Hr.
  apply (fac_search_incumbent junks fuel (Facility.solve_init g junk_open junk) r);
    [done | by apply fac_solve_init_incumbent | done].
Qed.

Lemma solve_facility_location_incumbent_witness :
  exists r,
    Facility.solve_facility_location 100 Facility.test_case_1
      (replicate Facility.MAX_FACILITIES 0)
      (Facility.best_solution Facility.test_case_1)
      (fun _ => Facility.best_solution Facility.test_case_1) = Some r /\
    (Facility.best_cost r = d_max \/
     (Facility.best_cost r = Facility.sol_total_cost (Facility.best_solution r) /\
      Facility.sol_total_cost (Facility.best_solution r)
      = d_add (Facility.sol_fixed_cost (Facility.best_solution r))
              (Facility.sol_service_cost (Facility.best_solution r)))).
Proof.
  eexists. split; [vm_compute; reflexivity|].
  apply (solve_facility_location_incumbent float _ Facility.test_case_1
           (replicate Facility.MAX_FACILITIES 0)
           (Facility.best_solution Facility.test_case_1)
           (fun _ => Facility.best_solution Facility.test_case_1) 100).
  - vm_compute; reflexivity.
  - vm_compute; lia.
  - vm_compute; lia.
  - apply (queue_fits_run_sound _ _ _ 100). vm_compute; reflexivity.
  - vm_compute; reflexivity.
Defined.

(** X22.  In exact arithmetic branch and bound is never worse than the
    greedy heuristic it starts from: when [solve_facility_location] has
    ended, in a run that keeps the queue within its array, and the greedy
    solution was taken as the first incumbent, [best_cost] is at most the
    total cost of the greedy solution. *)
Theorem solve_facility_location_not_worse_than_greedy
  (g : Facility.Globals Q) junk_open junk junks fuel r :
  (Facility.num_facilities g <= Facility.MAX_FACILITIES)%nat ->
  (Facility.num_customers g <= Facility.MAX_CUSTOMERS)%nat ->
  queue_fits (Facility.step junks) (fun s => length s.2) Facility.QUEUE_CAPACITY
             (Facility.solve_init g junk_open junk) ->
  Facility.solve_facility_location fuel g junk_open junk junks = Some r ->
  d_ne (Facility.sol_total_cost (Facility.greedy_heuristic g junk_open junk)) d_max
  = true ->
  (Facility.best_cost r
   <= Facility.sol_total_cost (Facility.greedy_heuristic g junk_open junk))%Q.
Proof.
  intros _ _ _ Hr Hne.
  pose proof (fac_search_best_cost junks fuel _ r Hr) as Hle.
  unfold Facility.solve_init in Hle. rewrite Hne in Hle. exact Hle.
Qed.

Lemma solve_facility_location_not_worse_than_greedy_witness :
  let g : Facility.Globals Q :=
    Facility.mkGlobals [50; 60]%Q [[4; 9]; [7; 3]]%Q 2 2
      (Facility.mkSolution (replicate Facility.MAX_FACILITIES 0)
                           (replicate Facility.MAX_CUSTOMERS 0) 0%Q 0%Q 0%Q)
      0%Q 0 0 in
  let junk := Facility.best_solution g in
  exists r,
    Facility.solve_facility_location 100 g (replicate Facility.MAX_FACILITIES 0)
      junk (fun _ => junk) = Some r /\
    (Facility.best_cost r
     <= Facility.sol_total_cost
          (Facility.greedy_heuristic g (replicate Facility.MAX_FACILITIES 0%Z)
                                     junk))%Q.
Proof.
  intros g junk.
  eexists. split; [vm_compute; reflexivity|].
  apply (solve_facility_location_not_worse_than_greedy g
           (replicate Facility.MAX_FACILITIES 0) junk (fun _ => junk) 100).
  - vm_compute; lia.
  - vm_compute; lia.
  - apply (queue_fits_run_sound _ _ _ 100). vm_compute; reflexivity.
  - vm_compute; reflexivity.
  - vm_compute; reflexivity.
Defined.

(** ** FacilityLocation.c: the greedy start *)

Section FacilityGreedyOpen.
Context {D : Type} `{Double D}.
Import Facility.

Lemma flag_replicate k i : flag (replicate k 0) i = false.
Proof.
  unfold flag. destruct (replicate k 0 !! i) as [x|] eqn:E; [|done].
  apply lookup_replicate in E as [-> _]. done.
Qed.

(** Opening a facility closes none. *)
Lemma flag_insert_keep (a : list Z) k i :
  flag a i = true -> flag (<[k := 1]> a) i = true.
Proof.
  unfold flag. intros Hi. destruct (decide (i = k)) as [-> | Hne].
  - destruct (decide (k < length a)%nat).
    + by rewrite list_lookup_insert_eq by lia.
    + by rewrite list_insert_ge by lia.
  - by rewrite list_lookup_insert_ne by done.
Qed.

Lemma greedy_loop_keeps_open (g : Globals D) i : forall fuel fo cs tc,
  flag fo i = true -> flag (greedy_loop fuel g fo cs tc).1.1 i = true.
Proof.
  induction fuel as [|fuel IH]; intros fo cs tc Hi; simpl; [done|].
  destruct (best_candidate g fo cs) as [bi bf].
  destruct (_ || _); [done|].
  destruct (foldl _ _ _) as [cs' tc'].
  apply IH. by apply flag_insert_keep.
Qed.

Lemma ensure_served_keeps_open (g : Globals D) cs i l :
  forall acc : list Z * D,
  flag acc.1 i = true -> flag (foldl (ensure_served g cs) acc l).1 i = true.
Proof.
  induction l as [|j l IH]; intros [fo tc] Hi; simpl; [done|].
  apply IH. destruct (negb (flag cs j)); [|done].
  destruct (foldl _ _ _) as [m cf].
  destruct (_ && _); [|done]. by apply flag_insert_keep.
Qed.

(** The loop of [greedy_heuristic] that fills [greedy_node.facility_open]. *)
Lemma greedy_copy_flags (g : Globals D) (fo : list Z) : forall k junk_open,
  (k <= length junk_open)%nat ->
  let r := foldl (fun (acc : list Z * D) i =>
                    (<[i := default 0 (fo !! i)]> acc.1,
                     if flag fo i then d_add acc.2 (fcost g i) else acc.2))
                 (junk_open, zero) (seq 0 k) in
  length r.1 = length junk_open /\
  forall i, (i < k)%nat -> flag r.1 i = flag fo i.
Proof.
  induction k as [|k IH]; intros junk_open Hk; cbv zeta.
  - simpl. split; [done|]. intros; lia.
  - rewrite seq_S, foldl_snoc. cbn [Nat.add].
    destruct (IH junk_open ltac:(lia)) as (L & Hflags).
    destruct (foldl _ _ (seq 0 k)) as [o f]. cbn [fst snd] in *.
    rewrite length_insert. split; [done|].
    intros i Hi. unfold flag. destruct (decide (i = k)) as [-> | Hne].
    + by rewrite list_lookup_insert_eq by lia.
    + rewrite list_lookup_insert_ne by done. apply Hflags. lia.
Qed.

(** A facility that the [while (1)] loop has opened is open in the node
    that [greedy_heuristic] hands to [construct_solution]. *)
Lemma greedy_node_open (g : Globals D) junk_open i :
  (num_facilities g <= length junk_open)%nat -> (i < num_facilities g)%nat ->
  flag (greedy_loop (num_facilities g + 1) g
          (replicate MAX_FACILITIES 0) (replicate MAX_CUSTOMERS 0) zero).1.1 i
  = true ->
  flag (facility_open (greedy_node g junk_open)) i = true.
Proof.
  intros Hlen Hi Hopen. unfold greedy_node.
  destruct (greedy_loop _ _ _ _ _) as [[fo cs] tc]. cbn [fst snd] in Hopen.
  pose proof (ensure_served_keeps_open g cs i (seq 0 (num_customers g))
                (fo, tc) Hopen) as Hopen'.
  destruct (foldl (ensure_served g cs) _ _) as [fo' tc'].
  cbn [fst snd] in Hopen'.
  destruct (greedy_copy_flags g fo' (num_facilities g) junk_open Hlen)
    as (_ & Hflags).
  destruct (foldl _ (junk_open, zero) _) as [open fixed].
  cbn [fst snd facility_open] in *. by rewrite Hflags.
Qed.
End FacilityGreedyOpen.

Lemma Qsum_step (a f c limit : Q) :
  (0 <= f <= a * limit -> 0 <= c <= limit -> 0 <= f + c <= (a + 1) * limit)%Q.
Proof.
  intros Hf Hc. assert (E : ((a + 1) * limit == a * limit + limit)%Q) by ring.
  rewrite E. set (x := (a * limit)%Q) in *. lra.
Qed.

Lemma Qsum_skip (a f limit : Q) :
  (0 <= limit -> 0 <= f <= a * limit -> 0 <= f <= (a + 1) * limit)%Q.
Proof.
  intros Hl Hf. assert (E : ((a + 1) * limit == a * limit + limit)%Q) by ring.
  rewrite E. set (x := (a * limit)%Q) in *. lra.
Qed.

Section FacilitySeed.
Import Facility.
Local Open Scope Q_scope.

Variable g : Globals Q.
Variable limit : Q.
Hypothesis Hnf : (1 <= num_facilities g <= MAX_FACILITIES)%nat.
Hypothesis Hnc : (1 <= num_customers g <= MAX_CUSTOMERS)%nat.
Hypothesis Hcosts : costs_within g limit = true.
Hypothesis Hlimit :
  inject_Z (Z.of_nat (num_facilities g + num_customers g)) * limit < d_max.

Lemma fcost_within i : (i < num_facilities g)%nat -> 0 <= fcost g i <= limit.
Proof.
  intros Hi. unfold costs_within in Hcosts.
  rewrite forallb_forall in Hcosts.
  specialize (Hcosts i ltac:(apply in_seq; lia)).
  apply andb_true_iff in Hcosts as [Hf _].
  apply andb_true_iff in Hf as [H0 H1].
  by apply Qle_bool_iff in H0, H1.
Qed.

Lemma scost_within i j :
  (i < num_facilities g)%nat -> (j < num_customers g)%nat ->
  0 <= scost g i j <= limit.
Proof.
  intros Hi Hj. unfold costs_within in Hcosts.
  rewrite forallb_forall in Hcosts.
  specialize (Hcosts i ltac:(apply in_seq; lia)).
  apply andb_true_iff in Hcosts as [_ Hs].
  rewrite forallb_forall in Hs.
  specialize (Hs j ltac:(apply in_seq; lia)).
  apply andb_true_iff in Hs as [H0 H1].
  by apply Qle_bool_iff in H0, H1.
Qed.

Lemma limit_nonneg : 0 <= limit.
Proof. pose proof (fcost_within 0%nat ltac:(lia)). lra. Qed.

Lemma inject_nat_S k : inject_Z (Z.of_nat (S k)) == inject_Z (Z.of_nat k) + 1.
Proof. rewrite Nat2Z.inj_succ, <- Z.add_1_r, inject_Z_plus. reflexivity. Qed.

Lemma inject_nat_le k k' : (k <= k')%nat -> inject_Z (Z.of_nat k) <= inject_Z (Z.of_nat k').
Proof. intros Hk. rewrite <- Zle_Qle. lia. Qed.

Lemma limit_below_max : limit < d_max.
Proof.
  pose proof limit_nonneg as H0.
  pose proof (inject_nat_le 1 (num_facilities g + num_customers g) ltac:(lia))
    as H1.
  change (inject_Z (Z.of_nat 1)) with 1 in H1.
  pose proof (Qmult_le_compat_r _ _ limit H1 H0) as H2.
  set (x := inject_Z _ * limit) in *. lra.
Qed.

(** With no customer served yet, opening facility [i] counts as an
    improvement of [DBL_MAX - facility_costs[i]]. *)
Lemma first_improvement_loop (f : Q) : forall k,
  foldl (fun improvement (j : nat) =>
           d_add improvement
                 (d_div d_max (d_of_int (Z.of_nat (num_customers g)))))
        f (seq 0 k)
  == f + inject_Z (Z.of_nat k)
         * (d_max / inject_Z (Z.of_nat (num_customers g))).
Proof.
  induction k as [|k IH].
  - simpl. ring.
  - rewrite seq_S, foldl_snoc. cbn [d_add d_div d_of_int Double_Q].
    rewrite Qred_correct, Qred_correct, inject_nat_S.
    cbn [d_add d_div d_of_int Double_Q] in IH. rewrite IH. ring.
Qed.

Lemma first_improvement i :
  (i < num_facilities g)%nat ->
  0 < calculate_improvement g i (replicate MAX_FACILITIES 0%Z)
                            (replicate MAX_CUSTOMERS 0%Z).
Proof.
  intros Hi. unfold calculate_improvement.
  rewrite (foldl_pointwise _
             (fun improvement (j : nat) =>
                d_add improvement
                      (d_div d_max (d_of_int (Z.of_nat (num_customers g)))))).
  2: { intros a j. by rewrite flag_replicate. }
  rewrite first_improvement_loop. cbn [d_opp Double_Q].
  pose proof (fcost_within i Hi) as Hf. pose proof limit_below_max as Hl.
  assert (Hnz : ~ inject_Z (Z.of_nat (num_customers g)) == 0).
  { intros E. unfold Qeq in E. simpl in E. lia. }
  assert (E : inject_Z (Z.of_nat (num_customers g))
              * (d_max / inject_Z (Z.of_nat (num_customers g))) == d_max)
    by (field; exact Hnz).
  rewrite E. lra.
Qed.

(** The first round of the [while (1)] loop finds a facility to open. *)
Lemma best_candidate_first : forall k,
  (1 <= k <= num_facilities g)%nat ->
  let r := foldl (fun (acc : Q * Z) i =>
                    if negb (flag (replicate MAX_FACILITIES 0%Z) i) then
                      let improvement :=
                        calculate_improvement g i (replicate MAX_FACILITIES 0%Z)
                                              (replicate MAX_CUSTOMERS 0%Z) in
                      if d_lt acc.1 improvement
                      then (improvement, Z.of_nat i) else acc
                    else acc)
                 (zero, (-1)%Z) (seq 0 k) in
  0 < r.1 /\ (0 <= r.2 < Z.of_nat k)%Z.
Proof.
  induction k as [|k IH]; intros Hk; cbv zeta; [lia|].
  rewrite seq_S, foldl_snoc. cbn [Nat.add].
  rewrite flag_replicate. cbn [negb].
  pose proof (first_improvement k ltac:(lia)) as Himp.
  destruct (decide (k = 0)%nat) as [-> | Hne].
  - cbn [seq foldl fst].
    assert (E : d_lt (zero : Q) (calculate_improvement g 0
                 (replicate MAX_FACILITIES 0%Z) (replicate MAX_CUSTOMERS 0%Z)) = true)
      by (by apply d_lt_Q).
    rewrite E. cbn [fst snd]. split; [done | lia].
  - destruct (IH ltac:(lia)) as (Hpos & Hrange).
    destruct (foldl _ _ (seq 0 k)) as [a z]. cbn [fst snd] in *.
    destruct (d_lt a _) eqn:E; cbn [fst snd].
    + split; [done | lia].
    + split; [done | lia].
Qed.

Lemma best_candidate_opens :
  0 < (best_candidate g (replicate MAX_FACILITIES 0%Z)
                      (replicate MAX_CUSTOMERS 0%Z)).1 /\
  (0 <= (best_candidate g (replicate MAX_FACILITIES 0%Z)
                        (replicate MAX_CUSTOMERS 0%Z)).2
   < Z.of_nat (num_facilities g))%Z.
Proof. apply (best_candidate_first (num_facilities g)). lia. Qed.

Lemma greedy_loop_opens :
  exists i, (i < num_facilities g)%nat /\
    flag (greedy_loop (num_facilities g + 1) g
            (replicate MAX_FACILITIES 0%Z) (replicate MAX_CUSTOMERS 0%Z) zero).1.1 i
    = true.
Proof.
  rewrite Nat.add_1_r. cbn [greedy_loop].
  pose proof best_candidate_opens as Hbest.
  destruct (best_candidate g _ _) as [bi bf]. cbn [fst snd] in Hbest.
  destruct Hbest as (Hpos & Hrange).
  replace (bf =? (-1))%Z with false
    by (symmetry; apply Z.eqb_neq; lia).
  assert (E : d_le bi (zero : Q) = false).
  { cbn [d_le Double_Q]. apply not_true_is_false. intros Hle.
    apply Qle_bool_iff in Hle. change (bi <= 0) in Hle. lra. }
  rewrite E. cbn [orb].
  destruct (foldl _ _ _) as [cs' tc'].
  exists (Z.to_nat bf). split; [lia|].
  apply greedy_loop_keeps_open. unfold flag.
  rewrite list_lookup_insert_eq; [done|].
  rewrite length_replicate. unfold MAX_FACILITIES in *. lia.
Qed.

(** The fixed costs that the first loop of [construct_solution] adds up. *)
Lemma copy_open_fixed node : forall k open,
  (k <= num_facilities g)%nat ->
  let r := foldl (copy_open g node) (open, false, zero) (seq 0 k) in
  0 <= r.2 <= inject_Z (Z.of_nat k) * limit.
Proof.
  induction k as [|k IH]; intros open Hk; cbv zeta.
  - change (0 <= 0 <= 0 * limit). lra.
  - rewrite seq_S, foldl_snoc. cbn [Nat.add].
    specialize (IH open ltac:(lia)). cbv zeta in IH.
    destruct (foldl (copy_open g node) _ (seq 0 k)) as [[o h] f].
    cbn [fst snd] in *. unfold copy_open.
    pose proof (fcost_within k ltac:(lia)) as Hf.
    pose proof limit_nonneg as Hl.
    rewrite inject_nat_S.
    destruct (flag (facility_open node) k); cbn [fst snd].
    + cbn [d_add Double_Q]. rewrite Qred_correct. by apply Qsum_step.
    + by apply Qsum_skip.
Qed.

(** The service costs that its second loop adds up, when a facility is
    open. *)
Lemma assign_customer_service (open : list Z) i0 :
  (i0 < num_facilities g)%nat -> flag open i0 = true ->
  forall k (ca : list Z),
  (k <= num_customers g)%nat ->
  let r := foldl (assign_customer g open) (ca, zero) (seq 0 k) in
  0 <= r.2 <= inject_Z (Z.of_nat k) * limit.
Proof.
  intros Hi0 Hopen0. induction k as [|k IH]; intros ca Hk; cbv zeta.
  - change (0 <= 0 <= 0 * limit). lra.
  - rewrite seq_S, foldl_snoc. cbn [Nat.add].
    specialize (IH ca ltac:(lia)). cbv zeta in IH.
    destruct (foldl (assign_customer g open) _ (seq 0 k)) as [a sv].
    cbn [fst snd] in *. unfold assign_customer.
    pose proof limit_nonneg as Hl. pose proof limit_below_max as Hm.
    rewrite inject_nat_S.
    destruct (cheapest_loop (fun i => scost g i k) (flag open)
                (num_facilities g))
      as [(_ & Hnone) | (i & Hi & Hb & -> & _)].
    + exfalso. specialize (Hnone i0 Hi0 Hopen0).
      pose proof (scost_within i0 k Hi0 ltac:(lia)). lra.
    + cbn [fst snd d_add Double_Q]. rewrite Qred_correct.
      apply Qsum_step; [done|]. apply scost_within; [done | lia].
Qed.

(** What [construct_solution] returns for a node with an open facility. *)
Lemma construct_solution_seed node junk :
  length (sol_facility_open junk) = MAX_FACILITIES ->
  length (customer_assignment junk) = MAX_CUSTOMERS ->
  (exists i, (i < num_facilities g)%nat /\ flag (facility_open node) i = true) ->
  let solution := construct_solution g node junk in
  0 <= sol_total_cost solution < d_max /\
  sol_total_cost solution
  = d_add (sol_fixed_cost solution) (sol_service_cost solution) /\
  (forall i, (i < num_facilities g)%nat ->
     flag (sol_facility_open solution) i = flag (facility_open node) i) /\
  (forall j, (j < num_customers g)%nat ->
     exists i, customer_assignment solution !! j = Some (Z.of_nat i) /\
               (i < num_facilities g)%nat /\
               flag (facility_open node) i = true).
Proof.
  intros Lo La (i0 & Hi0 & Hopen0). cbv zeta. unfold construct_solution.
  destruct (copy_open_loop g node (num_facilities g) (sol_facility_open junk)
              ltac:(lia)) as (L & Hflags & Hhas).
  pose proof (copy_open_fixed node (num_facilities g) (sol_facility_open junk)
                ltac:(lia)) as Hfixed.
  cbv zeta in Hfixed.
  destruct (foldl (copy_open g node) _ _) as [[open has] fixed].
  cbn [fst snd] in *.
  rewrite (Hhas ltac:(by exists i0)). cbn [negb].
  assert (Hopen0' : flag open i0 = true) by (by rewrite Hflags).
  destruct (assign_customer_loop g open (num_customers g)
              (customer_assignment junk, zero)) as (_ & Hcell).
  pose proof (assign_customer_service open i0 Hi0 Hopen0' (num_customers g)
                (customer_assignment junk) ltac:(lia)) as Hservice.
  cbv zeta in Hservice.
  destruct (foldl (assign_customer g open) _ _) as [assignment service].
  cbn [fst snd sol_total_cost sol_fixed_cost sol_service_cost
       sol_facility_open customer_assignment] in *.
  split; [|split; [done | split; [done|]]].
  - cbn [d_add Double_Q]. rewrite Qred_correct.
    pose proof limit_nonneg as Hl.
    assert (inject_Z (Z.of_nat (num_facilities g + num_customers g))
            == inject_Z (Z.of_nat (num_facilities g))
               + inject_Z (Z.of_nat (num_customers g))) as En
      by (by rewrite Nat2Z.inj_add, inject_Z_plus).
    rewrite En in Hlimit.
    assert (E : (inject_Z (Z.of_nat (num_facilities g))
                 + inject_Z (Z.of_nat (num_customers g))) * limit
                == inject_Z (Z.of_nat (num_facilities g)) * limit
                   + inject_Z (Z.of_nat (num_customers g)) * limit) by ring.
    rewrite E in Hlimit.
    set (x := inject_Z (Z.of_nat (num_facilities g)) * limit) in *.
    set (y := inject_Z (Z.of_nat (num_customers g)) * limit) in *. lra.
  - intros j Hj. rewrite (Hcell j Hj ltac:(lia)).
    destruct (cheapest_loop (fun i => scost g i j) (flag open)
                (num_facilities g))
      as [(_ & Hnone) | (i & Hi & Hb & -> & _)].
    + exfalso. specialize (Hnone i0 Hi0 Hopen0').
      pose proof (scost_within i0 j Hi0 Hj). pose proof limit_below_max. lra.
    + exists i. split; [done|]. split; [done|]. by rewrite <- Hflags.
Qed.

(** The incumbent of [solve_facility_location] at the first test of its
    loop is the solution of [greedy_heuristic]. *)
Lemma solve_init_seed junk_open junk :
  length junk_open = MAX_FACILITIES ->
  length (sol_facility_open junk) = MAX_FACILITIES ->
  length (customer_assignment junk) = MAX_CUSTOMERS ->
  let greedy := greedy_heuristic g junk_open junk in
  let s := solve_init g junk_open junk in
  best_solution s.1 = greedy /\
  best_cost s.1 = sol_total_cost greedy /\
  0 <= best_cost s.1 < d_max /\
  sol_total_cost greedy
  = d_add (sol_fixed_cost greedy) (sol_service_cost greedy) /\
  (exists i, (i < num_facilities g)%nat /\
             flag (sol_facility_open greedy) i = true) /\
  (forall j, (j < num_customers g)%nat ->
     exists i, customer_assignment greedy !! j = Some (Z.of_nat i) /\
               (i < num_facilities g)%nat /\
               flag (sol_facility_open greedy) i = true).
Proof.
  intros Lj Lo La greedy s.
  destruct greedy_loop_opens as (i0 & Hi0 & Hloop).
  pose proof (greedy_node_open g junk_open i0 ltac:(lia) Hi0 Hloop) as Hnode.
  destruct (construct_solution_seed (greedy_node g junk_open) junk Lo La
              ltac:(by exists i0)) as (Htotal & Hsum & Hflags & Hserved).
  fold (greedy_heuristic g junk_open junk) in Htotal, Hsum, Hflags, Hserved.
  fold greedy in Htotal, Hsum, Hflags, Hserved.
  assert (Hne : d_ne (sol_total_cost greedy) d_max = true).
  { unfold d_ne. cbn [d_eq Double_Q]. apply negb_true_iff.
    apply not_true_is_false. intros E. apply Qeq_bool_iff in E. lra. }
  unfold s, solve_init. fold greedy. rewrite Hne. cbn [fst best_solution best_cost].
  split; [done|]. split; [done|]. split; [done|]. split; [done|].
  split.
  - exists i0. split; [done|]. by rewrite Hflags.
  - intros j Hj. destruct (Hserved j Hj) as (i & Hc & Hi & Hf).
    exists i. split; [done|]. split; [done|]. by rewrite Hflags.
Qed.
End FacilitySeed.




(** ** The TSP solver on concrete instances *)

(** C9.  [solve_tsp] resets [best_cost] and the two counters at its start
    but not [best_path], which it writes only when a tour improves the
    incumbent.  With one city the root node is pruned at once (its bound is
    [INT_MAX]), no tour is recorded and [best_path] is left as it was: two
    runs on the same instance end with different decision vectors,
    [best_path[0..1] = 0, 0] in a fresh process and [0, 1] after the
    four-city run of [main]. *)
Lemma one_city_keeps_stale_path :
  exists r0 r1 r2,
    TSP.solve_tsp 14 TSP.four_cities (replicate TSP.MAX_CITIES 0%nat) = Some r0 /\
    TSP.solve_tsp 2 (TSP.one_city (TSP.best_path TSP.four_cities))
                  (replicate TSP.MAX_CITIES 0%nat) = Some r1 /\
    TSP.solve_tsp 2 (TSP.one_city (TSP.best_path r0))
                  (replicate TSP.MAX_CITIES 0%nat) = Some r2 /\
    TSP.best_cost r1 = TSP.INF /\ TSP.best_cost r2 = TSP.INF /\
    take 2 (TSP.best_path r1) = [0; 0]%nat /\
    take 2 (TSP.best_path r2) = [0; 1]%nat.
Proof.
  eexists _, _, _. split; [vm_compute; reflexivity|].
  split; [vm_compute; reflexivity|]. split; [vm_compute; reflexivity|].
  repeat split; vm_compute; reflexivity.
Qed.

(** C3 fails as stated.  After seven rounds on the four-city instance of
    [main] the node at the head of the queue is terminal, with path
    0, 1, 3, 2; its [cost] is 65, the tour 0, 1, 3, 2, 0 costs 80. *)
Lemma terminal_cost_is_not_tour_cost :
  ~ (forall k s node,
        iterate TSP.step k
          (TSP.solve_init TSP.four_cities (replicate TSP.MAX_CITIES 0%nat)) = Some s ->
        node ∈ s.2 ->
        TSP.level node = TSP.n TSP.four_cities ->
        TSP.cost node = TSP.tour_cost TSP.four_cities
                          (TSP.tour_of TSP.four_cities node)).
Proof.
  intros Hclaim.
  assert (exists s node,
    iterate TSP.step 7
      (TSP.solve_init TSP.four_cities (replicate TSP.MAX_CITIES 0%nat)) = Some s /\
    s.2 !! 0%nat = Some node /\ TSP.level node = 4%nat /\
    take 4 (TSP.path node) = [0; 1; 3; 2]%nat /\
    TSP.cost node = 65 /\
    TSP.tour_cost TSP.four_cities (TSP.tour_of TSP.four_cities node) = 80)
    as (s & node & Hs & Hnode & Hlvl & _ & Hcost & Htour).
  { eexists _, _. split; [vm_compute; reflexivity|].
    split; [vm_compute; reflexivity|]. repeat split; vm_compute; reflexivity. }
  specialize (Hclaim 7%nat s node Hs).
  rewrite Hcost, Htour in Hclaim.
  assert (65 = 80) as Habs; [|discriminate Habs].
  apply Hclaim; [|exact Hlvl].
  apply list_elem_of_lookup. by exists 0%nat.
Qed.

(** C5, on twenty cities, the most [MAX_CITIES] allows.  Nothing in
    [solve_tsp] rejects the instance.  After 641 rounds of the loop the queue
    holds 9999 nodes; round 642 pops one and pushes sixteen, so that 10014
    nodes are live, 14 of them beyond the end of [nodes[10000]]. *)
Theorem tsp_queue_overflows :
  (TSP.n TSP.star_cities <= TSP.MAX_CITIES)%nat /\
  (s ← iterate TSP.step 641
         (TSP.solve_init TSP.star_cities (replicate TSP.MAX_CITIES 0%nat));
   s' ← TSP.step s;
   Some (length s.2, length s'.2))
  = Some (9999%nat, 10014%nat).
Proof.
  split; [vm_compute; lia |].
  vm_cast_no_check (@eq_refl _ (Some (9999%nat, 10014%nat))).
Qed.
